(** * exrandom: exact sampling with lazily drawn base-b digits

    A shallow embedding of the header library [exrandom] (digit source,
    [i_rand], [u_rand], the unit exponential sampler and the discrete normal
    sampler), followed by the properties established about it.

    Conventions of the embedding.
    - [uint_t], [unsigned], [int], [long long] values are integers in [Z].
      Unsigned operations that can wrap are written with their reduction
      modulo the width; signed arithmetic is written over [Z] directly, the
      source relying on the absence of signed overflow.
    - C++ integer division and remainder truncate toward zero: [Z.quot] and
      [Z.rem].
    - A digit generator together with the word generator it wraps is seen
      through the digits it will deliver: a tape [nat -> Z] and the running
      count.
    - Unbounded [for (;;)] loops take a [fuel : nat]; running out of fuel is
      [None]. *)

From Stdlib Require Import ZArith QArith Qpower List Lia Lqa Bool Arith String Ascii.
From Stdlib Require Decimal DecimalZ.
Import ListNotations.
Local Open Scope Z_scope.

(** ** digit_arithmetic.hpp *)

Module DigitArithmetic.

(** [const uint_t uint_m = 0xffffffffUL]. *)
Definition uint_m : Z := 0xffffffff.

(** [highest_bit_idx(x) = x == 0 ? 0 : 1 + highest_bit_idx(x >> 1)]; on a
    positive binary numeral [x >> 1] removes the last constructor. *)
Fixpoint highest_bit_idx_pos (p : positive) : Z :=
  match p with
  | xH => 1
  | xO q => 1 + highest_bit_idx_pos q
  | xI q => 1 + highest_bit_idx_pos q
  end.

Definition highest_bit_idx (x : Z) : Z :=
  match x with
  | Zpos p => highest_bit_idx_pos p
  | _ => 0
  end.

Section Width.
(** [uint_w], the width of [uint_t = std::uint_fast32_t] (32 or 64 on
    the usual platforms). *)
Variable uint_w : Z.

(** [~x] and [x << s] on [uint_t]. *)
Definition uint_not (x : Z) : Z := 2 ^ uint_w - 1 - x.
Definition uint_shl (x s : Z) : Z := (x * 2 ^ s) mod 2 ^ uint_w.

(** [base = b & uint_m]. *)
Definition base (b : Z) : Z := Z.land b uint_m.

(** [basem1 = base ? base - 1UL : uint_m]. *)
Definition basem1 (b : Z) : Z :=
  if base b =? 0 then uint_m else base b - 1.

(** [bits = highest_bit_idx(unsigned(basem1))]. *)
Definition bits (b : Z) : Z := highest_bit_idx (basem1 b mod 2 ^ 32).

(** [power_of_two = basem1 == (bits == uint_w ? ~uint_t(0) :
    ~(~uint_t(0) << (bits < uint_w ? bits : 0)))]. *)
Definition power_of_two (b : Z) : bool :=
  basem1 b =?
    (if bits b =? uint_w then uint_not 0
     else uint_not (uint_shl (uint_not 0)
                      (if bits b <? uint_w then bits b else 0))).

(** [static_assert(bits != 0, "base must be 2 or more")]. *)
Definition base_ok (b : Z) : bool := negb (bits b =? 0).
End Width.

End DigitArithmetic.

(** ** rand_digit.hpp *)

Module RandDigit.
Import DigitArithmetic.

(** A word generator (a C++ UniformRandomBitGenerator): its state, the
    static bounds [min()] and [max()], and [operator()]. *)
Record Generator : Type := {
  gen_state : Type;
  gen_min : Z;
  gen_max : Z;
  gen_next : gen_state -> Z * gen_state
}.

(** The contract of a word generator: every word lies in [[min, max]]. *)
Definition gen_wf (G : Generator) : Prop :=
  forall g, gen_min G <= fst (gen_next G g) <= gen_max G.

(** The digit generator [rand_digit<b>] holds the count. *)
Record rand_digit : Type := { _count : Z }.

(** [rand_digit() : _count(0) {}]. *)
Definition construct : rand_digit := {| _count := 0 |}.

(** [long long count() const]. *)
Definition count (D : rand_digit) : Z := _count D.

Section Call.
Variable uint_w : Z.
Variable G : Generator.
(** [std::uniform_int_distribution<uint_t>] called with
    [param_type(lo, hi)]: standard library code, taken as a parameter. *)
Variable uniform_int : gen_state G -> Z -> Z -> Z * gen_state G.
Variable b : Z.

Definition min_value : Z := 0.
Definition max_value : Z := basem1 b.

(** [uint_t operator()(Generator& g)]. *)
Definition call (D : rand_digit) (g : gen_state G)
  : Z * rand_digit * gen_state G :=
  let D' := {| _count := _count D + 1 |} in
  if power_of_two uint_w b && (gen_min G =? 0) && (gen_max G =? 0xffffffff)
  then
    let (w, g') := gen_next G g in
    (Z.shiftr w (32 - bits b) mod 2 ^ uint_w, D', g')
  else if power_of_two uint_w b && (gen_min G =? 0)
          && (gen_max G =? 0xffffffffffffffff)
  then
    let (w, g') := gen_next G g in
    (Z.shiftr (Z.land w 0xffffffff) (32 - bits b) mod 2 ^ uint_w, D', g')
  else
    let (r, g') := uniform_int g min_value max_value in
    (r, D', g').

(** [n] successive calls, collecting the digits. *)
Fixpoint calls (n : nat) (D : rand_digit) (g : gen_state G)
  : list Z * rand_digit * gen_state G :=
  match n with
  | O => ([], D, g)
  | S n' =>
      let '(d, D1, g1) := call D g in
      let '(ds, D2, g2) := calls n' D1 g1 in
      (d :: ds, D2, g2)
  end.
End Call.

End RandDigit.

(** ** The digit generator as seen by the samplers *)

(** What the samplers use of a digit generator type: its static constants. *)
Record digit_traits : Type := {
  base : Z;          (* digit_gen::base, 0 standing for 2^32 *)
  max_value : Z;     (* digit_gen::max_value = bm1 *)
  bits : Z;          (* digit_gen::bits *)
  power_of_two : bool
}.

(** The constants of [rand_digit<b>]. *)
Definition rand_digit_traits (uint_w b : Z) : digit_traits :=
  {| base := DigitArithmetic.base b;
     max_value := DigitArithmetic.basem1 b;
     bits := DigitArithmetic.bits b;
     power_of_two := DigitArithmetic.power_of_two uint_w b |}.

(** The constants of [rand_table] (base 10). *)
Definition rand_table_traits : digit_traits :=
  {| base := 10; max_value := 9; bits := 4; power_of_two := false |}.

(** A digit generator [_D] applied to its word generator [g]: the digits the
    pair delivers, in order, and the count of those already delivered. *)
Record digit_gen : Type := {
  tape : nat -> Z;
  count : nat
}.

(** [_D(g)]: deliver the next digit and increment the count. *)
Definition draw (D : digit_gen) : Z * digit_gen :=
  (tape D (count D), {| tape := tape D; count := S (count D) |}).

(** Every digit of the tape lies in [[0, bm1]]. *)
Definition tape_ok (T : digit_traits) (D : digit_gen) : Prop :=
  forall i, 0 <= tape D i <= max_value T.

(** [D'] is [D] after some more draws. *)
Definition advances (D D' : digit_gen) : Prop :=
  tape D' = tape D /\ (count D <= count D')%nat.

(** A tape given by a finite prefix followed by a constant digit. *)
Definition tape_of (l : list Z) (dflt : Z) : digit_gen :=
  {| tape := fun i => nth i l dflt; count := O |}.

(** Conversion of an unsigned value to [int] (two's complement). *)
Definition int_of_uint (x : Z) : Z :=
  let y := x mod 2 ^ 32 in if y <? 2 ^ 31 then y else y - 2 ^ 32.

(** The values of [int] and of [long long]: signed arithmetic is written
    over [Z], and a result outside these ranges is an overflow of the
    source. *)
Definition int_ok (z : Z) : Prop := - 2 ^ 31 <= z <= 2 ^ 31 - 1.
Definition llong_ok (z : Z) : Prop := - 2 ^ 63 <= z <= 2 ^ 63 - 1.

(** ** i_rand.hpp *)

Module IRand.

(** [int _a, _d, _l]: the current range is [_a + [0, _d)], [_d = b^_l]. *)
Record i_rand : Type := { _a : Z; _d : Z; _l : Z }.

(** [i_rand(digit_gen& D) : _a(0), _d(1), _l(0), _D(D) {}]. *)
Definition construct : i_rand := {| _a := 0; _d := 1; _l := 0 |}.

(** Outcome of the inner loop of [init]. *)
Inductive scan : Type :=
| Found (a d l : Z)   (* [return *this] with [_a = a], [_d = d], [_l = l] *)
| Break               (* [break]: another digit is needed *)
| NoFuel.

Section Base.
Variable T : digit_traits.

(** [static const int b = digit_gen::base]. *)
Definition b : Z := int_of_uint (base T).

(** The inner loop of [init]:
    [for (long long w = v, a = c, d = 1;;) { ... }], with [_l] carried
    along. *)
Fixpoint init_scan (fuel : nat) (m w a d l : Z) : scan :=
  match fuel with
  | O => NoFuel
  | S fuel' =>
      if w >=? m then
        let j := Z.quot a m * m in
        let a1 := a - j in
        let w1 := w - j in
        if w1 >=? m then
          if a1 + d <=? m then Found a1 d l else Break
        else init_scan fuel' m (w1 * b) (a1 * b) (d * b) (l + 1)
      else init_scan fuel' m (w * b) (a * b) (d * b) (l + 1)
  end.

(** The outer loop of [init]: [for (long long v = 1, c = 0;;) { ... }]. *)
Fixpoint init_loop (fuel : nat) (m v c : Z) (D : digit_gen)
  : option (i_rand * digit_gen) :=
  match fuel with
  | O => None
  | S fuel' =>
      match init_scan fuel m v c 1 0 with
      | Found a d l => Some ({| _a := a; _d := d; _l := l |}, D)
      | Break =>
          let j := Z.quot v m * m in
          let v1 := v - j in
          let c1 := c - j in
          let (dg, D') := draw D in
          init_loop fuel' m (v1 * b) (c1 * b + dg) D'
      | NoFuel => None
      end
  end.

(** [i_rand& init(Generator& g, int m)]. *)
Definition init (fuel : nat) (D : digit_gen) (m : Z)
  : option (i_rand * digit_gen) :=
  let m := if m <=? 0 then 1 else m in
  init_loop fuel m 1 0 D.

(** [int min() const], [int max() const], [int entropy() const]. *)
Definition min (h : i_rand) : Z := _a h.
Definition max (h : i_rand) : Z := _a h + _d h - 1.
Definition entropy (h : i_rand) : Z := _l h.

(** The fields are values of [int], and so is [_a + _d], the sum that
    [max()] forms. *)
Definition int_state (h : i_rand) : Prop :=
  int_ok (_a h) /\ int_ok (_d h) /\ int_ok (_l h)
  /\ int_ok (_a h + _d h).

(** [void negate() { _a = -max(); }]. *)
Definition negate (h : i_rand) : i_rand :=
  {| _a := - max h; _d := _d h; _l := _l h |}.

(** [void add(int c) { _a += c; }]. *)
Definition add (h : i_rand) (c : Z) : i_rand :=
  {| _a := _a h + c; _d := _d h; _l := _l h |}.

(** [void refine(Generator& g)]:
    [if (_l > 0) { --_l; _d /= b; _a += _D(g) * _d; }]. *)
Definition refine (h : i_rand) (D : digit_gen) : i_rand * digit_gen :=
  if _l h >? 0 then
    let l1 := _l h - 1 in
    let d1 := Z.quot (_d h) b in
    let (dg, D') := draw D in
    ({| _a := _a h + dg * d1; _d := d1; _l := l1 |}, D')
  else (h, D).

(** [int operator()(Generator& g) { while (_l) refine(g); return _a; }]. *)
Fixpoint call (fuel : nat) (h : i_rand) (D : digit_gen)
  : option (Z * i_rand * digit_gen) :=
  match fuel with
  | O => None
  | S fuel' =>
      if _l h =? 0 then Some (_a h, h, D)
      else let (h', D') := refine h D in call fuel' h' D'
  end.

(** [bool less_than(Generator& g, long long m, long long n = 1)]. *)
Fixpoint less_than (fuel : nat) (h : i_rand) (D : digit_gen) (m n : Z)
  : option (bool * i_rand * digit_gen) :=
  match fuel with
  | O => None
  | S fuel' =>
      if n * max h <? m then Some (true, h, D)
      else if negb (n * min h <? m) then Some (false, h, D)
      else let (h', D') := refine h D in less_than fuel' h' D' m n
  end.

(** The result of a comparison, negated. *)
Definition negate_result (r : option (bool * i_rand * digit_gen))
  : option (bool * i_rand * digit_gen) :=
  match r with
  | Some (t, h, D) => Some (negb t, h, D)
  | None => None
  end.

(** [less_than_equal(g, m, n) = less_than(g, m + 1, n)]. *)
Definition less_than_equal (fuel : nat) (h : i_rand) (D : digit_gen)
  (m n : Z) : option (bool * i_rand * digit_gen) :=
  less_than fuel h D (m + 1) n.

(** [greater_than(g, m, n) = !less_than_equal(g, m, n)]. *)
Definition greater_than (fuel : nat) (h : i_rand) (D : digit_gen)
  (m n : Z) : option (bool * i_rand * digit_gen) :=
  negate_result (less_than_equal fuel h D m n).

(** [greater_than_equal(g, m, n) = !less_than(g, m, n)]. *)
Definition greater_than_equal (fuel : nat) (h : i_rand) (D : digit_gen)
  (m n : Z) : option (bool * i_rand * digit_gen) :=
  negate_result (less_than fuel h D m n).
End Base.

(** The documented invariant of the fields: [_d = b^_l], with [_l >= 0]. *)
Definition Inv (T : digit_traits) (h : i_rand) : Prop :=
  0 <= _l h /\ _d h = b T ^ _l h.

(** Operations through which an i-rand evolves once constructed: the
    state [h'] (and digit generator [D']) is what one completed call
    leaves from [h] (and [D]). The premises of a step are the ranges of
    the argument types and the conditions under which the signed
    arithmetic of the call does not overflow: [-max()] and the [max()] of
    the result for [negate], [_a + c] and the [max()] of the result for
    [add], the products [n * max()] and [n * min()] (and [m + 1]) for the
    comparisons. *)
Inductive op_step (T : digit_traits)
  : i_rand * digit_gen -> i_rand * digit_gen -> Prop :=
| step_init fuel h D m r :
    int_ok m ->
    init T fuel D m = Some r -> op_step T (h, D) r
| step_refine h D :
    op_step T (h, D) (refine T h D)
| step_negate h D :
    int_ok (- max h) -> int_ok (1 - _a h) ->
    op_step T (h, D) (negate h, D)
| step_add h D c :
    int_ok c -> int_ok (_a h + c) -> int_ok (_a h + c + _d h) ->
    op_step T (h, D) (add h c, D)
| step_call fuel h D v h' D' :
    call T fuel h D = Some (v, h', D') -> op_step T (h, D) (h', D')
| step_less_than fuel h D m n t h' D' :
    llong_ok m -> llong_ok n ->
    llong_ok (n * min h) -> llong_ok (n * max h) ->
    less_than T fuel h D m n = Some (t, h', D') ->
    op_step T (h, D) (h', D')
| step_less_than_equal fuel h D m n t h' D' :
    llong_ok m -> llong_ok (m + 1) -> llong_ok n ->
    llong_ok (n * min h) -> llong_ok (n * max h) ->
    less_than_equal T fuel h D m n = Some (t, h', D') ->
    op_step T (h, D) (h', D')
| step_greater_than fuel h D m n t h' D' :
    llong_ok m -> llong_ok (m + 1) -> llong_ok n ->
    llong_ok (n * min h) -> llong_ok (n * max h) ->
    greater_than T fuel h D m n = Some (t, h', D') ->
    op_step T (h, D) (h', D')
| step_greater_than_equal fuel h D m n t h' D' :
    llong_ok m -> llong_ok n ->
    llong_ok (n * min h) -> llong_ok (n * max h) ->
    greater_than_equal T fuel h D m n = Some (t, h', D') ->
    op_step T (h, D) (h', D').

(** States reachable from a freshly constructed i-rand, over a digit
    generator whose digits lie in [[0, max_value]]. *)
Inductive reachable (T : digit_traits) : i_rand * digit_gen -> Prop :=
| reach_construct D : tape_ok T D -> reachable T (construct, D)
| reach_step s s' : reachable T s -> op_step T s s' -> reachable T s'.

End IRand.

(** ** u_rand.hpp *)

Module URand.

(** [int _s; unsigned _n; std::vector<uint_t> _d]. *)
Record u_rand : Type := { _s : Z; _n : Z; _d : list Z }.

(** [u_rand(digit_gen& D) : _s(1), _n(0U), _D(D) {}]. *)
Definition construct : u_rand := {| _s := 1; _n := 0; _d := [] |}.

(** [u_rand& init() { _s = 1; _n = 0U; _d.clear(); return *this; }]. *)
Definition init (x : u_rand) : u_rand := {| _s := 1; _n := 0; _d := [] |}.

(** [void swap(u_rand& t)], for two distinct objects. *)
Definition swap (x t : u_rand) : u_rand * u_rand := (t, x).

Definition sign (x : u_rand) : Z := _s x.
Definition negate (x : u_rand) : u_rand :=
  {| _s := - _s x; _n := _n x; _d := _d x |}.
Definition integer (x : u_rand) : Z := _n x.
Definition set_integer (x : u_rand) (n : Z) : u_rand :=
  {| _s := _s x; _n := n; _d := _d x |}.
Definition ndigits (x : u_rand) : nat := List.length (_d x).

(** [cnt] times [_d.push_back(_D(g))]. *)
Fixpoint push_digits (cnt : nat) (ds : list Z) (D : digit_gen)
  : list Z * digit_gen :=
  match cnt with
  | O => (ds, D)
  | S cnt' => let (dg, D') := draw D in push_digits cnt' (ds ++ [dg]) D'
  end.

(** [uint_t digit(Generator& g, size_t k)]:
    [for (size_t i = ndigits(); i <= k; ++i) _d.push_back(_D(g));
     return _d[k];]. *)
Definition digit (x : u_rand) (D : digit_gen) (k : nat)
  : Z * u_rand * digit_gen :=
  let (ds, D') := push_digits (S k - ndigits x) (_d x) D in
  (nth k ds 0, {| _s := _s x; _n := _n x; _d := ds |}, D').

(** [uint_t rawdigit(size_t k) const]; the digit must already exist. *)
Definition rawdigit (x : u_rand) (k : nat) : Z := nth k (_d x) 0.

(** Assignment through [uint_t& rawdigit(size_t k)]. *)
Fixpoint set_nth (k : nat) (v : Z) (ds : list Z) : list Z :=
  match ds, k with
  | [], _ => []
  | _ :: r, O => v :: r
  | d :: r, S k' => d :: set_nth k' v r
  end.

Definition set_rawdigit (x : u_rand) (k : nat) (v : Z) : u_rand :=
  {| _s := _s x; _n := _n x; _d := set_nth k v (_d x) |}.

(** [x'] is [x] with further digits materialized. *)
Definition extends (x x' : u_rand) : Prop :=
  _s x' = _s x /\ _n x' = _n x /\ exists more, _d x' = _d x ++ more.

Section Base.
Variable T : digit_traits.

(** [static const uint_t bm1 = digit_gen::max_value]. *)
Definition bm1 : Z := max_value T.

(** The digit loop of [less_than(Generator& g, u_rand& t)]. *)
Fixpoint less_than_from (fuel k : nat) (x t : u_rand) (D : digit_gen)
  : option (bool * u_rand * u_rand * digit_gen) :=
  match fuel with
  | O => None
  | S fuel' =>
      let '(a, x1, D1) := digit x D k in
      let '(c, t1, D2) := digit t D1 k in
      if negb (a =? c)
      then Some (xorb (_s x <? 0) (a <? c), x1, t1, D2)
      else less_than_from fuel' (S k) x1 t1 D2
  end.

(** [bool less_than(Generator& g, u_rand& t)], for [t] another object
    than [*this]. *)
Definition less_than (fuel : nat) (x t : u_rand) (D : digit_gen)
  : option (bool * u_rand * u_rand * digit_gen) :=
  if negb (_s x =? _s t) then Some (_s x <? _s t, x, t, D)
  else if negb (_n x =? _n t)
       then Some (xorb (_s x <? 0) (_n x <? _n t), x, t, D)
       else less_than_from fuel 0 x t D.

(** [bool truncatep(Generator& g, size_t k)]:
    [for (;; ++k) { uint_t d = digit(g, k);
       if (d <= (bm1 - 1U) / 2U) return true;
       if (d >   bm1       / 2U) return false; }]. *)
Fixpoint truncatep (fuel : nat) (x : u_rand) (D : digit_gen) (k : nat)
  : option (bool * u_rand * digit_gen) :=
  match fuel with
  | O => None
  | S fuel' =>
      let '(d, x1, D1) := digit x D k in
      if d <=? Z.quot (bm1 - 1) 2 then Some (true, x1, D1)
      else if d >? Z.quot bm1 2 then Some (false, x1, D1)
      else truncatep fuel' x1 D1 (S k)
  end.

(** [bool less_than_half(Generator& g)]. *)
Definition less_than_half (fuel : nat) (x : u_rand) (D : digit_gen)
  : option (bool * u_rand * digit_gen) :=
  if _s x <? 0 then Some (true, x, D)
  else if _n x >? 0 then Some (false, x, D)
  else truncatep fuel x D 0.

(** The digit loop of [compare]. *)
Fixpoint compare_from (fuel k : nat) (x : u_rand) (D : digit_gen)
  (u1 u2 v : Z) : option (Z * u_rand * digit_gen) :=
  match fuel with
  | O => None
  | S fuel' =>
      if u1 >=? v then Some (- _s x, x, D)
      else if u2 <=? 0 then Some (_s x, x, D)
      else if (u1 <=? 0) && (u2 >=? v) then Some (0, x, D)
      else
        let '(d, x1, D1) := digit x D k in
        compare_from fuel' (S k) x1 D1
          (Z.max 0 (u1 * base T - d * v))
          (Z.min v (u2 * base T - d * v)) v
  end.

(** [int compare(Generator& g, long long u1, long long u2, long long v)];
    [long long lbase = base]. *)
Definition compare (fuel : nat) (x : u_rand) (D : digit_gen)
  (u1 u2 v : Z) : option (Z * u_rand * digit_gen) :=
  compare_from fuel 0 x D
    (Z.max 0 (_s x * u1 - _n x * v))
    (Z.min v (_s x * u2 - _n x * v)) v.

(** [bool less_than(Generator& g, long long u0, long long c, long long v,
    i_rand<digit_gen>& h)]. *)
Fixpoint less_than_i (fuel : nat) (x : u_rand) (D : digit_gen)
  (u0 c v : Z) (h : IRand.i_rand)
  : option (bool * u_rand * IRand.i_rand * digit_gen) :=
  match fuel with
  | O => None
  | S fuel' =>
      match compare fuel x D (u0 + IRand.min h * c)
              (u0 + IRand.max h * c) v with
      | None => None
      | Some (r, x1, D1) =>
          if r <? 0 then Some (true, x1, h, D1)
          else if r >? 0 then Some (false, x1, h, D1)
          else
            let (h1, D2) := IRand.refine T h D1 in
            less_than_i fuel' x1 D2 u0 c v h1
      end
  end.

(** [std::pair<long long, long long> rawrational(size_t k) const]. *)
Fixpoint rawrational_loop (ds : list Z) (k : nat) (num den : Z) : Z * Z :=
  match k with
  | O => (num, den)
  | S k' =>
      match ds with
      | [] => rawrational_loop [] k' (base T * num + 0) (den * base T)
      | d :: r => rawrational_loop r k' (base T * num + d) (den * base T)
      end
  end.

Definition rawrational (x : u_rand) (k : nat) : Z * Z :=
  let (num, den) := rawrational_loop (_d x) k (_n x) 1 in
  (if _s x <? 0 then - num - 1 else num, den).
End Base.

(** *** Conversion to floating point *)

(** [std::float_round_style]. *)
Inductive float_round_style : Type :=
| round_indeterminate
| round_toward_zero
| round_to_nearest
| round_toward_infinity
| round_toward_neg_infinity.

(** Values of the floating point type [RealType] are written as exact
    rationals; [real_ldexp(x, n)] is [x * 2^n]. *)
Definition real_ldexp (x : Q) (n : Z) : Q := (x * Qpower 2 n)%Q.

(** [n] times [v /= radix] on an unsigned value. *)
Fixpoint div_times (n : nat) (radix v : Z) : Z :=
  match n with
  | O => v
  | S n' => div_times n' radix (Z.quot v radix)
  end.

(** [n] times [z *= radix]. *)
Fixpoint mul_times (n : nat) (radix : Z) (z : Q) : Q :=
  match n with
  | O => z
  | S n' => mul_times n' radix (z * inject_Z radix)%Q
  end.

(** [lead = 0; while (n) { ++lead; n /= radix; }] for a 32-bit [n]: at most
    32 passes, the radix being at least 2. *)
Fixpoint count_digits (passes : nat) (radix n lead : Z) : Z :=
  match passes with
  | O => lead
  | S passes' =>
      if n =? 0 then lead
      else count_digits passes' radix (Z.quot n radix) (lead + 1)
  end.

Section Value.
Variable T : digit_traits.
(** The width of [uint_t]. *)
Variable uint_w : Z.
(** [std::numeric_limits<RealType>]: [radix], [digits], [min_exponent] and
    whether [has_denorm == std::denorm_present]. *)
Variable radix : Z.
Variable digits : Z.
Variable min_exponent : Z.
Variable has_denorm : bool.

(** [static const bool binary = radix == 2U]. *)
Definition binary : bool := radix =? 2.

(** [static const int xbits = binary ? bits : 1]. *)
Definition xbits : Z := if binary then bits T else 1.

(** [static_assert((binary && power_of_two) ||
    (radix == base && (base & 1U) == 0U), ...)]. *)
Definition value_ok : bool :=
  (binary && power_of_two T)
  || ((radix =? base T) && (Z.land (base T) 1 =? 0)).

(** [min_exp = min_exponent < -(1<<30) ? -(1<<30) : min_exponent]. *)
Definition min_exp : Z :=
  if min_exponent <? - 2 ^ 30 then - 2 ^ 30 else min_exponent.

(** [std::numeric_limits<RealType>::min()], the least positive normalized
    value, [radix^(min_exponent - 1)]. *)
Definition real_min : Q := Qpower (inject_Z radix) (min_exponent - 1).

(** [int i = 0;
    while (digit(g, size_t(i)) == 0 && i < (-min_exp)/xbits) ++i;]
    with [left] standing for [(-min_exp)/xbits - i], so that [i < ...] is
    [left <> 0]. *)
Fixpoint skip_zeros (left i : nat) (x : u_rand) (D : digit_gen)
  : nat * u_rand * digit_gen :=
  let '(d, x1, D1) := digit x D i in
  match left with
  | O => (i, x1, D1)
  | S left' =>
      if d =? 0 then skip_zeros left' (S i) x1 D1 else (i, x1, D1)
  end.

(** [while (k--) z = real_ldexp(z, -xbits) + _d[k];]. *)
Fixpoint horner_binary (k : nat) (ds : list Z) (z : Q) : Q :=
  match k with
  | O => z
  | S k' =>
      horner_binary k' ds (real_ldexp z (- xbits) + inject_Z (nth k' ds 0%Z))%Q
  end.

(** [while (k--) z = z / radix + _d[k];]. *)
Fixpoint horner_radix (k : nat) (ds : list Z) (z : Q) : Q :=
  match k with
  | O => z
  | S k' =>
      horner_radix k' ds (z / inject_Z radix + inject_Z (nth k' ds 0%Z))%Q
  end.

(** The position [lead] of the leading digit (0.5 is at position 0). *)
Definition value_lead (x : u_rand) (D : digit_gen)
  : Z * u_rand * digit_gen :=
  if negb (_n x =? 0) then
    (if binary then DigitArithmetic.highest_bit_idx (_n x)
     else count_digits 32 radix (_n x) 0, x, D)
  else
    let '(i, x1, D1) :=
      skip_zeros (Z.to_nat (Z.quot (- min_exp) xbits)) 0 x D in
    let di := nth i (_d x1) 0 in
    let lead0 :=
      (if binary then DigitArithmetic.highest_bit_idx di
       else if negb (di =? 0) then 1 else 0) in
    let lead1 := lead0 - (Z.of_nat i + 1) * xbits in
    (if lead1 >=? min_exp then lead1
     else if has_denorm then min_exp else min_exp - 1, x1, D1).

(** The rounding digit read for [std::round_to_nearest], as 0 or 1. *)
Definition value_round_digit (trail : Z) (x : u_rand) (D : digit_gen)
  : Z * u_rand * digit_gen :=
  if binary then
    if trail >? 0
    then (Z.land (Z.shiftr (_n x) (trail - 1)) 1, x, D)
    else
      let '(d, x1, D1) := digit x D (Z.to_nat (Z.quot (- trail) xbits)) in
      (Z.land (Z.shiftr d (xbits - 1 - Z.rem (- trail) xbits)) 1, x1, D1)
  else
    if trail >? 0
    then
      let n := div_times (Z.to_nat (trail - 1)) radix (_n x) in
      (Z.quot (Z.rem n radix) (Z.shiftr radix 1), x, D)
    else
      let '(d, x1, D1) := digit x D (Z.to_nat (- trail)) in
      (Z.quot d (Z.shiftr radix 1), x1, D1).

(** The magnitude of the result: the digits at positions
    [trail+1 .. lead] plus [z] in the last place. *)
Definition value_magnitude (lead trail : Z) (z : Q) (x : u_rand)
  (D : digit_gen) : Q * u_rand * digit_gen :=
  if trail >=? 0 then
    if binary then
      (real_ldexp z trail
       + inject_Z (Z.land (_n x)
                     (DigitArithmetic.uint_shl uint_w
                        (DigitArithmetic.uint_not uint_w 0) trail)), x, D)%Q
    else
      let n := div_times (Z.to_nat trail) radix (_n x) in
      (mul_times (Z.to_nat trail) radix (z + inject_Z n), x, D)%Q
  else if lead >=? min_exp then
    let k := Z.to_nat (Z.quot (- trail - 1) xbits) in
    let '(d, x1, D1) := digit x D k in
    if binary then
      let sh := (Z.of_nat k + 1) * xbits + trail in
      let z1 :=
        (real_ldexp z sh
         + inject_Z (Z.land d
                       (DigitArithmetic.uint_shl uint_w
                          (DigitArithmetic.uint_not uint_w 0) sh)))%Q in
      let z2 := horner_binary k (_d x1) z1 in
      (real_ldexp z2 (- xbits) + inject_Z (_n x1), x1, D1)%Q
    else
      let z1 := (z + inject_Z d)%Q in
      let z2 := horner_radix k (_d x1) z1 in
      (z2 / inject_Z radix + inject_Z (_n x1), x1, D1)%Q
  else ((z * real_min)%Q, x, D).

(** [RealType value(Generator& g, std::float_round_style rnd, int& flag)]:
    the result and the inexact flag. *)
Definition value (x : u_rand) (D : digit_gen) (rnd : float_round_style)
  : Q * Z * u_rand * digit_gen :=
  let flag0 :=
    match rnd with
    | round_to_nearest => 0
    | round_toward_zero => -1
    | round_toward_infinity => _s x
    | round_toward_neg_infinity => - _s x
    | round_indeterminate => 1
    end in
  let '(lead, x1, D1) := value_lead x D in
  let trail := lead - (if lead >=? min_exp then digits else 0) in
  let '(flag, x2, D2) :=
    if flag0 =? 0 then
      let '(f, x2, D2) := value_round_digit trail x1 D1 in
      (if f =? 0 then -1 else 1, x2, D2)
    else (flag0, x1, D1) in
  let z := if flag >? 0 then 1%Q else 0%Q in
  let '(m, x3, D3) := value_magnitude lead trail z x2 D2 in
  ((inject_Z (_s x3) * m)%Q, flag * _s x3, x3, D3).
End Value.

(** The bounds of the fraction denoted by the digits [ds] in base [b], the
    digits still to come being anywhere between all 0 and all [b - 1]. *)
Fixpoint lower (b : Z) (ds : list Z) : Q :=
  match ds with
  | [] => 0%Q
  | d :: r => ((inject_Z d + lower b r) / inject_Z b)%Q
  end.

Fixpoint upper (b : Z) (ds : list Z) : Q :=
  match ds with
  | [] => 1%Q
  | d :: r => ((inject_Z d + upper b r) / inject_Z b)%Q
  end.

(** The digits of a fraction are digits of base [b]. *)
Definition digits_ok (b : Z) (ds : list Z) : Prop :=
  Forall (fun d => 0 <= d <= b - 1) ds.

(** Every digit of the fraction, generated or not, is zero. *)
Definition all_zero (ds : list Z) : Prop := forall j, nth j ds 0 = 0.

(** The value of the digits [pre] followed by a fraction [t]. *)
Definition wrap (b : Z) (pre : list Z) (t : Q) : Q :=
  fold_right (fun d acc => (inject_Z d + acc) / inject_Z b)%Q t pre.

(** The constants of a digit generator fit together: [max_value] is a
    32-bit value of [bits] bits, [base] is [max_value + 1] as a 32-bit
    value, and [power_of_two] tells whether the base is [2^bits]. *)
Definition traits_wf (T : digit_traits) : Prop :=
  1 <= max_value T < 2 ^ 32
  /\ base T = (max_value T + 1) mod 2 ^ 32
  /\ 1 <= bits T <= 32
  /\ max_value T < 2 ^ bits T <= 2 * max_value T
  /\ (power_of_two T = true <-> max_value T + 1 = 2 ^ bits T).

(** The base as a number, [2^32] included. *)
Definition effective_base (T : digit_traits) : Z := max_value T + 1.

(** A well-formed u-rand: sign [+1] or [-1], a 32-bit integer part, digits
    of the base. *)
Definition u_rand_ok (T : digit_traits) (x : u_rand) : Prop :=
  (_s x = 1 \/ _s x = -1)
  /\ 0 <= _n x < 2 ^ 32
  /\ digits_ok (effective_base T) (_d x).

(** The real [q] lies inside the interval that the u-rand [x] denotes in
    base [b]: [s * (n + 0.d_0 d_1 ... + b^(-K) * U)] with [0 < U < 1]. *)
Definition inside (b : Z) (x : u_rand) (q : Q) : Prop :=
  (inject_Z (_n x) + lower b (_d x) < inject_Z (_s x) * q
   /\ inject_Z (_s x) * q < inject_Z (_n x) + upper b (_d x))%Q.

End URand.

(** ** unit_exponential_dist.hpp *)

Module UnitExponentialDist.
Import URand.

Section Dist.
Variable T : digit_traits.
(** The width of [uint_t]. *)
Variable uint_w : Z.
(** The template argument [bit_optimized]: Algorithm E if true,
    Algorithm V otherwise. *)
Variable bit_optimized : bool.

(** [static_assert(!bit_optimized || (bm1 & 1U), ...)]: the base must be
    even for Algorithm E. *)
Definition base_ok : bool := negb bit_optimized || Z.odd (bm1 T).

(** The temporaries [_v], [_w] of the sampler. *)
Record scratch : Type := { _v : u_rand; _w : u_rand }.

(** The unrolled loop of [F]:
    [for (;;) { if (!_v.init().less_than(g, _w)) return false;
                if (!_w.init().less_than(g, _v)) return true; }]. *)
Fixpoint F_loop (fuel : nat) (v w : u_rand) (D : digit_gen)
  : option (bool * scratch * digit_gen) :=
  match fuel with
  | O => None
  | S fuel' =>
      match less_than fuel (init v) w D with
      | None => None
      | Some (r1, v1, w1, D1) =>
          if negb r1 then Some (false, {| _v := v1; _w := w1 |}, D1)
          else
            match less_than fuel (init w1) v1 D1 with
            | None => None
            | Some (r2, w2, v2, D2) =>
                if negb r2 then Some (true, {| _v := v2; _w := w2 |}, D2)
                else F_loop fuel' v2 w2 D2
            end
      end
  end.

(** The von Neumann part of [F], after the early bail-out. *)
Definition F_von_neumann (fuel : nat) (tmp : scratch) (p : u_rand)
  (D : digit_gen) : option (bool * scratch * u_rand * digit_gen) :=
  match less_than fuel (init (_w tmp)) p D with
  | None => None
  | Some (r, w1, p1, D1) =>
      if negb r then Some (true, {| _v := _v tmp; _w := w1 |}, p1, D1)
      else
        match F_loop fuel (_v tmp) w1 D1 with
        | None => None
        | Some (t, tmp', D2) => Some (t, tmp', p1, D2)
        end
  end.

(** [bool F(Generator& g, u_rand<digit_gen>& p)]. *)
Definition F (fuel : nat) (tmp : scratch) (p : u_rand) (D : digit_gen)
  : option (bool * scratch * u_rand * digit_gen) :=
  let p0 := init p in
  if bit_optimized then
    match less_than_half T fuel p0 D with
    | None => None
    | Some (r, p1, D1) =>
        if negb r then Some (false, tmp, p1, D1)
        else F_von_neumann fuel tmp p1 D1
    end
  else F_von_neumann fuel tmp p0 D.

(** [int k = 0; while (!F(g, x)) ++k;] returning the final [k]. *)
Fixpoint F_count (fuel : nat) (k : Z) (tmp : scratch) (x : u_rand)
  (D : digit_gen) : option (Z * scratch * u_rand * digit_gen) :=
  match fuel with
  | O => None
  | S fuel' =>
      match F fuel tmp x D with
      | None => None
      | Some (r, tmp1, x1, D1) =>
          if negb r then F_count fuel' (k + 1) tmp1 x1 D1
          else Some (k, tmp1, x1, D1)
      end
  end.

(** [k] calls of [F] that return false, then one that returns true. *)
Inductive F_run
  : nat -> scratch * u_rand * digit_gen ->
    scratch * u_rand * digit_gen -> Prop :=
| F_accept fuel tmp x D tmp' x' D' :
    F fuel tmp x D = Some (true, tmp', x', D') ->
    F_run O (tmp, x, D) (tmp', x', D')
| F_reject fuel k tmp x D tmp1 x1 D1 s' :
    F fuel tmp x D = Some (false, tmp1, x1, D1) ->
    F_run k (tmp1, x1, D1) s' ->
    F_run (S k) (tmp, x, D) s'.

(** The end of [generate], once the loop has left [k]:
    [if (bit_optimized && (k % 2) != 0)
       x.rawdigit(0) += (bm1 - 1U) / 2U + 1U;
     x.set_integer(bit_optimized ? k/2 : k);]. *)
Definition finish (k : Z) (x : u_rand) : u_rand :=
  let x1 :=
    if bit_optimized && negb (Z.rem k 2 =? 0)
    then set_rawdigit x 0
           ((rawdigit x 0 + (Z.quot (bm1 T - 1) 2 + 1)) mod 2 ^ uint_w)
    else x in
  set_integer x1 (if bit_optimized then Z.quot k 2 else k).

(** [void generate(Generator& g, u_rand<digit_gen>& x)]. *)
Definition generate (fuel : nat) (tmp : scratch) (x : u_rand)
  (D : digit_gen) : option (scratch * u_rand * digit_gen) :=
  match F_count fuel 0 tmp x D with
  | None => None
  | Some (k, tmp1, x1, D1) => Some (tmp1, finish k x1, D1)
  end.
End Dist.

End UnitExponentialDist.

(** ** discrete_normal_dist.hpp *)

(** Sequencing of steps that may run out of fuel. *)
Notation "' p <- c1 ;; c2" :=
  (match c1 with Some p => c2 | None => None end)
  (at level 61, p pattern, c1 at next level, right associativity).

Module DiscreteNormalDist.
Import URand.

(** The outcome of a constructor: the object, or the message of the
    [std::runtime_error] thrown. *)
Inductive result (A : Type) : Type :=
| Ok (a : A)
| Throw (msg : string).
Arguments Ok {A} a.
Arguments Throw {A} msg.

(** [std::numeric_limits<int>::min()], [::max()] and
    [std::numeric_limits<long long>::max()]. *)
Definition minint : Z := - 2 ^ 31.
Definition maxint : Z := 2 ^ 31 - 1.
Definition maxll : Z := 2 ^ 63 - 1.

(** Values of type [int]. *)
Definition is_int (x : Z) : Prop := minint <= x <= maxint.

(** *** param_type *)

Record param_type : Type := {
  _mu_num : Z; _mu_den : Z; _sigma_num : Z; _sigma_den : Z
}.

(** The loop of [gcd]: [while (v > 0) { int r = u % v; u = v; v = r; }
    return u;]. *)
Fixpoint gcd_loop (fuel : nat) (u v : Z) : option Z :=
  match fuel with
  | O => None
  | S fuel' =>
      if v >? 0 then gcd_loop fuel' v (Z.rem u v) else Some u
  end.

(** Iterations that [gcd_loop] is given: the remainder at least halves
    every second iteration. *)
Definition gcd_fuel (v : Z) : nat := (2 * Z.to_nat (Z.log2 v + 1) + 1)%nat.

(** [static int gcd(int u, int v)] (Knuth, TAOCP, vol 2, 4.5.2,
    Algorithm A), after [u = std::abs(u); v = std::abs(v);]. *)
Definition gcd (u v : Z) : Z :=
  match gcd_loop (gcd_fuel (Z.abs v)) (Z.abs u) (Z.abs v) with
  | Some g => g
  | None => 0
  end.

(** [void param_init(int mu_num, int mu_den, int sigma_num,
    int sigma_den)]. *)
Definition param_init (mu_num mu_den sigma_num sigma_den : Z)
  : result param_type :=
  if negb ((sigma_num >? 0) && (sigma_den >? 0) && (mu_den >? 0)
           && (mu_num >? minint))
  then Throw "discrete_normal_dist: need sigma > 0"
  else
    let l := gcd mu_num mu_den in
    let l' := gcd sigma_num sigma_den in
    Ok {| _mu_num := Z.quot mu_num l; _mu_den := Z.quot mu_den l;
          _sigma_num := Z.quot sigma_num l';
          _sigma_den := Z.quot sigma_den l' |}.

(** The four constructors of [param_type]. *)
Definition param_default : param_type :=
  {| _mu_num := 0; _mu_den := 1; _sigma_num := 1; _sigma_den := 1 |}.
Definition param2 (mu sigma : Z) : result param_type :=
  param_init mu 1 sigma 1.
Definition param3 (mu_num sigma_num den : Z) : result param_type :=
  param_init mu_num den sigma_num den.
Definition param4 (mu_num mu_den sigma_num sigma_den : Z)
  : result param_type :=
  param_init mu_num mu_den sigma_num sigma_den.

(** [friend bool operator==(const param_type& p1, const param_type& p2)]. *)
Definition param_eqb (p1 p2 : param_type) : bool :=
  (_mu_num p1 =? _mu_num p2) && (_mu_den p1 =? _mu_den p2)
  && (_sigma_num p1 =? _sigma_num p2) && (_sigma_den p1 =? _sigma_den p2).

(** The stored parameters are in lowest terms, with positive
    denominators and a positive [sigma]. *)
Definition canonical (p : param_type) : Prop :=
  0 < _mu_den p /\ 0 < _sigma_num p /\ 0 < _sigma_den p
  /\ minint < _mu_num p
  /\ Z.gcd (_mu_num p) (_mu_den p) = 1
  /\ Z.gcd (_sigma_num p) (_sigma_den p) = 1
  /\ is_int (_mu_num p) /\ is_int (_mu_den p)
  /\ is_int (_sigma_num p) /\ is_int (_sigma_den p).

(** *** Text format of param_type *)

Definition char_of_digit (n : nat) : ascii := ascii_of_nat (48 + n).

(** Decimal digits, most significant first. *)
Fixpoint string_of_uint (d : Decimal.uint) : string :=
  match d with
  | Decimal.Nil => EmptyString
  | Decimal.D0 r => String "0" (string_of_uint r)
  | Decimal.D1 r => String "1" (string_of_uint r)
  | Decimal.D2 r => String "2" (string_of_uint r)
  | Decimal.D3 r => String "3" (string_of_uint r)
  | Decimal.D4 r => String "4" (string_of_uint r)
  | Decimal.D5 r => String "5" (string_of_uint r)
  | Decimal.D6 r => String "6" (string_of_uint r)
  | Decimal.D7 r => String "7" (string_of_uint r)
  | Decimal.D8 r => String "8" (string_of_uint r)
  | Decimal.D9 r => String "9" (string_of_uint r)
  end.

(** [os << int] with [std::ios::dec]: a minus sign for negative values,
    no leading zeros. *)
Definition print_int (z : Z) : string :=
  match Z.to_int z with
  | Decimal.Pos d => string_of_uint d
  | Decimal.Neg d => String "-" (string_of_uint d)
  end.

(** [friend std::ostream& operator<<(std::ostream& os,
    const param_type& x)]: the characters written. *)
Definition insert (x : param_type) : string :=
  (print_int (_mu_num x) ++ " " ++ print_int (_mu_den x) ++ " "
   ++ print_int (_sigma_num x) ++ " " ++ print_int (_sigma_den x))%string.

(** [std::isspace] in the classic locale. *)
Definition is_space (c : ascii) : bool :=
  let n := nat_of_ascii c in
  (n =? 32)%nat || ((9 <=? n)%nat && (n <=? 13)%nat).

(** Skipping of leading white space ([std::ios::skipws]). *)
Fixpoint skip_ws (s : string) : string :=
  match s with
  | String c r => if is_space c then skip_ws r else s
  | EmptyString => s
  end.

Definition digit_of_char (c : ascii)
  : option (Decimal.uint -> Decimal.uint) :=
  match nat_of_ascii c with
  | 48%nat => Some Decimal.D0 | 49%nat => Some Decimal.D1
  | 50%nat => Some Decimal.D2 | 51%nat => Some Decimal.D3
  | 52%nat => Some Decimal.D4 | 53%nat => Some Decimal.D5
  | 54%nat => Some Decimal.D6 | 55%nat => Some Decimal.D7
  | 56%nat => Some Decimal.D8 | 57%nat => Some Decimal.D9
  | _ => None
  end.

(** The longest run of decimal digits at the head of the stream. *)
Fixpoint read_digits (s : string) : Decimal.uint * string :=
  match s with
  | String c r =>
      match digit_of_char c with
      | Some f => let (u, rest) := read_digits r in (f u, rest)
      | None => (Decimal.Nil, s)
      end
  | EmptyString => (Decimal.Nil, s)
  end.

(** The stream does not go on with a decimal digit. *)
Definition no_digit_head (s : string) : Prop :=
  match s with
  | String c _ => digit_of_char c = None
  | EmptyString => True
  end.

(** [is >> int] with [std::ios::dec | std::ios::skipws]: white space,
    an optional sign, digits; the extraction fails when there is no
    digit or the value is not an [int]. *)
Definition read_int (s : string) : option (Z * string) :=
  let s1 := skip_ws s in
  let '(neg, s2) :=
    match s1 with
    | String "-" r => (true, r)
    | String "+" r => (false, r)
    | _ => (false, s1)
    end in
  let (u, rest) := read_digits s2 in
  match u with
  | Decimal.Nil => None
  | _ =>
      let v := if neg then - Z.of_uint u else Z.of_uint u in
      if (minint <=? v) && (v <=? maxint) then Some (v, rest) else None
  end.

(** [friend std::istream& operator>>(std::istream& is, param_type& x)]:
    the new value of [x] and what is left of the stream ([None] when an
    extraction failed, [x] being then left as it was); [param_init] may
    throw. *)
Definition extract (s : string) (x : param_type)
  : result (param_type * option string) :=
  let r4 :=
    ' (mu_num, s1) <- read_int s ;;
    ' (mu_den, s2) <- read_int s1 ;;
    ' (sigma_num, s3) <- read_int s2 ;;
    ' (sigma_den, s4) <- read_int s3 ;;
    Some (mu_num, mu_den, sigma_num, sigma_den, s4) in
  match r4 with
  | Some (mu_num, mu_den, sigma_num, sigma_den, s4) =>
      match param_init mu_num mu_den sigma_num sigma_den with
      | Ok x' => Ok (x', Some s4)
      | Throw msg => Throw msg
      end
  | None => Ok (x, None)
  end.

(** *** The sampler *)

(** [static long long iceil(long long n, long long d)]:
    [long long k = n / d; return k + (k * d < n ? 1 : 0);]. *)
Definition iceil (n d : Z) : Z :=
  let k := Z.quot n d in k + (if k * d <? n then 1 else 0).

(** The integers derived from the parameters by [init()]:
    [long long _sig, _mu, _d; int _imu, _isig]. *)
Record derived : Type := {
  _sig : Z; _mu : Z; _d : Z; _imu : Z; _isig : Z
}.

(** [int kmax = 50 + 1]. *)
Definition kmax : Z := 50 + 1.

(** The quantities that the constructor checks to be representable, for
    parameters [p] and base [b]: the products forming [_sig], [_mu] and
    [_d], [_isig * _d], the largest plausible result, and
    [max(2, _sig) * base * kmax]. *)
Definition guards (b : Z) (p : param_type) : Prop :=
  let imu := Z.quot (_mu_num p) (_mu_den p) in
  let fmu_num := _mu_num p - imu * _mu_den p in
  let isig := iceil (_sigma_num p) (_sigma_den p) in
  let l := Z.gcd (_sigma_den p) (_mu_den p) in
  let sig := _sigma_num p * (_mu_den p / l) in
  let d := _sigma_den p * (_mu_den p / l) in
  (_mu_den p / l) * _sigma_num p <= maxll
  /\ Z.abs fmu_num * (_sigma_den p / l) <= maxll
  /\ (_mu_den p / l) * _sigma_den p <= maxll
  /\ isig * d <= maxll
  /\ isig * kmax <= maxint
  /\ Z.abs imu + isig * kmax <= maxint
  /\ Z.max 2 sig * (b * kmax) <= maxll.

Section Sampler.
Variable T : digit_traits.

(** [static const int b = digit_gen::base]. *)
Definition b : Z := int_of_uint (base T).

(** [static_assert(digit_gen::bits <= 24, "base must be in [2,2^24]")]. *)
Definition base_ok : bool := bits T <=? 24.

(** [void init()]. *)
Definition init (p : param_type) : result derived :=
  let imu := Z.quot (_mu_num p) (_mu_den p) in
  let fmu_num := _mu_num p - imu * _mu_den p in
  let isig := iceil (_sigma_num p) (_sigma_den p) in
  let l := gcd (_sigma_den p) (_mu_den p) in
  if negb ((Z.quot (_mu_den p) l <=? Z.quot maxll (_sigma_num p))
           && (Z.abs fmu_num <=? Z.quot maxll (Z.quot (_sigma_den p) l))
           && (Z.quot (_mu_den p) l <=? Z.quot maxll (_sigma_den p)))
  then Throw "discrete_normal_dist: sigma or mu overflow"
  else
    let sig := _sigma_num p * Z.quot (_mu_den p) l in
    let mu := fmu_num * Z.quot (_sigma_den p) l in
    let d := _sigma_den p * Z.quot (_mu_den p) l in
    if negb (isig <=? Z.quot maxll d)
    then Throw "discrete_normal_dist: sigma or mu overflow"
    else if negb (isig <=? Z.quot maxint kmax)
    then Throw "discrete_normal_dist: possible overflow a"
    else if negb (Z.abs imu <=? maxint - isig * kmax)
    then Throw "discrete_normal_dist: possible overflow b"
    else if negb (Z.max 2 sig <=? Z.quot maxll (b * kmax))
    then Throw "discrete_normal_dist: possible overflow c"
    else Ok {| _sig := sig; _mu := mu; _d := d;
               _imu := imu; _isig := isig |}.

(** [discrete_normal_dist(digit_gen& D, int mu_num, int mu_den,
    int sigma_num, int sigma_den)]: [_param(...)] then [init()]. *)
Definition construct_with (rp : result param_type)
  : result (param_type * derived) :=
  match rp with
  | Throw msg => Throw msg
  | Ok p =>
      match init p with
      | Throw msg => Throw msg
      | Ok c => Ok (p, c)
      end
  end.

Definition construct (mu_num mu_den sigma_num sigma_den : Z)
  : result (param_type * derived) :=
  construct_with (param4 mu_num mu_den sigma_num sigma_den).

(** The temporaries [_y], [_z] of the sampler. *)
Record scratch : Type := { _y : u_rand; _z : u_rand }.

(** The loop of [H]:
    [for (;;) { if (!_z.init().less_than(g, _y)) return false;
                if (!_y.init().less_than(g, _z)) return true; }]. *)
Fixpoint H_loop (fuel : nat) (y z : u_rand) (D : digit_gen)
  : option (bool * scratch * digit_gen) :=
  match fuel with
  | O => None
  | S fuel' =>
      ' (r1, z1, y1, D1) <- less_than fuel (URand.init z) y D ;;
      if negb r1 then Some (false, {| _y := y1; _z := z1 |}, D1)
      else
        ' (r2, y2, z2, D2) <- less_than fuel (URand.init y1) z1 D1 ;;
        if negb r2 then Some (true, {| _y := y2; _z := z2 |}, D2)
        else H_loop fuel' y2 z2 D2
  end.

(** Algorithm H: [bool H(Generator& g)]. *)
Definition H (fuel : nat) (tmp : scratch) (D : digit_gen)
  : option (bool * scratch * digit_gen) :=
  ' (r, y1, D1) <- less_than_half T fuel (URand.init (_y tmp)) D ;;
  if negb r then Some (true, {| _y := y1; _z := _z tmp |}, D1)
  else H_loop fuel y1 (_z tmp) D1.

(** Step N1: [int n = 0; while (H(g)) ++n; return n;]. *)
Fixpoint G_from (fuel : nat) (n : Z) (tmp : scratch) (D : digit_gen)
  : option (Z * scratch * digit_gen) :=
  match fuel with
  | O => None
  | S fuel' =>
      ' (r, tmp1, D1) <- H fuel tmp D ;;
      if r then G_from fuel' (n + 1) tmp1 D1 else Some (n, tmp1, D1)
  end.

Definition G (fuel : nat) (tmp : scratch) (D : digit_gen)
  : option (Z * scratch * digit_gen) :=
  G_from fuel 0 tmp D.

(** Step N2: [while (n-- && H(g)) {}; return n < 0;]. *)
Fixpoint P (fuel : nat) (tmp : scratch) (D : digit_gen) (n : Z)
  : option (bool * scratch * digit_gen) :=
  match fuel with
  | O => None
  | S fuel' =>
      let n1 := n - 1 in
      if n =? 0 then Some (n1 <? 0, tmp, D)
      else
        ' (r, tmp1, D1) <- H fuel tmp D ;;
        if r then P fuel' tmp1 D1 n1 else Some (n1 <? 0, tmp1, D1)
  end.

Variable c : derived.

(** The loop of Algorithm B, [n] being the loop counter; the result is
    the final [n]. *)
Fixpoint B_loop (fuel : nat) (n : Z) (tmp : scratch) (D : digit_gen)
  (k xn0 : Z) (j : IRand.i_rand)
  : option (Z * scratch * IRand.i_rand * digit_gen) :=
  match fuel with
  | O => None
  | S fuel' =>
      let m := 2 * k + 2 in
      ' (f, z1, D1) <-
          (if k >? 0 then Some (0, _z tmp, D)
           else compare T fuel (URand.init (_z tmp)) D 1 2 m) ;;
      if f <? 0 then Some (n, {| _y := _y tmp; _z := z1 |}, j, D1)
      else
        let z2 := URand.init z1 in
        ' (t, z3, y3, j3, D3) <-
            (if negb (n =? 0)
             then ' (t, z', y', D') <- less_than fuel z2 (_y tmp) D1 ;;
                  Some (t, z', y', j, D')
             else ' (t, z', j', D') <-
                      less_than_i T fuel z2 D1 xn0 (_d c) (_sig c) j ;;
                  Some (t, z', _y tmp, j', D')) ;;
        if negb t then Some (n, {| _y := y3; _z := z3 |}, j3, D3)
        else
          ' (f', y4, D4) <-
              (if k >? 0 then compare T fuel (URand.init y3) D3 1 2 m
               else Some (f, y3, D3)) ;;
          if f' <? 0 then Some (n, {| _y := y4; _z := z3 |}, j3, D4)
          else
            ' (stop, y5, j5, D5) <-
                (if f' =? 0
                 then ' (t', y', j', D') <-
                          less_than_i T fuel (URand.init y4) D4
                            xn0 (_d c) (_sig c) j3 ;;
                      Some (negb t', y', j', D')
                 else Some (false, y4, j3, D4)) ;;
            if stop then Some (n, {| _y := y5; _z := z3 |}, j5, D5)
            else
              let (y6, z6) := swap y5 z3 in
              B_loop fuel' (n + 1) {| _y := y6; _z := z6 |} D5 k xn0 j5
  end.

(** Algorithm B: [bool B(Generator& g, int k, long long xn0,
    i_rand<digit_gen>& j)]; [return (n % 2) == 0]. *)
Definition B (fuel : nat) (tmp : scratch) (D : digit_gen) (k xn0 : Z)
  (j : IRand.i_rand)
  : option (bool * scratch * IRand.i_rand * digit_gen) :=
  ' (n, tmp1, j1, D1) <- B_loop fuel 0 tmp D k xn0 j ;;
  Some (Z.rem n 2 =? 0, tmp1, j1, D1).

(** [int h = k + 1; while (h-- && B(g, k, xn0, j)) {};] returning the
    final [h]. *)
Fixpoint B_repeat (fuel : nat) (h : Z) (tmp : scratch) (D : digit_gen)
  (k xn0 : Z) (j : IRand.i_rand)
  : option (Z * scratch * IRand.i_rand * digit_gen) :=
  match fuel with
  | O => None
  | S fuel' =>
      let h1 := h - 1 in
      if h =? 0 then Some (h1, tmp, j, D)
      else
        ' (r, tmp1, j1, D1) <- B fuel tmp D k xn0 j ;;
        if r then B_repeat fuel' h1 tmp1 D1 k xn0 j1
        else Some (h1, tmp1, j1, D1)
  end.

(** The test that rejects a candidate in [generate]:
    [!j.less_than(g, _sig - xn0, _d) ||
     (k == 0 && s < 0 && !j.greater_than(g, -xn0, _d))]. *)
Definition candidate_rejected (fuel : nat) (j : IRand.i_rand)
  (D : digit_gen) (k s xn0 : Z)
  : option (bool * IRand.i_rand * digit_gen) :=
  ' (lt, j1, D1) <- IRand.less_than T fuel j D (_sig c - xn0) (_d c) ;;
  if negb lt then Some (true, j1, D1)
  else if (k =? 0) && (s <? 0) then
    ' (gt, j2, D2) <- IRand.greater_than T fuel j1 D1 (- xn0) (_d c) ;;
    Some (negb gt, j2, D2)
  else Some (false, j1, D1).

(** [void generate(Generator& g, i_rand<digit_gen>& j)]. *)
Fixpoint generate (fuel : nat) (tmp : scratch) (j : IRand.i_rand)
  (D : digit_gen) : option (scratch * IRand.i_rand * digit_gen) :=
  match fuel with
  | O => None
  | S fuel' =>
      ' (k, tmp1, D1) <- G fuel tmp D ;;
      ' (ok, tmp2, D2) <- P fuel tmp1 D1 (k * (k - 1)) ;;
      if negb ok then generate fuel' tmp2 j D2
      else
        ' (j3, D3) <- IRand.init T fuel D2 2 ;;
        ' (v, j4, D4) <- IRand.call T fuel j3 D3 ;;
        let s := if negb (v =? 0) then -1 else 1 in
        let xn := _sig c * k + s * _mu c in
        let i0 := iceil xn (_d c) in
        let xn0 := i0 * _d c - xn in
        ' (j5, D5) <- IRand.init T fuel D4 (_isig c) ;;
        ' (rej, j6, D6) <- candidate_rejected fuel j5 D5 k s xn0 ;;
        if rej then generate fuel' tmp2 j6 D6
        else
          ' (h, tmp7, j7, D7) <- B_repeat fuel (k + 1) tmp2 D6 k xn0 j6 ;;
          if negb (h <? 0) then generate fuel' tmp7 j7 D7
          else
            let j8 := IRand.add j7 (i0 + s * _imu c) in
            let j9 := if s <? 0 then IRand.negate j8 else j8 in
            Some (tmp7, j9, D7)
  end.

(** [int operator()(Generator& g) { generate(g, _j); return _j(g); }]. *)
Definition sample (fuel : nat) (tmp : scratch) (j : IRand.i_rand)
  (D : digit_gen)
  : option (Z * scratch * IRand.i_rand * digit_gen) :=
  ' (tmp1, j1, D1) <- generate fuel tmp j D ;;
  ' (v, j2, D2) <- IRand.call T fuel j1 D1 ;;
  Some (v, tmp1, j2, D2).
End Sampler.

End DiscreteNormalDist.


(** ** digit_arithmetic.hpp: the table giving [bits] without constexpr *)

Module DigitTable.

(** [static const int bits = (basem1 <= 0x0UL ? 0 : basem1 <= 0x1UL ? 1 :
    ... basem1 <= 0xffffffffUL ? 32 : 33)], the definition used when
    [EXRANDOM_CONSTEXPR] is 0. *)
Definition bits_table (basem1 : Z) : Z :=
  if basem1 <=? 0x0 then 0 else
  if basem1 <=? 0x1 then 1 else
  if basem1 <=? 0x3 then 2 else
  if basem1 <=? 0x7 then 3 else
  if basem1 <=? 0xf then 4 else
  if basem1 <=? 0x1f then 5 else
  if basem1 <=? 0x3f then 6 else
  if basem1 <=? 0x7f then 7 else
  if basem1 <=? 0xff then 8 else
  if basem1 <=? 0x1ff then 9 else
  if basem1 <=? 0x3ff then 10 else
  if basem1 <=? 0x7ff then 11 else
  if basem1 <=? 0xfff then 12 else
  if basem1 <=? 0x1fff then 13 else
  if basem1 <=? 0x3fff then 14 else
  if basem1 <=? 0x7fff then 15 else
  if basem1 <=? 0xffff then 16 else
  if basem1 <=? 0x1ffff then 17 else
  if basem1 <=? 0x3ffff then 18 else
  if basem1 <=? 0x7ffff then 19 else
  if basem1 <=? 0xfffff then 20 else
  if basem1 <=? 0x1fffff then 21 else
  if basem1 <=? 0x3fffff then 22 else
  if basem1 <=? 0x7fffff then 23 else
  if basem1 <=? 0xffffff then 24 else
  if basem1 <=? 0x1ffffff then 25 else
  if basem1 <=? 0x3ffffff then 26 else
  if basem1 <=? 0x7ffffff then 27 else
  if basem1 <=? 0xfffffff then 28 else
  if basem1 <=? 0x1fffffff then 29 else
  if basem1 <=? 0x3fffffff then 30 else
  if basem1 <=? 0x7fffffff then 31 else
  if basem1 <=? 0xffffffff then 32 else
  33.

End DigitTable.

(** ** table_gen.hpp and rand_table.hpp *)

Module TableGen.
Import DiscreteNormalDist.

(** [std::string _seed; size_t _pos]. *)
Record table_gen : Type := { _seed : string; _pos : nat }.

(** [table_gen(const std::string& seed = "") : _seed(seed), _pos(0U) {}]. *)
Definition construct (s : string) : table_gen := {| _seed := s; _pos := 0 |}.

(** [void seed(const std::string& seed = "") { _seed = seed; _pos = 0U; }]. *)
Definition seed (g : table_gen) (s : string) : table_gen :=
  {| _seed := s; _pos := 0 |}.

Section Call.
(** The width of [uint_t], and whether plain [char] is signed. *)
Variable uint_w : Z.
Variable char_signed : bool.

(** The value of a [char] promoted to [int]. *)
Definition char_value (c : ascii) : Z :=
  let n := Z.of_nat (nat_of_ascii c) in
  if char_signed && (128 <=? n) then n - 256 else n.

(** [uint_t operator()()]:
    [if (_pos >= _seed.size()) throw std::runtime_error(...);
     return (std::min)(uint_t(_seed[_pos++] - '0'), uint_t(9));]. *)
Definition call (g : table_gen) : result Z * table_gen :=
  if (String.length (_seed g) <=? _pos g)%nat
  then (Throw "table_gen: overflow", g)
  else
    let c := match String.get (_pos g) (_seed g) with
             | Some c => c
             | None => zero
             end in
    (Ok (Z.min ((char_value c - 48) mod 2 ^ uint_w) 9),
     {| _seed := _seed g; _pos := S (_pos g) |}).

(** [rand_table]: [long long _count]. *)
Record rand_table : Type := { _count : Z }.

(** [rand_table() : _count(0) {}]. *)
Definition table_construct : rand_table := {| _count := 0 |}.

(** [long long count() const]. *)
Definition count (D : rand_table) : Z := _count D.

(** [uint_t operator()(Generator& g) { ++_count; return g(); }]: the
    count is incremented before [g] is called, whether or not [g]
    throws. *)
Definition table_call (D : rand_table) (g : table_gen)
  : result Z * rand_table * table_gen :=
  let D' := {| _count := _count D + 1 |} in
  let (r, g') := call g in
  (r, D', g').

(** [n] successive calls of a [rand_table] on a [table_gen], stopping at
    the first exception: the digits delivered and the exception, if
    any. *)
Fixpoint table_calls (n : nat) (D : rand_table) (g : table_gen)
  : list Z * option string * rand_table * table_gen :=
  match n with
  | O => ([], None, D, g)
  | S n' =>
      match table_call D g with
      | (Throw msg, D1, g1) => ([], Some msg, D1, g1)
      | (Ok d, D1, g1) =>
          let '(ds, e, D2, g2) := table_calls n' D1 g1 in
          (d :: ds, e, D2, g2)
      end
  end.
End Call.

End TableGen.

(** A seed string written from decimal digits. *)
Definition seed_of_digits (ds : list Z) : string :=
  fold_right (fun d s => String (ascii_of_nat (48 + Z.to_nat d)) s)
    EmptyString ds.

(** ** i_rand: what a comparison decides *)

(** The comparison [res], started on the i-rand [h] with the digit
    generator [D], returns; it leaves an i-rand whose range is within that
    of [h], and its result tells whether [P] holds, which it does for all
    the values left in the range or for none. *)
Definition decides (T : digit_traits)
  (res : option (bool * IRand.i_rand * digit_gen))
  (h : IRand.i_rand) (D : digit_gen) (P : Z -> Prop) : Prop :=
  exists r h' D',
    res = Some (r, h', D')
    /\ IRand.Inv T h' /\ advances D D'
    /\ IRand.min h <= IRand.min h' /\ IRand.max h' <= IRand.max h
    /\ forall v, IRand.min h' <= v <= IRand.max h' -> (r = true <-> P v).

(** ** u_rand.hpp: the range as a rational *)

Module URandRational.
Import URand.

Section Base.
Variable T : digit_traits.

(** [std::pair<long long, long long> rational() const
    { return rawrational(ndigits()); }]. *)
Definition rational (x : u_rand) : Z * Z := rawrational T x (ndigits x).

(** [rational(Generator& g, size_t k)]:
    [if (k) digit(g, k - 1); return rawrational(k);]. *)
Definition rational_g (x : u_rand) (D : digit_gen) (k : nat)
  : Z * Z * u_rand * digit_gen :=
  match k with
  | O => (rawrational T x k, x, D)
  | S k' =>
      let '(_, x1, D1) := digit x D k' in
      (rawrational T x1 k, x1, D1)
  end.
End Base.

End URandRational.

(** ** i_rand: refinement *)

(** The i-rand [j'] with the digit generator [D'] is what drawing further
    digits has left of [j] with [D]: the invariant [_d = b^_l] holds, the
    digits are still those of the base, and the range has not grown. *)
Definition narrows (T : digit_traits) (j : IRand.i_rand) (D : digit_gen)
  (j' : IRand.i_rand) (D' : digit_gen) : Prop :=
  IRand.Inv T j' /\ tape_ok T D' /\ advances D D'
  /\ IRand.min j <= IRand.min j' /\ IRand.max j' <= IRand.max j.

(** ** u_rand.hpp: the [long long] arithmetic of the comparisons *)

(** [compare(g, u1, u2, v)] on [x] forms [_s * u - (long long)(_n) * v]
    for [u = u1, u2] and then, with numerators [u] kept in [[0, v]] and
    digits [d] below the base, [u * lbase - d * v]: these are values of
    [long long] when the following are. *)
Definition compare_fits (T : digit_traits) (x : URand.u_rand)
  (u1 u2 v : Z) : Prop :=
  llong_ok u1 /\ llong_ok u2 /\ llong_ok v
  /\ llong_ok (URand._s x * u1) /\ llong_ok (URand._s x * u2)
  /\ llong_ok (URand._n x * v)
  /\ llong_ok (URand._s x * u1 - URand._n x * v)
  /\ llong_ok (URand._s x * u2 - URand._n x * v)
  /\ llong_ok (v * URand.effective_base T).

(** [less_than(g, u0, c, v, h)] calls [compare] with
    [u0 + h.min() * c] and [u0 + h.max() * c]. *)
Definition less_than_i_fits (T : digit_traits) (x : URand.u_rand)
  (u0 c v : Z) (h : IRand.i_rand) : Prop :=
  IRand.int_state h /\ llong_ok u0 /\ llong_ok c
  /\ llong_ok (IRand.min h * c) /\ llong_ok (IRand.max h * c)
  /\ compare_fits T x (u0 + IRand.min h * c) (u0 + IRand.max h * c) v.

(** ** unit_normal_dist.hpp *)

Module UnitNormalDist.
Import URand.

Section Dist.
Variable T : digit_traits.
(** The width of [uint_t]. *)
Variable uint_w : Z.

(** [static_assert(base - 1U < (uint_t(1) << 15) ||
    (power_of_two && bits <= 32), ...)]. *)
Definition base_ok : bool :=
  ((base T - 1) mod 2 ^ uint_w <? 2 ^ 15)
  || (power_of_two T && (bits T <=? 32)).

(** The temporaries [_y], [_z] of the sampler. *)
Record scratch : Type := { _y : u_rand; _z : u_rand }.

(** The two temporaries are well-formed u-rands. *)
Definition scratch_ok (tmp : scratch) : Prop :=
  u_rand_ok T (_y tmp) /\ u_rand_ok T (_z tmp).

(** The loop of [H]:
    [for (;;) { if (!_z.init().less_than(g, _y)) return false;
                if (!_y.init().less_than(g, _z)) return true; }]. *)
Fixpoint H_loop (fuel : nat) (y z : u_rand) (D : digit_gen)
  : option (bool * scratch * digit_gen) :=
  match fuel with
  | O => None
  | S fuel' =>
      ' (r1, z1, y1, D1) <- less_than fuel (init z) y D ;;
      if negb r1 then Some (false, {| _y := y1; _z := z1 |}, D1)
      else
        ' (r2, y2, z2, D2) <- less_than fuel (init y1) z1 D1 ;;
        if negb r2 then Some (true, {| _y := y2; _z := z2 |}, D2)
        else H_loop fuel' y2 z2 D2
  end.

(** Algorithm H: [bool H(Generator& g)]. *)
Definition H (fuel : nat) (tmp : scratch) (D : digit_gen)
  : option (bool * scratch * digit_gen) :=
  ' (r, y1, D1) <- less_than_half T fuel (init (_y tmp)) D ;;
  if negb r then Some (true, {| _y := y1; _z := _z tmp |}, D1)
  else H_loop fuel y1 (_z tmp) D1.

(** Step N1: [int n = 0; while (H(g)) ++n; return n;]. *)
Fixpoint G_from (fuel : nat) (n : Z) (tmp : scratch) (D : digit_gen)
  : option (Z * scratch * digit_gen) :=
  match fuel with
  | O => None
  | S fuel' =>
      ' (r, tmp1, D1) <- H fuel tmp D ;;
      if r then G_from fuel' (n + 1) tmp1 D1 else Some (n, tmp1, D1)
  end.

Definition G (fuel : nat) (tmp : scratch) (D : digit_gen)
  : option (Z * scratch * digit_gen) :=
  G_from fuel 0 tmp D.

(** Step N2: [while (n-- && H(g)) {}; return n < 0;]. *)
Fixpoint P (fuel : nat) (tmp : scratch) (D : digit_gen) (n : Z)
  : option (bool * scratch * digit_gen) :=
  match fuel with
  | O => None
  | S fuel' =>
      let n1 := n - 1 in
      if n =? 0 then Some (n1 <? 0, tmp, D)
      else
        ' (r, tmp1, D1) <- H fuel tmp D ;;
        if r then P fuel' tmp1 D1 n1 else Some (n1 <? 0, tmp1, D1)
  end.

(** [const int maxbits = 15;
    const int shift = (power_of_two && bits > maxbits) ? bits - maxbits : 0;
    const int tbase = (power_of_two && bits > maxbits) ?
      (uint_t(1) << maxbits) : base;]. *)
Definition maxbits : Z := 15.
Definition shift : Z :=
  if power_of_two T && (bits T >? maxbits) then bits T - maxbits else 0.
Definition tbase : Z :=
  if power_of_two T && (bits T >? maxbits)
  then int_of_uint (DigitArithmetic.uint_shl uint_w 1 maxbits)
  else int_of_uint (base T).

(** The loop of Algorithm C:
    [for (;;) { int d = int(_D(g) >> shift);
       if ((n1 = max(0, n1 * tbase - d * m)) >= m) return -1;
       if ((n2 = min(m, n2 * tbase - d * m)) <= 0) return +1;
       if (n1 <= 0 && n2 >= m) return 0; }]. *)
Fixpoint C_loop (fuel : nat) (n1 n2 : Z) (D : digit_gen) (m : Z)
  : option (Z * digit_gen) :=
  match fuel with
  | O => None
  | S fuel' =>
      let (dg, D1) := draw D in
      let d := int_of_uint (Z.shiftr dg shift) in
      let n1' := Z.max 0 (n1 * tbase - d * m) in
      if n1' >=? m then Some (-1, D1)
      else
        let n2' := Z.min m (n2 * tbase - d * m) in
        if n2' <=? 0 then Some (1, D1)
        else if (n1' <=? 0) && (n2' >=? m) then Some (0, D1)
        else C_loop fuel' n1' n2' D1 m
  end.

(** Algorithm C: [int C(Generator& g, int m)], with [n1 = 1], [n2 = 2]. *)
Definition C (fuel : nat) (D : digit_gen) (m : Z)
  : option (Z * digit_gen) :=
  C_loop fuel 1 2 D m.

(** The loop of Algorithm B, [n] being the loop counter; the result is
    the final [n]. *)
Fixpoint B_loop (fuel : nat) (n : Z) (tmp : scratch) (x : u_rand)
  (D : digit_gen) (k : Z)
  : option (Z * scratch * u_rand * digit_gen) :=
  match fuel with
  | O => None
  | S fuel' =>
      let m := 2 * k + 2 in
      ' (f, D1) <- (if negb (k =? 0) then Some (0, D) else C fuel D m) ;;
      if f <? 0 then Some (n, tmp, x, D1)
      else
        ' (t, z2, y2, x2, D2) <-
            (if negb (n =? 0)
             then ' (t, z', y', D') <-
                      less_than fuel (init (_z tmp)) (_y tmp) D1 ;;
                  Some (t, z', y', x, D')
             else ' (t, z', x', D') <-
                      less_than fuel (init (_z tmp)) x D1 ;;
                  Some (t, z', _y tmp, x', D')) ;;
        if negb t then Some (n, {| _y := y2; _z := z2 |}, x2, D2)
        else
          ' (f', D3) <- (if negb (k =? 0) then C fuel D2 m
                         else Some (f, D2)) ;;
          if f' <? 0 then Some (n, {| _y := y2; _z := z2 |}, x2, D3)
          else
            ' (stop, y4, x4, D4) <-
                (if f' =? 0
                 then ' (t', y', x', D') <-
                          less_than fuel (init y2) x2 D3 ;;
                      Some (negb t', y', x', D')
                 else Some (false, y2, x2, D3)) ;;
            if stop then Some (n, {| _y := y4; _z := z2 |}, x4, D4)
            else
              let (y5, z5) := swap y4 z2 in
              B_loop fuel' (n + 1) {| _y := y5; _z := z5 |} x4 D4 k
  end.

(** Algorithm B: [bool B(Generator& g, int k, u_rand<digit_gen>& x)];
    [return (n % 2) == 0]. *)
Definition B (fuel : nat) (tmp : scratch) (x : u_rand) (D : digit_gen)
  (k : Z) : option (bool * scratch * u_rand * digit_gen) :=
  ' (n, tmp1, x1, D1) <- B_loop fuel 0 tmp x D k ;;
  Some (Z.rem n 2 =? 0, tmp1, x1, D1).

(** [int j = k + 1; while (j-- && B(g, k, x)) {};] returning the final
    [j]. *)
Fixpoint B_repeat (fuel : nat) (j : Z) (tmp : scratch) (x : u_rand)
  (D : digit_gen) (k : Z)
  : option (Z * scratch * u_rand * digit_gen) :=
  match fuel with
  | O => None
  | S fuel' =>
      let j1 := j - 1 in
      if j =? 0 then Some (j1, tmp, x, D)
      else
        ' (r, tmp1, x1, D1) <- B fuel tmp x D k ;;
        if r then B_repeat fuel' j1 tmp1 x1 D1 k
        else Some (j1, tmp1, x1, D1)
  end.

(** [void generate(Generator& g, u_rand<digit_gen>& x)];
    [x.set_integer(k)] converts [k] to [unsigned]. *)
Fixpoint generate (fuel : nat) (tmp : scratch) (x : u_rand)
  (D : digit_gen) : option (scratch * u_rand * digit_gen) :=
  match fuel with
  | O => None
  | S fuel' =>
      ' (k, tmp1, D1) <- G fuel tmp D ;;
      ' (ok, tmp2, D2) <- P fuel tmp1 D1 (k * (k - 1)) ;;
      if negb ok then generate fuel' tmp2 x D2
      else
        let x3 := init x in
        ' (j, tmp4, x4, D4) <- B_repeat fuel (k + 1) tmp2 x3 D2 k ;;
        if negb (j <? 0) then generate fuel' tmp4 x4 D4
        else
          let x5 := set_integer x4 (k mod 2 ^ 32) in
          ' (r, y6, D6) <- less_than_half T fuel (init (_y tmp4)) D4 ;;
          let x6 := if r then negate x5 else x5 in
          Some ({| _y := y6; _z := _z tmp4 |}, x6, D6)
  end.
End Dist.

End UnitNormalDist.


(** ** u_rand.hpp: printing *)

Module URandPrint.
Import URand.

(** Hexadecimal digits in lower case, most significant first. *)
Fixpoint string_of_hex_uint (d : Hexadecimal.uint) : string :=
  match d with
  | Hexadecimal.Nil => EmptyString
  | Hexadecimal.D0 r => String "0" (string_of_hex_uint r)
  | Hexadecimal.D1 r => String "1" (string_of_hex_uint r)
  | Hexadecimal.D2 r => String "2" (string_of_hex_uint r)
  | Hexadecimal.D3 r => String "3" (string_of_hex_uint r)
  | Hexadecimal.D4 r => String "4" (string_of_hex_uint r)
  | Hexadecimal.D5 r => String "5" (string_of_hex_uint r)
  | Hexadecimal.D6 r => String "6" (string_of_hex_uint r)
  | Hexadecimal.D7 r => String "7" (string_of_hex_uint r)
  | Hexadecimal.D8 r => String "8" (string_of_hex_uint r)
  | Hexadecimal.D9 r => String "9" (string_of_hex_uint r)
  | Hexadecimal.Da r => String "a" (string_of_hex_uint r)
  | Hexadecimal.Db r => String "b" (string_of_hex_uint r)
  | Hexadecimal.Dc r => String "c" (string_of_hex_uint r)
  | Hexadecimal.Dd r => String "d" (string_of_hex_uint r)
  | Hexadecimal.De r => String "e" (string_of_hex_uint r)
  | Hexadecimal.Df r => String "f" (string_of_hex_uint r)
  end.

(** [os << std::hex << n] for an unsigned [n]: no prefix, no leading
    zeros. *)
Definition print_hex (n : Z) : string :=
  string_of_hex_uint (N.to_hex_uint (Z.to_N n)).

(** The effect of [std::setfill('0') << std::setw(w)] on the next item:
    zeros on the left up to the width [w], nothing cut. *)
Fixpoint zeros (n : nat) : string :=
  match n with
  | O => EmptyString
  | S n' => String "0" (zeros n')
  end.

Definition setw (w : Z) (s : string) : string :=
  (zeros (Z.to_nat w - String.length s) ++ s)%string.

(** [std::reverse(sint.begin(), sint.end())]. *)
Fixpoint string_rev (s : string) : string :=
  match s with
  | EmptyString => EmptyString
  | String c r => (string_rev r ++ String c EmptyString)%string
  end.

Section Print.
Variable T : digit_traits.
(** The width of [uint_t]. *)
Variable uint_w : Z.

(** [while (n) { osint << n % (base ? base : uint_t(1));
                 n /= base ? base : uint_t(1); }], the [int n] being
    converted to [uint_t] for both operations and the quotient back to
    [int]. *)
Fixpoint osint_loop (fuel : nat) (n : Z) (osint : string)
  : option string :=
  match fuel with
  | O => None
  | S fuel' =>
      if n =? 0 then Some osint
      else
        let B := if base T =? 0 then 1 else base T in
        let u := n mod 2 ^ uint_w in
        osint_loop fuel' (int_of_uint (u / B))
          (osint ++ print_hex (u mod B))%string
  end.

(** [for (size_t k = 0; k < x._d.size(); ++k)
      os << std::setw((bits+3)/4) << x._d[k];]. *)
Fixpoint print_digits (ds : list Z) : string :=
  match ds with
  | [] => EmptyString
  | d :: r =>
      (setw (Z.quot (bits T + 3) 4) (print_hex d) ++ print_digits r)%string
  end.

(** [static std::string bareprint(const u_rand& x)]. *)
Definition bareprint (fuel : nat) (x : u_rand) : option string :=
  ' sint <- (if (_n x =? 0) || (bits T >=? 4)
             then Some (print_hex (_n x))
             else ' osint <- osint_loop fuel (int_of_uint (_n x))
                                 EmptyString ;;
                  Some (string_rev osint)) ;;
  let sign := if _s x <? 0 then "-"%char else "+"%char in
  let point : string :=
    if (List.length (_d x) =? 0)%nat then EmptyString else "."%string in
  Some (String sign sint ++ point ++ print_digits (_d x))%string.

(** [x._d.resize(k)]: cut to [k] digits, or filled with zeros. *)
Definition resize (k : nat) (ds : list Z) : list Z :=
  firstn k ds ++ repeat 0 (k - List.length ds).

(** [while (k--) { if (x._d[k] < bm1) { ++x._d[k]; break; }
                   else x._d[k] = uint_t(0); }
     if (++k == 0U) ++x._n;]: the digits, and whether [k] has wrapped
    round, which is when the integer part is incremented. *)
Fixpoint round_up (k : nat) (ds : list Z) : list Z * bool :=
  match k with
  | O => (ds, true)
  | S k' =>
      if nth k' ds 0 <? bm1 T
      then (set_nth k' ((nth k' ds 0 + 1) mod 2 ^ uint_w) ds, false)
      else round_up k' (set_nth k' 0 ds)
  end.

(** The copy [x] that [print_fixed] prints, [trunc] being the result of
    [truncatep(g, k)]; [++x._n] is taken modulo [2^32]. *)
Definition rounded (x : u_rand) (k : nat) (trunc : bool) : u_rand :=
  let ds := resize k (_d x) in
  if trunc then {| _s := _s x; _n := _n x; _d := ds |}
  else
    let (ds', carry) := round_up k ds in
    {| _s := _s x;
       _n := if carry then (_n x + 1) mod 2 ^ 32 else _n x;
       _d := ds' |}.

(** [std::string print_fixed(Generator& g, size_t k)]. *)
Definition print_fixed (fuel : nat) (x : u_rand) (D : digit_gen)
  (k : nat) : option (string * u_rand * digit_gen) :=
  ' (trunc, x1, D1) <- truncatep T fuel x D k ;;
  ' s <- bareprint fuel (rounded x1 k trunc) ;;
  Some ((s ++ (if trunc then "(+)" else "(-)"))%string, x1, D1).

End Print.

End URandPrint.

(** ** Sample inputs *)

Module Samples.

(** Digit generators [rand_digit<2>], [rand_digit<3>], [rand_digit<10>]
    and [rand_digit<256>], with a 64-bit [uint_t]. *)
Definition T2 : digit_traits := rand_digit_traits 64 2.
Definition T3 : digit_traits := rand_digit_traits 64 3.
Definition T10 : digit_traits := rand_digit_traits 64 10.
Definition T256 : digit_traits := rand_digit_traits 64 256.

(** [rand_digit<0>], whose base is [2^32]. *)
Definition T32 : digit_traits := rand_digit_traits 64 0.


(** A 32-bit word generator alternating between two words. *)
Definition flip_gen : RandDigit.Generator :=
  {| RandDigit.gen_state := bool;
     RandDigit.gen_min := 0;
     RandDigit.gen_max := 0xffffffff;
     RandDigit.gen_next := fun g =>
       (if g then 0xdeadbeef else 0x12345678, negb g) |}.

(** A stand-in for [std::uniform_int_distribution] over [flip_gen]. *)
Definition flip_uniform (g : bool) (lo hi : Z) : Z * bool :=
  (if g then hi else lo, negb g).

(** Digit tapes. *)
Definition zeros : digit_gen := tape_of [] 0.
Definition ones : digit_gen := tape_of [] 1.
Definition tape_a : digit_gen := tape_of [1; 1; 0; 0; 1; 0; 1; 1; 0; 1] 0.

End Samples.

(** ** The discrete normal sampler over a digit generator that may throw

    [rand_table::operator()] hands on what [table_gen::operator()]
    returns, and this throws once its seed is used up. Nothing in the
    library catches an exception: one thrown by [_D(g)] leaves every
    function on the way, up to [generate] and [operator()]. The functions
    below are those of [u_rand], [i_rand] and [discrete_normal_dist] that
    sampling runs through, over a digit generator given by its state and
    its call. *)

Module Fallible.
Import DiscreteNormalDist.

(** How a call ends: it returns, an exception leaves it, or the fuel given
    to its loops runs out. *)
Inductive outcome (A : Type) : Type :=
| Done (a : A)
| Raised (msg : string)
| NoFuel.
Arguments Done {A} a.
Arguments Raised {A} msg.
Arguments NoFuel {A}.

(** Sequencing: an exception of the first call leaves the whole. *)
Definition bind {A B : Type} (c : outcome A) (f : A -> outcome B)
  : outcome B :=
  match c with
  | Done a => f a
  | Raised msg => Raised msg
  | NoFuel => NoFuel
  end.

Notation "'let*' p ':=' c1 'in' c2" :=
  (bind c1 (fun p => c2))
  (at level 10, p strict pattern, c1 at level 100, c2 at level 200).

(** The messages of the exceptions that can leave a call all satisfy
    [P]. *)
Definition raises_only {A : Type} (P : string -> Prop) (o : outcome A)
  : Prop :=
  match o with
  | Raised msg => P msg
  | _ => True
  end.

(** A result that may be out of fuel, seen as an outcome. *)
Definition of_option {A : Type} (o : option A) : outcome A :=
  match o with
  | Some a => Done a
  | None => NoFuel
  end.

(** A digit generator that never throws, seen through its tape. *)
Definition tape_next (D : digit_gen) : result Z * digit_gen :=
  (Ok (fst (draw D)), snd (draw D)).

Section Source.
(** The state of the digit generator and of the word generator it is
    called on, and [_D(g)]. *)
Variable St : Type.
Variable next : St -> result Z * St.
Variable T : digit_traits.

(** The exceptions of the digit generator. *)
Definition source_raises (msg : string) : Prop :=
  exists s : St, fst (next s) = Throw msg.

(** [_D(g)]. *)
Definition draw (s : St) : outcome (Z * St) :=
  match next s with
  | (Ok d, s') => Done (d, s')
  | (Throw msg, _) => Raised msg
  end.

(** *** u_rand *)

(** [cnt] times [_d.push_back(_D(g))]. *)
Fixpoint push_digits (cnt : nat) (ds : list Z) (s : St)
  : outcome (list Z * St) :=
  match cnt with
  | O => Done (ds, s)
  | S cnt' =>
      let* (dg, s') := draw s in
      push_digits cnt' (ds ++ [dg]) s'
  end.

(** [uint_t digit(Generator& g, size_t k)]. *)
Definition digit (x : URand.u_rand) (s : St) (k : nat)
  : outcome (Z * URand.u_rand * St) :=
  let* (ds, s') := push_digits (S k - URand.ndigits x) (URand._d x) s in
  Done (nth k ds 0,
        {| URand._s := URand._s x; URand._n := URand._n x;
           URand._d := ds |}, s').

(** The digit loop of [less_than(Generator& g, u_rand& t)]. *)
Fixpoint less_than_from (fuel k : nat) (x t : URand.u_rand) (s : St)
  : outcome (bool * URand.u_rand * URand.u_rand * St) :=
  match fuel with
  | O => NoFuel
  | S fuel' =>
      let* (a, x1, s1) := digit x s k in
      let* (c, t1, s2) := digit t s1 k in
      if negb (a =? c)
      then Done (xorb (URand._s x <? 0) (a <? c), x1, t1, s2)
      else less_than_from fuel' (S k) x1 t1 s2
  end.

(** [bool less_than(Generator& g, u_rand& t)]. *)
Definition less_than (fuel : nat) (x t : URand.u_rand) (s : St)
  : outcome (bool * URand.u_rand * URand.u_rand * St) :=
  if negb (URand._s x =? URand._s t)
  then Done (URand._s x <? URand._s t, x, t, s)
  else if negb (URand._n x =? URand._n t)
       then Done (xorb (URand._s x <? 0) (URand._n x <? URand._n t),
                  x, t, s)
       else less_than_from fuel 0 x t s.

(** [bool truncatep(Generator& g, size_t k)]. *)
Fixpoint truncatep (fuel : nat) (x : URand.u_rand) (s : St) (k : nat)
  : outcome (bool * URand.u_rand * St) :=
  match fuel with
  | O => NoFuel
  | S fuel' =>
      let* (d, x1, s1) := digit x s k in
      if d <=? Z.quot (URand.bm1 T - 1) 2 then Done (true, x1, s1)
      else if d >? Z.quot (URand.bm1 T) 2 then Done (false, x1, s1)
      else truncatep fuel' x1 s1 (S k)
  end.

(** [bool less_than_half(Generator& g)]. *)
Definition less_than_half (fuel : nat) (x : URand.u_rand) (s : St)
  : outcome (bool * URand.u_rand * St) :=
  if URand._s x <? 0 then Done (true, x, s)
  else if URand._n x >? 0 then Done (false, x, s)
  else truncatep fuel x s 0.

(** The digit loop of [compare]. *)
Fixpoint compare_from (fuel k : nat) (x : URand.u_rand) (s : St)
  (u1 u2 v : Z) : outcome (Z * URand.u_rand * St) :=
  match fuel with
  | O => NoFuel
  | S fuel' =>
      if u1 >=? v then Done (- URand._s x, x, s)
      else if u2 <=? 0 then Done (URand._s x, x, s)
      else if (u1 <=? 0) && (u2 >=? v) then Done (0, x, s)
      else
        let* (d, x1, s1) := digit x s k in
        compare_from fuel' (S k) x1 s1
          (Z.max 0 (u1 * base T - d * v))
          (Z.min v (u2 * base T - d * v)) v
  end.

(** [int compare(Generator& g, long long u1, long long u2,
    long long v)]. *)
Definition compare (fuel : nat) (x : URand.u_rand) (s : St)
  (u1 u2 v : Z) : outcome (Z * URand.u_rand * St) :=
  compare_from fuel 0 x s
    (Z.max 0 (URand._s x * u1 - URand._n x * v))
    (Z.min v (URand._s x * u2 - URand._n x * v)) v.

(** *** i_rand *)

(** [void refine(Generator& g)]:
    [if (_l > 0) { --_l; _d /= b; _a += _D(g) * _d; }]. *)
Definition i_refine (h : IRand.i_rand) (s : St)
  : outcome (IRand.i_rand * St) :=
  if IRand._l h >? 0 then
    let l1 := IRand._l h - 1 in
    let d1 := Z.quot (IRand._d h) (IRand.b T) in
    let* (dg, s') := draw s in
    Done ({| IRand._a := IRand._a h + dg * d1; IRand._d := d1;
             IRand._l := l1 |}, s')
  else Done (h, s).

(** The outer loop of [init]; its inner loop draws no digit. *)
Fixpoint i_init_loop (fuel : nat) (m v c : Z) (s : St)
  : outcome (IRand.i_rand * St) :=
  match fuel with
  | O => NoFuel
  | S fuel' =>
      match IRand.init_scan T fuel m v c 1 0 with
      | IRand.Found a d l =>
          Done ({| IRand._a := a; IRand._d := d; IRand._l := l |}, s)
      | IRand.Break =>
          let j := Z.quot v m * m in
          let v1 := v - j in
          let c1 := c - j in
          let* (dg, s') := draw s in
          i_init_loop fuel' m (v1 * IRand.b T) (c1 * IRand.b T + dg) s'
      | IRand.NoFuel => NoFuel
      end
  end.

(** [i_rand& init(Generator& g, int m)]. *)
Definition i_init (fuel : nat) (s : St) (m : Z)
  : outcome (IRand.i_rand * St) :=
  let m := if m <=? 0 then 1 else m in
  i_init_loop fuel m 1 0 s.

(** [int operator()(Generator& g) { while (_l) refine(g); return _a; }]. *)
Fixpoint i_call (fuel : nat) (h : IRand.i_rand) (s : St)
  : outcome (Z * IRand.i_rand * St) :=
  match fuel with
  | O => NoFuel
  | S fuel' =>
      if IRand._l h =? 0 then Done (IRand._a h, h, s)
      else
        let* (h', s') := i_refine h s in
        i_call fuel' h' s'
  end.

(** [bool less_than(Generator& g, long long m, long long n = 1)]. *)
Fixpoint i_less_than (fuel : nat) (h : IRand.i_rand) (s : St) (m n : Z)
  : outcome (bool * IRand.i_rand * St) :=
  match fuel with
  | O => NoFuel
  | S fuel' =>
      if n * IRand.max h <? m then Done (true, h, s)
      else if negb (n * IRand.min h <? m) then Done (false, h, s)
      else
        let* (h', s') := i_refine h s in
        i_less_than fuel' h' s' m n
  end.

(** [greater_than(g, m, n) = !less_than_equal(g, m, n)], and
    [less_than_equal(g, m, n) = less_than(g, m + 1, n)]. *)
Definition i_greater_than (fuel : nat) (h : IRand.i_rand) (s : St)
  (m n : Z) : outcome (bool * IRand.i_rand * St) :=
  let* (t, h', s') := i_less_than fuel h s (m + 1) n in
  Done (negb t, h', s').

(** [bool less_than(Generator& g, long long u0, long long c, long long v,
    i_rand<digit_gen>& h)]. *)
Fixpoint less_than_i (fuel : nat) (x : URand.u_rand) (s : St)
  (u0 c v : Z) (h : IRand.i_rand)
  : outcome (bool * URand.u_rand * IRand.i_rand * St) :=
  match fuel with
  | O => NoFuel
  | S fuel' =>
      let* (r, x1, s1) :=
        compare fuel x s (u0 + IRand.min h * c) (u0 + IRand.max h * c) v in
      if r <? 0 then Done (true, x1, h, s1)
      else if r >? 0 then Done (false, x1, h, s1)
      else
        let* (h1, s2) := i_refine h s1 in
        less_than_i fuel' x1 s2 u0 c v h1
  end.

(** *** discrete_normal_dist *)

(** The loop of [H]. *)
Fixpoint H_loop (fuel : nat) (y z : URand.u_rand) (s : St)
  : outcome (bool * scratch * St) :=
  match fuel with
  | O => NoFuel
  | S fuel' =>
      let* (r1, z1, y1, s1) := less_than fuel (URand.init z) y s in
      if negb r1 then Done (false, {| _y := y1; _z := z1 |}, s1)
      else
        let* (r2, y2, z2, s2) := less_than fuel (URand.init y1) z1 s1 in
        if negb r2 then Done (true, {| _y := y2; _z := z2 |}, s2)
        else H_loop fuel' y2 z2 s2
  end.

(** Algorithm H: [bool H(Generator& g)]. *)
Definition H (fuel : nat) (tmp : scratch) (s : St)
  : outcome (bool * scratch * St) :=
  let* (r, y1, s1) := less_than_half fuel (URand.init (_y tmp)) s in
  if negb r then Done (true, {| _y := y1; _z := _z tmp |}, s1)
  else H_loop fuel y1 (_z tmp) s1.

(** Step N1: [int n = 0; while (H(g)) ++n; return n;]. *)
Fixpoint G_from (fuel : nat) (n : Z) (tmp : scratch) (s : St)
  : outcome (Z * scratch * St) :=
  match fuel with
  | O => NoFuel
  | S fuel' =>
      let* (r, tmp1, s1) := H fuel tmp s in
      if r then G_from fuel' (n + 1) tmp1 s1 else Done (n, tmp1, s1)
  end.

Definition G (fuel : nat) (tmp : scratch) (s : St)
  : outcome (Z * scratch * St) :=
  G_from fuel 0 tmp s.

(** Step N2: [while (n-- && H(g)) {}; return n < 0;]. *)
Fixpoint P (fuel : nat) (tmp : scratch) (s : St) (n : Z)
  : outcome (bool * scratch * St) :=
  match fuel with
  | O => NoFuel
  | S fuel' =>
      let n1 := n - 1 in
      if n =? 0 then Done (n1 <? 0, tmp, s)
      else
        let* (r, tmp1, s1) := H fuel tmp s in
        if r then P fuel' tmp1 s1 n1 else Done (n1 <? 0, tmp1, s1)
  end.

Variable c : derived.

(** The loop of Algorithm B, [n] being the loop counter; the result is
    the final [n]. *)
Fixpoint B_loop (fuel : nat) (n : Z) (tmp : scratch) (s : St)
  (k xn0 : Z) (j : IRand.i_rand)
  : outcome (Z * scratch * IRand.i_rand * St) :=
  match fuel with
  | O => NoFuel
  | S fuel' =>
      let m := 2 * k + 2 in
      let* (f, z1, s1) :=
        (if k >? 0 then Done (0, _z tmp, s)
         else compare fuel (URand.init (_z tmp)) s 1 2 m) in
      if f <? 0 then Done (n, {| _y := _y tmp; _z := z1 |}, j, s1)
      else
        let z2 := URand.init z1 in
        let* (t, z3, y3, j3, s3) :=
          (if negb (n =? 0)
           then let* (t, z', y', s') := less_than fuel z2 (_y tmp) s1 in
                Done (t, z', y', j, s')
           else let* (t, z', j', s') :=
                  less_than_i fuel z2 s1 xn0 (_d c) (_sig c) j in
                Done (t, z', _y tmp, j', s')) in
        if negb t then Done (n, {| _y := y3; _z := z3 |}, j3, s3)
        else
          let* (f', y4, s4) :=
            (if k >? 0 then compare fuel (URand.init y3) s3 1 2 m
             else Done (f, y3, s3)) in
          if f' <? 0 then Done (n, {| _y := y4; _z := z3 |}, j3, s4)
          else
            let* (stop, y5, j5, s5) :=
              (if f' =? 0
               then let* (t', y', j', s') :=
                      less_than_i fuel (URand.init y4) s4
                        xn0 (_d c) (_sig c) j3 in
                    Done (negb t', y', j', s')
               else Done (false, y4, j3, s4)) in
            if stop then Done (n, {| _y := y5; _z := z3 |}, j5, s5)
            else
              let (y6, z6) := URand.swap y5 z3 in
              B_loop fuel' (n + 1) {| _y := y6; _z := z6 |} s5 k xn0 j5
  end.

(** Algorithm B: [return (n % 2) == 0]. *)
Definition B (fuel : nat) (tmp : scratch) (s : St) (k xn0 : Z)
  (j : IRand.i_rand)
  : outcome (bool * scratch * IRand.i_rand * St) :=
  let* (n, tmp1, j1, s1) := B_loop fuel 0 tmp s k xn0 j in
  Done (Z.rem n 2 =? 0, tmp1, j1, s1).

(** [int h = k + 1; while (h-- && B(g, k, xn0, j)) {};] returning the
    final [h]. *)
Fixpoint B_repeat (fuel : nat) (h : Z) (tmp : scratch) (s : St)
  (k xn0 : Z) (j : IRand.i_rand)
  : outcome (Z * scratch * IRand.i_rand * St) :=
  match fuel with
  | O => NoFuel
  | S fuel' =>
      let h1 := h - 1 in
      if h =? 0 then Done (h1, tmp, j, s)
      else
        let* (r, tmp1, j1, s1) := B fuel tmp s k xn0 j in
        if r then B_repeat fuel' h1 tmp1 s1 k xn0 j1
        else Done (h1, tmp1, j1, s1)
  end.

(** The test that rejects a candidate in [generate]:
    [!j.less_than(g, _sig - xn0, _d) ||
     (k == 0 && s < 0 && !j.greater_than(g, -xn0, _d))]. *)
Definition candidate_rejected (fuel : nat) (j : IRand.i_rand)
  (s : St) (k sg xn0 : Z) : outcome (bool * IRand.i_rand * St) :=
  let* (lt, j1, s1) := i_less_than fuel j s (_sig c - xn0) (_d c) in
  if negb lt then Done (true, j1, s1)
  else if (k =? 0) && (sg <? 0) then
    let* (gt, j2, s2) := i_greater_than fuel j1 s1 (- xn0) (_d c) in
    Done (negb gt, j2, s2)
  else Done (false, j1, s1).

(** [void generate(Generator& g, i_rand<digit_gen>& j)]. *)
Fixpoint generate (fuel : nat) (tmp : scratch) (j : IRand.i_rand)
  (s : St) : outcome (scratch * IRand.i_rand * St) :=
  match fuel with
  | O => NoFuel
  | S fuel' =>
      let* (k, tmp1, s1) := G fuel tmp s in
      let* (ok, tmp2, s2) := P fuel tmp1 s1 (k * (k - 1)) in
      if negb ok then generate fuel' tmp2 j s2
      else
        let* (j3, s3) := i_init fuel s2 2 in
        let* (v, j4, s4) := i_call fuel j3 s3 in
        let sg := if negb (v =? 0) then -1 else 1 in
        let xn := _sig c * k + sg * _mu c in
        let i0 := iceil xn (_d c) in
        let xn0 := i0 * _d c - xn in
        let* (j5, s5) := i_init fuel s4 (_isig c) in
        let* (rej, j6, s6) := candidate_rejected fuel j5 s5 k sg xn0 in
        if rej then generate fuel' tmp2 j6 s6
        else
          let* (h, tmp7, j7, s7) :=
            B_repeat fuel (k + 1) tmp2 s6 k xn0 j6 in
          if negb (h <? 0) then generate fuel' tmp7 j7 s7
          else
            let j8 := IRand.add j7 (i0 + sg * _imu c) in
            let j9 := if sg <? 0 then IRand.negate j8 else j8 in
            Done (tmp7, j9, s7)
  end.

(** [int operator()(Generator& g) { generate(g, _j); return _j(g); }]. *)
Definition sample (fuel : nat) (tmp : scratch) (j : IRand.i_rand)
  (s : St) : outcome (Z * scratch * IRand.i_rand * St) :=
  let* (tmp1, j1, s1) := generate fuel tmp j s in
  let* (v, j2, s2) := i_call fuel j1 s1 in
  Done (v, tmp1, j2, s2).
End Source.

(** *** The digit generators *)

(** [rand_table] called on a [table_gen]. *)
Definition table_next (uint_w : Z) (char_signed : bool)
  (s : TableGen.rand_table * TableGen.table_gen)
  : result Z * (TableGen.rand_table * TableGen.table_gen) :=
  let '(r, D', g') :=
    TableGen.table_call uint_w char_signed (fst s) (snd s) in
  (r, (D', g')).

End Fallible.
(** * Properties *)

(** ** The digit source *)

Section DigitArithmeticFacts.
Import DigitArithmetic.

Lemma highest_bit_idx_pos_spec (p : positive) :
  highest_bit_idx_pos p = Z.log2 (Zpos p) + 1.
Proof.
  induction p as [q IH | q IH | ]; cbn [highest_bit_idx_pos].
  - rewrite IH. change (Z.pos q~1) with (2 * Z.pos q + 1).
    rewrite Z.log2_succ_double by lia. lia.
  - rewrite IH. change (Z.pos q~0) with (2 * Z.pos q).
    rewrite Z.log2_double by lia. lia.
  - reflexivity.
Qed.

Lemma highest_bit_idx_bound (x : Z) :
  0 <= x -> 0 <= highest_bit_idx x /\ x < 2 ^ highest_bit_idx x.
Proof.
  intros Hx. destruct x as [ | p | p]; cbn [highest_bit_idx]; [cbn; lia | | lia].
  - rewrite highest_bit_idx_pos_spec.
    pose proof (Z.log2_nonneg (Zpos p)).
    split; [lia | ].
    apply Z.log2_spec. lia.
Qed.

Lemma highest_bit_idx_le (x n : Z) :
  0 <= n -> 0 <= x < 2 ^ n -> highest_bit_idx x <= n.
Proof.
  intros Hn [Hx Hlt]. destruct x as [ | p | p]; cbn [highest_bit_idx]; try lia.
  rewrite highest_bit_idx_pos_spec.
  assert (Z.log2 (Zpos p) < n) by (apply Z.log2_lt_pow2; lia). lia.
Qed.

Lemma base_mod (b : Z) : base b = b mod 2 ^ 32.
Proof.
  unfold base, uint_m. change 0xffffffff with (Z.ones 32).
  apply Z.land_ones. lia.
Qed.

Lemma base_range (b : Z) : 0 <= base b <= uint_m.
Proof.
  rewrite base_mod. unfold uint_m.
  pose proof (Z.mod_pos_bound b (2 ^ 32)). lia.
Qed.

Lemma basem1_range (b : Z) : 0 <= basem1 b <= uint_m.
Proof.
  unfold basem1. pose proof (base_range b).
  destruct (Z.eqb_spec (base b) 0); unfold uint_m in *; lia.
Qed.

(** The effective base: [base], or [2^32] when [base] is 0. *)
Lemma basem1_succ (b : Z) :
  basem1 b + 1 = if base b =? 0 then 2 ^ 32 else base b.
Proof.
  unfold basem1. destruct (base b =? 0); unfold uint_m; lia.
Qed.

Lemma bits_range (b : Z) : 0 <= bits b <= 32.
Proof.
  unfold bits. pose proof (basem1_range b) as Hr. unfold uint_m in Hr.
  rewrite Z.mod_small by lia.
  split.
  - apply highest_bit_idx_bound. lia.
  - apply highest_bit_idx_le; lia.
Qed.

Lemma basem1_lt_pow_bits (b : Z) : basem1 b < 2 ^ bits b.
Proof.
  unfold bits. pose proof (basem1_range b) as Hr. unfold uint_m in Hr.
  rewrite Z.mod_small by lia.
  apply highest_bit_idx_bound. lia.
Qed.

Lemma uint_shl_ones (w s : Z) :
  0 <= s <= w -> uint_shl w (uint_not w 0) s = 2 ^ w - 2 ^ s.
Proof.
  intros Hs. unfold uint_shl, uint_not.
  assert (Hp : 2 ^ w = 2 ^ s * 2 ^ (w - s)).
  { rewrite <- Z.pow_add_r by lia. f_equal. lia. }
  assert (0 < 2 ^ s) by (apply Z.pow_pos_nonneg; lia).
  assert (0 < 2 ^ (w - s)) by (apply Z.pow_pos_nonneg; lia).
  symmetry. apply Z.mod_unique with (q := 2 ^ s - 1).
  - left. nia.
  - nia.
Qed.

(** When [power_of_two] holds, the effective base is [2^bits]. *)
Lemma power_of_two_spec (w b : Z) :
  32 <= w -> power_of_two w b = true -> basem1 b + 1 = 2 ^ bits b.
Proof.
  intros Hw. unfold power_of_two.
  pose proof (bits_range b) as Hb.
  destruct (Z.eqb_spec (bits b) w) as [E | NE].
  - intros H. apply Z.eqb_eq in H. rewrite H, E. unfold uint_not. lia.
  - destruct (Z.ltb_spec (bits b) w) as [L | L]; [ | lia].
    intros H. apply Z.eqb_eq in H. rewrite H.
    rewrite uint_shl_ones by lia. unfold uint_not. lia.
Qed.

(** The top [bits] bits of a 32-bit word. *)
Lemma top_bits_range (w n : Z) :
  0 <= n <= 32 -> 0 <= w < 2 ^ 32 -> 0 <= Z.shiftr w (32 - n) < 2 ^ n.
Proof.
  intros Hn Hw. rewrite Z.shiftr_div_pow2 by lia.
  assert (0 < 2 ^ (32 - n)) by (apply Z.pow_pos_nonneg; lia).
  split.
  - apply Z.div_pos; lia.
  - apply Z.div_lt_upper_bound; [lia | ].
    rewrite <- Z.pow_add_r by lia.
    replace (32 - n + n) with 32 by lia. lia.
Qed.
End DigitArithmeticFacts.

Section RandDigitFacts.
Import DigitArithmetic RandDigit.

Variable uint_w : Z.
Variable G : Generator.
Variable uniform_int : gen_state G -> Z -> Z -> Z * gen_state G.
Variable b : Z.

(** [uint_t] has at least 32 bits. *)
Hypothesis uint_w_ge : 32 <= uint_w.
(** The word generator keeps to its bounds. *)
Hypothesis G_wf : gen_wf G.
(** [std::uniform_int_distribution] returns a value of the closed range
    it is given. *)
Hypothesis uniform_int_range :
  forall g lo hi, lo <= hi -> lo <= fst (uniform_int g lo hi) <= hi.

Lemma call_count (D : rand_digit) (g : gen_state G) :
  count (snd (fst (call uint_w G uniform_int b D g))) = count D + 1.
Proof.
  unfold call.
  destruct (power_of_two uint_w b && (gen_min G =? 0)
            && (gen_max G =? 0xffffffff)).
  - destruct (gen_next G g). reflexivity.
  - destruct (power_of_two uint_w b && (gen_min G =? 0)
              && (gen_max G =? 0xffffffffffffffff)).
    + destruct (gen_next G g). reflexivity.
    + destruct (uniform_int g min_value (max_value b)). reflexivity.
Qed.

Lemma call_digit_range (D : rand_digit) (g : gen_state G) :
  0 <= fst (fst (call uint_w G uniform_int b D g)) < basem1 b + 1.
Proof.
  unfold call.
  pose proof (bits_range b) as Hbits.
  assert (Hpow : 2 ^ bits b <= 2 ^ uint_w)
    by (apply Z.pow_le_mono_r; lia).
  destruct (power_of_two uint_w b && (gen_min G =? 0)
            && (gen_max G =? 0xffffffff)) eqn:E1.
  - apply andb_prop in E1 as [E1 Emax]. apply andb_prop in E1 as [Ep Emin].
    apply Z.eqb_eq in Emax, Emin.
    pose proof (G_wf g) as Hg. rewrite Emin, Emax in Hg.
    destruct (gen_next G g) as [w g']. cbn [fst snd] in *.
    rewrite (power_of_two_spec uint_w b uint_w_ge Ep).
    pose proof (top_bits_range w (bits b) Hbits ltac:(lia)).
    rewrite Z.mod_small; lia.
  - destruct (power_of_two uint_w b && (gen_min G =? 0)
              && (gen_max G =? 0xffffffffffffffff)) eqn:E2.
    + apply andb_prop in E2 as [E2 Emax]. apply andb_prop in E2 as [Ep Emin].
      destruct (gen_next G g) as [w g']. cbn [fst snd].
      rewrite (power_of_two_spec uint_w b uint_w_ge Ep).
      assert (Hl : 0 <= Z.land w 0xffffffff < 2 ^ 32).
      { change 0xffffffff with (Z.ones 32).
        rewrite Z.land_ones by lia. apply Z.mod_pos_bound. lia. }
      pose proof (top_bits_range _ (bits b) Hbits Hl).
      rewrite Z.mod_small; lia.
    + pose proof (basem1_range b) as Hr.
      pose proof (uniform_int_range g min_value (max_value b)) as Hu.
      unfold min_value, max_value in *.
      destruct (uniform_int g 0 (basem1 b)) as [r g']. cbn [fst snd] in *.
      lia.
Qed.

Lemma calls_spec (n : nat) (D : rand_digit) (g : gen_state G) :
  let '(ds, D', _) := calls uint_w G uniform_int b n D g in
  List.length ds = n
  /\ count D' = count D + Z.of_nat n
  /\ Forall (fun d => 0 <= d < basem1 b + 1) ds.
Proof.
  revert D g. induction n as [ | n IH]; intros D g.
  - cbn. repeat split; [lia | constructor].
  - cbn [calls].
    pose proof (call_count D g) as Hc.
    pose proof (call_digit_range D g) as Hd.
    destruct (call uint_w G uniform_int b D g) as [[d D1] g1].
    cbn [fst snd] in Hc, Hd.
    specialize (IH D1 g1).
    destruct (calls uint_w G uniform_int b n D1 g1) as [[ds D2] g2].
    destruct IH as (Hl & Hcnt & Hall).
    repeat split.
    + cbn. lia.
    + lia.
    + constructor; assumption.
Qed.

(** C7. Every digit returned by [rand_digit<b>::operator()], on the two
    power-of-two fast paths and on the [uniform_int_distribution] path,
    lies in [0, base) (the base being [basem1 + 1], i.e. [base] or [2^32]
    when [base] is 0), and the call adds exactly one to the count; hence
    after [n] calls on a freshly constructed digit source the count is
    [n], the number of digits drawn, and never decreases. *)
Theorem rand_digit_range_and_count :
  (forall D g,
      let '(d, D', _) := call uint_w G uniform_int b D g in
      0 <= d < basem1 b + 1 /\ count D' = count D + 1)
  /\ (forall n g,
         let '(ds, D', _) := calls uint_w G uniform_int b n construct g in
         count D' = Z.of_nat (List.length ds)
         /\ List.length ds = n
         /\ Forall (fun d => 0 <= d < basem1 b + 1) ds)
  /\ (forall n D g,
         count D <= count (snd (fst (calls uint_w G uniform_int b n D g)))).
Proof.
  split; [ | split].
  - intros D g.
    pose proof (call_count D g) as Hc.
    pose proof (call_digit_range D g) as Hd.
    destruct (call uint_w G uniform_int b D g) as [[d D1] g1].
    cbn [fst snd] in *. split; assumption.
  - intros n g.
    pose proof (calls_spec n construct g) as H.
    destruct (calls uint_w G uniform_int b n construct g) as [[ds D2] g2].
    destruct H as (Hl & Hcnt & Hall).
    repeat split; try assumption.
    rewrite Hcnt, Hl. cbn. lia.
  - intros n D g.
    pose proof (calls_spec n D g) as H.
    destruct (calls uint_w G uniform_int b n D g) as [[ds D2] g2].
    destruct H as (Hl & Hcnt & Hall). cbn [fst snd]. lia.
Qed.
End RandDigitFacts.
(** An instance: [rand_digit<10>] over
    [flip_gen]. *)
Lemma rand_digit_range_and_count_witness :
  32 <= 64
  /\ RandDigit.gen_wf Samples.flip_gen
  /\ (forall g lo hi,
         lo <= hi -> lo <= fst (Samples.flip_uniform g lo hi) <= hi)
  /\ (let '(d, D', _) :=
        RandDigit.call 64 Samples.flip_gen Samples.flip_uniform 10
          RandDigit.construct true in
      0 <= d < DigitArithmetic.basem1 10 + 1
      /\ RandDigit.count D' = RandDigit.count RandDigit.construct + 1).
Proof.
  assert (H1 : 32 <= 64) by lia.
  assert (H2 : RandDigit.gen_wf Samples.flip_gen).
  { intros g. destruct g; cbn; lia. }
  assert (H3 : forall g lo hi,
             lo <= hi -> lo <= fst (Samples.flip_uniform g lo hi) <= hi).
  { intros g lo hi Hle. destruct g; cbn; lia. }
  split; [exact H1 | ]. split; [exact H2 | ]. split; [exact H3 | ].
  exact (proj1 (rand_digit_range_and_count 64 Samples.flip_gen
                  Samples.flip_uniform 10 H1 H2 H3)
           RandDigit.construct true).
Defined.

(** ** i_rand *)

Section IRandFacts.
Import IRand.
Variable T : digit_traits.

Lemma init_scan_inv (fuel : nat) (m w a d l a' d' l' : Z) :
  0 <= l -> d = b T ^ l ->
  init_scan T fuel m w a d l = Found a' d' l' ->
  0 <= l' /\ d' = b T ^ l'.
Proof.
  revert w a d l. induction fuel as [ | fuel IH]; intros w a d l Hl Hd;
    cbn [init_scan]; [discriminate | ].
  assert (Hstep : d * b T = b T ^ (l + 1)).
  { rewrite Z.pow_add_r, Z.pow_1_r by lia. now subst d. }
  destruct (w >=? m).
  - destruct (w - Z.quot a m * m >=? m).
    + destruct (a - Z.quot a m * m + d <=? m); [ | discriminate].
      intros E. injection E as <- <- <-. now split.
    + intros E. eapply IH; [ | | exact E]; [lia | exact Hstep].
  - intros E. eapply IH; [ | | exact E]; [lia | exact Hstep].
Qed.

Lemma init_loop_inv (fuel : nat) (m v c : Z) (D D' : digit_gen)
  (h : i_rand) :
  init_loop T fuel m v c D = Some (h, D') -> Inv T h.
Proof.
  revert v c D. induction fuel as [ | fuel IH]; intros v c D;
    [discriminate | ].
  cbn [init_loop].
  destruct (init_scan T (S fuel) m v c 1 0) as [a d l | | ] eqn:E.
  - intros E'. injection E' as <- <-.
    apply init_scan_inv in E; [exact E | lia | reflexivity].
  - destruct (draw D) as [dg D1]. apply IH.
  - discriminate.
Qed.

Lemma init_inv (fuel : nat) (m : Z) (D D' : digit_gen) (h : i_rand) :
  init T fuel D m = Some (h, D') -> Inv T h.
Proof. unfold init. apply init_loop_inv. Qed.

Lemma negate_inv (h : i_rand) : Inv T h -> Inv T (negate h).
Proof. unfold Inv, negate. cbn. tauto. Qed.

Lemma add_inv (h : i_rand) (c : Z) : Inv T h -> Inv T (add h c).
Proof. unfold Inv, add. cbn. tauto. Qed.

Hypothesis b_ge_2 : 2 <= b T.

Lemma pow_b_pos (l : Z) : 0 <= l -> 1 <= b T ^ l.
Proof.
  intros Hl. assert (0 < b T ^ l) by (apply Z.pow_pos_nonneg; lia). lia.
Qed.

Lemma quot_pow_b (l : Z) :
  0 < l -> Z.quot (b T ^ l) (b T) = b T ^ (l - 1).
Proof.
  intros Hl.
  replace (b T ^ l) with (b T ^ (l - 1) * b T).
  - apply Z.quot_mul. lia.
  - rewrite <- (Z.pow_1_r (b T)) at 2. rewrite <- Z.pow_add_r by lia.
    f_equal. lia.
Qed.

(** What [refine] does when digits remain to be drawn. *)
Lemma refine_pos (h : i_rand) (D : digit_gen) :
  Inv T h -> 0 < _l h ->
  refine T h D =
    ({| _a := _a h + tape D (count D) * b T ^ (_l h - 1);
        _d := b T ^ (_l h - 1); _l := _l h - 1 |},
     {| tape := tape D; count := S (count D) |}).
Proof.
  intros [Hl Hd] Hpos. unfold refine.
  destruct (Z.gtb_spec (_l h) 0) as [_ | ]; [ | lia].
  unfold draw. rewrite Hd, quot_pow_b by lia. reflexivity.
Qed.

(** [refine] on a fixed i-rand does nothing. *)
Lemma refine_zero (h : i_rand) (D : digit_gen) :
  _l h <= 0 -> refine T h D = (h, D).
Proof.
  intros Hz. unfold refine.
  destruct (Z.gtb_spec (_l h) 0); [lia | reflexivity].
Qed.

Lemma refine_inv (h : i_rand) (D : digit_gen) :
  Inv T h -> Inv T (fst (refine T h D)).
Proof.
  intros HI. destruct (Z_lt_le_dec 0 (_l h)) as [Hpos | Hz].
  - rewrite refine_pos by assumption. destruct HI as [Hl Hd].
    unfold Inv. cbn. split; [lia | reflexivity].
  - rewrite refine_zero by assumption. exact HI.
Qed.

Lemma call_inv (fuel : nat) (h h' : i_rand) (D D' : digit_gen) (v : Z) :
  Inv T h -> call T fuel h D = Some (v, h', D') -> Inv T h'.
Proof.
  revert h D. induction fuel as [ | fuel IH]; intros h D HI;
    [discriminate | ].
  cbn [call]. destruct (_l h =? 0).
  - intros E. injection E as <- <- <-. exact HI.
  - pose proof (refine_inv h D HI) as HI'.
    destruct (refine T h D) as [h1 D1]. apply IH. exact HI'.
Qed.

Lemma less_than_inv (fuel : nat) (h h' : i_rand) (D D' : digit_gen)
  (m n : Z) (t : bool) :
  Inv T h -> less_than T fuel h D m n = Some (t, h', D') -> Inv T h'.
Proof.
  revert h D. induction fuel as [ | fuel IH]; intros h D HI;
    [discriminate | ].
  cbn [less_than]. destruct (n * max h <? m).
  - intros E. injection E as <- <- <-. exact HI.
  - destruct (negb (n * min h <? m)).
    + intros E. injection E as <- <- <-. exact HI.
    + pose proof (refine_inv h D HI) as HI'.
      destruct (refine T h D) as [h1 D1]. apply IH. exact HI'.
Qed.


Lemma inv_min_le_max (h : i_rand) : Inv T h -> min h <= max h.
Proof.
  intros [Hl Hd]. unfold min, max. rewrite Hd.
  pose proof (pow_b_pos (_l h) Hl). lia.
Qed.

End IRandFacts.

(** C9. For [m <= 0], [init(g, m)] is [init(g, 1)]: it returns at once
    (any positive fuel suffices), draws no digit and leaves the i-rand
    fixed at 0, with [min = max = 0] and entropy 0. *)
Theorem i_rand_init_nonpositive (T : digit_traits) (fuel : nat)
  (D : digit_gen) (m : Z) :
  m <= 0 ->
  IRand.init T (S fuel) D m = IRand.init T (S fuel) D 1
  /\ exists h, IRand.init T (S fuel) D m = Some (h, D)
               /\ IRand.min h = 0 /\ IRand.max h = 0
               /\ IRand.entropy h = 0.
Proof.
  intros Hm. unfold IRand.init.
  destruct (Z.leb_spec m 0) as [_ | ]; [ | lia].
  split; [reflexivity | ].
  exists {| IRand._a := 0; IRand._d := 1; IRand._l := 0 |}.
  repeat split.
Qed.

Lemma i_rand_init_nonpositive_witness :
  -5 <= 0
  /\ IRand.init Samples.T10 (S 0) Samples.tape_a (-5)
     = IRand.init Samples.T10 (S 0) Samples.tape_a 1.
Proof.
  split; [lia | ].
  apply (i_rand_init_nonpositive Samples.T10 0 Samples.tape_a (-5)). lia.
Defined.


(** ** u_rand *)

Section URandFacts.
Import URand.
Variable T : digit_traits.

Lemma push_digits_app (cnt : nat) (ds : list Z) (D : digit_gen) :
  exists more,
    fst (push_digits cnt ds D) = ds ++ more
    /\ List.length more = cnt
    /\ snd (push_digits cnt ds D)
       = {| tape := tape D; count := (count D + cnt)%nat |}
    /\ forall i, (i < cnt)%nat -> nth i more 0 = tape D (count D + i)%nat.
Proof.
  revert ds D. induction cnt as [ | cnt IH]; intros ds D.
  - exists []. cbn. rewrite app_nil_r, Nat.add_0_r. destruct D.
    repeat split. intros i Hi. lia.
  - cbn [push_digits]. unfold draw.
    destruct (IH (ds ++ [tape D (count D)])
                {| tape := tape D; count := S (count D) |})
      as (more & E1 & E2 & E3 & E4).
    exists (tape D (count D) :: more).
    rewrite E1, E3, <- app_assoc. cbn.
    repeat split.
    + now rewrite E2.
    + f_equal. lia.
    + intros [ | i] Hi.
      * now rewrite Nat.add_0_r.
      * rewrite E4 by lia. cbn. f_equal. lia.
Qed.

(** [digit] keeps the sign, the integer part and the digits already
    there. *)
Lemma digit_spec (x : u_rand) (D : digit_gen) (k : nat) :
  exists more,
    let '(d, x', D') := digit x D k in
    _s x' = _s x /\ _n x' = _n x /\ _d x' = _d x ++ more
    /\ d = nth k (_d x') 0
    /\ List.length more = (S k - ndigits x)%nat
    /\ (k < ndigits x')%nat
    /\ D' = {| tape := tape D; count := (count D + List.length more)%nat |}
    /\ forall i, (i < List.length more)%nat ->
                 nth i more 0 = tape D (count D + i)%nat.
Proof.
  unfold digit.
  destruct (push_digits_app (S k - ndigits x) (_d x) D)
    as (more & E1 & E2 & E3 & E4).
  exists more.
  destruct (push_digits (S k - ndigits x) (_d x) D) as [ds D'].
  cbn [fst snd] in *. subst ds D'. cbn.
  repeat split; try assumption.
  - unfold ndigits in *. rewrite length_app. lia.
  - now rewrite E2.
  - now rewrite E2 in *.
Qed.

Hypothesis bm1_pos : 1 <= bm1 T.

(** C2, as the code has it. With [b = bm1 + 1] the base and [d] the
    [k]-th digit, [truncatep(g, k)] returns true when
    [d <= floor((b-2)/2)], false when [d > floor((b-1)/2)], and otherwise
    goes on with digit [k+1]; this last case arises only when [b] is odd
    and [d = (b-1)/2], so that for an even base one digit decides. *)
Theorem truncatep_step (fuel : nat) (x : u_rand) (D : digit_gen)
  (k : nat) :
  let b := bm1 T + 1 in
  let '(d, x1, D1) := digit x D k in
  (d <= (b - 2) / 2 ->
   truncatep T (S fuel) x D k = Some (true, x1, D1))
  /\ (d > (b - 1) / 2 ->
      truncatep T (S fuel) x D k = Some (false, x1, D1))
  /\ (~ d <= (b - 2) / 2 -> ~ d > (b - 1) / 2 ->
      truncatep T (S fuel) x D k = truncatep T fuel x1 D1 (S k)
      /\ Z.odd b = true /\ d = (b - 1) / 2).
Proof.
  intros b. cbn [truncatep].
  destruct (digit x D k) as [[d x1] D1].
  assert (E1 : Z.quot (bm1 T - 1) 2 = (b - 2) / 2).
  { unfold b. rewrite Z.quot_div_nonneg by lia. f_equal. lia. }
  assert (E2 : Z.quot (bm1 T) 2 = (b - 1) / 2).
  { unfold b. rewrite Z.quot_div_nonneg by lia. f_equal. lia. }
  rewrite E1, E2.
  assert (Hle : (b - 2) / 2 <= (b - 1) / 2)
    by (apply Z.div_le_mono; lia).
  destruct (Z.leb_spec d ((b - 2) / 2)) as [L1 | L1];
    destruct (Z.gtb_spec d ((b - 1) / 2)) as [L2 | L2];
    (split; [ | split]); intros; try reflexivity; try lia.
  assert (Hodd : Z.odd b = true).
  { rewrite <- Z.negb_even. apply negb_true_iff.
    destruct (Z.even b) eqn:Ev; [ | reflexivity].
    apply Z.even_spec in Ev. destruct Ev as [q Eq].
    assert ((b - 2) / 2 = q - 1)
      by (symmetry; apply Z.div_unique with (r := 0); lia).
    assert ((b - 1) / 2 = q - 1)
      by (symmetry; apply Z.div_unique with (r := 1); lia).
    lia. }
  split; [reflexivity | ]. split; [exact Hodd | ].
  apply Z.odd_spec in Hodd. destruct Hodd as [q Eq].
  assert ((b - 2) / 2 = q - 1)
    by (symmetry; apply Z.div_unique with (r := 1); lia).
  assert ((b - 1) / 2 = q)
    by (symmetry; apply Z.div_unique with (r := 0); lia).
  lia.
Qed.

(** For an even base, [truncatep] needs one digit only. *)
Lemma truncatep_even (fuel : nat) (x : u_rand) (D : digit_gen) (k : nat) :
  Z.odd (bm1 T) = true ->
  let '(d, x1, D1) := digit x D k in
  truncatep T (S fuel) x D k = Some (d <=? Z.quot (bm1 T - 1) 2, x1, D1).
Proof.
  intros Hodd. cbn [truncatep].
  destruct (digit x D k) as [[d x1] D1].
  destruct (Z.leb_spec d (Z.quot (bm1 T - 1) 2)) as [L1 | L1];
    [reflexivity | ].
  destruct (Z.gtb_spec d (Z.quot (bm1 T) 2)) as [L2 | L2];
    [reflexivity | ].
  rewrite Z.quot_div_nonneg in L1, L2 by lia.
  apply Z.odd_spec in Hodd. destruct Hodd as [q Eq].
  assert ((bm1 T - 1) / 2 = q)
    by (symmetry; apply Z.div_unique with (r := 0); lia).
  assert (bm1 T / 2 = q)
    by (symmetry; apply Z.div_unique with (r := 1); lia).
  lia.
Qed.
End URandFacts.

(** In base 3 the digit 1 is a tie and the next digit, 0, decides. *)
Lemma truncatep_step_witness :
  let D := tape_of [1; 0] 2 in
  1 <= URand.bm1 Samples.T3
  /\ URand.truncatep Samples.T3 1 URand.construct D 0 = None
  /\ URand.truncatep Samples.T3 2 URand.construct D 0
     = Some (true, {| URand._s := 1; URand._n := 0; URand._d := [1; 0] |},
             {| tape := tape D; count := 2 |}).
Proof.
  intros D.
  assert (Hb : 1 <= URand.bm1 Samples.T3) by (vm_compute; discriminate).
  pose proof (truncatep_step Samples.T3 Hb 0 URand.construct D 0) as H0.
  pose proof (truncatep_step Samples.T3 Hb 1 URand.construct D 0) as H1.
  cbv zeta in H0, H1.
  change (URand.digit URand.construct D 0)
    with (1, {| URand._s := 1; URand._n := 0; URand._d := [1] |},
          {| tape := tape D; count := 1 |}) in H0, H1.
  cbv beta iota in H0, H1.
  destruct H0 as (_ & _ & H0). destruct H1 as (_ & _ & H1).
  assert (Ha : ~ 1 <= (URand.bm1 Samples.T3 + 1 - 2) / 2)
    by (vm_compute; intros E; apply E; reflexivity).
  assert (Hc : ~ 1 > (URand.bm1 Samples.T3 + 1 - 1) / 2)
    by (vm_compute; discriminate).
  destruct (H0 Ha Hc) as (E0 & _). destruct (H1 Ha Hc) as (E1 & _).
  split; [exact Hb | ]. split.
  - rewrite E0. reflexivity.
  - rewrite E1. reflexivity.
Defined.

(** C2, as stated, fails: the case in which [truncatep] goes on to the next
    digit is not confined to even bases. In base 3 the digit 1 is neither
    [<= floor((3-2)/2) = 0] nor [> floor((3-1)/2) = 1]; and in the even
    base 2 the digit [b/2 = 1] gives false at once. *)
Lemma truncatep_tie_counterexample :
  ~ (forall (T : digit_traits) (d : Z),
        let b := URand.bm1 T + 1 in
        1 <= URand.bm1 T -> 0 <= d < b ->
        ~ d <= (b - 2) / 2 -> ~ d > (b - 1) / 2 ->
        Z.even b = true /\ d = b / 2)
  /\ URand.truncatep Samples.T3 1 URand.construct (tape_of [1; 0] 2) 0
     = None
  /\ URand.truncatep Samples.T2 1 URand.construct (tape_of [1; 0] 0) 0
     = Some (false, {| URand._s := 1; URand._n := 0; URand._d := [1] |},
             {| tape := tape (tape_of [1; 0] 0); count := 1 |}).
Proof.
  split; [ | split; reflexivity].
  intros H. specialize (H Samples.T3 1). cbv zeta in H.
  assert (E : Z.even (URand.bm1 Samples.T3 + 1) = true
              /\ 1 = (URand.bm1 Samples.T3 + 1) / 2).
  { apply H; vm_compute; try discriminate.
    - split; [discriminate | reflexivity].
    - intros E. apply E. reflexivity. }
  destruct E as [E _]. vm_compute in E. discriminate.
Qed.

(** ** Frame properties of the u_rand comparisons *)

Section URandFrames.
Import URand.
Variable T : digit_traits.

Lemma extends_refl (x : u_rand) : extends x x.
Proof. repeat split. exists []. now rewrite app_nil_r. Qed.

Lemma extends_trans (x y z : u_rand) :
  extends x y -> extends y z -> extends x z.
Proof.
  intros (S1 & N1 & m1 & E1) (S2 & N2 & m2 & E2).
  repeat split; try congruence.
  exists (m1 ++ m2). now rewrite E2, E1, app_assoc.
Qed.

Lemma advances_refl (D : digit_gen) : advances D D.
Proof. split; [reflexivity | lia]. Qed.

Lemma advances_trans (D1 D2 D3 : digit_gen) :
  advances D1 D2 -> advances D2 D3 -> advances D1 D3.
Proof. intros [E1 L1] [E2 L2]. split; [congruence | lia]. Qed.

Lemma digit_frame (x : u_rand) (D : digit_gen) (k : nat) :
  let '(_, x', D') := digit x D k in extends x x' /\ advances D D'.
Proof.
  destruct (digit_spec x D k) as [more H].
  destruct (digit x D k) as [[d x'] D'].
  destruct H as (Hs & Hn & Hd & _ & _ & _ & HD & _).
  split.
  - repeat split; try assumption. now exists more.
  - subst D'. split; cbn; [reflexivity | lia].
Qed.

Lemma less_than_from_frame (fuel k : nat) (x t : u_rand) (D : digit_gen)
  r x' t' D' :
  less_than_from fuel k x t D = Some (r, x', t', D') ->
  extends x x' /\ extends t t' /\ advances D D'.
Proof.
  revert k x t D. induction fuel as [ | fuel IH]; intros k x t D;
    [discriminate | ].
  cbn [less_than_from].
  pose proof (digit_frame x D k) as H1.
  destruct (digit x D k) as [[a x1] D1].
  pose proof (digit_frame t D1 k) as H2.
  destruct (digit t D1 k) as [[c t1] D2].
  destruct H1 as [Hx HD1]. destruct H2 as [Ht HD2].
  destruct (negb (a =? c)).
  - intros E. injection E as <- <- <- <-.
    repeat split; try assumption; try apply Hx; try apply Ht.
    + eapply advances_trans; eassumption.
    + destruct HD1, HD2. lia.
  - intros E. apply IH in E. destruct E as (Hx' & Ht' & HD').
    split; [eapply extends_trans; eassumption | ].
    split; [eapply extends_trans; eassumption | ].
    eapply advances_trans; [ | exact HD'].
    eapply advances_trans; eassumption.
Qed.

Lemma less_than_frame (fuel : nat) (x t : u_rand) (D : digit_gen)
  r x' t' D' :
  less_than fuel x t D = Some (r, x', t', D') ->
  extends x x' /\ extends t t' /\ advances D D'.
Proof.
  unfold less_than.
  destruct (negb (_s x =? _s t));
    [ | destruct (negb (_n x =? _n t))].
  - intros E. injection E as <- <- <- <-.
    auto using extends_refl, advances_refl.
  - intros E. injection E as <- <- <- <-.
    auto using extends_refl, advances_refl.
  - apply less_than_from_frame.
Qed.

Lemma truncatep_frame (fuel : nat) (x : u_rand) (D : digit_gen) (k : nat)
  r x' D' :
  truncatep T fuel x D k = Some (r, x', D') ->
  extends x x' /\ advances D D'.
Proof.
  revert k x D. induction fuel as [ | fuel IH]; intros k x D;
    [discriminate | ].
  cbn [truncatep].
  pose proof (digit_frame x D k) as H1.
  destruct (digit x D k) as [[d x1] D1]. destruct H1 as [Hx HD].
  destruct (d <=? Z.quot (bm1 T - 1) 2);
    [ | destruct (d >? Z.quot (bm1 T) 2)].
  - intros E. injection E as <- <- <-. now split.
  - intros E. injection E as <- <- <-. now split.
  - intros E. apply IH in E. destruct E as [Hx' HD'].
    split; [eapply extends_trans | eapply advances_trans]; eassumption.
Qed.

Lemma less_than_half_frame (fuel : nat) (x : u_rand) (D : digit_gen)
  r x' D' :
  less_than_half T fuel x D = Some (r, x', D') ->
  extends x x' /\ advances D D'.
Proof.
  unfold less_than_half.
  destruct (_s x <? 0); [ | destruct (_n x >? 0)].
  - intros E. injection E as <- <- <-.
    auto using extends_refl, advances_refl.
  - intros E. injection E as <- <- <-.
    auto using extends_refl, advances_refl.
  - apply truncatep_frame.
Qed.

(** On a fresh u-rand and an even base, [less_than_half] draws the first
    digit and compares it with [(bm1 - 1) / 2]. *)
Lemma less_than_half_init (fuel : nat) (x : u_rand) (D : digit_gen) :
  1 <= bm1 T -> Z.odd (bm1 T) = true ->
  less_than_half T (S fuel) (init x) D
  = Some (tape D (count D) <=? Z.quot (bm1 T - 1) 2,
          {| _s := 1; _n := 0; _d := [tape D (count D)] |},
          {| tape := tape D; count := S (count D) |}).
Proof.
  intros Hpos Hodd. unfold less_than_half. cbn [init _s _n].
  change (1 <? 0) with false. change (0 >? 0) with false. cbv iota.
  pose proof (truncatep_even T Hpos fuel (init x) D 0 Hodd) as H.
  exact H.
Qed.
End URandFrames.

(** ** unit_exponential_dist *)

Section UnitExponentialFacts.
Import URand UnitExponentialDist.
Variable T : digit_traits.
Variable uint_w : Z.

Lemma F_loop_frame (fuel : nat) (v w : u_rand) (D : digit_gen) r tmp' D' :
  F_loop fuel v w D = Some (r, tmp', D') -> advances D D'.
Proof.
  revert v w D. induction fuel as [ | fuel IH]; intros v w D;
    [discriminate | ].
  cbn [F_loop].
  destruct (less_than (S fuel) (init v) w D)
    as [[[[r1 v1] w1] D1] | ] eqn:E1; [ | discriminate].
  apply less_than_frame in E1. destruct E1 as (_ & _ & A1).
  destruct (negb r1).
  - intros E. injection E as <- <- <-. exact A1.
  - destruct (less_than (S fuel) (init w1) v1 D1)
      as [[[[r2 w2] v2] D2] | ] eqn:E2; [ | discriminate].
    apply less_than_frame in E2. destruct E2 as (_ & _ & A2).
    destruct (negb r2).
    + intros E. injection E as <- <- <-.
      eapply advances_trans; eassumption.
    + intros E. apply IH in E.
      eapply advances_trans; [ | exact E].
      eapply advances_trans; eassumption.
Qed.

Lemma F_von_neumann_frame (fuel : nat) tmp (p : u_rand) (D : digit_gen)
  r tmp' p' D' :
  F_von_neumann fuel tmp p D = Some (r, tmp', p', D') ->
  extends p p' /\ advances D D'.
Proof.
  unfold F_von_neumann.
  destruct (less_than fuel (init (_w tmp)) p D)
    as [[[[r1 w1] p1] D1] | ] eqn:E1; [ | discriminate].
  apply less_than_frame in E1. destruct E1 as (_ & Hp & A1).
  destruct (negb r1).
  - intros E. injection E as <- <- <- <-. now split.
  - destruct (F_loop fuel (_v tmp) w1 D1) as [[[t tmp1] D2] | ] eqn:E2;
      [ | discriminate].
    apply F_loop_frame in E2.
    intros E. injection E as <- <- <- <-.
    split; [exact Hp | eapply advances_trans; eassumption].
Qed.

Hypothesis bm1_pos : 1 <= bm1 T.

(** Algorithm E: [F] bails out, without touching the temporaries, when
    the fresh [p] is not below 1/2, and otherwise runs the von Neumann
    procedure on [p], whose first digit is then at most [(bm1 - 1) / 2]. *)
Lemma F_bit_optimized (fuel : nat) tmp (p : u_rand) (D : digit_gen) :
  Z.odd (bm1 T) = true ->
  let d0 := tape D (count D) in
  let p1 := {| _s := 1; _n := 0; _d := [d0] |} in
  let D1 := {| tape := tape D; count := S (count D) |} in
  UnitExponentialDist.F T true (S fuel) tmp p D =
    if d0 <=? Z.quot (bm1 T - 1) 2
    then F_von_neumann (S fuel) tmp p1 D1
    else Some (false, tmp, p1, D1).
Proof.
  intros Hodd d0 p1 D1. unfold UnitExponentialDist.F.
  rewrite (less_than_half_init T fuel p D bm1_pos Hodd).
  fold d0. destruct (d0 <=? Z.quot (bm1 T - 1) 2); reflexivity.
Qed.

Lemma F_frame (bo : bool) (fuel : nat) tmp (p : u_rand) (D : digit_gen)
  r tmp' p' D' :
  base_ok T bo = true ->
  UnitExponentialDist.F T bo fuel tmp p D = Some (r, tmp', p', D') ->
  advances D D'
  /\ _s p' = 1 /\ _n p' = 0
  /\ (bo = true -> r = true ->
      exists rest, _d p' = tape D (count D) :: rest
                   /\ tape D (count D) <= Z.quot (bm1 T - 1) 2).
Proof.
  intros Hok. destruct bo.
  - unfold base_ok in Hok. cbn in Hok.
    destruct fuel as [ | fuel]; [discriminate | ].
    rewrite (F_bit_optimized fuel tmp p D Hok). cbv zeta.
    destruct (Z.leb_spec (tape D (count D)) (Z.quot (bm1 T - 1) 2))
      as [L | L].
    + intros E. apply F_von_neumann_frame in E.
      destruct E as ((Hs & Hn & more & Hd) & A).
      cbn [_s _n _d] in *.
      split; [ | split; [exact Hs | split; [exact Hn | ] ] ].
      * eapply advances_trans; [ | exact A]. split; cbn; [reflexivity | lia].
      * intros _ _. exists more. split; [exact Hd | exact L].
    + intros E. injection E as <- <- <- <-. cbn.
      split; [split; cbn; [reflexivity | lia] | ].
      repeat split. intros _ E. discriminate.
  - unfold UnitExponentialDist.F.
    intros E. apply F_von_neumann_frame in E.
    destruct E as ((Hs & Hn & _) & A). cbn in Hs, Hn.
    repeat split; try assumption; try apply A. intros E. discriminate.
Qed.

Lemma F_count_run (bo : bool) (fuel : nat) (k0 : Z) tmp x D k tmp' p D' :
  F_count T bo fuel k0 tmp x D = Some (k, tmp', p, D') ->
  exists n, k = k0 + Z.of_nat n /\ UnitExponentialDist.F_run T bo n (tmp, x, D) (tmp', p, D').
Proof.
  revert k0 tmp x D. induction fuel as [ | fuel IH]; intros k0 tmp x D;
    [discriminate | ].
  cbn [F_count].
  destruct (UnitExponentialDist.F T bo (S fuel) tmp x D) as [[[[r tmp1] x1] D1] | ] eqn:E;
    [ | discriminate].
  destruct r; cbn [negb].
  - intros E'. injection E' as <- <- <- <-.
    exists O. split; [lia | ]. eapply F_accept. exact E.
  - intros E'. apply IH in E'. destruct E' as (n & Hk & Hrun).
    exists (S n). split; [lia | ]. eapply F_reject; eassumption.
Qed.

Lemma F_run_accept (bo : bool) (n : nat) s s' :
  base_ok T bo = true ->
  UnitExponentialDist.F_run T bo n s s' ->
  let '(_, _, D) := s in
  let '(_, p, D') := s' in
  advances D D' /\ _s p = 1 /\ _n p = 0
  /\ (bo = true ->
      exists d0 rest, _d p = d0 :: rest
                      /\ d0 <= Z.quot (bm1 T - 1) 2
                      /\ exists i, d0 = tape D i).
Proof.
  intros Hok Hrun.
  induction Hrun as [fuel tmp x D tmp' x' D' E
                    | fuel k tmp x D tmp1 x1 D1 s' E Hrun IH].
  - apply (F_frame bo) in E; [ | exact Hok].
    destruct E as (A & Hs & Hn & Hd).
    repeat split; try assumption; try apply A.
    intros Hbo. destruct (Hd Hbo eq_refl) as (rest & E1 & E2).
    exists (tape D (count D)), rest. repeat split; try assumption.
    now exists (count D).
  - apply (F_frame bo) in E; [ | exact Hok].
    destruct E as (A & _). destruct s' as [[tmp' p] D'].
    destruct IH as (A' & Hs & Hn & Hd).
    split; [eapply advances_trans; eassumption | ].
    repeat split; try assumption.
    intros Hbo. destruct (Hd Hbo) as (d0 & rest & E1 & E2 & i & E3).
    exists d0, rest. repeat split; try assumption.
    exists i. destruct A as [At _]. now rewrite <- At.
Qed.

Hypothesis uint_w_ge : 32 <= uint_w.
Hypothesis bm1_max : bm1 T < 2 ^ 32.

(** C5. Let [b = bm1 + 1] be the base. If [generate] returns, then some
    number [k] of calls of [F] returned false and one more returned true,
    leaving [p] with sign +1 and integer part 0. With [bit_optimized]
    (Algorithm E, even base): [F] bails out as soon as the first digit of
    the fresh [p] exceeds [(b-2)/2], so that it runs the von Neumann
    procedure only for [p < 1/2]; the first digit [d0] of the accepted
    [p] satisfies [0 <= d0 <= (b-2)/2]; the result has integer part
    [k / 2] and the digits of [p], with [b / 2] added to the first digit
    when [k] is odd. Without (Algorithm V) the result is [p] with integer
    part [k]. *)
Theorem exponential_generate (bo : bool) (fuel : nat) tmp x D tmp' x' D' :
  base_ok T bo = true ->
  tape_ok T D ->
  generate T uint_w bo fuel tmp x D = Some (tmp', x', D') ->
  let b := bm1 T + 1 in
  exists (k : nat) (p : u_rand),
    UnitExponentialDist.F_run T bo k (tmp, x, D) (tmp', p, D')
    /\ _s p = 1 /\ _n p = 0 /\ _s x' = 1
    /\ (bo = true ->
        (forall fuel1 tmp1 q D1,
            let d := tape D1 (count D1) in
            let q1 := {| _s := 1; _n := 0; _d := [d] |} in
            let D2 := {| tape := tape D1; count := S (count D1) |} in
            UnitExponentialDist.F T true (S fuel1) tmp1 q D1 =
              if d <=? (b - 2) / 2
              then F_von_neumann (S fuel1) tmp1 q1 D2
              else Some (false, tmp1, q1, D2))
        /\ exists d0 rest,
             _d p = d0 :: rest
             /\ 0 <= d0 <= (b - 2) / 2
             /\ _n x' = Z.of_nat k / 2
             /\ _d x' = (if Z.odd (Z.of_nat k) then d0 + b / 2 else d0)
                        :: rest
             /\ 0 <= nth 0 (_d x') 0 < b)
    /\ (bo = false -> _n x' = Z.of_nat k /\ _d x' = _d p).
Proof.
  intros Hok Htape. unfold generate.
  destruct (F_count T bo fuel 0 tmp x D) as [[[[k tmp1] p] D1] | ] eqn:E;
    [ | discriminate].
  intros E'. injection E' as <- <- <-. cbv zeta. set (b := bm1 T + 1).
  apply F_count_run in E. destruct E as (n & Hk & Hrun).
  cbn in Hk. subst k.
  pose proof (F_run_accept bo n _ _ Hok Hrun) as HA. cbv beta iota in HA.
  destruct HA as (A & Hs & Hn & Hd).
  exists n, p. split; [exact Hrun | ].
  split; [exact Hs | ]. split; [exact Hn | ].
  assert (Eq1 : Z.quot (bm1 T - 1) 2 = (b - 2) / 2).
  { unfold b. rewrite Z.quot_div_nonneg by lia. f_equal. lia. }
  split; [ | split].
  - unfold finish.
    destruct (bo && negb (Z.rem (Z.of_nat n) 2 =? 0)); cbn; exact Hs.
  - intros Hbo. subst bo. unfold base_ok in Hok. cbn in Hok.
    split.
    { intros fuel1 tmp2 q D2. rewrite <- Eq1.
      apply (F_bit_optimized fuel1 tmp2 q D2 Hok). }
    destruct (Hd eq_refl) as (d0 & rest & E1 & E2 & i & E3).
    exists d0, rest.
    assert (H0 : 0 <= d0) by (rewrite E3; apply Htape).
    assert (Hodd : exists q, bm1 T = 2 * q + 1)
      by (apply Z.odd_spec; exact Hok).
    destruct Hodd as [q Eq].
    assert (Eq2 : Z.quot (bm1 T - 1) 2 = q).
    { rewrite Eq. replace (2 * q + 1 - 1) with (q * 2) by lia.
      apply Z.quot_mul. lia. }
    assert (Eq3 : b / 2 = q + 1).
    { unfold b. symmetry. apply Z.div_unique with (r := 0); lia. }
    assert (Hpow : 2 ^ 32 <= 2 ^ uint_w)
      by (apply Z.pow_le_mono_r; lia).
    split; [exact E1 | ]. split; [rewrite <- Eq1; lia | ].
    unfold finish. cbn [andb].
    rewrite (Z.quot_div_nonneg (Z.of_nat n) 2) by lia.
    split.
    { destruct (negb (Z.rem (Z.of_nat n) 2 =? 0)); reflexivity. }
    assert (Erem : negb (Z.rem (Z.of_nat n) 2 =? 0) = Z.odd (Z.of_nat n)).
    { rewrite Z.rem_mod_nonneg by lia. rewrite Zmod_odd.
      destruct (Z.odd (Z.of_nat n)); reflexivity. }
    rewrite Erem.
    destruct (Z.odd (Z.of_nat n)).
    + unfold set_rawdigit, rawdigit, set_integer. cbn [_d _s _n].
      rewrite E1. cbn [nth set_nth].
      rewrite Eq2, Eq3. rewrite Z.mod_small by lia.
      split; [reflexivity | ]. unfold b. lia.
    + unfold set_integer. cbn [_d]. rewrite E1. cbn [nth].
      split; [reflexivity | ]. unfold b. lia.
  - intros Hbo. subst bo. unfold finish. cbn. split; reflexivity.
Qed.
End UnitExponentialFacts.

Lemma tape_of_ok (T : digit_traits) (l : list Z) (dflt : Z) :
  Forall (fun d => 0 <= d <= max_value T) l ->
  0 <= dflt <= max_value T ->
  tape_ok T (tape_of l dflt).
Proof.
  intros Hall Hd i. unfold tape_of. cbn [tape].
  revert i. induction Hall as [ | d l Hd' _ IH]; intros i.
  - destruct i; exact Hd.
  - destruct i as [ | i]; [exact Hd' | apply IH].
Qed.

(** An instance: Algorithm E in base 2. *)
Lemma exponential_generate_witness :
  let tmp := {| UnitExponentialDist._v := URand.construct;
                UnitExponentialDist._w := URand.construct |} in
  let tmp' := {| UnitExponentialDist._v := URand.construct;
                 UnitExponentialDist._w :=
                   {| URand._s := 1; URand._n := 0; URand._d := [0; 1] |} |} in
  let x' := {| URand._s := 1; URand._n := 1; URand._d := [0; 0] |} in
  let D' := {| tape := tape Samples.tape_a; count := 6 |} in
  1 <= URand.bm1 Samples.T2
  /\ 32 <= 64
  /\ URand.bm1 Samples.T2 < 2 ^ 32
  /\ UnitExponentialDist.base_ok Samples.T2 true = true
  /\ tape_ok Samples.T2 Samples.tape_a
  /\ UnitExponentialDist.generate Samples.T2 64 true 30 tmp URand.construct
       Samples.tape_a = Some (tmp', x', D')
  /\ exists (k : nat) (p : URand.u_rand),
       UnitExponentialDist.F_run Samples.T2 true k
         (tmp, URand.construct, Samples.tape_a) (tmp', p, D')
       /\ URand._n x' = Z.of_nat k / 2.
Proof.
  intros tmp tmp' x' D'.
  assert (H1 : 1 <= URand.bm1 Samples.T2) by (vm_compute; discriminate).
  assert (H2 : 32 <= 64) by lia.
  assert (H3 : URand.bm1 Samples.T2 < 2 ^ 32) by reflexivity.
  assert (H4 : UnitExponentialDist.base_ok Samples.T2 true = true)
    by reflexivity.
  assert (H5 : tape_ok Samples.T2 Samples.tape_a).
  { apply tape_of_ok; [ | vm_compute; split; discriminate].
    repeat constructor; vm_compute; discriminate. }
  assert (H6 : UnitExponentialDist.generate Samples.T2 64 true 30 tmp
                 URand.construct Samples.tape_a = Some (tmp', x', D'))
    by (vm_compute; reflexivity).
  destruct (exponential_generate Samples.T2 64 H1 H2 H3 true 30 tmp
              URand.construct Samples.tape_a tmp' x' D' H4 H5 H6)
    as (k & p & Hrun & _ & _ & _ & Hopt & _).
  destruct (Hopt eq_refl) as (_ & d0 & rest & _ & _ & Hn & _).
  repeat (split; [assumption | ]).
  exists k, p. split; assumption.
Defined.

(** ** discrete_normal_dist: parameters *)

Section GcdFacts.
Import DiscreteNormalDist.

Lemma gcd_loop_spec (n : nat) (u v : Z) :
  0 <= u -> 0 <= v < 2 ^ Z.of_nat n ->
  gcd_loop (2 * n + 1) u v = Some (Z.gcd u v).
Proof.
  revert u v. induction n as [ | n IH]; intros u v Hu Hv.
  - cbn in Hv. assert (v = 0) by lia. subst v. cbn.
    rewrite Z.gcd_0_r, Z.abs_eq by lia. reflexivity.
  - replace (2 * S n + 1)%nat with (S (S (2 * n + 1))) by lia.
    cbn [gcd_loop].
    destruct (Z.gtb_spec v 0) as [Hpos | Hz].
    + rewrite Z.rem_mod_nonneg by lia.
      pose proof (Z.mod_pos_bound u v Hpos) as Hr.
      assert (Eg : Z.gcd u v = Z.gcd v (u mod v)).
      { rewrite (Z.gcd_comm v (u mod v)), Z.gcd_mod by lia.
        apply Z.gcd_comm. }
      destruct (Z.gtb_spec (u mod v) 0) as [Hpos' | Hz'].
      * rewrite Z.rem_mod_nonneg by lia.
        pose proof (Z.mod_pos_bound v (u mod v) Hpos') as Hr'.
        assert (Eg' : Z.gcd v (u mod v) = Z.gcd (u mod v) (v mod (u mod v))).
        { rewrite (Z.gcd_comm (u mod v) (v mod (u mod v))), Z.gcd_mod
            by lia.
          apply Z.gcd_comm. }
        rewrite Eg, Eg'. apply IH; [lia | ].
        split; [lia | ].
        assert (Hq : 1 <= v / (u mod v))
          by (apply Z.div_le_lower_bound; lia).
        pose proof (Z.div_mod v (u mod v) ltac:(lia)) as Hdm.
        rewrite Nat2Z.inj_succ, Z.pow_succ_r in Hv by lia.
        nia.
      * assert (E0 : u mod v = 0) by lia.
        rewrite Eg, E0, Z.gcd_0_r, Z.abs_eq by lia. reflexivity.
    + assert (v = 0) by lia. subst v.
      rewrite Z.gcd_0_r, Z.abs_eq by lia. reflexivity.
Qed.

(** The loop of [gcd] ends within the iterations it is given, and [gcd]
    is the greatest common divisor. *)
Lemma gcd_spec (u v : Z) : gcd u v = Z.gcd u v.
Proof.
  unfold gcd, gcd_fuel.
  rewrite gcd_loop_spec.
  - rewrite Z.gcd_abs_l, Z.gcd_abs_r. reflexivity.
  - apply Z.abs_nonneg.
  - split; [apply Z.abs_nonneg | ].
    pose proof (Z.abs_nonneg v) as Ha.
    pose proof (Z.log2_nonneg (Z.abs v)) as Hl.
    rewrite Z2Nat.id by lia.
    destruct (Z.eq_dec (Z.abs v) 0) as [E | NE].
    + rewrite E. reflexivity.
    + apply Z.log2_spec. lia.
Qed.

Lemma gcd_pos_r (a b : Z) : 0 < b -> 0 < Z.gcd a b.
Proof.
  intros Hb. pose proof (Z.gcd_nonneg a b).
  destruct (Z.eq_dec (Z.gcd a b) 0) as [E | NE]; [ | lia].
  apply Z.gcd_eq_0_r in E. lia.
Qed.

Lemma quot_div_exact (a g : Z) :
  0 < g -> (g | a) -> Z.quot a g = a / g.
Proof.
  intros Hg [q Eq]. subst a.
  rewrite Z.quot_mul, Z.div_mul by lia. reflexivity.
Qed.

Lemma div_gcd_pos (a b : Z) : 0 < a -> 0 < a / Z.gcd a b.
Proof.
  intros Ha.
  assert (Hg : 0 < Z.gcd a b).
  { pose proof (Z.gcd_nonneg a b).
    destruct (Z.eq_dec (Z.gcd a b) 0) as [E | NE]; [ | lia].
    apply Z.gcd_eq_0_l in E. lia. }
  destruct (Z.gcd_divide_l a b) as [q Eq].
  rewrite Eq at 1. rewrite Z.div_mul by lia. nia.
Qed.

Lemma div_gcd_abs_le (a b : Z) :
  0 < Z.gcd a b -> Z.abs (a / Z.gcd a b) <= Z.abs a.
Proof.
  intros Hg. destruct (Z.gcd_divide_l a b) as [q Eq].
  rewrite Eq at 1. rewrite Z.div_mul by lia. nia.
Qed.

(** What [param_init] stores when it does not throw. *)
Lemma param_init_ok (a b c d : Z) (p : param_type) :
  param_init a b c d = Ok p ->
  (0 < c /\ 0 < d /\ 0 < b /\ minint < a)
  /\ _mu_num p = a / Z.gcd a b /\ _mu_den p = b / Z.gcd b a
  /\ _sigma_num p = c / Z.gcd c d /\ _sigma_den p = d / Z.gcd d c.
Proof.
  unfold param_init.
  destruct (Z.gtb_spec c 0); cbn [andb negb]; [ | discriminate].
  destruct (Z.gtb_spec d 0); cbn [andb negb]; [ | discriminate].
  destruct (Z.gtb_spec b 0); cbn [andb negb]; [ | discriminate].
  destruct (Z.gtb_spec a minint); cbn [andb negb]; [ | discriminate].
  intros E. injection E as <-. cbn. unfold minint in *.
  rewrite !gcd_spec.
  split; [lia | ].
  pose proof (gcd_pos_r a b ltac:(lia)) as Gab.
  pose proof (gcd_pos_r c d ltac:(lia)) as Gcd.
  rewrite (Z.gcd_comm b a), (Z.gcd_comm d c).
  repeat split; apply quot_div_exact; try assumption;
    try apply Z.gcd_divide_l; try apply Z.gcd_divide_r.
Qed.

Lemma param_init_throw (a b c d : Z) :
  (exists msg, param_init a b c d = Throw msg)
  <-> (c <= 0 \/ d <= 0 \/ b <= 0 \/ a = minint \/ a < minint).
Proof.
  unfold param_init.
  destruct (Z.gtb_spec c 0); destruct (Z.gtb_spec d 0);
    destruct (Z.gtb_spec b 0); destruct (Z.gtb_spec a minint);
    cbn [andb negb]; unfold minint in *; split;
    try (intros [msg E]; discriminate); try lia;
    try (intros _; eexists; reflexivity).
Qed.

Lemma param_init_canonical (a b c d : Z) (p : param_type) :
  is_int a -> is_int b -> is_int c -> is_int d ->
  param_init a b c d = Ok p -> canonical p.
Proof.
  intros Ia Ib Ic Id E. apply param_init_ok in E.
  destruct E as ((Hc & Hd & Hb & Ha) & E1 & E2 & E3 & E4).
  unfold canonical. rewrite E1, E2, E3, E4.
  pose proof (div_gcd_pos b a Hb). pose proof (div_gcd_pos c d Hc).
  pose proof (div_gcd_pos d c Hd).
  pose proof (div_gcd_abs_le a b (gcd_pos_r a b Hb)).
  pose proof (div_gcd_abs_le c d (gcd_pos_r c d Hd)).
  pose proof (div_gcd_abs_le d c (gcd_pos_r d c Hc)).
  assert (Hba : 0 < Z.gcd b a)
    by (rewrite Z.gcd_comm; now apply gcd_pos_r).
  pose proof (div_gcd_abs_le b a Hba).
  unfold is_int, minint, maxint in *.
  assert (G1 : Z.gcd (a / Z.gcd a b) (b / Z.gcd b a) = 1).
  { rewrite (Z.gcd_comm b a). apply Z.gcd_div_gcd; [ | reflexivity].
    intros E. apply Z.gcd_eq_0_r in E. lia. }
  assert (G2 : Z.gcd (c / Z.gcd c d) (d / Z.gcd d c) = 1).
  { rewrite (Z.gcd_comm d c). apply Z.gcd_div_gcd; [ | reflexivity].
    intros E. apply Z.gcd_eq_0_r in E. lia. }
  repeat split; try assumption; try lia.
Qed.

Lemma param_default_canonical : canonical param_default.
Proof.
  unfold canonical, param_default, is_int, minint, maxint. cbn.
  repeat split; try lia; discriminate.
Qed.

(** [param_init] leaves canonical parameters as they are. *)
Lemma param_init_idem (p : param_type) :
  canonical p ->
  param_init (_mu_num p) (_mu_den p) (_sigma_num p) (_sigma_den p) = Ok p.
Proof.
  intros (H1 & H2 & H3 & H4 & G1 & G2 & _).
  unfold param_init, minint in *.
  destruct (Z.gtb_spec (_sigma_num p) 0); [ | lia].
  destruct (Z.gtb_spec (_sigma_den p) 0); [ | lia].
  destruct (Z.gtb_spec (_mu_den p) 0); [ | lia].
  destruct (Z.gtb_spec (_mu_num p) (- 2 ^ 31)); [ | lia].
  cbn [andb negb]. rewrite !gcd_spec, G1, G2, !Z.quot_1_r.
  destruct p; reflexivity.
Qed.
End GcdFacts.

(** ** discrete_normal_dist: construction *)

Section ConstructFacts.
Import DiscreteNormalDist.
Variable T : digit_traits.

Lemma leb_quot (x M y : Z) :
  0 < y -> 0 <= M -> (x <=? Z.quot M y) = (x * y <=? M).
Proof.
  intros Hy HM. rewrite Z.quot_div_nonneg by lia.
  pose proof (Z.mul_div_le M y Hy) as H1.
  destruct (Z.leb_spec (x * y) M) as [L | L].
  - apply Z.leb_le. apply Z.div_le_lower_bound; lia.
  - apply Z.leb_gt.
    destruct (Z_lt_le_dec (M / y) x) as [ | Hle]; [assumption | ].
    exfalso. nia.
Qed.

Hypothesis b_range : 2 <= b T <= 2 ^ 24.

(** [init()] throws exactly when one of the guarded quantities is not
    representable, and otherwise stores the derived integers. *)
Lemma init_throw_iff (p : param_type) :
  0 < _mu_den p -> 0 < _sigma_num p -> 0 < _sigma_den p ->
  ((exists msg, init T p = Throw msg) <-> ~ guards (b T) p)
  /\ (forall c, init T p = Ok c -> guards (b T) p).
Proof.
  intros Hmd Hsn Hsd.
  set (l := Z.gcd (_sigma_den p) (_mu_den p)).
  assert (Hl : 0 < l) by (apply gcd_pos_r; exact Hmd).
  assert (Hq1 : Z.quot (_mu_den p) l = _mu_den p / l)
    by (apply quot_div_exact; [exact Hl | apply Z.gcd_divide_r]).
  assert (Hq2 : Z.quot (_sigma_den p) l = _sigma_den p / l)
    by (apply quot_div_exact; [exact Hl | apply Z.gcd_divide_l]).
  assert (Hp1 : 0 < _mu_den p / l).
  { unfold l. rewrite Z.gcd_comm. now apply div_gcd_pos. }
  assert (Hp2 : 0 < _sigma_den p / l) by (now apply div_gcd_pos).
  unfold init, guards. rewrite !gcd_spec. fold l.
  rewrite Hq1, Hq2.
  set (imu := Z.quot (_mu_num p) (_mu_den p)).
  set (fmu := _mu_num p - imu * _mu_den p).
  set (isig := iceil (_sigma_num p) (_sigma_den p)).
  set (m := _mu_den p / l) in *. set (s := _sigma_den p / l) in *.
  assert (HM : 0 <= maxll) by (unfold maxll; lia).
  assert (HMi : 0 <= maxint) by (unfold maxint; lia).
  assert (Hk : 0 < kmax) by (unfold kmax; lia).
  rewrite !leb_quot by (try assumption; nia).
  destruct (Z.leb_spec (m * _sigma_num p) maxll) as [G1 | G1];
    [ | cbn [andb negb]; split;
        [split; [intros _; lia | intros _; eexists; reflexivity]
        | discriminate] ].
  destruct (Z.leb_spec (Z.abs fmu * s) maxll) as [G2 | G2];
    [ | cbn [andb negb]; split;
        [split; [intros _; lia | intros _; eexists; reflexivity]
        | discriminate] ].
  destruct (Z.leb_spec (m * _sigma_den p) maxll) as [G3 | G3];
    [ | cbn [andb negb]; split;
        [split; [intros _; lia | intros _; eexists; reflexivity]
        | discriminate] ].
  cbn [andb negb].
  destruct (Z.leb_spec (isig * (_sigma_den p * m)) maxll) as [G4 | G4];
    [ | cbn [andb negb]; split;
        [split; [intros _; lia | intros _; eexists; reflexivity]
        | discriminate] ].
  destruct (Z.leb_spec (isig * kmax) maxint) as [G5 | G5];
    [ | cbn [andb negb]; split;
        [split; [intros _; lia | intros _; eexists; reflexivity]
        | discriminate] ].
  destruct (Z.leb_spec (Z.abs imu) (maxint - isig * kmax)) as [G6 | G6];
    [ | cbn [andb negb]; split;
        [split; [intros _; lia | intros _; eexists; reflexivity]
        | discriminate] ].
  destruct (Z.leb_spec (Z.max 2 (_sigma_num p * m) * (b T * kmax)) maxll)
    as [G7 | G7];
    [ | cbn [andb negb]; split;
        [split; [intros _; lia | intros _; eexists; reflexivity]
        | discriminate] ].
  cbn [negb]. split.
  - split; [intros [msg E]; discriminate | intros H; exfalso; apply H].
    repeat split; try assumption. lia.
  - intros c _. repeat split; try assumption. lia.
Qed.

(** For [int] arguments and a base in [[2, 2^24]], the constructor of
    the discrete normal sampler throws if and only if [sigma_num <= 0],
    [sigma_den <= 0], [mu_den <= 0], [mu_num] is the least [int], or one
    of the guarded quantities of the reduced parameters is not
    representable; otherwise it succeeds, and then in particular
    [max(2, _sig) * b * kmax], with [kmax = 51], is at most the largest
    [long long]. *)
Lemma construct_throw_iff (mu_num mu_den sigma_num sigma_den : Z) :
  is_int mu_num -> is_int mu_den -> is_int sigma_num -> is_int sigma_den ->
  ((exists msg,
       construct T mu_num mu_den sigma_num sigma_den = Throw msg)
   <-> (sigma_num <= 0 \/ sigma_den <= 0 \/ mu_den <= 0
        \/ mu_num = minint
        \/ exists p, param_init mu_num mu_den sigma_num sigma_den = Ok p
                     /\ ~ guards (b T) p))
  /\ (forall p c,
         construct T mu_num mu_den sigma_num sigma_den = Ok (p, c) ->
         param_init mu_num mu_den sigma_num sigma_den = Ok p
         /\ guards (b T) p
         /\ Z.max 2 (_sig c) * b T * 51 <= 2 ^ 63 - 1)
  /\ ((exists msg,
          construct T mu_num mu_den sigma_num sigma_den = Throw msg)
      \/ (exists r,
             construct T mu_num mu_den sigma_num sigma_den = Ok r)).
Proof.
  intros Ia Ib Ic Id.
  unfold construct, construct_with, param4.
  destruct (param_init mu_num mu_den sigma_num sigma_den) as [p | msg]
    eqn:E.
  - pose proof (param_init_canonical _ _ _ _ p Ia Ib Ic Id E)
      as (Hmd & Hsn & Hsd & _).
    pose proof (param_init_ok _ _ _ _ p E) as ((H1 & H2 & H3 & H4) & _).
    destruct (init_throw_iff p Hmd Hsn Hsd) as [Hiff Hok].
    split; [ | split].
    + split.
      * intros [msg Em].
        destruct (init T p) as [c | msg'] eqn:Ei; [discriminate | ].
        right. right. right. right. exists p. split; [reflexivity | ].
        apply Hiff. now exists msg'.
      * intros [H | [H | [H | [H | (p' & Ep & Hg)]]]]; try lia.
        injection Ep as <-. apply Hiff in Hg. destruct Hg as [msg Em].
        rewrite Em. now exists msg.
    + intros p' c. destruct (init T p) as [c' | msg'] eqn:Ei;
        [ | discriminate].
      intros E'. injection E' as <- <-.
      split; [reflexivity | ].
      pose proof (Hok c' eq_refl) as Hg. split; [exact Hg | ].
      assert (Es : _sig c' = _sigma_num p
                  * (_mu_den p / Z.gcd (_sigma_den p) (_mu_den p))).
      { revert Ei. unfold init.
        repeat match goal with
               | |- context [if ?c then _ else _] => destruct c
               end; try discriminate.
        intros E'. injection E' as <-. cbn. rewrite gcd_spec.
        f_equal. apply quot_div_exact;
          [apply gcd_pos_r; exact Hmd | apply Z.gcd_divide_r]. }
      destruct Hg as (_ & _ & _ & _ & _ & _ & G7).
      cbv zeta in G7. rewrite <- Es in G7.
      unfold kmax, maxll in G7. lia.
    + destruct (init T p) as [c | msg']; [right | left]; eexists;
        reflexivity.
  - assert (Hthrow : exists m, param_init mu_num mu_den sigma_num sigma_den
                               = Throw m) by (now exists msg).
    apply param_init_throw in Hthrow.
    split; [ | split].
    + split.
      * intros _. unfold is_int in Ia. lia.
      * intros _. now exists msg.
    + intros p c E'. discriminate.
    + left. now exists msg.
Qed.
End ConstructFacts.


(** ** discrete_normal_dist: text format of the parameters *)

Section TextFacts.
Import DiscreteNormalDist.
Local Open Scope string_scope.

Lemma read_digits_string_of_uint (u : Decimal.uint) (rest : string) :
  no_digit_head rest ->
  read_digits (string_of_uint u ++ rest) = (u, rest).
Proof.
  intros Hrest. induction u as [ | u IH | u IH | u IH | u IH | u IH
                               | u IH | u IH | u IH | u IH | u IH];
    cbn [string_of_uint append];
    try (cbn [read_digits]; rewrite IH; reflexivity).
  destruct rest as [ | c r]; [reflexivity | ].
  cbn in Hrest. cbn [read_digits]. now rewrite Hrest.
Qed.

Lemma string_of_uint_head (u : Decimal.uint) (rest : string) :
  u <> Decimal.Nil ->
  match string_of_uint u ++ rest with
  | String c _ =>
      is_space c = false /\ c <> "+"%char /\ c <> "-"%char
      /\ digit_of_char c <> None
  | EmptyString => False
  end.
Proof.
  intros Hne. destruct u; [congruence | | | | | | | | | | ];
    cbn; repeat split; discriminate.
Qed.

Lemma read_int_print_int (z : Z) (rest : string) :
  is_int z -> no_digit_head rest ->
  read_int (print_int z ++ rest) = Some (z, rest).
Proof.
  intros Hz Hrest. unfold read_int, print_int.
  pose proof (DecimalZ.of_to z) as Hof.
  destruct (Z.to_int z) as [u | u] eqn:Eu.
  - assert (Hne : u <> Decimal.Nil).
    { destruct z; cbn in Eu; try discriminate; injection Eu as <-;
        [discriminate | apply DecimalPos.Unsigned.to_uint_nonnil]. }
    pose proof (string_of_uint_head u rest Hne) as Hh.
    pose proof (read_digits_string_of_uint u rest Hrest) as Hrd.
    destruct (string_of_uint u ++ rest) as [ | c r] eqn:Es; [contradiction | ].
    destruct Hh as (Hsp & Hplus & Hminus & _).
    cbn [skip_ws]. rewrite Hsp.
    assert (Hsign :
      match String c r with
      | String "-" r0 => (true, r0)
      | String "+" r0 => (false, r0)
      | _ => (false, String c r)
      end = (false, String c r)).
    { destruct c as [[] [] [] [] [] [] [] []]; try reflexivity;
        congruence. }
    rewrite Hsign, Hrd. cbn in Hof.
    destruct u; [congruence | | | | | | | | | | ];
      rewrite Hof; unfold is_int in Hz;
      destruct (Z.leb_spec minint z); try lia;
      destruct (Z.leb_spec z maxint); try lia; reflexivity.
  - assert (Hne : u <> Decimal.Nil).
    { destruct z; cbn in Eu; try discriminate. injection Eu as <-.
      apply DecimalPos.Unsigned.to_uint_nonnil. }
    pose proof (read_digits_string_of_uint u rest Hrest) as Hrd.
    cbn [append skip_ws].
    change (is_space "-") with false. cbv iota.
    rewrite Hrd. cbn in Hof.
    destruct u; [congruence | | | | | | | | | | ];
      rewrite Hof; unfold is_int in Hz;
      destruct (Z.leb_spec minint z); try lia;
      destruct (Z.leb_spec z maxint); try lia; reflexivity.
Qed.

Lemma string_app_nil_r (s : string) : s ++ "" = s.
Proof. induction s as [ | c s IH]; cbn; [ | rewrite IH]; reflexivity. Qed.

Lemma read_int_skip_space (s : string) :
  read_int (String " " s) = read_int s.
Proof. reflexivity. Qed.

Lemma no_digit_head_space (s : string) : no_digit_head (String " " s).
Proof. reflexivity. Qed.

(** C8. A parameter set [p] in canonical form (lowest terms, positive
    denominators, as every constructed [param_type] is) written with
    [operator<<] as four decimal integers separated by spaces and read
    back with [operator>>] gives [p] again, equal under [operator==],
    and leaves the stream good and empty. *)
Theorem param_text_roundtrip (p x : param_type) :
  canonical p ->
  exists p',
    extract (insert p) x = Ok (p', Some "")
    /\ param_eqb p p' = true /\ p' = p.
Proof.
  intros Hc. exists p.
  pose proof Hc as (H1 & H2 & H3 & H4 & G1 & G2 & I1 & I2 & I3 & I4).
  unfold extract, insert.
  change (" " ++ ?s) with (String " " s).
  rewrite read_int_print_int by (assumption || apply no_digit_head_space).
  cbn [append]. rewrite read_int_skip_space.
  rewrite read_int_print_int by (assumption || apply no_digit_head_space).
  cbn [append]. rewrite read_int_skip_space.
  rewrite read_int_print_int by (assumption || apply no_digit_head_space).
  cbn [append]. rewrite read_int_skip_space.
  rewrite <- (string_app_nil_r (print_int (_sigma_den p))) at 1.
  rewrite read_int_print_int by (assumption || exact I).
  rewrite param_init_idem by exact Hc.
  split; [reflexivity | ]. split; [ | reflexivity].
  unfold param_eqb. rewrite !Z.eqb_refl. reflexivity.
Qed.

(** Every constructor of [param_type] yields canonical parameters, so the
    round trip applies to each constructed value. *)
Lemma constructed_canonical :
  canonical param_default
  /\ (forall a b c d p,
         is_int a -> is_int b -> is_int c -> is_int d ->
         param4 a b c d = Ok p -> canonical p)
  /\ (forall mu sigma p,
         is_int mu -> is_int sigma -> param2 mu sigma = Ok p ->
         canonical p)
  /\ (forall mu_num sigma_num den p,
         is_int mu_num -> is_int sigma_num -> is_int den ->
         param3 mu_num sigma_num den = Ok p -> canonical p).
Proof.
  assert (I1 : is_int 1) by (unfold is_int, minint, maxint; lia).
  split; [exact param_default_canonical | ].
  split; [ | split].
  - intros a b c d p. apply param_init_canonical.
  - intros mu sigma p Im Is. now apply param_init_canonical.
  - intros mu_num sigma_num den p Im Is Id. now apply param_init_canonical.
Qed.
End TextFacts.

(** An instance: mu = -12/5, sigma = 129/2,
    written as "-12 5 129 2". *)
Lemma param_text_roundtrip_witness :
  let p := {| DiscreteNormalDist._mu_num := -12;
              DiscreteNormalDist._mu_den := 5;
              DiscreteNormalDist._sigma_num := 129;
              DiscreteNormalDist._sigma_den := 2 |} in
  DiscreteNormalDist.canonical p
  /\ DiscreteNormalDist.insert p = "-12 5 129 2"%string
  /\ exists p',
       DiscreteNormalDist.extract (DiscreteNormalDist.insert p)
         DiscreteNormalDist.param_default
       = DiscreteNormalDist.Ok (p', Some ""%string)
       /\ DiscreteNormalDist.param_eqb p p' = true /\ p' = p.
Proof.
  intros p.
  assert (Hc : DiscreteNormalDist.canonical p).
  { unfold DiscreteNormalDist.canonical, DiscreteNormalDist.is_int.
    vm_compute. repeat split; discriminate. }
  split; [exact Hc | ]. split; [reflexivity | ].
  exact (param_text_roundtrip p DiscreteNormalDist.param_default Hc).
Defined.

(** ** discrete_normal_dist: the candidate test of generate *)

Section CandidateFacts.
Import DiscreteNormalDist.
Variable T : digit_traits.
Variable c : derived.

Hypothesis b_ge_2 : 2 <= IRand.b T.
(** The digits are those of base [b]. *)
Hypothesis bm1_b : max_value T = IRand.b T - 1.

(** [i_rand::less_than] returns once the range is on one side of [m/n],
    after at most [_l] refinements, each of which narrows the range. *)
Lemma i_rand_less_than_spec (fuel : nat) (h : IRand.i_rand)
  (D : digit_gen) (m n : Z) :
  IRand.Inv T h -> tape_ok T D -> (Z.to_nat (IRand._l h) < fuel)%nat ->
  exists r h' D',
    IRand.less_than T fuel h D m n = Some (r, h', D')
    /\ IRand.Inv T h' /\ advances D D'
    /\ IRand._l h' <= IRand._l h
    /\ IRand.min h <= IRand.min h' /\ IRand.max h' <= IRand.max h
    /\ (r = true -> n * IRand.max h' < m)
    /\ (r = false -> ~ n * IRand.min h' < m).
Proof.
  revert h D. induction fuel as [ | fuel IH]; intros h D HI Htape Hfuel;
    [lia | ].
  cbn [IRand.less_than].
  destruct (Z.ltb_spec (n * IRand.max h) m) as [L1 | L1].
  - exists true, h, D. repeat split; try apply HI; try lia.
  - destruct (Z.ltb_spec (n * IRand.min h) m) as [L2 | L2]; cbn [negb].
    + assert (Hpos : 0 < IRand._l h).
      { destruct HI as [Hl Hd].
        destruct (Z.eq_dec (IRand._l h) 0) as [E | NE]; [ | lia].
        exfalso. unfold IRand.max, IRand.min in *.
        rewrite Hd, E in L1. cbn in L1. lia. }
      rewrite (refine_pos T b_ge_2 h D HI Hpos).
      set (h1 := {| IRand._a := _; IRand._d := _; IRand._l := _ |}).
      set (D1 := {| tape := tape D; count := S (count D) |}).
      assert (HI1 : IRand.Inv T h1).
      { destruct HI as [Hl Hd]. split; cbn; [lia | reflexivity]. }
      assert (Ht1 : tape_ok T D1) by (intros i; apply Htape).
      assert (Hf1 : (Z.to_nat (IRand._l h1) < fuel)%nat) by (cbn; lia).
      destruct (IH h1 D1 HI1 Ht1 Hf1)
        as (r & h' & D' & E & HI' & A & Hl' & Hmin & Hmax & Ht & Hf).
      exists r, h', D'. rewrite E.
      pose proof (Htape (count D)) as Hdg. rewrite bm1_b in Hdg.
      destruct HI as [Hl Hd].
      assert (Hp : 0 < IRand.b T ^ (IRand._l h - 1))
        by (apply Z.pow_pos_nonneg; lia).
      assert (Hpw : IRand.b T ^ IRand._l h
                    = IRand.b T * IRand.b T ^ (IRand._l h - 1)).
      { rewrite <- (Z.pow_1_r (IRand.b T)) at 2.
        rewrite <- Z.pow_add_r by lia. f_equal. lia. }
      unfold IRand.min, IRand.max in *. cbn [IRand._a IRand._d IRand._l h1] in *.
      rewrite Hd, Hpw.
      assert (A0 : advances D D').
      { destruct A as [At Ac]. unfold D1 in At, Ac. cbn in At, Ac.
        split; [exact At | lia]. }
      split; [reflexivity | ]. split; [exact HI' | ].
      split; [exact A0 | ].
      repeat split; try assumption; try lia; try nia.
    + exists false, h, D. repeat split; try apply HI; try lia.
Qed.

Hypothesis d_pos : 0 < _d c.

(** C3, as the code has it. With [x = (xn0 + _d * j) / _sig] for the
    values [j] that the i-rand may still take, the test of [generate]
    that rejects a candidate returns, and it rejects exactly when either
    (a) [x >= 1], which is what [j.less_than(g, _sig - xn0, _d)] failing
    decides, or (b) [k = 0], [s < 0] and [x = 0], which is what
    [j.greater_than(g, -xn0, _d)] failing decides once (a) is excluded. *)
Theorem candidate_rejected_spec (fuel : nat) (j : IRand.i_rand)
  (D : digit_gen) (k s xn0 : Z) :
  IRand.Inv T j -> tape_ok T D -> (Z.to_nat (IRand._l j) < fuel)%nat ->
  0 <= xn0 -> 0 <= IRand.min j ->
  exists rej j' D',
    candidate_rejected T c fuel j D k s xn0 = Some (rej, j', D')
    /\ IRand.min j <= IRand.min j' /\ IRand.max j' <= IRand.max j
    /\ (rej = true ->
        forall v, IRand.min j' <= v <= IRand.max j' ->
                  _sig c <= xn0 + _d c * v
                  \/ (k = 0 /\ s < 0 /\ xn0 + _d c * v = 0))
    /\ (rej = false ->
        forall v, IRand.min j' <= v <= IRand.max j' ->
                  xn0 + _d c * v < _sig c
                  /\ ~ (k = 0 /\ s < 0 /\ xn0 + _d c * v = 0))
    /\ exists lt j1 D1,
         IRand.less_than T fuel j D (_sig c - xn0) (_d c)
         = Some (lt, j1, D1)
         /\ (lt = false -> rej = true /\ j' = j1 /\ D' = D1)
         /\ (lt = true -> ~ (k = 0 /\ s < 0) ->
             rej = false /\ j' = j1 /\ D' = D1)
         /\ (lt = true -> k = 0 /\ s < 0 ->
             exists gt,
               IRand.greater_than T fuel j1 D1 (- xn0) (_d c)
               = Some (gt, j', D')
               /\ rej = negb gt).
Proof.
  intros HI Htape Hfuel Hxn Hmin.
  destruct (i_rand_less_than_spec fuel j D (_sig c - xn0) (_d c)
              HI Htape Hfuel)
    as (lt & j1 & D1 & E1 & HI1 & A1 & Hl1 & Hmin1 & Hmax1 & Ht1 & Hf1).
  unfold candidate_rejected. rewrite E1.
  destruct lt; cbn [negb].
  - destruct ((k =? 0) && (s <? 0)) eqn:Eks.
    + apply andb_prop in Eks as [Ek Es].
      apply Z.eqb_eq in Ek. apply Z.ltb_lt in Es.
      assert (Htape1 : tape_ok T D1).
      { intros i. destruct A1 as [At _]. rewrite At. apply Htape. }
      assert (Hfuel1 : (Z.to_nat (IRand._l j1) < fuel)%nat).
      { destruct HI1 as [Hl0 _]. destruct HI as [Hl _].
        apply Nat.le_lt_trans with (Z.to_nat (IRand._l j));
          [apply Z2Nat.inj_le; lia | exact Hfuel]. }
      destruct (i_rand_less_than_spec fuel j1 D1 (- xn0 + 1) (_d c)
                  HI1 Htape1 Hfuel1)
        as (lt2 & j2 & D2 & E2 & HI2 & A2 & Hl2 & Hmin2 & Hmax2 & Ht2 & Hf2).
      unfold IRand.greater_than, IRand.less_than_equal. rewrite E2.
      cbn [IRand.negate_result]. rewrite negb_involutive.
      exists lt2, j2, D2.
      split; [reflexivity | ]. split; [lia | ]. split; [lia | ].
      split; [ | split].
      * intros -> v Hv. right. specialize (Ht2 eq_refl).
        specialize (Ht1 eq_refl). repeat split; try assumption. nia.
      * intros -> v Hv. specialize (Hf2 eq_refl).
        specialize (Ht1 eq_refl). split; [nia | ].
        intros (_ & _ & E0). nia.
      * exists true, j1, D1. split; [reflexivity | ].
        split; [discriminate | ]. split; [intros _ H; exfalso; apply H; now split | ].
        intros _ _. exists (negb lt2). split.
        { unfold IRand.greater_than, IRand.less_than_equal.
          rewrite E2. reflexivity. }
        now rewrite negb_involutive.
    + exists false, j1, D1.
      split; [reflexivity | ]. split; [lia | ]. split; [lia | ].
      split; [discriminate | ]. split.
      * intros _ v Hv. specialize (Ht1 eq_refl). split; [nia | ].
        intros (Ek & Es & _). apply andb_false_iff in Eks.
        destruct Eks as [Eks | Eks];
          [apply Z.eqb_neq in Eks | apply Z.ltb_ge in Eks]; lia.
      * exists true, j1, D1. split; [reflexivity | ].
        split; [discriminate | ]. split; [intros _ _; repeat split | ].
        intros _ [Ek Es]. apply andb_false_iff in Eks.
        destruct Eks as [Eks | Eks];
          [apply Z.eqb_neq in Eks | apply Z.ltb_ge in Eks]; lia.
  - exists true, j1, D1.
    split; [reflexivity | ]. split; [lia | ]. split; [lia | ].
    split; [ | split; [discriminate | ] ].
    + intros _ v Hv. left. specialize (Hf1 eq_refl). nia.
    + exists false, j1, D1. split; [reflexivity | ].
      split; [intros _; repeat split | ].
      split; intros E; discriminate.
Qed.

(** A rejected candidate restarts the loop of [generate]. *)
Lemma generate_restart (fuel : nat) tmp j D k tmp1 D1 tmp2 D2 j3 D3 v
  j4 D4 j5 D5 j6 D6 :
  let s := if negb (v =? 0) then -1 else 1 in
  let xn := _sig c * k + s * _mu c in
  let i0 := iceil xn (_d c) in
  let xn0 := i0 * _d c - xn in
  G T (S fuel) tmp D = Some (k, tmp1, D1) ->
  P T (S fuel) tmp1 D1 (k * (k - 1)) = Some (true, tmp2, D2) ->
  IRand.init T (S fuel) D2 2 = Some (j3, D3) ->
  IRand.call T (S fuel) j3 D3 = Some (v, j4, D4) ->
  IRand.init T (S fuel) D4 (_isig c) = Some (j5, D5) ->
  candidate_rejected T c (S fuel) j5 D5 k s xn0 = Some (true, j6, D6) ->
  generate T c (S fuel) tmp j D = generate T c fuel tmp2 j6 D6.
Proof.
  intros s xn i0 xn0 E1 E2 E3 E4 E5 E6.
  cbn [generate]. rewrite E1, E2. cbn [negb]. rewrite E3, E4.
  fold s. fold xn. fold i0. fold xn0. rewrite E5, E6. reflexivity.
Qed.
End CandidateFacts.

(** An instance: sigma = 3/2, mu = 0 in base 2,
    the candidate of [k = 1], [s = 1] (so [xn0 = 1]) with [j] just
    initialized to the range [0, 2) and the next digit 1. *)
Lemma candidate_rejected_spec_witness :
  let c := {| DiscreteNormalDist._sig := 3; DiscreteNormalDist._mu := 0;
              DiscreteNormalDist._d := 2; DiscreteNormalDist._imu := 0;
              DiscreteNormalDist._isig := 2 |} in
  let j := {| IRand._a := 0; IRand._d := 2; IRand._l := 1 |} in
  2 <= IRand.b Samples.T2
  /\ max_value Samples.T2 = IRand.b Samples.T2 - 1
  /\ 0 < DiscreteNormalDist._d c
  /\ IRand.Inv Samples.T2 j
  /\ tape_ok Samples.T2 Samples.ones
  /\ (Z.to_nat (IRand._l j) < 5)%nat
  /\ 0 <= 1
  /\ 0 <= IRand.min j
  /\ exists rej j' D',
       DiscreteNormalDist.candidate_rejected Samples.T2 c 5 j Samples.ones
         1 1 1 = Some (rej, j', D')
       /\ IRand.min j <= IRand.min j' /\ IRand.max j' <= IRand.max j.
Proof.
  intros c j.
  assert (H1 : 2 <= IRand.b Samples.T2) by (vm_compute; discriminate).
  assert (H2 : max_value Samples.T2 = IRand.b Samples.T2 - 1) by reflexivity.
  assert (H3 : 0 < DiscreteNormalDist._d c) by reflexivity.
  assert (H4 : IRand.Inv Samples.T2 j)
    by (split; [vm_compute; discriminate | reflexivity]).
  assert (H5 : tape_ok Samples.T2 Samples.ones).
  { apply tape_of_ok; [constructor | vm_compute; split; discriminate]. }
  assert (H6 : (Z.to_nat (IRand._l j) < 5)%nat) by (vm_compute; lia).
  assert (H7 : 0 <= 1) by lia.
  assert (H8 : 0 <= IRand.min j) by (vm_compute; discriminate).
  repeat (split; [assumption | ]).
  destruct (candidate_rejected_spec Samples.T2 c H1 H2 H3 5 j Samples.ones
              1 1 1 H4 H5 H6 H7 H8)
    as (rej & j' & D' & E & Hmin & Hmax & _).
  exists rej, j', D'. repeat split; assumption.
Defined.

(** C3, as stated, fails: whether [x >= 1] is not what the test
    [h.less_than(xn0 + _sig, _d)] decides. For sigma = 3/2 and mu = 0 in
    base 2, the candidate of [k = 1], [s = 1] has [i0 = 2], [xn0 = 1], and
    [j] uniform in [0, 2); when the next digit is 1, [j = 1] and
    [x = (1 + 2) / 3 = 1], so the candidate is rejected, whereas
    [less_than(xn0 + _sig, _d)], i.e. [j < 4/2], holds. *)
Lemma candidate_test_counterexample :
  let c := {| DiscreteNormalDist._sig := 3; DiscreteNormalDist._mu := 0;
              DiscreteNormalDist._d := 2; DiscreteNormalDist._imu := 0;
              DiscreteNormalDist._isig := 2 |} in
  let j := {| IRand._a := 0; IRand._d := 2; IRand._l := 1 |} in
  let j' := {| IRand._a := 1; IRand._d := 1; IRand._l := 0 |} in
  let D := Samples.ones in
  let D' := {| tape := tape D; count := 1 |} in
  let k := 1 in
  let s := 1 in
  let xn := DiscreteNormalDist._sig c * k + s * DiscreteNormalDist._mu c in
  let i0 := DiscreteNormalDist.iceil xn (DiscreteNormalDist._d c) in
  let xn0 := i0 * DiscreteNormalDist._d c - xn in
  (exists p, DiscreteNormalDist.construct Samples.T2 0 1 3 2
             = DiscreteNormalDist.Ok (p, c))
  /\ IRand.init Samples.T2 5 D (DiscreteNormalDist._isig c) = Some (j, D)
  /\ xn0 = 1
  /\ DiscreteNormalDist.candidate_rejected Samples.T2 c 5 j D k s xn0
     = Some (true, j', D')
  /\ DiscreteNormalDist._sig c
     <= xn0 + DiscreteNormalDist._d c * IRand.min j'
  /\ IRand.less_than Samples.T2 5 j D
       (xn0 + DiscreteNormalDist._sig c) (DiscreteNormalDist._d c)
     = Some (true, j, D)
  /\ ~ (forall rej j1 D1,
           DiscreteNormalDist.candidate_rejected Samples.T2 c 5 j D k s xn0
           = Some (rej, j1, D1) ->
           rej = true ->
           (exists j2 D2,
               IRand.less_than Samples.T2 5 j D
                 (xn0 + DiscreteNormalDist._sig c) (DiscreteNormalDist._d c)
               = Some (false, j2, D2))
           \/ (k = 0 /\ s = -1)).
Proof.
  cbv zeta.
  split; [eexists; vm_compute; reflexivity | ].
  split; [reflexivity | ]. split; [reflexivity | ].
  split; [reflexivity | ]. split; [vm_compute; discriminate | ].
  split; [reflexivity | ].
  intros H.
  destruct (H true {| IRand._a := 1; IRand._d := 1; IRand._l := 0 |}
              {| tape := tape Samples.ones; count := 1 |}
              eq_refl eq_refl) as [(j2 & D2 & E) | [E _]].
  - vm_compute in E. discriminate.
  - discriminate.
Qed.

(** ** u_rand: conversion to floating point *)

Section ValueBounds.
Import URand.
Local Open Scope Q_scope.

Variable b : Z.
Hypothesis b_ge_2 : (2 <= b)%Z.

Lemma b_pos_Q : 0 < inject_Z b.
Proof. change 0 with (inject_Z 0). rewrite <- Zlt_Qlt. lia. Qed.

Lemma inv_b_nonneg : 0 <= / inject_Z b.
Proof. apply Qinv_le_0_compat. apply Qlt_le_weak. exact b_pos_Q. Qed.

Lemma div_b_le (p q : Q) : p <= q -> p / inject_Z b <= q / inject_Z b.
Proof.
  intros H. unfold Qdiv. apply Qmult_le_compat_r; [exact H | ].
  exact inv_b_nonneg.
Qed.

Lemma lower_app (pre rest : list Z) :
  lower b (pre ++ rest) = wrap b pre (lower b rest).
Proof.
  induction pre as [ | d pre IH]; cbn; [reflexivity | now rewrite IH].
Qed.

Lemma upper_app (pre rest : list Z) :
  upper b (pre ++ rest) = wrap b pre (upper b rest).
Proof.
  induction pre as [ | d pre IH]; cbn; [reflexivity | now rewrite IH].
Qed.

Lemma wrap_app (pre1 pre2 : list Z) (t : Q) :
  wrap b (pre1 ++ pre2) t = wrap b pre1 (wrap b pre2 t).
Proof. unfold wrap. apply fold_right_app. Qed.

Lemma wrap_mono (pre : list Z) (t1 t2 : Q) :
  t1 <= t2 -> wrap b pre t1 <= wrap b pre t2.
Proof.
  intros H. induction pre as [ | d pre IH]; cbn; [exact H | ].
  apply div_b_le. apply Qplus_le_r. exact IH.
Qed.

Lemma lower_upper_bounds (ds : list Z) :
  digits_ok b ds -> 0 <= lower b ds /\ lower b ds <= upper b ds
                  /\ upper b ds <= 1.
Proof.
  induction 1 as [ | d ds Hd _ IH]; cbn [lower upper].
  - split; [ | split]; lra.
  - destruct IH as (H0 & H1 & H2).
    assert (Hd0 : 0 <= inject_Z d)
      by (change 0 with (inject_Z 0); rewrite <- Zle_Qle; lia).
    assert (Hd1 : inject_Z d + 1 <= inject_Z b).
    { change 1 with (inject_Z 1). rewrite <- inject_Z_plus, <- Zle_Qle. lia. }
    pose proof b_pos_Q as Hb.
    split; [ | split].
    + apply Qle_shift_div_l; [exact Hb | lra].
    + apply div_b_le. lra.
    + apply Qle_shift_div_r; [exact Hb | lra].
Qed.

(** Materializing more digits narrows the interval. *)
Lemma bounds_app (ds more : list Z) :
  digits_ok b more ->
  lower b ds <= lower b (ds ++ more) /\ upper b (ds ++ more) <= upper b ds.
Proof.
  intros Hm. rewrite lower_app, upper_app.
  destruct (lower_upper_bounds more Hm) as (H0 & _ & H1).
  split.
  - rewrite <- (app_nil_r ds) at 1. rewrite lower_app. cbn [lower].
    now apply wrap_mono.
  - rewrite <- (app_nil_r ds) at 2. rewrite upper_app. cbn [upper].
    now apply wrap_mono.
Qed.

Lemma firstn_succ_nth (k : nat) (ds : list Z) :
  (k < List.length ds)%nat ->
  firstn (S k) ds = firstn k ds ++ [nth k ds 0%Z].
Proof.
  revert ds. induction k as [ | k IH]; intros [ | d ds] Hk; cbn in *;
    try lia; [reflexivity | ].
  f_equal. apply IH. lia.
Qed.

Lemma split_at (k : nat) (ds : list Z) :
  (k < List.length ds)%nat ->
  ds = firstn k ds ++ nth k ds 0%Z :: skipn (S k) ds.
Proof.
  revert ds. induction k as [ | k IH]; intros [ | d ds] Hk; cbn in *;
    try lia; [reflexivity | ].
  f_equal. apply IH. lia.
Qed.

(** The loop [while (k--) z = z / b + _d[k]] against the digits. *)
Lemma horner_step_le (k : nat) (ds : list Z) (step : Q -> Q)
  (horner : nat -> list Z -> Q -> Q) :
  (forall z, step z == z / inject_Z b) ->
  (forall k z, horner (S k) ds z
               = horner k ds (step z + inject_Z (nth k ds 0%Z))) ->
  (forall z, horner O ds z = z) ->
  (k <= List.length ds)%nat ->
  forall z t,
    (z / inject_Z b <= t ->
     horner k ds z / inject_Z b <= wrap b (firstn k ds) t)
    /\ (t <= z / inject_Z b ->
        wrap b (firstn k ds) t <= horner k ds z / inject_Z b).
Proof.
  intros Hstep HS HO. induction k as [ | k IH]; intros Hk z t.
  - rewrite HO. cbn. split; intros H; exact H.
  - rewrite HS, firstn_succ_nth, wrap_app by lia. cbn [wrap fold_right].
    destruct (IH ltac:(lia) (step z + inject_Z (nth k ds 0%Z))
                ((inject_Z (nth k ds 0%Z) + t) / inject_Z b)) as [IH1 IH2].
    split; intros H.
    + apply IH1. apply div_b_le. rewrite Hstep. lra.
    + apply IH2. apply div_b_le. rewrite Hstep. lra.
Qed.
End ValueBounds.

Section ValueArith.
Import URand.

(** [d & (~uint_t(0) << sh)] clears the [sh] low bits of [d]. *)
Lemma land_mask (w d sh : Z) :
  (0 <= sh <= w)%Z -> (0 <= d < 2 ^ w)%Z ->
  Z.land d (DigitArithmetic.uint_shl w (DigitArithmetic.uint_not w 0) sh)
  = (d / 2 ^ sh * 2 ^ sh)%Z.
Proof.
  intros Hsh Hd. rewrite uint_shl_ones by lia.
  replace (2 ^ w - 2 ^ sh)%Z with (Z.shiftl (Z.ones (w - sh)) sh).
  2:{ rewrite Z.shiftl_mul_pow2, Z.ones_equiv by lia.
      replace (2 ^ w)%Z with (2 ^ (w - sh) * 2 ^ sh)%Z
        by (rewrite <- Z.pow_add_r by lia; f_equal; lia).
      lia. }
  rewrite <- Z.shiftr_div_pow2, <- Z.shiftl_mul_pow2 by lia.
  apply Z.bits_inj'. intros n Hn.
  rewrite Z.land_spec, !Z.shiftl_spec by lia.
  destruct (Z_lt_le_dec n sh) as [Hlt | Hge].
  - rewrite (Z.testbit_neg_r _ (n - sh)) by lia.
    rewrite (Z.testbit_neg_r _ (n - sh)) by lia.
    apply andb_false_r.
  - rewrite Z.shiftr_spec by lia. replace (n - sh + sh)%Z with n by lia.
    destruct (Z_lt_le_dec n w) as [Hlw | Hgw].
    + rewrite Z.ones_spec_low by lia. apply andb_true_r.
    + rewrite Z.ones_spec_high by lia. rewrite andb_false_r.
      destruct (Z.eq_dec d 0) as [-> | NE]; [now rewrite Z.bits_0 | ].
      assert (2 ^ w <= 2 ^ n)%Z by (apply Z.pow_le_mono_r; lia).
      symmetry. apply Z.bits_above_log2; [lia | ].
      apply Z.log2_lt_pow2; lia.
Qed.

Lemma div_mul_bounds (d p : Z) :
  (0 < p)%Z -> (d / p * p <= d < d / p * p + p)%Z.
Proof.
  intros Hp. pose proof (Z.div_mod d p ltac:(lia)).
  pose proof (Z.mod_pos_bound d p Hp). lia.
Qed.

Lemma quot_mul_bounds (d p : Z) :
  (0 <= d)%Z -> (0 < p)%Z ->
  (Z.quot d p * p <= d < Z.quot d p * p + p)%Z.
Proof.
  intros Hd Hp. rewrite Z.quot_div_nonneg by lia.
  now apply div_mul_bounds.
Qed.

Lemma Qpower_inject (R n : Z) :
  (0 <= n)%Z -> (inject_Z R ^ n == inject_Z (R ^ n))%Q.
Proof. intros Hn. symmetry. now apply Zpower_Qpower. Qed.

Lemma Qpower_radix_pos (R n : Z) : (1 <= R)%Z -> (0 < inject_Z R ^ n)%Q.
Proof.
  intros HR. apply Qpower_0_lt.
  change 0%Q with (inject_Z 0). rewrite <- Zlt_Qlt. lia.
Qed.

Lemma Qpower_radix_add (R n m : Z) :
  (1 <= R)%Z ->
  (inject_Z R ^ (n + m) == inject_Z R ^ n * inject_Z R ^ m)%Q.
Proof.
  intros HR. apply Qpower_plus.
  intros E. assert (H : (0 < inject_Z R)%Q).
  { change 0%Q with (inject_Z 0). rewrite <- Zlt_Qlt. lia. }
  rewrite E in H. now apply Qlt_irrefl in H.
Qed.

Lemma Qpower_radix_grow (R n k : Z) :
  (1 <= R)%Z -> (0 <= k)%Z -> (inject_Z R ^ n <= inject_Z R ^ (n + k))%Q.
Proof.
  intros HR Hk. rewrite Qpower_radix_add by exact HR.
  pose proof (Qpower_radix_pos R n HR) as Hp.
  assert (H1 : (1 <= inject_Z R ^ k)%Q).
  { rewrite Qpower_inject by lia.
    change 1%Q with (inject_Z 1). rewrite <- Zle_Qle.
    assert (0 < R ^ k)%Z by (apply Z.pow_pos_nonneg; lia). lia. }
  rewrite <- (Qmult_1_r (inject_Z R ^ n)) at 1.
  apply Qmult_le_l; assumption.
Qed.

Lemma Qpower_radix_mono (R n m : Z) :
  (1 <= R)%Z -> (n <= m)%Z -> (inject_Z R ^ n <= inject_Z R ^ m)%Q.
Proof.
  intros HR Hnm.
  pose proof (Qpower_radix_grow R n (m - n) HR ltac:(lia)) as H.
  now replace (n + (m - n))%Z with m in H by lia.
Qed.

Lemma real_ldexp_nonneg (z : Q) (sh : Z) :
  (0 <= sh)%Z -> (real_ldexp z sh == z * inject_Z (2 ^ sh))%Q.
Proof.
  intros Hsh. unfold real_ldexp.
  change 2%Q with (inject_Z 2). now rewrite Qpower_inject.
Qed.

Lemma real_ldexp_neg (z : Q) (n : Z) :
  (0 <= n)%Z -> (real_ldexp z (- n) == z / inject_Z (2 ^ n))%Q.
Proof.
  intros Hn. unfold real_ldexp, Qdiv.
  change 2%Q with (inject_Z 2).
  rewrite Qpower_opp, Qpower_inject by lia. reflexivity.
Qed.

Lemma div_times_spec (n : nat) (R v : Z) :
  (0 <= v)%Z -> (1 <= R)%Z ->
  div_times n R v = (v / R ^ Z.of_nat n)%Z.
Proof.
  intros Hv HR. revert v Hv. induction n as [ | n IH]; intros v Hv.
  - cbn. now rewrite Z.div_1_r.
  - cbn [div_times]. rewrite IH by (apply Z.quot_pos; lia).
    rewrite Z.quot_div_nonneg by lia.
    rewrite Nat2Z.inj_succ, Z.pow_succ_r by lia.
    rewrite Z.div_div by (try lia; apply Z.pow_pos_nonneg; lia).
    reflexivity.
Qed.

Lemma mul_times_spec (n : nat) (R : Z) (z : Q) :
  (mul_times n R z == z * inject_Z (R ^ Z.of_nat n))%Q.
Proof.
  revert z. induction n as [ | n IH]; intros z.
  - cbn. ring.
  - cbn [mul_times]. rewrite IH.
    rewrite Nat2Z.inj_succ, Z.pow_succ_r by lia.
    rewrite inject_Z_mult. ring.
Qed.
End ValueArith.

Section ValueFacts.
Import URand.
Variable T : digit_traits.
Variables uint_w radix digits min_exponent : Z.
Variable has_denorm : bool.

Hypothesis T_wf : traits_wf T.
Hypothesis uint_w_ge : 32 <= uint_w.
Hypothesis ok : value_ok T radix = true.
Hypothesis radix_ge_2 : 2 <= radix.
Hypothesis digits_pos : 1 <= digits.
Hypothesis min_exponent_le : min_exponent <= 0.
(** Without denormals, the lower limit that [value] puts on [min_exp] must
    not come into play. *)
Hypothesis min_exponent_ge : has_denorm = false -> - 2 ^ 30 <= min_exponent.

(** The base is a power of the radix: [2^bits] for a binary type, the
    radix itself otherwise. *)
Lemma base_radix_power :
  effective_base T = radix ^ xbits T radix
  /\ 1 <= xbits T radix <= 32
  /\ 2 <= effective_base T
  /\ (binary radix = true -> radix = 2).
Proof.
  destruct T_wf as (Hmax & Hbase & Hbits & Hlen & Hpow).
  unfold value_ok in ok. unfold effective_base, xbits, binary in *.
  destruct (Z.eqb_spec radix 2) as [E2 | NE2].
  - assert (Hp : power_of_two T = true).
    { destruct (power_of_two T) eqn:Ep; [reflexivity | ].
      cbn [andb orb] in ok. apply andb_prop in ok as [Eb _].
      apply Z.eqb_eq in Eb. rewrite <- Eb, E2 in Hbase.
      assert (E : max_value T = 1).
      { destruct (Z.eq_dec (max_value T + 1) (2 ^ 32)) as [E | NE].
        - rewrite E, Z.mod_same in Hbase by lia. lia.
        - rewrite Z.mod_small in Hbase by lia. lia. }
      apply Hpow. rewrite E in *.
      assert (bits T = 1).
      { destruct (Z.eq_dec (bits T) 1) as [ | NE]; [assumption | ].
        assert (2 ^ 2 <= 2 ^ bits T) by (apply Z.pow_le_mono_r; lia). lia. }
      replace (bits T) with 1. reflexivity. }
    rewrite E2. split; [now apply Hpow | ]. repeat split; lia.
  - cbn [andb orb] in ok. apply andb_prop in ok as [Eb _].
    apply Z.eqb_eq in Eb. rewrite <- Eb in Hbase.
    assert (E : max_value T + 1 = radix).
    { destruct (Z.eq_dec (max_value T + 1) (2 ^ 32)) as [E | NE].
      - rewrite E, Z.mod_same in Hbase by lia. lia.
      - rewrite Z.mod_small in Hbase by lia. lia. }
    rewrite Z.pow_1_r. repeat split; try lia.
Qed.

Lemma min_exp_facts :
  min_exponent <= min_exp min_exponent <= 0
  /\ (has_denorm = false -> min_exp min_exponent = min_exponent).
Proof.
  unfold min_exp. destruct (Z.ltb_spec min_exponent (- 2 ^ 30)); split;
    try lia; intros Hd; specialize (min_exponent_ge Hd); lia.
Qed.

(** [digit] on a well-formed u-rand and tape. *)
Lemma digit_ok (x : u_rand) (D : digit_gen) (k : nat) :
  u_rand_ok T x -> tape_ok T D ->
  let '(d, x', D') := digit x D k in
  extends x x' /\ advances D D' /\ u_rand_ok T x' /\ tape_ok T D'
  /\ (k < List.length (_d x'))%nat /\ d = nth k (_d x') 0.
Proof.
  intros (Hs & Hn & Hd) Htape.
  destruct (digit_spec x D k) as [more H].
  destruct (digit x D k) as [[d x'] D'].
  destruct H as (Es & En & Ed & Edk & Elen & Hk & ED & Htp).
  assert (Hmore : digits_ok (effective_base T) more).
  { apply Forall_forall. intros v Hin.
    apply (In_nth _ _ 0) in Hin. destruct Hin as (i & Hi & <-).
    rewrite Htp by exact Hi. unfold effective_base.
    pose proof (Htape (count D + i)%nat). lia. }
  split; [split; [exact Es | split; [exact En | now exists more] ] | ].
  split; [subst D'; split; cbn; [reflexivity | lia] | ].
  split.
  { split; [rewrite Es; exact Hs | ]. split; [rewrite En; exact Hn | ].
    rewrite Ed. apply Forall_app. split; assumption. }
  split; [intros i; subst D'; apply Htape | ].
  split; [exact Hk | exact Edk].
Qed.

Lemma extends_nth (x x' : u_rand) (j : nat) :
  extends x x' -> (j < List.length (_d x))%nat ->
  nth j (_d x') 0 = nth j (_d x) 0.
Proof.
  intros (_ & _ & more & E) Hj. rewrite E. now apply app_nth1.
Qed.

Lemma extends_length (x x' : u_rand) :
  extends x x' -> (List.length (_d x) <= List.length (_d x'))%nat.
Proof.
  intros (_ & _ & more & E). rewrite E, length_app. lia.
Qed.

(** The search for the first non-zero digit. *)
Lemma skip_zeros_spec (left i : nat) (x : u_rand) (D : digit_gen) :
  u_rand_ok T x -> tape_ok T D ->
  (i <= List.length (_d x))%nat ->
  (forall j, (j < i)%nat -> nth j (_d x) 0 = 0) ->
  let '(i', x', D') := skip_zeros left i x D in
  extends x x' /\ advances D D' /\ u_rand_ok T x' /\ tape_ok T D'
  /\ (i' < List.length (_d x'))%nat
  /\ (forall j, (j < i')%nat -> nth j (_d x') 0 = 0)
  /\ (nth i' (_d x') 0 = 0 -> i' = (i + left)%nat).
Proof.
  revert i x D. induction left as [ | left IH];
    intros i x D Hx Htape Hi Hz; cbn [skip_zeros];
    pose proof (digit_ok x D i Hx Htape) as H;
    destruct (digit x D i) as [[d x1] D1];
    destruct H as (Hext & Hadv & Hx1 & Ht1 & Hlen & Ed);
    assert (Hz0 : forall j, (j < i)%nat -> nth j (_d x1) 0 = 0)
      by (intros j Hj; rewrite (extends_nth x x1 j Hext) by lia;
          now apply Hz).
  - split; [exact Hext | ]. split; [exact Hadv | ]. split; [exact Hx1 | ].
    split; [exact Ht1 | ]. split; [exact Hlen | ]. split; [exact Hz0 | ].
    intros _. lia.
  - destruct (Z.eqb_spec d 0) as [E0 | NE0].
    + assert (Hz1 : forall j, (j < S i)%nat -> nth j (_d x1) 0 = 0).
      { intros j Hj. destruct (Nat.eq_dec j i) as [-> | NE]; [congruence | ].
        apply Hz0. lia. }
      specialize (IH (S i) x1 D1 Hx1 Ht1 ltac:(lia) Hz1).
      destruct (skip_zeros left (S i) x1 D1) as [[i' x'] D'].
      destruct IH as (Hext' & Hadv' & Hx' & Ht' & Hlen' & Hz' & Hend).
      split; [eapply extends_trans; eassumption | ].
      split; [eapply advances_trans; eassumption | ].
      split; [exact Hx' | ]. split; [exact Ht' | ]. split; [exact Hlen' | ].
      split; [exact Hz' | ].
      intros E. rewrite (Hend E). lia.
    + split; [exact Hext | ]. split; [exact Hadv | ]. split; [exact Hx1 | ].
      split; [exact Ht1 | ]. split; [exact Hlen | ]. split; [exact Hz0 | ].
      intros E. congruence.
Qed.

Lemma radix_pos_Q : (0 < inject_Z radix)%Q.
Proof. change 0%Q with (inject_Z 0). rewrite <- Zlt_Qlt. lia. Qed.

(** Dividing by the base lowers the exponent by [xbits]. *)
Lemma div_base_pow (q : Q) (e : Z) :
  (q <= inject_Z radix ^ e ->
   q / inject_Z (effective_base T)
   <= inject_Z radix ^ (e - xbits T radix))%Q.
Proof.
  intros H. destruct base_radix_power as (Eb & Hx & Hb & _).
  unfold Z.sub. rewrite Qpower_radix_add by lia.
  rewrite Qpower_opp, (Qpower_inject radix (xbits T radix)), <- Eb by lia.
  apply div_b_le; [exact Hb | exact H].
Qed.

Lemma upper_lead (i : nat) (ds : list Z) (lead0 : Z) :
  digits_ok (effective_base T) ds ->
  (i < List.length ds)%nat ->
  (forall j, (j < i)%nat -> nth j ds 0 = 0) ->
  0 <= lead0 -> nth i ds 0 + 1 <= radix ^ lead0 ->
  (upper (effective_base T) ds
   <= inject_Z radix ^ (lead0 - (Z.of_nat i + 1) * xbits T radix))%Q.
Proof.
  destruct base_radix_power as (Eb & Hx & Hb & _).
  revert ds. induction i as [ | i IH]; intros ds Hok Hlen Hz Hl0 Hd;
    destruct ds as [ | d ds]; cbn [List.length] in Hlen; try lia;
    cbn [upper nth] in *; inversion Hok as [ | ? ? Hd0 Hok']; subst.
  - replace (lead0 - (Z.of_nat 0 + 1) * xbits T radix)
      with (lead0 - xbits T radix) by lia.
    apply div_base_pow.
    destruct (lower_upper_bounds _ Hb ds Hok') as (_ & _ & Hu).
    rewrite Qpower_inject by lia.
    apply Qle_trans with (inject_Z (d + 1)).
    + rewrite inject_Z_plus. change (inject_Z 1) with 1%Q. lra.
    + rewrite <- Zle_Qle. exact Hd.
  - replace (lead0 - (Z.of_nat (S i) + 1) * xbits T radix)
      with (lead0 - (Z.of_nat i + 1) * xbits T radix - xbits T radix)
      by lia.
    apply div_base_pow.
    pose proof (Hz O ltac:(lia)) as Hd00. cbn in Hd00. subst d.
    change (inject_Z 0) with 0%Q. rewrite Qplus_0_l.
    apply IH; try assumption; [lia | ].
    intros j Hj. apply (Hz (S j)). lia.
Qed.

Lemma count_digits_bounds (passes : nat) (n lead : Z) :
  lead <= count_digits passes radix n lead <= lead + Z.of_nat passes
  /\ (n <> 0 -> (0 < passes)%nat ->
      lead + 1 <= count_digits passes radix n lead).
Proof.
  revert n lead. induction passes as [ | p IH]; intros n lead;
    cbn [count_digits].
  - split; lia.
  - destruct (Z.eqb_spec n 0) as [E | NE].
    + split; lia.
    + destruct (IH (Z.quot n radix) (lead + 1)) as [H1 _]. split; lia.
Qed.

(** The position of the leading digit. *)
Lemma value_lead_spec (x : u_rand) (D : digit_gen) :
  u_rand_ok T x -> tape_ok T D ->
  let '(lead, x1, D1) :=
    value_lead T radix min_exponent has_denorm x D in
  extends x x1 /\ advances D D1 /\ u_rand_ok T x1 /\ tape_ok T D1
  /\ lead <= 32
  /\ (lead < min_exp min_exponent ->
      _n x1 = 0
      /\ (upper (effective_base T) (_d x1)
          <= inject_Z radix ^ (min_exponent - 1))%Q).
Proof.
  intros Hx Htape. unfold value_lead.
  destruct min_exp_facts as (Hme & Hme_eq).
  set (me := min_exp min_exponent) in *.
  destruct base_radix_power as (Eb & Hxb & Hb & Hbin).
  destruct (Z.eqb_spec (_n x) 0) as [E0 | NE0]; cbn [negb].
  - pose proof (skip_zeros_spec
                  (Z.to_nat (Z.quot (- me) (xbits T radix)))
                  0 x D Hx Htape ltac:(lia) ltac:(intros j Hj; lia)) as H.
    destruct (skip_zeros _ 0 x D) as [[i x1] D1].
    destruct H as (Hext & Hadv & Hx1 & Ht1 & Hlen & Hz & _).
    set (di := nth i (_d x1) 0).
    set (lead0 := if binary radix then DigitArithmetic.highest_bit_idx di
                  else if negb (di =? 0) then 1 else 0).
    assert (Hdi : 0 <= di <= effective_base T - 1).
    { destruct Hx1 as (_ & _ & Hd). unfold di.
      apply (proj1 (Forall_forall _ _) Hd). now apply nth_In. }
    assert (Hl0 : 0 <= lead0 <= xbits T radix /\ di + 1 <= radix ^ lead0).
    { unfold lead0. destruct (binary radix) eqn:Ebin.
      - rewrite (Hbin eq_refl) in *.
        pose proof (highest_bit_idx_bound di ltac:(lia)) as [Hh0 Hh1].
        split; [ | lia]. split; [lia | ].
        apply highest_bit_idx_le; lia.
      - destruct (Z.eqb_spec di 0) as [Ed | NEd]; cbn [negb].
        + rewrite Ed. split; [lia | ]. cbn. lia.
        + rewrite Z.pow_1_r.
          unfold xbits in *. rewrite Ebin in *. rewrite Z.pow_1_r in Eb.
          lia. }
    destruct Hl0 as [Hl0 Hdl].
    assert (Hn1 : _n x1 = 0) by (destruct Hext as (_ & En & _); congruence).
    assert (Hup : (upper (effective_base T) (_d x1)
                   <= inject_Z radix
                      ^ (lead0 - (Z.of_nat i + 1) * xbits T radix))%Q).
    { apply upper_lead; try assumption; try lia. apply Hx1. }
    split; [exact Hext | ]. split; [exact Hadv | ]. split; [exact Hx1 | ].
    split; [exact Ht1 | ].
    destruct (Z.geb_spec (lead0 - (Z.of_nat i + 1) * xbits T radix)
                me) as [Hge | Hlt].
    + split; [nia | ]. intros Hc. lia.
    + destruct has_denorm.
      * split; [lia | ]. intros Hc. lia.
      * split; [lia | ]. intros _. split; [exact Hn1 | ].
        specialize (Hme_eq eq_refl).
        eapply Qle_trans; [exact Hup | ].
        apply Qpower_radix_mono; lia.
  - assert (Hlead : 1 <= (if binary radix
                          then DigitArithmetic.highest_bit_idx (_n x)
                          else count_digits 32 radix (_n x) 0) <= 32).
    { destruct Hx as (_ & Hn & _). destruct (binary radix).
      - pose proof (highest_bit_idx_bound (_n x) ltac:(lia)) as [Hh0 Hh1].
        pose proof (highest_bit_idx_le (_n x) 32 ltac:(lia) Hn).
        split; [ | assumption].
        destruct (Z.eq_dec (DigitArithmetic.highest_bit_idx (_n x)) 0)
          as [E | NE]; [ | lia].
        rewrite E in Hh1. cbn in Hh1. lia.
      - destruct (count_digits_bounds 32 (_n x) 0) as [H1 H2].
        specialize (H2 NE0 ltac:(lia)). lia. }
    split; [apply extends_refl | ]. split; [apply advances_refl | ].
    split; [exact Hx | ]. split; [exact Htape | ].
    split; [lia | ]. intros Hc. lia.
Qed.

Lemma value_round_digit_spec (trail : Z) (x : u_rand) (D : digit_gen) :
  u_rand_ok T x -> tape_ok T D ->
  let '(_, x1, D1) := value_round_digit T radix trail x D in
  extends x x1 /\ advances D D1 /\ u_rand_ok T x1 /\ tape_ok T D1.
Proof.
  intros Hx Htape. unfold value_round_digit.
  assert (Hrefl : extends x x /\ advances D D /\ u_rand_ok T x
                  /\ tape_ok T D).
  { split; [apply extends_refl | ]. split; [apply advances_refl | ].
    split; assumption. }
  destruct (binary radix); destruct (trail >? 0); try exact Hrefl.
  - pose proof (digit_ok x D (Z.to_nat (Z.quot (- trail) (xbits T radix)))
                  Hx Htape) as H.
    destruct (digit x D _) as [[d x1] D1]. tauto.
  - pose proof (digit_ok x D (Z.to_nat (- trail)) Hx Htape) as H.
    destruct (digit x D _) as [[d x1] D1]. tauto.
Qed.

Lemma inject_Z_le_1 (n m : Z) :
  n + 1 <= m -> (inject_Z n + 1 <= inject_Z m)%Q.
Proof.
  intros H. change 1%Q with (inject_Z 1).
  rewrite <- inject_Z_plus, <- Zle_Qle. exact H.
Qed.

(** The magnitude assembled from the digits at and above the last place is
    at or below the interval when nothing is added in the last place, and
    at or above it when one unit is added. *)
Lemma value_magnitude_spec (lead trail : Z) (up : bool) (x : u_rand)
  (D : digit_gen) :
  u_rand_ok T x -> tape_ok T D ->
  lead <= 32 -> trail <= lead ->
  (lead < min_exp min_exponent ->
   _n x = 0
   /\ (upper (effective_base T) (_d x)
       <= inject_Z radix ^ (min_exponent - 1))%Q) ->
  let '(m, x1, D1) :=
    value_magnitude T uint_w radix min_exponent lead trail
      (if up then 1%Q else 0%Q) x D in
  extends x x1 /\ advances D D1 /\ u_rand_ok T x1
  /\ (up = true ->
      (inject_Z (_n x1) + upper (effective_base T) (_d x1) <= m)%Q)
  /\ (up = false ->
      (m <= inject_Z (_n x1) + lower (effective_base T) (_d x1))%Q).
Proof.
  intros Hx Htape Hlead Htrail Hunder.
  destruct base_radix_power as (Eb & Hxb & Hb & Hbin).
  unfold value_magnitude.
  pose proof Hx as (Hs & Hn & Hds).
  destruct (lower_upper_bounds _ Hb (_d x) Hds) as (Hlo0 & Hlu & Hup1).
  destruct (Z.geb_spec trail 0) as [Ht0 | Ht0].
  - (* the last place is in the integer part *)
    destruct (binary radix) eqn:Ebin;
      (split; [apply extends_refl | ]; split; [apply advances_refl | ];
       split; [exact Hx | ]).
    + cbn [fst snd _n _d].
      assert (Hpw : 2 ^ 32 <= 2 ^ uint_w) by (apply Z.pow_le_mono_r; lia).
      rewrite land_mask by lia.
      pose proof (div_mul_bounds (_n x) (2 ^ trail)
                    ltac:(apply Z.pow_pos_nonneg; lia)) as Hdm.
      rewrite real_ldexp_nonneg by lia.
      split; intros ->.
      * pose proof (inject_Z_le_1 (_n x)
                      (2 ^ trail + _n x / 2 ^ trail * 2 ^ trail)
                      ltac:(lia)) as H.
        rewrite inject_Z_plus in H. lra.
      * assert (H : (inject_Z (_n x / 2 ^ trail * 2 ^ trail)
                     <= inject_Z (_n x))%Q) by (rewrite <- Zle_Qle; lia).
        lra.
    + cbn [fst snd _n _d].
      rewrite mul_times_spec, div_times_spec by lia.
      rewrite Z2Nat.id by lia.
      pose proof (div_mul_bounds (_n x) (radix ^ trail)
                    ltac:(apply Z.pow_pos_nonneg; lia)) as Hdm.
      split; intros ->.
      * change 1%Q with (inject_Z 1).
        rewrite <- inject_Z_plus, <- inject_Z_mult.
        pose proof (inject_Z_le_1 (_n x)
                      ((1 + _n x / radix ^ trail) * radix ^ trail)
                      ltac:(lia)) as H.
        lra.
      * rewrite Qplus_0_l, <- inject_Z_mult.
        assert (H : (inject_Z (_n x / radix ^ trail * radix ^ trail)
                     <= inject_Z (_n x))%Q) by (rewrite <- Zle_Qle; lia).
        lra.
  - destruct (Z.geb_spec lead (min_exp min_exponent)) as [Hl | Hl].
    + (* the last place is in the fraction *)
      set (k := Z.to_nat (Z.quot (- trail - 1) (xbits T radix))).
      pose proof (digit_ok x D k Hx Htape) as H.
      destruct (digit x D k) as [[d x1] D1].
      destruct H as (Hext & Hadv & Hx1 & Ht1 & Hlen & Ed).
      pose proof Hx1 as (Hs1 & Hn1 & Hds1).
      pose proof (split_at k (_d x1) Hlen) as Hsplit. rewrite <- Ed in Hsplit.
      set (pre := firstn k (_d x1)) in *.
      set (rest := skipn (S k) (_d x1)) in *.
      assert (Hd_rest : (0 <= d <= effective_base T - 1)
                        /\ digits_ok (effective_base T) rest).
      { rewrite Hsplit in Hds1. apply Forall_app in Hds1 as [_ Hds1].
        inversion Hds1; subst. split; assumption. }
      destruct Hd_rest as [Hd Hrest].
      destruct (lower_upper_bounds _ Hb rest Hrest) as (Hr0 & _ & Hr1).
      assert (Hlow : lower (effective_base T) (_d x1)
                     = wrap (effective_base T) pre
                         ((inject_Z d + lower (effective_base T) rest)
                          / inject_Z (effective_base T))%Q).
      { rewrite Hsplit at 1. now rewrite lower_app. }
      assert (Hupp : upper (effective_base T) (_d x1)
                     = wrap (effective_base T) pre
                         ((inject_Z d + upper (effective_base T) rest)
                          / inject_Z (effective_base T))%Q).
      { rewrite Hsplit at 1. now rewrite upper_app. }
      assert (Hk : (k <= List.length (_d x1))%nat) by lia.
      destruct (binary radix) eqn:Ebin.
      * (* binary *)
        pose proof (Hbin eq_refl) as E2.
        set (sh := (Z.of_nat k + 1) * xbits T radix + trail).
        assert (Hsh : 0 <= sh < xbits T radix).
        { unfold sh, k. rewrite Z2Nat.id by (apply Z.quot_pos; lia).
          pose proof (quot_mul_bounds (- trail - 1) (xbits T radix)
                        ltac:(lia) ltac:(lia)).
          lia. }
        assert (Hpw : 2 ^ 32 <= 2 ^ uint_w) by (apply Z.pow_le_mono_r; lia).
        assert (Hdw : 0 <= d < 2 ^ uint_w).
        { unfold effective_base in Hd. destruct T_wf as (Hmax & _). lia. }
        rewrite land_mask by lia.
        pose proof (div_mul_bounds d (2 ^ sh)
                      ltac:(apply Z.pow_pos_nonneg; lia)) as Hdm.
        set (z1 := (real_ldexp (if up then 1 else 0) sh
                    + inject_Z (d / 2 ^ sh * 2 ^ sh))%Q).
        assert (Ez1 : (z1 == inject_Z ((if up then 1 else 0) * 2 ^ sh
                                       + d / 2 ^ sh * 2 ^ sh))%Q).
        { unfold z1. rewrite real_ldexp_nonneg by lia.
          rewrite inject_Z_plus, inject_Z_mult.
          destruct up; reflexivity. }
        assert (Hstep : forall z,
                   (real_ldexp z (- xbits T radix)
                    == z / inject_Z (effective_base T))%Q).
        { intros z. rewrite real_ldexp_neg by lia.
          rewrite Eb, E2. reflexivity. }
        destruct (horner_step_le _ Hb k (_d x1)
                    (fun z => real_ldexp z (- xbits T radix))
                    (horner_binary T radix) Hstep
                    ltac:(reflexivity) ltac:(reflexivity) Hk z1
                    ((inject_Z d + lower (effective_base T) rest)
                     / inject_Z (effective_base T))%Q) as [Hle _].
        destruct (horner_step_le _ Hb k (_d x1)
                    (fun z => real_ldexp z (- xbits T radix))
                    (horner_binary T radix) Hstep
                    ltac:(reflexivity) ltac:(reflexivity) Hk z1
                    ((inject_Z d + upper (effective_base T) rest)
                     / inject_Z (effective_base T))%Q) as [_ Hge].
        fold pre in Hle, Hge.
        split; [exact Hext | ]. split; [exact Hadv | ]. split; [exact Hx1 | ].
        cbn [_n _d]. rewrite Hstep. split; intros Eup.
        -- rewrite Hupp. subst up.
           assert (Hz : (inject_Z d + upper (effective_base T) rest <= z1)%Q).
           { rewrite Ez1.
             pose proof (inject_Z_le_1 d (1 * 2 ^ sh + d / 2 ^ sh * 2 ^ sh)
                           ltac:(lia)).
             lra. }
           specialize (Hge (div_b_le _ Hb _ _ Hz)). lra.
        -- rewrite Hlow. subst up.
           assert (Hz : (z1 <= inject_Z d + lower (effective_base T) rest)%Q).
           { rewrite Ez1.
             assert ((inject_Z (0 * 2 ^ sh + d / 2 ^ sh * 2 ^ sh)
                      <= inject_Z d)%Q) by (rewrite <- Zle_Qle; lia).
             lra. }
           specialize (Hle (div_b_le _ Hb _ _ Hz)). lra.
      * (* radix = base *)
        assert (Er : effective_base T = radix).
        { rewrite Eb. unfold xbits. rewrite Ebin. apply Z.pow_1_r. }
        set (z1 := ((if up then 1 else 0) + inject_Z d)%Q).
        assert (Hstep : forall z,
                   (z / inject_Z radix == z / inject_Z (effective_base T))%Q)
          by (intros z; rewrite Er; reflexivity).
        destruct (horner_step_le _ Hb k (_d x1)
                    (fun z => (z / inject_Z radix)%Q)
                    (horner_radix radix) Hstep
                    ltac:(reflexivity) ltac:(reflexivity) Hk z1
                    ((inject_Z d + lower (effective_base T) rest)
                     / inject_Z (effective_base T))%Q) as [Hle _].
        destruct (horner_step_le _ Hb k (_d x1)
                    (fun z => (z / inject_Z radix)%Q)
                    (horner_radix radix) Hstep
                    ltac:(reflexivity) ltac:(reflexivity) Hk z1
                    ((inject_Z d + upper (effective_base T) rest)
                     / inject_Z (effective_base T))%Q) as [_ Hge].
        fold pre in Hle, Hge.
        split; [exact Hext | ]. split; [exact Hadv | ]. split; [exact Hx1 | ].
        cbn [_n _d]. rewrite Hstep. split; intros Eup.
        -- rewrite Hupp. subst up.
           assert (Hz : (inject_Z d + upper (effective_base T) rest <= z1)%Q)
             by (unfold z1; lra).
           specialize (Hge (div_b_le _ Hb _ _ Hz)). lra.
        -- rewrite Hlow. subst up.
           assert (Hz : (z1 <= inject_Z d + lower (effective_base T) rest)%Q)
             by (unfold z1; lra).
           specialize (Hle (div_b_le _ Hb _ _ Hz)). lra.
    + (* underflow *)
      destruct (Hunder Hl) as [En Hu].
      split; [apply extends_refl | ]. split; [apply advances_refl | ].
      split; [exact Hx | ]. cbn [_n _d]. rewrite En.
      change (inject_Z 0) with 0%Q.
      split; intros ->.
      * unfold real_min. rewrite Qmult_1_l, Qplus_0_l. exact Hu.
      * rewrite Qmult_0_l. lra.
Qed.

(** Materializing more digits keeps a bound on the upper edge. *)
Lemma extends_upper (x x' : u_rand) :
  extends x x' -> u_rand_ok T x' ->
  (upper (effective_base T) (_d x') <= upper (effective_base T) (_d x))%Q.
Proof.
  intros (_ & _ & more & E) (_ & _ & Hd).
  destruct base_radix_power as (_ & _ & Hb & _).
  rewrite E in *. apply Forall_app in Hd as [_ Hm].
  now apply bounds_app.
Qed.

(** C1. Let [x] be a well-formed u-rand, whatever the rounding mode, for a
    floating point type whose radix and base agree as [value] requires
    (radix 2 and a power-of-two base, or an even base equal to the radix),
    with at least one digit of precision, [min_exponent <= 0], and either
    denormals or [-2^30 <= min_exponent] (the lower limit that [value]
    puts on [min_exp]).
    [value] returns [r] and sets the inexact flag [f], having materialized
    further digits of [x]. The flag is never 0: it is the direction
    [fm = +1] or [-1] in which the magnitude [m = |r|] was settled,
    multiplied by the sign. For every real [q] of the interval that the
    u-rand then denotes, [f > 0] implies [q < r], [f < 0] implies [r < q],
    and [f = 0] (which does not occur) implies [r = q]. *)
Theorem value_inexact_flag (x : u_rand) (D : digit_gen)
  (rnd : float_round_style) :
  u_rand_ok T x -> tape_ok T D ->
  let '(r, f, x', D') :=
    value T uint_w radix digits min_exponent has_denorm x D rnd in
  extends x x' /\ advances D D' /\ u_rand_ok T x'
  /\ (f = 1 \/ f = -1)
  /\ (exists (m : Q) (fm : Z),
         (r == inject_Z (_s x') * m)%Q
         /\ f = fm * _s x'
         /\ (fm = 1 \/ fm = -1)
         /\ (fm = 1 ->
             (inject_Z (_n x') + upper (effective_base T) (_d x') <= m)%Q)
         /\ (fm = -1 ->
             (m <= inject_Z (_n x') + lower (effective_base T) (_d x'))%Q))
  /\ forall q : Q,
       inside (effective_base T) x' q ->
       (f > 0 -> (q < r)%Q) /\ (f < 0 -> (r < q)%Q)
       /\ (f = 0 -> (r == q)%Q).
Proof.
  intros Hx Htape. unfold value.
  pose proof (value_lead_spec x D Hx Htape) as HL.
  destruct (value_lead T radix min_exponent has_denorm x D)
    as [[lead x1] D1].
  destruct HL as (Hext1 & Hadv1 & Hx1 & Ht1 & Hlead & Hunder1).
  set (trail := lead - (if lead >=? min_exp min_exponent
                         then digits else 0)).
  assert (Htrail : trail <= lead)
    by (unfold trail; destruct (lead >=? min_exp min_exponent); lia).
  set (flag0 := match rnd with
                | round_to_nearest => 0
                | round_toward_zero => -1
                | round_toward_infinity => _s x
                | round_toward_neg_infinity => - _s x
                | round_indeterminate => 1
                end).
  assert (Hf0 : flag0 = 0 \/ flag0 = 1 \/ flag0 = -1).
  { destruct Hx as (Hs & _). unfold flag0. destruct rnd; lia. }
  (* the rounding direction *)
  assert (HR : let '(flag, x2, D2) :=
                 if flag0 =? 0
                 then let '(f, x2, D2) :=
                        value_round_digit T radix trail x1 D1 in
                      (if f =? 0 then -1 else 1, x2, D2)
                 else (flag0, x1, D1) in
               extends x1 x2 /\ advances D1 D2 /\ u_rand_ok T x2
               /\ tape_ok T D2 /\ (flag = 1 \/ flag = -1)).
  { destruct (Z.eqb_spec flag0 0) as [E | NE].
    - pose proof (value_round_digit_spec trail x1 D1 Hx1 Ht1) as H.
      destruct (value_round_digit T radix trail x1 D1) as [[f x2] D2].
      destruct H as (H1 & H2 & H3 & H4).
      repeat (split; [assumption | ]). destruct (f =? 0); lia.
    - split; [apply extends_refl | ]. split; [apply advances_refl | ].
      split; [exact Hx1 | ]. split; [exact Ht1 | ]. lia. }
  destruct (if flag0 =? 0
            then let '(f, x2, D2) :=
                   value_round_digit T radix trail x1 D1 in
                 (if f =? 0 then -1 else 1, x2, D2)
            else (flag0, x1, D1)) as [[flag x2] D2].
  destruct HR as (Hext2 & Hadv2 & Hx2 & Ht2 & Hflag).
  assert (Hunder2 : lead < min_exp min_exponent ->
                    _n x2 = 0
                    /\ (upper (effective_base T) (_d x2)
                        <= inject_Z radix ^ (min_exponent - 1))%Q).
  { intros Hc. destruct (Hunder1 Hc) as [En Hu]. split.
    - destruct Hext2 as (_ & En2 & _). congruence.
    - eapply Qle_trans; [apply (extends_upper x1 x2 Hext2 Hx2) | exact Hu]. }
  pose proof (value_magnitude_spec lead trail (flag >? 0) x2 D2 Hx2 Ht2
                Hlead Htrail Hunder2) as HM.
  destruct (value_magnitude T uint_w radix min_exponent lead trail
              (if flag >? 0 then 1%Q else 0%Q) x2 D2) as [[m x3] D3].
  destruct HM as (Hext3 & Hadv3 & Hx3 & Hup & Hdown).
  pose proof Hx3 as (Hs3 & Hn3 & Hd3).
  assert (Hfm1 : flag = 1 ->
                 (inject_Z (_n x3) + upper (effective_base T) (_d x3) <= m)%Q).
  { intros ->. apply Hup. reflexivity. }
  assert (Hfm2 : flag = -1 ->
                 (m <= inject_Z (_n x3) + lower (effective_base T) (_d x3))%Q).
  { intros ->. apply Hdown. reflexivity. }
  split; [eapply extends_trans; [ | exact Hext3];
          eapply extends_trans; eassumption | ].
  split; [eapply advances_trans; [ | exact Hadv3];
          eapply advances_trans; eassumption | ].
  split; [exact Hx3 | ]. split; [lia | ]. split.
  { exists m, flag. split; [reflexivity | ]. split; [reflexivity | ].
    split; [exact Hflag | ]. split; assumption. }
  intros q [Hq1 Hq2].
  destruct base_radix_power as (_ & _ & Hb & _).
  destruct (lower_upper_bounds _ Hb (_d x3) Hd3) as (Hlo0 & Hlu & Hup1).
  destruct Hs3 as [Es | Es]; rewrite Es in *;
    [change (inject_Z 1) with 1%Q in * | change (inject_Z (-1)) with (-1)%Q in *];
    destruct Hflag as [Ef | Ef]; subst flag;
    (split; [ | split]); intros Hc; try lia;
    try (specialize (Hfm1 eq_refl)); try (specialize (Hfm2 eq_refl)); lra.
Qed.
End ValueFacts.

(** The constants of [rand_digit<b>] fit together, for every admissible
    base, as do those of [rand_table]. *)
Lemma rand_digit_traits_wf (uint_w b : Z) :
  32 <= uint_w -> DigitArithmetic.base_ok b = true ->
  URand.traits_wf (rand_digit_traits uint_w b).
Proof.
  intros Hw Hok. unfold URand.traits_wf, rand_digit_traits.
  cbn [base max_value bits power_of_two].
  pose proof (basem1_range b) as Hr. unfold DigitArithmetic.uint_m in Hr.
  pose proof (bits_range b) as Hbits.
  pose proof (basem1_lt_pow_bits b) as Hlt.
  unfold DigitArithmetic.base_ok in Hok. apply negb_true_iff in Hok.
  apply Z.eqb_neq in Hok.
  assert (Hb1 : 1 <= DigitArithmetic.basem1 b).
  { destruct (Z.eq_dec (DigitArithmetic.basem1 b) 0) as [E | NE]; [ | lia].
    exfalso. apply Hok. unfold DigitArithmetic.bits. rewrite E. reflexivity. }
  assert (Hlen : 2 ^ DigitArithmetic.bits b <= 2 * DigitArithmetic.basem1 b).
  { unfold DigitArithmetic.bits. rewrite Z.mod_small by lia.
    destruct (DigitArithmetic.basem1 b) as [ | p | p] eqn:E; try lia.
    cbn [DigitArithmetic.highest_bit_idx].
    rewrite highest_bit_idx_pos_spec.
    pose proof (Z.log2_nonneg (Z.pos p)).
    rewrite Z.pow_add_r, Z.pow_1_r by lia.
    pose proof (Z.log2_spec (Z.pos p) ltac:(lia)). lia. }
  split; [lia | ]. split.
  { unfold DigitArithmetic.basem1.
    destruct (Z.eqb_spec (DigitArithmetic.base b) 0) as [E | NE].
    - rewrite E. reflexivity.
    - pose proof (base_range b) as Hbr. unfold DigitArithmetic.uint_m in Hbr.
      replace (DigitArithmetic.base b - 1 + 1) with (DigitArithmetic.base b)
        by lia.
      rewrite Z.mod_small; lia. }
  split; [lia | ]. split; [lia | ]. split.
  - now apply power_of_two_spec.
  - intros E. unfold DigitArithmetic.power_of_two.
    destruct (Z.eqb_spec (DigitArithmetic.bits b) uint_w) as [Ew | NEw].
    + apply Z.eqb_eq. unfold DigitArithmetic.uint_not. rewrite <- Ew. lia.
    + destruct (Z.ltb_spec (DigitArithmetic.bits b) uint_w); [ | lia].
      apply Z.eqb_eq. rewrite uint_shl_ones by lia.
      unfold DigitArithmetic.uint_not. lia.
Qed.

Lemma rand_table_traits_wf : URand.traits_wf rand_table_traits.
Proof.
  unfold URand.traits_wf, rand_table_traits. cbn.
  repeat split; try lia; try discriminate.
Qed.

(** An instance: the u-rand 0.1011... in base 2,
    rounded to nearest at a precision of 3 binary digits, gives 3/4 with
    the flag +1, above every point of (11/16, 3/4). *)
Lemma value_inexact_flag_witness :
  let D := tape_of [1; 0; 1; 1; 0; 1] 0 in
  let v := URand.value Samples.T2 64 2 3 (-10) true URand.construct D
             URand.round_to_nearest in
  URand.traits_wf Samples.T2
  /\ 32 <= 64
  /\ URand.value_ok Samples.T2 2 = true
  /\ 2 <= 2
  /\ 1 <= 3
  /\ -10 <= 0
  /\ (true = false -> - 2 ^ 30 <= -10)
  /\ URand.u_rand_ok Samples.T2 URand.construct
  /\ tape_ok Samples.T2 D
  /\ (fst (fst (fst v)) == 3 # 4)%Q
  /\ snd (fst (fst v)) = 1
  /\ forall q : Q,
       URand.inside (URand.effective_base Samples.T2) (snd (fst v)) q ->
       (q < fst (fst (fst v)))%Q.
Proof.
  intros D v.
  assert (H1 : URand.traits_wf Samples.T2)
    by (apply rand_digit_traits_wf; [lia | reflexivity]).
  assert (H2 : 32 <= 64) by lia.
  assert (H3 : URand.value_ok Samples.T2 2 = true) by reflexivity.
  assert (H4 : 2 <= 2) by lia.
  assert (H5 : 1 <= 3) by lia.
  assert (H6 : -10 <= 0) by lia.
  assert (H6' : true = false -> - 2 ^ 30 <= -10) by (intros _; lia).
  assert (H7 : URand.u_rand_ok Samples.T2 URand.construct).
  { split; [left; reflexivity | ]. split; [cbn; lia | constructor]. }
  assert (H8 : tape_ok Samples.T2 D).
  { apply tape_of_ok; [ | vm_compute; split; discriminate].
    repeat constructor; vm_compute; discriminate. }
  pose proof (value_inexact_flag Samples.T2 64 2 3 (-10) true H1 H2 H3 H4 H5
                H6 H6' URand.construct D URand.round_to_nearest H7 H8) as H.
  fold v in H. destruct v as [[[r f] x'] D'] eqn:Ev.
  destruct H as (_ & _ & _ & _ & _ & Hq).
  repeat (split; [assumption | ]).
  assert (Er : (r == 3 # 4)%Q /\ f = 1).
  { assert (E : (Qred r, f) = (3 # 4, 1)).
    { replace r with (fst (fst (fst v))) by (subst v; now rewrite Ev).
      replace f with (snd (fst (fst v))) by (subst v; now rewrite Ev).
      vm_compute. reflexivity. }
    injection E as E1 E2. split; [ | exact E2].
    rewrite <- (Qred_correct r), E1. reflexivity. }
  cbn [fst snd]. destruct Er as [Er Ef].
  split; [exact Er | ]. split; [exact Ef | ].
  intros q Hin. apply (Hq q Hin). lia.
Defined.

(** ** value on a type without denormals whose [min_exponent] is below the
    limit put on [min_exp] *)

Section DeepUnderflow.
Import URand.

Lemma digit_zero_tape (x : u_rand) (D : digit_gen) (k : nat) :
  (forall i, tape D i = 0) -> all_zero (_d x) ->
  let '(d, x', D') := digit x D k in
  d = 0 /\ all_zero (_d x') /\ _s x' = _s x /\ _n x' = _n x
  /\ tape D' = tape D
  /\ List.length (_d x') = Nat.max (List.length (_d x)) (S k).
Proof.
  intros Htape Hz. destruct (digit_spec x D k) as [more H].
  destruct (digit x D k) as [[d x'] D'].
  destruct H as (Es & En & Ed & Edk & Elen & Hk & ED & Htp).
  assert (Hall : all_zero (_d x')).
  { intros j. rewrite Ed.
    destruct (Nat.lt_ge_cases j (List.length (_d x))) as [Hl | Hl].
    - rewrite app_nth1 by exact Hl. apply Hz.
    - rewrite app_nth2 by exact Hl.
      destruct (Nat.lt_ge_cases (j - List.length (_d x)) (List.length more))
        as [Hm | Hm].
      + rewrite Htp by exact Hm. apply Htape.
      + now apply nth_overflow. }
  split; [rewrite Edk; apply Hall | ]. split; [exact Hall | ].
  split; [exact Es | ]. split; [exact En | ].
  split; [subst D'; reflexivity | ].
  rewrite Ed, length_app, Elen. unfold ndigits. lia.
Qed.

Lemma skip_zeros_zero_tape (left i : nat) (x : u_rand) (D : digit_gen) :
  (forall i, tape D i = 0) -> all_zero (_d x) ->
  let '(i', x', D') := skip_zeros left i x D in
  i' = (i + left)%nat /\ all_zero (_d x') /\ _s x' = _s x /\ _n x' = _n x
  /\ List.length (_d x') = Nat.max (List.length (_d x)) (S (i + left)).
Proof.
  revert i x D. induction left as [ | left IH]; intros i x D Htape Hz;
    cbn [skip_zeros];
    pose proof (digit_zero_tape x D i Htape Hz) as H;
    destruct (digit x D i) as [[d x1] D1];
    destruct H as (Ed & Hz1 & Es & En & Et & El).
  - rewrite Nat.add_0_r. repeat split; assumption.
  - subst d. cbn [Z.eqb].
    assert (Ht1 : forall i, tape D1 i = 0) by (intros j; rewrite Et; apply Htape).
    specialize (IH (S i) x1 D1 Ht1 Hz1).
    destruct (skip_zeros left (S i) x1 D1) as [[i' x'] D'].
    destruct IH as (Ei & Hz' & Es' & En' & El').
    split; [lia | ]. split; [exact Hz' | ].
    split; [congruence | ]. split; [congruence | ]. lia.
Qed.

Lemma all_zero_tail (d : Z) (ds : list Z) :
  all_zero (d :: ds) -> d = 0 /\ all_zero ds.
Proof.
  intros H. split; [exact (H O) | intros j; exact (H (S j))].
Qed.

(** For digits that are all zero, the interval is [(0, b^(-K))]. *)
Lemma zero_bounds (b : Z) (ds : list Z) :
  2 <= b -> all_zero ds ->
  (lower b ds == 0)%Q
  /\ (upper b ds == inject_Z b ^ (- Z.of_nat (List.length ds)))%Q.
Proof.
  intros Hb. induction ds as [ | d ds IH]; intros Hz.
  - cbn. split; reflexivity.
  - apply all_zero_tail in Hz as [-> Hz]. destruct (IH Hz) as [IH1 IH2].
    cbn [lower upper List.length]. rewrite IH1, IH2.
    change (inject_Z 0) with 0%Q. split.
    + unfold Qdiv. ring.
    + rewrite Nat2Z.inj_succ.
      replace (- Z.succ (Z.of_nat (List.length ds)))
        with (- Z.of_nat (List.length ds) + - 1) by lia.
      rewrite Qpower_radix_add by lia.
      change (inject_Z b ^ (-1))%Q with (/ inject_Z b)%Q.
      unfold Qdiv. ring.
Qed.

Lemma Qpower_radix_lt (R n m : Z) :
  2 <= R -> n < m -> (inject_Z R ^ n < inject_Z R ^ m)%Q.
Proof.
  intros HR Hnm.
  apply Qlt_le_trans with (inject_Z R ^ (n + 1))%Q.
  - rewrite Qpower_radix_add by lia.
    pose proof (Qpower_radix_pos R n ltac:(lia)) as Hp.
    change (inject_Z R ^ 1)%Q with (inject_Z R).
    rewrite <- (Qmult_1_r (inject_Z R ^ n)) at 1.
    apply Qmult_lt_l; [exact Hp | ].
    change 1%Q with (inject_Z 1). rewrite <- Zlt_Qlt. lia.
  - apply Qpower_radix_mono; lia.
Qed.

(** The run of [value] for a type of radix 2 with [min_exponent = -2^62]
    and no denormals on the fresh u-rand, all digits drawn being zero:
    [2^25 + 1] digits of base [2^32] are read, and the result is
    [numeric_limits::min()] with the flag at [+1]. *)
Lemma value_deep_underflow :
  exists x1 D1,
    value Samples.T32 64 2 53 (- 2 ^ 62) false construct Samples.zeros
      round_indeterminate
    = ((inject_Z (_s x1) * (1 * real_min 2 (- 2 ^ 62)))%Q, 1 * _s x1, x1, D1)
    /\ _s x1 = 1 /\ _n x1 = 0 /\ all_zero (_d x1)
    /\ Z.of_nat (List.length (_d x1)) = 2 ^ 25 + 1.
Proof.
  unfold value, value_lead.
  change (negb (_n construct =? 0)) with false. cbv iota.
  set (Qt := Z.quot (- min_exp (- 2 ^ 62)) (xbits Samples.T32 2)).
  assert (EQ : Qt = 2 ^ 25) by (vm_compute; reflexivity).
  remember (Z.to_nat Qt) as L eqn:EL.
  assert (HL : Z.of_nat L = 2 ^ 25) by (subst L; rewrite Z2Nat.id; lia).
  clear EL EQ. clearbody Qt.
  assert (Htape : forall i, tape Samples.zeros i = 0).
  { intros i. unfold Samples.zeros, tape_of. cbn [tape].
    now rewrite nth_overflow by (cbn; lia). }
  assert (Hz0 : all_zero (_d construct)) by (intros [ | j]; reflexivity).
  pose proof (skip_zeros_zero_tape L 0 construct Samples.zeros Htape Hz0) as H.
  destruct (skip_zeros L 0 construct Samples.zeros) as [[i x1] D1].
  destruct H as (Ei & Hz & Es & En & El).
  rewrite (Hz i).
  change (binary 2) with true. cbv iota.
  change (DigitArithmetic.highest_bit_idx 0) with 0.
  change (xbits Samples.T32 2) with 32.
  change (min_exp (- 2 ^ 62)) with (- 2 ^ 30).
  assert (Hlead : (0 - (Z.of_nat i + 1) * 32 >=? - 2 ^ 30) = false).
  { rewrite Ei, Nat.add_0_l, HL. reflexivity. }
  rewrite Hlead.
  change (- 2 ^ 30 - 1 >=? - 2 ^ 30) with false.
  change (1 =? 0) with false. cbv iota.
  unfold value_magnitude.
  change (min_exp (- 2 ^ 62)) with (- 2 ^ 30).
  change (- 2 ^ 30 - 1 - 0 >=? 0) with false.
  change (- 2 ^ 30 - 1 >=? - 2 ^ 30) with false.
  change (1 >? 0) with true. cbv iota.
  exists x1, D1. split; [reflexivity | ].
  split; [exact Es | ]. split; [exact En | ]. split; [exact Hz | ].
  rewrite El. cbn [construct _d List.length]. lia.
Qed.

(** C1, stated for every floating point type, fails for a type without
    denormals whose [min_exponent] is below [-2^30]. The interval left to
    the u-rand reaches up to [2^(-2^30 - 32)], while the result is
    [2^(-2^62 - 1)]: the point [q = 2^(-2^30 - 33)] of the interval is
    above the result although the flag is positive. The type and the digit
    generator pass the static assertions of [value]. *)
Lemma value_min_exp_counterexample :
  value_ok Samples.T32 2 = true
  /\ exists (r : Q) (f : Z) (x' : u_rand) (D' : digit_gen) (q : Q),
       value Samples.T32 64 2 53 (- 2 ^ 62) false construct Samples.zeros
         round_indeterminate = (r, f, x', D')
       /\ inside (effective_base Samples.T32) x' q
       /\ f > 0 /\ ~ (q < r)%Q.
Proof.
  split; [reflexivity | ].
  destruct value_deep_underflow as (x1 & D1 & E & Es & En & Hz & Hlen).
  exists (inject_Z (_s x1) * (1 * real_min 2 (- 2 ^ 62)))%Q, (1 * _s x1),
    x1, D1, (inject_Z 2 ^ (- 2 ^ 30 - 33))%Q.
  split; [exact E | ].
  change (effective_base Samples.T32) with (2 ^ 32).
  destruct (zero_bounds (2 ^ 32) (_d x1) ltac:(lia) Hz) as [Hl Hu].
  assert (Hup : (upper (2 ^ 32) (_d x1) == inject_Z 2 ^ (- 2 ^ 30 - 32))%Q).
  { rewrite Hu, Hlen.
    rewrite <- (Qpower_inject 2 32) by lia.
    rewrite <- Qpower_mult.
    replace (32 * - (2 ^ 25 + 1)) with (- 2 ^ 30 - 32) by lia.
    reflexivity. }
  pose proof (Qpower_radix_pos 2 (- 2 ^ 30 - 33) ltac:(lia)) as Hq.
  pose proof (Qpower_radix_lt 2 (- 2 ^ 30 - 33) (- 2 ^ 30 - 32)
                ltac:(lia) ltac:(lia)) as Hq1.
  pose proof (Qpower_radix_lt 2 (- 2 ^ 62 - 1) (- 2 ^ 30 - 33)
                ltac:(lia) ltac:(lia)) as Hq2.
  unfold real_min.
  split; [ | split; [lia | ] ].
  - unfold inside. rewrite Es, En, Hl, Hup.
    change (inject_Z 1) with 1%Q. change (inject_Z 0) with 0%Q.
    split; lra.
  - rewrite Es. change (inject_Z 1) with 1%Q. lra.
Qed.
End DeepUnderflow.

(** ** digit_arithmetic: bit lengths and the constants of a base *)

Section DigitExtra.
Import DigitArithmetic.

(** The bit length determines [highest_bit_idx]. *)
Lemma highest_bit_idx_unique (x n : Z) :
  0 <= x -> 0 <= n -> x < 2 ^ n -> 2 ^ n <= 2 * x + 1 ->
  highest_bit_idx x = n.
Proof.
  intros Hx Hn Hlt Hge.
  destruct x as [ | p | p]; [ | | lia].
  - cbn [highest_bit_idx].
    destruct (Z.eq_dec n 0) as [-> | NE]; [reflexivity | ].
    assert (2 ^ 1 <= 2 ^ n) by (apply Z.pow_le_mono_r; lia). lia.
  - cbn [highest_bit_idx]. rewrite highest_bit_idx_pos_spec.
    assert (Hn1 : 1 <= n).
    { destruct (Z.eq_dec n 0) as [-> | NE]; [cbn in Hlt; lia | lia]. }
    assert (Hp : 2 ^ n = 2 * 2 ^ (n - 1)).
    { rewrite <- (Z.pow_1_r 2) at 2. rewrite <- Z.pow_add_r by lia.
      f_equal. lia. }
    assert (Z.log2 (Z.pos p) = n - 1).
    { apply Z.log2_unique; [lia | ].
      replace (Z.succ (n - 1)) with n by lia. lia. }
    lia.
Qed.

(** [highest_bit_idx] is the bit length. *)
Lemma highest_bit_idx_bits (x : Z) :
  0 <= x ->
  (highest_bit_idx x = 0 <-> x = 0)
  /\ (0 < x -> 2 ^ (highest_bit_idx x - 1) <= x < 2 ^ highest_bit_idx x).
Proof.
  intros Hx. split.
  - destruct x as [ | p | p]; [tauto | | lia].
    cbn [highest_bit_idx]. rewrite highest_bit_idx_pos_spec.
    pose proof (Z.log2_nonneg (Z.pos p)). split; [lia | discriminate].
  - intros Hx0. destruct x as [ | p | p]; try lia.
    cbn [highest_bit_idx]. rewrite highest_bit_idx_pos_spec.
    replace (Z.log2 (Z.pos p) + 1 - 1) with (Z.log2 (Z.pos p)) by lia.
    pose proof (Z.log2_spec (Z.pos p) ltac:(lia)) as H.
    replace (Z.log2 (Z.pos p) + 1) with (Z.succ (Z.log2 (Z.pos p))) by lia.
    exact H.
Qed.

(** X1. [highest_bit_idx] obeys the recursion of the source,
    [x == 0 ? 0 : 1 + highest_bit_idx(x >> 1)], and is the bit length:
    0 for 0, and for [x > 0] the [h] with [2^(h-1) <= x < 2^h]; in
    particular 32 for [uint_m]. *)
Theorem highest_bit_idx_length (x : Z) :
  0 <= x ->
  highest_bit_idx x
  = (if x =? 0 then 0 else 1 + highest_bit_idx (Z.shiftr x 1))
  /\ (highest_bit_idx x = 0 <-> x = 0)
  /\ (0 < x -> 2 ^ (highest_bit_idx x - 1) <= x < 2 ^ highest_bit_idx x)
  /\ (x <= uint_m -> highest_bit_idx x <= highest_bit_idx uint_m)
  /\ highest_bit_idx uint_m = 32.
Proof.
  intros Hx. destruct (highest_bit_idx_bits x Hx) as [H0 H1].
  split; [ | split; [exact H0 | split; [exact H1 | split] ] ].
  - destruct x as [ | p | p]; [reflexivity | | lia].
    destruct p as [q | q | ]; reflexivity.
  - intros Hle. change (highest_bit_idx uint_m) with 32.
    apply highest_bit_idx_le; [lia | ]. unfold uint_m in Hle. lia.
  - reflexivity.
Qed.

(** The bit length of 10. *)
Lemma highest_bit_idx_length_witness :
  0 <= 10
  /\ 2 ^ (highest_bit_idx 10 - 1) <= 10 < 2 ^ highest_bit_idx 10.
Proof.
  assert (H : 0 <= 10) by lia. split; [exact H | ].
  apply (highest_bit_idx_length 10 H). lia.
Defined.

(** X2. The table that gives [bits] when [constexpr] is not available
    agrees with [highest_bit_idx(unsigned(basem1))] for every template
    argument [b]; its last entry, 33, is never reached. *)
Theorem bits_table_agrees (b : Z) :
  DigitTable.bits_table (basem1 b) = bits b
  /\ DigitTable.bits_table (basem1 b) <> 33.
Proof.
  pose proof (basem1_range b) as Hr. unfold uint_m in Hr.
  pose proof (bits_range b) as Hbits.
  assert (E : DigitTable.bits_table (basem1 b) = bits b).
  { unfold bits. rewrite Z.mod_small by lia.
    set (x := basem1 b) in *. clearbody x. symmetry.
    unfold DigitTable.bits_table.
    repeat match goal with
           | |- context [?a <=? ?c] =>
               destruct (Z.leb_spec a c)
           end;
      try (apply highest_bit_idx_unique; lia); lia. }
  split; [exact E | ]. rewrite E. lia.
Qed.

(** X3. The constants of [digit_arithmetic<b>], for every [b]: the static
    assertion [bits != 0] rejects exactly the base 1; otherwise the base
    [B] (with [b = 0] standing for [2^32]) lies in [[2, 2^32]], [bits] is
    the least number of bits holding a digit, [2^(bits-1) < B <= 2^bits],
    and [power_of_two] holds exactly when [B] is a power of two, which is
    then [2^bits]. *)
Theorem digit_arithmetic_constants (uint_w b : Z) :
  32 <= uint_w ->
  let B := basem1 b + 1 in
  B = (if b mod 2 ^ 32 =? 0 then 2 ^ 32 else b mod 2 ^ 32)
  /\ (base_ok b = true <-> b mod 2 ^ 32 <> 1)
  /\ (base_ok b = true ->
      2 <= B <= 2 ^ 32
      /\ 1 <= bits b <= 32
      /\ 2 ^ (bits b - 1) < B <= 2 ^ bits b
      /\ (power_of_two uint_w b = true <-> exists k, 0 <= k /\ B = 2 ^ k)
      /\ (power_of_two uint_w b = true -> B = 2 ^ bits b)).
Proof.
  intros Hw B.
  pose proof (basem1_range b) as Hr. unfold uint_m in Hr.
  pose proof (bits_range b) as Hbits.
  pose proof (basem1_lt_pow_bits b) as Hlt.
  pose proof (basem1_succ b) as HB. rewrite base_mod in HB. fold B in HB.
  pose proof (Z.mod_pos_bound b (2 ^ 32) ltac:(lia)) as Hm.
  assert (Hz : bits b = 0 <-> basem1 b = 0).
  { unfold bits. rewrite Z.mod_small by lia.
    apply highest_bit_idx_bits. lia. }
  assert (Hok : base_ok b = true <-> b mod 2 ^ 32 <> 1).
  { unfold base_ok. rewrite negb_true_iff, Z.eqb_neq, Hz.
    destruct (Z.eqb_spec (b mod 2 ^ 32) 0); lia. }
  split; [exact HB | ]. split; [exact Hok | ].
  intros Hbok. apply Hok in Hbok.
  assert (Hb1 : 1 <= basem1 b).
  { destruct (Z.eqb_spec (b mod 2 ^ 32) 0); lia. }
  assert (Hbits1 : 1 <= bits b) by lia.
  assert (Hlow : 2 ^ (bits b - 1) <= basem1 b).
  { unfold bits. rewrite Z.mod_small by lia.
    apply highest_bit_idx_bits; lia. }
  assert (Hspec := power_of_two_spec uint_w b Hw). fold B in Hspec.
  assert (Hconv : B = 2 ^ bits b -> power_of_two uint_w b = true).
  { intros E. unfold power_of_two. apply Z.eqb_eq.
    destruct (Z.eqb_spec (bits b) uint_w) as [Ew | NEw].
    - unfold uint_not. rewrite <- Ew. lia.
    - destruct (Z.ltb_spec (bits b) uint_w) as [L | L]; [ | lia].
      rewrite uint_shl_ones by lia. unfold uint_not. lia. }
  split; [unfold B; lia | ]. split; [lia | ].
  split; [unfold B; lia | ]. split; [ | exact Hspec].
  split.
  - intros H. exists (bits b). split; [lia | now apply Hspec].
  - intros (k & Hk & Ek). apply Hconv.
    assert (k = bits b); [ | congruence].
    assert (bits b - 1 < k).
    { apply (Z.pow_lt_mono_r_iff 2); [lia | lia | ]. unfold B in Ek. lia. }
    assert (k < bits b + 1).
    { apply (Z.pow_lt_mono_r_iff 2); [lia | lia | ].
      rewrite Z.pow_add_r, Z.pow_1_r by lia. unfold B in Ek.
      assert (0 < 2 ^ bits b) by (apply Z.pow_pos_nonneg; lia). lia. }
    lia.
Qed.
End DigitExtra.

(** [rand_digit<10>] with a 64-bit [uint_t]. *)
Lemma digit_arithmetic_constants_witness :
  let B := DigitArithmetic.basem1 10 + 1 in
  B = 10 /\ DigitArithmetic.bits 10 = 4
  /\ DigitArithmetic.power_of_two 64 10 = false.
Proof.
  pose proof (digit_arithmetic_constants 64 10 ltac:(lia)) as H.
  cbv zeta in H. destruct H as (HB & _ & _).
  split; [exact HB | ]. split; reflexivity.
Defined.

(** ** table_gen and rand_table *)

Section TableFacts.
Import DiscreteNormalDist TableGen.
Variable uint_w : Z.
Variable char_signed : bool.
Hypothesis uint_w_ge : 32 <= uint_w.

Lemma get_length (s : string) (n : nat) :
  (String.length s <=? n)%nat = true <-> String.get n s = None.
Proof.
  revert n. induction s as [ | c s IH]; intros n.
  - cbn. tauto.
  - destruct n as [ | n]; cbn [String.length String.get].
    + cbn. split; discriminate.
    + change (S (String.length s) <=? S n)%nat
        with (String.length s <=? n)%nat. apply IH.
Qed.

(** The digit that [table_gen] makes of a character: its decimal value,
    or 9 for a character that is not a decimal digit. *)
Lemma char_digit (c : ascii) :
  let n := Z.of_nat (nat_of_ascii c) in
  Z.min ((char_value char_signed c - 48) mod 2 ^ uint_w) 9
  = if (48 <=? n) && (n <=? 57) then n - 48 else 9.
Proof.
  intros n. unfold char_value. fold n.
  assert (Hn : 0 <= n < 256).
  { unfold n. pose proof (nat_ascii_bounded c). lia. }
  assert (Hp : 2 ^ 32 <= 2 ^ uint_w) by (apply Z.pow_le_mono_r; lia).
  destruct (Z.leb_spec 48 n) as [L1 | L1];
    destruct (Z.leb_spec n 57) as [L2 | L2]; cbn [andb].
  - replace (char_signed && (128 <=? n)) with false
      by (destruct char_signed, (Z.leb_spec 128 n); cbn; lia || reflexivity).
    rewrite Z.mod_small by lia. lia.
  - destruct (char_signed && (128 <=? n)) eqn:E.
    + rewrite <- (Z.mod_add _ 1) by lia. rewrite Z.mod_small by lia. lia.
    + rewrite Z.mod_small by lia. lia.
  - replace (char_signed && (128 <=? n)) with false
      by (destruct char_signed, (Z.leb_spec 128 n); cbn; lia || reflexivity).
    rewrite <- (Z.mod_add _ 1) by lia. rewrite Z.mod_small by lia. lia.
  - lia.
Qed.

(** X4. One call of [table_gen]: past the end of the seed it throws and
    leaves the generator as it was; otherwise it moves on by one character
    and returns a digit of [[0, 9]]: the value of a decimal digit
    character, and 9 for any other character, whether [char] is signed or
    not. *)
Theorem table_gen_call (g : table_gen) :
  match String.get (_pos g) (_seed g) with
  | None =>
      (String.length (_seed g) <= _pos g)%nat
      /\ call uint_w char_signed g = (Throw "table_gen: overflow", g)
  | Some c =>
      let n := Z.of_nat (nat_of_ascii c) in
      let d := if (48 <=? n) && (n <=? 57) then n - 48 else 9 in
      (_pos g < String.length (_seed g))%nat
      /\ 0 <= d <= 9
      /\ call uint_w char_signed g
         = (Ok d, {| _seed := _seed g; _pos := S (_pos g) |})
  end.
Proof.
  unfold call. pose proof (get_length (_seed g) (_pos g)) as H.
  destruct (String.get (_pos g) (_seed g)) as [c | ] eqn:E.
  - destruct (Nat.leb_spec (String.length (_seed g)) (_pos g)) as [L | L].
    + destruct H as [H _]. discriminate (H eq_refl).
    + cbv zeta. rewrite char_digit. split; [exact L | ].
      split; [ | reflexivity].
      destruct (Z.leb_spec 48 (Z.of_nat (nat_of_ascii c)));
        destruct (Z.leb_spec (Z.of_nat (nat_of_ascii c)) 57); cbn [andb];
        lia.
  - destruct H as [_ H]. rewrite (H eq_refl). split; [ | reflexivity].
    apply Nat.leb_le. exact (H eq_refl).
Qed.
End TableFacts.

(** A seed of two characters, the second of which is not a digit. *)
Lemma table_gen_call_witness :
  32 <= 64
  /\ TableGen.call 64 true {| TableGen._seed := "7x"; TableGen._pos := 1 |}
     = (DiscreteNormalDist.Ok 9,
        {| TableGen._seed := "7x"; TableGen._pos := 2 |}).
Proof.
  assert (H : 32 <= 64) by lia. split; [exact H | ].
  exact (proj2 (proj2 (table_gen_call 64 true H
    {| TableGen._seed := "7x"; TableGen._pos := 1 |}))).
Defined.

Section TableRun.
Import DiscreteNormalDist TableGen.
Variable uint_w : Z.
Variable char_signed : bool.
Hypothesis uint_w_ge : 32 <= uint_w.

Lemma seed_of_digits_length (ds : list Z) :
  String.length (seed_of_digits ds) = List.length ds.
Proof.
  induction ds as [ | d ds IH]; [reflexivity | ].
  change (seed_of_digits (d :: ds))
    with (String (ascii_of_nat (48 + Z.to_nat d)) (seed_of_digits ds)).
  cbn [String.length List.length]. now rewrite IH.
Qed.

Lemma seed_of_digits_get (ds : list Z) (p : nat) :
  (p < List.length ds)%nat ->
  String.get p (seed_of_digits ds)
  = Some (ascii_of_nat (48 + Z.to_nat (nth p ds 0))).
Proof.
  revert p. induction ds as [ | d ds IH]; intros p Hp; [cbn in Hp; lia | ].
  change (seed_of_digits (d :: ds))
    with (String (ascii_of_nat (48 + Z.to_nat d)) (seed_of_digits ds)).
  destruct p as [ | p]; [reflexivity | ].
  cbn [String.get nth]. apply IH. cbn in Hp. lia.
Qed.

Lemma skipn_cons_nth (ds : list Z) (p : nat) :
  (p < List.length ds)%nat -> skipn p ds = nth p ds 0 :: skipn (S p) ds.
Proof.
  revert p. induction ds as [ | d ds IH]; intros p Hp; [cbn in Hp; lia | ].
  destruct p as [ | p]; [reflexivity | ].
  cbn [skipn nth]. rewrite IH by (cbn in Hp; lia). reflexivity.
Qed.

(** A call on a seed of decimal digits, inside the seed. *)
Lemma call_seed_of_digits (ds : list Z) (p : nat) :
  Forall (fun d => 0 <= d <= 9) ds -> (p < List.length ds)%nat ->
  call uint_w char_signed {| _seed := seed_of_digits ds; _pos := p |}
  = (Ok (nth p ds 0), {| _seed := seed_of_digits ds; _pos := S p |}).
Proof.
  intros Hds Hp. unfold call. cbn [_seed _pos].
  rewrite seed_of_digits_length.
  destruct (Nat.leb_spec (List.length ds) p) as [L | _]; [lia | ].
  rewrite seed_of_digits_get by exact Hp.
  rewrite (char_digit uint_w char_signed uint_w_ge). cbv zeta.
  assert (Hd : 0 <= nth p ds 0 <= 9).
  { rewrite Forall_forall in Hds. apply Hds. now apply nth_In. }
  rewrite nat_ascii_embedding by lia.
  replace (Z.of_nat (48 + Z.to_nat (nth p ds 0))) with (48 + nth p ds 0)
    by lia.
  destruct (Z.leb_spec 48 (48 + nth p ds 0)); [ | lia].
  destruct (Z.leb_spec (48 + nth p ds 0) 57); [ | lia].
  cbn [andb]. do 2 f_equal. lia.
Qed.

Lemma table_calls_inside (ds : list Z) (n p : nat) (c : Z) :
  Forall (fun d => 0 <= d <= 9) ds -> (p + n <= List.length ds)%nat ->
  table_calls uint_w char_signed n {| _count := c |}
    {| _seed := seed_of_digits ds; _pos := p |}
  = (firstn n (skipn p ds), None, {| _count := c + Z.of_nat n |},
     {| _seed := seed_of_digits ds; _pos := (p + n)%nat |}).
Proof.
  intros Hds. revert p c. induction n as [ | n IH]; intros p c Hn.
  - cbn. now rewrite Z.add_0_r, Nat.add_0_r.
  - cbn [table_calls]. unfold table_call. cbn [_count].
    rewrite call_seed_of_digits by (assumption || lia).
    rewrite IH by lia.
    rewrite (skipn_cons_nth ds p) by lia. cbn [firstn].
    replace (c + 1 + Z.of_nat n) with (c + Z.of_nat (S n)) by lia.
    replace (S p + n)%nat with (p + S n)%nat by lia. reflexivity.
Qed.

(** X5. A [rand_table] fed by a [table_gen] whose seed was written from
    the decimal digits [ds] delivers exactly these digits, in order, the
    count being the number of digits delivered. The call after the last
    digit throws, the count having been incremented all the same, and
    the position in the seed staying at its end. *)
Theorem table_calls_seed (ds : list Z) :
  Forall (fun d => 0 <= d <= 9) ds ->
  let g0 := construct (seed_of_digits ds) in
  let L := List.length ds in
  (forall n, (n <= L)%nat ->
     table_calls uint_w char_signed n table_construct g0
     = (firstn n ds, None, {| _count := Z.of_nat n |},
        {| _seed := seed_of_digits ds; _pos := n |}))
  /\ (forall n, (L < n)%nat ->
        table_calls uint_w char_signed n table_construct g0
        = (ds, Some "table_gen: overflow"%string,
           {| _count := Z.of_nat L + 1 |},
           {| _seed := seed_of_digits ds; _pos := L |})).
Proof.
  intros Hds g0 L.
  assert (Hover : forall n p c, (p <= L)%nat -> (L < p + n)%nat ->
    table_calls uint_w char_signed n {| _count := c |}
      {| _seed := seed_of_digits ds; _pos := p |}
    = (skipn p ds, Some "table_gen: overflow"%string,
       {| _count := c + Z.of_nat (L - p) + 1 |},
       {| _seed := seed_of_digits ds; _pos := L |})).
  { induction n as [ | n IH]; intros p c Hp Hn; [lia | ].
    cbn [table_calls]. unfold table_call. cbn [_count].
    destruct (Nat.eq_dec p L) as [E | NE].
    - unfold call. cbn [_seed _pos]. rewrite seed_of_digits_length.
      destruct (Nat.leb_spec (List.length ds) p) as [_ | Hl];
        [ | unfold L in E; lia].
      subst p. unfold L. rewrite skipn_all.
      replace (List.length ds - List.length ds)%nat with O by lia.
      now rewrite Z.add_0_r.
    - rewrite call_seed_of_digits by (assumption || unfold L in *; lia).
      rewrite IH by lia.
      rewrite (skipn_cons_nth ds p) by (unfold L in *; lia).
      replace (c + 1 + Z.of_nat (L - S p) + 1)
        with (c + Z.of_nat (L - p) + 1) by lia.
      reflexivity. }
  split.
  - intros n Hn. unfold g0, construct, table_construct.
    rewrite table_calls_inside by (assumption || (cbn; unfold L in Hn; lia)).
    reflexivity.
  - intros n Hn. unfold g0, construct, table_construct.
    rewrite Hover by lia. cbn [skipn].
    replace (0 + Z.of_nat (L - 0) + 1) with (Z.of_nat L + 1) by lia.
    reflexivity.
Qed.
End TableRun.

(** The seed ["314"]: three digits, then the exception. *)
Lemma table_calls_seed_witness :
  32 <= 64
  /\ Forall (fun d => 0 <= d <= 9) [3; 1; 4]
  /\ TableGen.table_calls 64 true 4 TableGen.table_construct
       (TableGen.construct "314")
     = ([3; 1; 4], Some "table_gen: overflow"%string,
        {| TableGen._count := 4 |},
        {| TableGen._seed := "314"; TableGen._pos := 3 |}).
Proof.
  assert (H : 32 <= 64) by lia.
  assert (Hd : Forall (fun d => 0 <= d <= 9) [3; 1; 4])
    by (repeat constructor; lia).
  split; [exact H | ]. split; [exact Hd | ].
  exact (proj2 (table_calls_seed 64 true H [3; 1; 4] Hd) 4%nat
           ltac:(cbn; lia)).
Defined.

(** ** i_rand: initialisation, sampling and comparisons *)

Section IRandExtra.
Import IRand.
Variable T : digit_traits.
Hypothesis b_ge_2 : 2 <= b T.
(** The digits are those of base [b]. *)
Hypothesis bm1_b : max_value T = b T - 1.

(** What the inner loop of [init] returns lies in [[0, m)]. *)
Lemma init_scan_range (fuel : nat) (m w a d l a' d' l' : Z) :
  1 <= m -> 0 <= a -> 1 <= d ->
  init_scan T fuel m w a d l = Found a' d' l' ->
  0 <= a' /\ 1 <= d' /\ a' + d' <= m.
Proof.
  intros Hm. revert w a d l.
  induction fuel as [ | fuel IH]; intros w a d l Ha Hd;
    cbn [init_scan]; [discriminate | ].
  assert (Hrem : 0 <= a - Z.quot a m * m < m).
  { pose proof (Z.quot_rem' a m) as E.
    pose proof (Z.rem_bound_pos a m Ha ltac:(lia)). lia. }
  destruct (w >=? m).
  - destruct (w - Z.quot a m * m >=? m).
    + destruct (Z.leb_spec (a - Z.quot a m * m + d) m); [ | discriminate].
      intros E. injection E as <- <- <-. lia.
    + apply IH; nia.
  - apply IH; nia.
Qed.

(** When the inner loop of [init] does not return at once, the multiples
    of [m] below [v] are below [c] as well. *)
Lemma init_scan_first (fuel : nat) (m v c : Z) :
  1 <= m -> 0 <= c < v ->
  (forall a d l, init_scan T (S fuel) m v c 1 0 <> Found a d l) ->
  Z.quot v m * m <= c.
Proof.
  intros Hm Hc Hnot. cbn [init_scan] in Hnot.
  assert (Hrem : 0 <= c - Z.quot c m * m < m).
  { pose proof (Z.quot_rem' c m) as E.
    pose proof (Z.rem_bound_pos c m ltac:(lia) ltac:(lia)). lia. }
  assert (Hq : 0 <= Z.quot c m) by (apply Z.quot_pos; lia).
  destruct (Z.geb_spec v m) as [L | L].
  - destruct (Z.geb_spec (v - Z.quot c m * m) m) as [L1 | L1].
    + destruct (Z.leb_spec (c - Z.quot c m * m + 1) m) as [L2 | L2];
        [ | lia].
      exfalso. eapply Hnot. reflexivity.
    + assert (Z.quot v m <= Z.quot c m); [ | nia].
      rewrite !Z.quot_div_nonneg by lia.
      rewrite Z.quot_div_nonneg in L1 by lia.
      assert (v / m < c / m + 1); [ | lia].
      apply Z.div_lt_upper_bound; [lia | nia].
  - rewrite Z.quot_small by lia. lia.
Qed.

Lemma init_loop_range (fuel : nat) (m v c : Z) (D D' : digit_gen)
  (h : i_rand) :
  1 <= m -> 0 <= c < v -> tape_ok T D ->
  init_loop T fuel m v c D = Some (h, D') ->
  0 <= min h /\ max h < m /\ advances D D'.
Proof.
  intros Hm. revert v c D.
  induction fuel as [ | fuel IH]; intros v c D Hc Htape; [discriminate | ].
  cbn [init_loop].
  destruct (init_scan T (S fuel) m v c 1 0) as [a d l | | ] eqn:E.
  - intros E'. injection E' as <- <-.
    apply init_scan_range in E; [ | lia ..].
    unfold min, max. cbn. split; [lia | ]. split; [lia | ].
    split; [reflexivity | lia].
  - assert (Hj : Z.quot v m * m <= c).
    { apply (init_scan_first fuel); [lia | lia | ].
      intros a d l. rewrite E. discriminate. }
    unfold draw. intros E'.
    pose proof (Htape (count D)) as Hdg. rewrite bm1_b in Hdg.
    apply IH in E'.
    + destruct E' as (H1 & H2 & At & Ac). cbn in At, Ac.
      split; [exact H1 | ]. split; [exact H2 | ].
      split; [exact At | lia].
    + nia.
    + intros i. apply Htape.
  - discriminate.
Qed.

(** An [int] holds no power of the base beyond the 30th. *)
Lemma inv_int_l (h : i_rand) : Inv T h -> int_ok (_d h) -> int_ok (_l h).
Proof.
  intros [Hl Hd] [_ Hmax]. split; [lia | ].
  destruct (Z_lt_le_dec (_l h) 31) as [L | L]; [lia | exfalso].
  assert (H1 : 2 ^ 31 <= 2 ^ _l h) by (apply Z.pow_le_mono_r; lia).
  assert (H2 : 2 ^ _l h <= b T ^ _l h) by (apply Z.pow_le_mono_l; lia).
  lia.
Qed.

(** A range within one whose ends are values of [int]. *)
Lemma int_state_narrow (h h' : i_rand) :
  int_state h -> Inv T h' -> min h <= min h' -> max h' <= max h ->
  int_state h'.
Proof.
  intros (S1 & S2 & S3 & S4) HI Hmin Hmax.
  pose proof (inv_min_le_max T b_ge_2 h' HI) as Hmm.
  assert (Hd : int_ok (_d h'))
    by (unfold int_ok, min, max in *; lia).
  split; [unfold int_ok, min, max in *; lia | ].
  split; [exact Hd | ].
  split; [exact (inv_int_l h' HI Hd) | ].
  unfold int_ok, min, max in *; lia.
Qed.

(** X6. For a base [b] with [2 <= b < 2^31] (the [int b] of the class is
    the base) whose digits lie in [[0, b - 1]], and an [int m]: if
    [init(g, m)] returns, the i-rand satisfies [_d = b^_l], its range lies
    in [[0, m)] (in [[0, 1)] for [m <= 0]), its fields are values of
    [int], and the digit generator has only moved forward. *)
Theorem i_rand_init_range (fuel : nat) (D D' : digit_gen) (m : Z)
  (h : i_rand) :
  tape_ok T D -> int_ok m ->
  init T fuel D m = Some (h, D') ->
  Inv T h /\ 0 <= min h /\ min h <= max h /\ max h < Z.max 1 m
  /\ advances D D' /\ int_state h.
Proof.
  intros Htape Hm0 E. pose proof (init_inv T fuel m D D' h E) as HI.
  unfold init in E.
  assert (Hm : (if m <=? 0 then 1 else m) = Z.max 1 m)
    by (destruct (Z.leb_spec m 0); lia).
  rewrite Hm in E.
  apply init_loop_range in E; [ | lia | lia | exact Htape].
  destruct E as (H1 & H2 & H3).
  pose proof (inv_min_le_max T b_ge_2 h HI) as Hmm.
  split; [exact HI | ]. split; [exact H1 | ].
  split; [exact Hmm | ].
  split; [exact H2 | ]. split; [exact H3 | ].
  assert (Hd : int_ok (_d h))
    by (unfold int_ok, min, max in *; lia).
  split; [unfold int_ok, min, max in *; lia | ].
  split; [exact Hd | ].
  split; [exact (inv_int_l h HI Hd) | ].
  unfold int_ok, min, max in *; lia.
Qed.

(** The inner loop of [init] on a power of the base. *)
Lemma init_scan_power (k : Z) (n fuel : nat) (i : Z) :
  0 <= i -> k = i + Z.of_nat n -> (n < fuel)%nat ->
  init_scan T fuel (b T ^ k) (b T ^ i) 0 (b T ^ i) i
  = Found 0 (b T ^ k) k.
Proof.
  revert fuel i. induction n as [ | n IH]; intros fuel i Hi Hk Hf;
    (destruct fuel as [ | fuel]; [lia | ]); cbn [init_scan].
  - replace i with k by lia.
    destruct (Z.geb_spec (b T ^ k) (b T ^ k)) as [_ | L]; [ | lia].
    rewrite Z.quot_0_l by (pose proof (pow_b_pos T b_ge_2 k); lia).
    cbn [Z.mul]. rewrite Z.sub_0_r.
    destruct (Z.geb_spec (b T ^ k) (b T ^ k)) as [_ | L]; [ | lia].
    cbn [Z.add Z.sub Z.opp].
    destruct (Z.leb_spec (b T ^ k) (b T ^ k)); [reflexivity | lia].
  - assert (Hlt : b T ^ i < b T ^ k)
      by (apply Z.pow_lt_mono_r; lia).
    destruct (Z.geb_spec (b T ^ i) (b T ^ k)) as [L | _]; [lia | ].
    assert (Hs : b T ^ i * b T = b T ^ (i + 1))
      by (rewrite Z.pow_add_r, Z.pow_1_r; lia).
    rewrite Hs. cbn [Z.mul]. apply IH; lia.
Qed.

(** X7. On a power of the base, [m = b^k], [init] draws no digit: it sets
    the range to [[0, m)] with entropy [k], leaving all [k] digits to be
    drawn when needed. *)
Theorem i_rand_init_power (fuel : nat) (D : digit_gen) (k : Z) :
  0 <= k -> (Z.to_nat k < fuel)%nat ->
  init T fuel D (b T ^ k)
  = Some ({| _a := 0; _d := b T ^ k; _l := k |}, D).
Proof.
  intros Hk Hf. unfold init.
  pose proof (pow_b_pos T b_ge_2 k Hk) as Hp.
  destruct (Z.leb_spec (b T ^ k) 0) as [L | _]; [lia | ].
  destruct fuel as [ | fuel]; [lia | ]. cbn [init_loop].
  pose proof (init_scan_power k (Z.to_nat k) (S fuel) 0) as E.
  rewrite Z.pow_0_r in E. rewrite E by lia. reflexivity.
Qed.

(** X8. For a base [b] with [2 <= b < 2^31] whose digits lie in
    [[0, b - 1]]: [operator()] on an i-rand with [_d = b^_l] whose fields
    and [_a + _d] are values of [int] returns after drawing exactly
    [entropy()] digits; the value returned lies in the range the i-rand
    had, so that it is a value of [int] as every sum [_a + _D(g) * _d] on
    the way, and the i-rand is left fixed at this value. *)
Theorem i_rand_call (fuel : nat) (h : i_rand) (D : digit_gen) :
  Inv T h -> int_state h -> tape_ok T D -> (Z.to_nat (_l h) < fuel)%nat ->
  exists v h' D',
    call T fuel h D = Some (v, h', D')
    /\ min h <= v <= max h
    /\ min h' = v /\ max h' = v /\ entropy h' = 0
    /\ tape D' = tape D
    /\ Z.of_nat (count D') = Z.of_nat (count D) + entropy h
    /\ int_ok v /\ int_state h'.
Proof.
  intros HI HS. revert HI.
  assert (Hfin : forall v h', min h <= v <= max h ->
            min h' = v -> max h' = v -> entropy h' = 0 ->
            int_ok v /\ int_state h').
  { intros v h' Hv Hmin Hmax Hent.
    destruct HS as (S1 & S2 & S3 & S4).
    unfold int_state, int_ok, min, max, entropy in *.
    repeat split; lia. }
  clear HS. revert h D Hfin.
  induction fuel as [ | fuel IH]; intros h D Hfin HI Htape Hf;
    [lia | ].
  cbn [call]. destruct (Z.eqb_spec (_l h) 0) as [E | NE].
  - exists (_a h), h, D. destruct HI as [Hl Hd].
    assert (H0 : min h <= _a h <= max h /\ min h = _a h
                 /\ max h = _a h /\ entropy h = 0).
    { unfold min, max, entropy. rewrite Hd, E. cbn. lia. }
    destruct H0 as (A1 & A2 & A3 & A4).
    split; [reflexivity | ]. split; [exact A1 | ].
    split; [exact A2 | ]. split; [exact A3 | ]. split; [exact A4 | ].
    split; [reflexivity | ]. split; [lia | ].
    exact (Hfin (_a h) h A1 A2 A3 A4).
  - assert (Hpos : 0 < _l h) by (destruct HI; lia).
    rewrite (refine_pos T b_ge_2 h D HI Hpos).
    set (h1 := {| _a := _; _d := _; _l := _ |}).
    set (D1 := {| tape := tape D; count := S (count D) |}).
    assert (HI1 : Inv T h1) by (destruct HI; split; cbn; [lia | reflexivity]).
    assert (Ht1 : tape_ok T D1) by (intros i; apply Htape).
    pose proof (Htape (count D)) as Hdg. rewrite bm1_b in Hdg.
    assert (Hnar : min h <= min h1 /\ max h1 <= max h).
    { destruct HI as [Hl Hd].
      assert (Hp : 0 < b T ^ (_l h - 1)) by (apply Z.pow_pos_nonneg; lia).
      assert (Hpw : b T ^ _l h = b T * b T ^ (_l h - 1)).
      { rewrite <- (Z.pow_1_r (b T)) at 2.
        rewrite <- Z.pow_add_r by lia. f_equal. lia. }
      unfold min, max. cbn [_a _d _l h1]. rewrite Hd, Hpw. split; nia. }
    assert (Hfin1 : forall v h', min h1 <= v <= max h1 ->
              min h' = v -> max h' = v -> entropy h' = 0 ->
              int_ok v /\ int_state h').
    { intros v h' Hv. apply Hfin. lia. }
    destruct (IH h1 D1 Hfin1 HI1 Ht1 ltac:(cbn; lia))
      as (v & h' & D' & E & Hv & Hmin & Hmax & Hent & Ht & Hc & Hok).
    exists v, h', D'. split; [exact E | ].
    split; [lia | ]. split; [exact Hmin | ]. split; [exact Hmax | ].
    split; [exact Hent | ]. split; [exact Ht | ].
    split; [ | exact Hok].
    unfold entropy in *. cbn [_l h1 D1 count] in *. lia.
Qed.

(** X9. For a base [b] with [2 <= b < 2^31] whose digits lie in
    [[0, b - 1]]: the four comparisons of an i-rand with [m/n], [n > 0],
    where [m], [m + 1], [n] and the products [n * min()] and [n * max()]
    are values of [long long] and [_a + _d] is a value of [int] (so that
    no product and no [max()] overflows, the range only narrowing): each
    returns, having drawn only the digits needed to narrow the range to
    one side of [m/n], and decides [<], [<=], [>], [>=] for every value
    left in the range, the product of [n] with any of which is a value of
    [long long]. *)
Theorem i_rand_comparisons (fuel : nat) (h : i_rand) (D : digit_gen)
  (m n : Z) :
  Inv T h -> int_state h -> tape_ok T D -> 0 < n ->
  llong_ok m -> llong_ok (m + 1) -> llong_ok n ->
  llong_ok (n * min h) -> llong_ok (n * max h) ->
  (Z.to_nat (_l h) < fuel)%nat ->
  decides T (less_than T fuel h D m n) h D (fun v => n * v < m)
  /\ decides T (less_than_equal T fuel h D m n) h D (fun v => n * v <= m)
  /\ decides T (greater_than T fuel h D m n) h D (fun v => n * v > m)
  /\ decides T (greater_than_equal T fuel h D m n) h D
       (fun v => n * v >= m)
  /\ forall a, min h <= a <= max h -> llong_ok (n * a).
Proof.
  intros HI _ Htape Hn _ _ _ Hlo Hhi Hf.
  assert (Hprod : forall a, min h <= a <= max h -> llong_ok (n * a)).
  { intros a Ha. unfold llong_ok in *. split; nia. }
  assert (Hlt : forall m',
    decides T (less_than T fuel h D m' n) h D (fun v => n * v < m')).
  { intros m'.
    destruct (i_rand_less_than_spec T b_ge_2 bm1_b fuel h D m' n HI Htape Hf)
      as (r & h' & D' & E & HI' & A & _ & Hmin & Hmax & Ht & Hfl).
    exists r, h', D'. repeat (split; [assumption | ]).
    intros v Hv. destruct r.
    - specialize (Ht eq_refl). split; [intros _; nia | reflexivity].
    - assert (~ n * min h' < m') by (apply Hfl; reflexivity).
      split; [discriminate | intros Hc; exfalso; nia]. }
  assert (Hneg : forall m' (P : Z -> Prop),
    (forall v, P v <-> ~ n * v < m') ->
    decides T (negate_result (less_than T fuel h D m' n)) h D P).
  { intros m' P HP.
    destruct (Hlt m') as (r & h' & D' & E & HI' & A & Hmin & Hmax & Hr).
    exists (negb r), h', D'. rewrite E. cbn [negate_result].
    repeat (split; [assumption || reflexivity | ]).
    intros v Hv. rewrite HP, <- (Hr v Hv).
    destruct r; cbn; split; congruence. }
  split; [apply Hlt | ]. split; [ | split].
  - unfold less_than_equal.
    destruct (Hlt (m + 1)) as (r & h' & D' & E & HI' & A & Hmin & Hmax & Hr).
    exists r, h', D'. repeat (split; [assumption | ]).
    intros v Hv. rewrite (Hr v Hv). lia.
  - unfold greater_than, less_than_equal. apply Hneg. intros v. lia.
  - split; [ | exact Hprod].
    unfold greater_than_equal. apply Hneg. intros v. lia.
Qed.
End IRandExtra.

(** Facts about the sample inputs. *)
Lemma sample_T2_base : 2 <= IRand.b Samples.T2.
Proof. vm_compute. discriminate. Qed.

Lemma sample_T2_bm1 : max_value Samples.T2 = IRand.b Samples.T2 - 1.
Proof. reflexivity. Qed.

Lemma sample_tape_a_ok : tape_ok Samples.T2 Samples.tape_a.
Proof.
  apply tape_of_ok; [ | vm_compute; split; discriminate].
  repeat constructor; vm_compute; discriminate.
Qed.

(** [init(g, 3)] in base 2 on the tape 1, 1, 0, ...: three digits are
    drawn and the range is [[0, 2)]. *)
Lemma i_rand_init_range_witness :
  let h := {| IRand._a := 0; IRand._d := 2; IRand._l := 1 |} in
  let D' := {| tape := tape Samples.tape_a; count := 3 |} in
  IRand.init Samples.T2 10 Samples.tape_a 3 = Some (h, D')
  /\ 0 <= IRand.min h /\ IRand.max h < Z.max 1 3.
Proof.
  intros h D'.
  assert (E : IRand.init Samples.T2 10 Samples.tape_a 3 = Some (h, D'))
    by reflexivity.
  destruct (i_rand_init_range Samples.T2 sample_T2_base sample_T2_bm1
              10 Samples.tape_a D' 3 h sample_tape_a_ok
              ltac:(unfold int_ok; lia) E)
    as (_ & H1 & _ & H2 & _).
  split; [exact E | ]. split; [exact H1 | exact H2].
Defined.

(** [init(g, 8)] in base 2. *)
Lemma i_rand_init_power_witness :
  IRand.init Samples.T2 4 Samples.tape_a (IRand.b Samples.T2 ^ 3)
  = Some ({| IRand._a := 0; IRand._d := IRand.b Samples.T2 ^ 3;
             IRand._l := 3 |}, Samples.tape_a).
Proof.
  apply (i_rand_init_power Samples.T2 sample_T2_base 4 Samples.tape_a 3).
  - lia.
  - vm_compute. lia.
Defined.

(** The range [[0, 8)] in base 2, fixed by the digits 1, 1, 0 at 6. *)
Lemma i_rand_call_witness :
  let h := {| IRand._a := 0; IRand._d := 8; IRand._l := 3 |} in
  exists v h' D',
    IRand.call Samples.T2 4 h Samples.tape_a = Some (v, h', D')
    /\ IRand.min h <= v <= IRand.max h
    /\ Z.of_nat (count D') = 3.
Proof.
  intros h.
  assert (HI : IRand.Inv Samples.T2 h) by (split; [cbn; lia | reflexivity]).
  assert (HS : IRand.int_state h)
    by (unfold IRand.int_state, int_ok; cbn; lia).
  destruct (i_rand_call Samples.T2 sample_T2_base sample_T2_bm1 4 h
              Samples.tape_a HI HS sample_tape_a_ok ltac:(vm_compute; lia))
    as (v & h' & D' & E & Hv & _ & _ & _ & _ & Hc & _).
  exists v, h', D'. split; [exact E | ]. split; [exact Hv | exact Hc].
Defined.

(** The range [[0, 8)] in base 2 compared with 11/2. *)
Lemma i_rand_comparisons_witness :
  let h := {| IRand._a := 0; IRand._d := 8; IRand._l := 3 |} in
  decides Samples.T2 (IRand.less_than Samples.T2 4 h Samples.tape_a 11 2)
    h Samples.tape_a (fun v => 2 * v < 11).
Proof.
  intros h.
  assert (HI : IRand.Inv Samples.T2 h) by (split; [cbn; lia | reflexivity]).
  assert (HS : IRand.int_state h)
    by (unfold IRand.int_state, int_ok; cbn; lia).
  exact (proj1 (i_rand_comparisons Samples.T2 sample_T2_base sample_T2_bm1
                  4 h Samples.tape_a 11 2 HI HS sample_tape_a_ok ltac:(lia)
                  ltac:(unfold llong_ok; lia) ltac:(unfold llong_ok; lia)
                  ltac:(unfold llong_ok; lia)
                  ltac:(unfold llong_ok; cbn; lia)
                  ltac:(unfold llong_ok; cbn; lia)
                  ltac:(vm_compute; lia))).
Defined.

(** ** u_rand: digits on demand and the comparisons *)

Section URandOrder.
Import URand.
Variable T : digit_traits.
Hypothesis bm1_pos : 1 <= max_value T.

Lemma B_ge_2 : 2 <= effective_base T.
Proof. unfold effective_base. lia. Qed.

Lemma digits_ok_skipn (k : nat) (ds : list Z) :
  digits_ok (effective_base T) ds -> digits_ok (effective_base T) (skipn k ds).
Proof.
  unfold digits_ok. revert ds. induction k as [ | k IH]; intros ds H;
    [exact H | ].
  destruct ds as [ | d ds]; [exact H | ].
  cbn [skipn]. apply IH. now inversion H.
Qed.

Lemma firstn_app_le (k : nat) (ds more : list Z) :
  (k <= List.length ds)%nat -> firstn k (ds ++ more) = firstn k ds.
Proof.
  intros Hk. rewrite firstn_app.
  replace (k - List.length ds)%nat with O by lia.
  cbn [firstn]. apply app_nil_r.
Qed.

(** X10. [digit(g, k)] draws exactly the digits that are missing up to
    position [k], in the order the generator delivers them, and keeps the
    digits already there; once it has returned, asking again for a digit
    up to position [k] draws nothing and returns the stored digit. *)
Theorem digit_on_demand (x : u_rand) (D : digit_gen) (k : nat) :
  let '(d, x', D') := digit x D k in
  let missing := (S k - ndigits x)%nat in
  _s x' = _s x /\ _n x' = _n x
  /\ ndigits x' = (ndigits x + missing)%nat
  /\ firstn (ndigits x) (_d x') = _d x
  /\ (forall i, (i < missing)%nat ->
        nth (ndigits x + i) (_d x') 0 = tape D (count D + i))
  /\ tape D' = tape D /\ count D' = (count D + missing)%nat
  /\ forall j, (j <= k)%nat -> digit x' D' j = (nth j (_d x') 0, x', D').
Proof.
  destruct (digit_spec x D k) as [more H].
  destruct (digit x D k) as [[d x'] D'].
  destruct H as (Es & En & Ed & Edk & Elen & Hk & ED & Htp).
  cbv zeta. unfold ndigits in *.
  split; [exact Es | ]. split; [exact En | ].
  split; [rewrite Ed, length_app; lia | ].
  split; [rewrite Ed, firstn_app_le, firstn_all by lia; reflexivity | ].
  split.
  { intros i Hi. rewrite Ed, app_nth2 by lia.
    replace (List.length (_d x) + i - List.length (_d x))%nat with i by lia.
    apply Htp. lia. }
  split; [subst D'; reflexivity | ].
  split; [subst D'; cbn [count]; lia | ].
  intros j Hj. unfold digit, ndigits.
  replace (S j - List.length (_d x'))%nat with O by lia.
  cbn [push_digits]. destruct x'; reflexivity.
Qed.

(** Two fractions that agree up to a digit [a < c]. *)
Lemma upper_le_lower (pre r1 r2 : list Z) (a c : Z) :
  digits_ok (effective_base T) (pre ++ a :: r1) -> digits_ok (effective_base T) (pre ++ c :: r2) -> a < c ->
  (upper (effective_base T) (pre ++ a :: r1) <= lower (effective_base T) (pre ++ c :: r2))%Q.
Proof.
  intros H1 H2 Hac. rewrite upper_app, lower_app.
  apply (wrap_mono (effective_base T) B_ge_2). cbn [upper lower].
  apply Forall_app in H1 as [_ H1]. apply Forall_app in H2 as [_ H2].
  inversion H1 as [ | ? ? Ha Hr1]. inversion H2 as [ | ? ? Hc Hr2]. subst.
  destruct (lower_upper_bounds (effective_base T) B_ge_2 r1 Hr1) as (_ & _ & Hu).
  destruct (lower_upper_bounds (effective_base T) B_ge_2 r2 Hr2) as (Hl & _).
  apply (div_b_le (effective_base T) B_ge_2).
  assert (Hq : (inject_Z a + 1 <= inject_Z c)%Q).
  { change 1%Q with (inject_Z 1). rewrite <- inject_Z_plus, <- Zle_Qle.
    lia. }
  lra.
Qed.

(** The digit loop of [less_than] stops at the first position where the
    two fractions differ. *)
Lemma less_than_from_split (fuel k : nat) (x t : u_rand) (D : digit_gen)
  (r : bool) (x' t' : u_rand) (D' : digit_gen) :
  u_rand_ok T x -> u_rand_ok T t -> tape_ok T D ->
  (k <= List.length (_d x))%nat -> (k <= List.length (_d t))%nat ->
  firstn k (_d x) = firstn k (_d t) ->
  less_than_from fuel k x t D = Some (r, x', t', D') ->
  u_rand_ok T x' /\ u_rand_ok T t'
  /\ _s x' = _s x /\ _n x' = _n x /\ _s t' = _s t /\ _n t' = _n t
  /\ exists pre a c r1 r2,
       _d x' = pre ++ a :: r1 /\ _d t' = pre ++ c :: r2 /\ a <> c
       /\ r = xorb (_s x <? 0) (a <? c).
Proof.
  revert k x t D.
  induction fuel as [ | fuel IH]; intros k x t D Hx Ht Htape Hkx Hkt Hpre;
    [discriminate | ].
  cbn [less_than_from].
  pose proof (digit_ok T x D k Hx Htape) as H1.
  destruct (digit x D k) as [[a x1] D1].
  destruct H1 as (Ex1 & _ & Hx1 & Ht1 & Hk1 & Ea).
  pose proof (digit_ok T t D1 k Ht Ht1) as H2.
  destruct (digit t D1 k) as [[c t1] D2].
  destruct H2 as (Et1 & _ & Ht1' & Ht2 & Hk2 & Ec).
  assert (Fx : firstn k (_d x1) = firstn k (_d x)).
  { destruct Ex1 as (_ & _ & more & ->). now apply firstn_app_le. }
  assert (Ft : firstn k (_d t1) = firstn k (_d t)).
  { destruct Et1 as (_ & _ & more & ->). now apply firstn_app_le. }
  destruct (Z.eqb_spec a c) as [E | NE]; cbn [negb].
  - intros Hrec.
    apply IH in Hrec; try assumption; try lia.
    + destruct Hrec as (A1 & A2 & A3 & A4 & A5 & A6 & A7).
      destruct Ex1 as (Es1 & En1 & _). destruct Et1 as (Es2 & En2 & _).
      rewrite Es1 in A3, A7. rewrite En1 in A4. rewrite Es2 in A5.
      rewrite En2 in A6. repeat (split; [assumption | ]). exact A7.
    + rewrite (firstn_succ_nth k (_d x1)), (firstn_succ_nth k (_d t1))
        by assumption.
      rewrite Fx, Ft, Hpre, <- Ea, <- Ec, E. reflexivity.
  - intros Hrec. injection Hrec as <- <- <- <-.
    destruct Ex1 as (Es1 & En1 & _). destruct Et1 as (Es2 & En2 & _).
    repeat (split; [assumption | ]).
    exists (firstn k (_d x)), a, c, (skipn (S k) (_d x1)),
      (skipn (S k) (_d t1)).
    split; [ | split; [ | split; [exact NE | reflexivity] ] ].
    + rewrite <- Fx, Ea. now apply split_at.
    + rewrite Hpre, <- Ft, Ec. now apply split_at.
Qed.

(** X11. [less_than(g, t)] decides the order of two u-rands: whatever the
    digits still to come, every real of the interval that [*this] denotes
    on return is below every real of the interval of [t] when the result
    is true, and above when it is false. Only digits are added to the two
    u-rands. *)
Theorem u_rand_less_than_sound (fuel : nat) (x t : u_rand)
  (D : digit_gen) (r : bool) (x' t' : u_rand) (D' : digit_gen) :
  u_rand_ok T x -> u_rand_ok T t -> tape_ok T D ->
  less_than fuel x t D = Some (r, x', t', D') ->
  extends x x' /\ extends t t' /\ advances D D'
  /\ u_rand_ok T x' /\ u_rand_ok T t'
  /\ forall q q' : Q,
       inside (effective_base T) x' q -> inside (effective_base T) t' q' ->
       if r then (q < q')%Q else (q' < q)%Q.
Proof.
  intros Hx Ht Htape E.
  pose proof (less_than_frame fuel x t D r x' t' D' E) as (F1 & F2 & F3).
  split; [exact F1 | ]. split; [exact F2 | ]. split; [exact F3 | ].
  unfold less_than in E.
  assert (Hb : forall y, u_rand_ok T y ->
    (0 <= inject_Z (_n y))%Q
    /\ (0 <= lower (effective_base T) (_d y))%Q
    /\ (upper (effective_base T) (_d y) <= 1)%Q).
  { intros y (_ & Hn & Hd).
    destruct (lower_upper_bounds (effective_base T) B_ge_2 (_d y) Hd)
      as (H0 & H1 & H2).
    split; [ | split; assumption].
    change 0%Q with (inject_Z 0). rewrite <- Zle_Qle. lia. }
  destruct (Z.eqb_spec (_s x) (_s t)) as [Es | NEs]; cbn [negb] in E.
  - destruct (Z.eqb_spec (_n x) (_n t)) as [En | NEn]; cbn [negb] in E.
    + apply less_than_from_split in E; try assumption; try lia;
        [ | reflexivity].
      destruct E as (Hx' & Ht' & Es1 & En1 & Es2 & En2
                     & pre & a & c & r1 & r2 & Ed1 & Ed2 & NE & Er).
      split; [exact Hx' | ]. split; [exact Ht' | ].
      intros q q' [I1 I2] [J1 J2].
      rewrite Es1, En1, Ed1 in I1, I2. rewrite Es2, En2, Ed2 in J1, J2.
      rewrite <- Es, <- En in J1, J2.
      pose proof Hx' as (_ & _ & Hdx). pose proof Ht' as (_ & _ & Hdt).
      rewrite Ed1 in Hdx. rewrite Ed2 in Hdt.
      destruct Hx as ([S1 | S1] & _ & _); rewrite S1 in *;
        [change (inject_Z 1) with 1%Q in * |
         change (inject_Z (-1)) with (-1)%Q in * ];
        change (1 <? 0) with false in Er;
        change (-1 <? 0) with true in Er;
        (destruct (Z.ltb_spec a c) as [L | L]; cbn in Er; subst r;
         [pose proof (upper_le_lower pre r1 r2 a c Hdx Hdt L)
         | pose proof (upper_le_lower pre r2 r1 c a Hdt Hdx ltac:(lia))]);
        lra.
    + injection E as <- <- <- <-.
      split; [exact Hx | ]. split; [exact Ht | ].
      intros q q' [I1 I2] [J1 J2]. rewrite <- Es in J1, J2.
      pose proof (Hb x Hx) as (X0 & X1 & X2).
      pose proof (Hb t Ht) as (T0 & T1 & T2).
      assert (Hnn : forall a c, a < c -> (inject_Z a + 1 <= inject_Z c)%Q).
      { intros a c Hac. change 1%Q with (inject_Z 1).
        rewrite <- inject_Z_plus, <- Zle_Qle. lia. }
      destruct Hx as ([S1 | S1] & _ & _); rewrite S1 in *;
        [change (inject_Z 1) with 1%Q in * |
         change (inject_Z (-1)) with (-1)%Q in * ];
        change (1 <? 0) with false; change (-1 <? 0) with true;
        (destruct (Z.ltb_spec (_n x) (_n t)) as [L | L]; cbn [xorb];
         [pose proof (Hnn _ _ L)
         | pose proof (Hnn (_n t) (_n x) ltac:(lia))]);
        lra.
  - injection E as <- <- <- <-.
    split; [exact Hx | ]. split; [exact Ht | ].
    intros q q' [I1 I2] [J1 J2].
    pose proof (Hb x Hx) as (X0 & X1 & X2).
    pose proof (Hb t Ht) as (T0 & T1 & T2).
    destruct Hx as ([S1 | S1] & _ & _); destruct Ht as ([S2 | S2] & _ & _);
      rewrite S1, S2 in *; try lia;
      change (inject_Z 1) with 1%Q in *;
      change (inject_Z (-1)) with (-1)%Q in *; cbn; lra.
Qed.
End URandOrder.

Section URandHalf.
Import URand.
Variable T : digit_traits.
Hypothesis bm1_pos : 1 <= max_value T.

Lemma inject_Z_half (a c : Z) :
  2 * a <= c -> (inject_Z a <= (1 # 2) * inject_Z c)%Q.
Proof.
  intros H.
  assert (Hq : (inject_Z (2 * a) <= inject_Z c)%Q) by now rewrite <- Zle_Qle.
  rewrite inject_Z_mult in Hq. change (inject_Z 2) with 2%Q in Hq. lra.
Qed.

Lemma inject_Z_half_ge (a c : Z) :
  c <= 2 * a -> ((1 # 2) * inject_Z c <= inject_Z a)%Q.
Proof.
  intros H.
  assert (Hq : (inject_Z c <= inject_Z (2 * a))%Q) by now rewrite <- Zle_Qle.
  rewrite inject_Z_mult in Hq. change (inject_Z 2) with 2%Q in Hq. lra.
Qed.

(** The fraction [0.d u] in base [b]. *)
Lemma digit_fraction_le (b d : Z) (u h : Q) :
  2 <= b -> (inject_Z d + u <= h * inject_Z b)%Q ->
  ((inject_Z d + u) / inject_Z b <= h)%Q.
Proof.
  intros Hb H. apply Qle_shift_div_r; [now apply b_pos_Q | exact H].
Qed.

Lemma digit_fraction_ge (b d : Z) (u h : Q) :
  2 <= b -> (h * inject_Z b <= inject_Z d + u)%Q ->
  (h <= (inject_Z d + u) / inject_Z b)%Q.
Proof.
  intros Hb H. apply Qle_shift_div_l; [now apply b_pos_Q | exact H].
Qed.

(** [truncatep(g, k)] tells on which side of one half the digits from
    position [k] on lie. *)
Lemma truncatep_tail (fuel : nat) (x : u_rand) (D : digit_gen) (k : nat)
  (r : bool) (x' : u_rand) (D' : digit_gen) :
  u_rand_ok T x -> tape_ok T D ->
  truncatep T fuel x D k = Some (r, x', D') ->
  u_rand_ok T x' /\ (k < List.length (_d x'))%nat
  /\ (r = true ->
      (upper (effective_base T) (skipn k (_d x')) <= 1 # 2)%Q)
  /\ (r = false ->
      (1 # 2 <= lower (effective_base T) (skipn k (_d x')))%Q).
Proof.
  pose proof (B_ge_2 T bm1_pos) as HB.
  revert x D k. induction fuel as [ | fuel IH]; intros x D k Hx Htape;
    [discriminate | ].
  cbn [truncatep].
  pose proof (digit_ok T x D k Hx Htape) as H1.
  destruct (digit x D k) as [[d x1] D1].
  destruct H1 as (Ex1 & _ & Hx1 & Ht1 & Hk1 & Ed).
  assert (Hrange : forall y, u_rand_ok T y -> (k < List.length (_d y))%nat ->
    0 <= nth k (_d y) 0 <= max_value T
    /\ (0 <= lower (effective_base T) (skipn (S k) (_d y)))%Q
    /\ (upper (effective_base T) (skipn (S k) (_d y)) <= 1)%Q).
  { intros y (_ & _ & Hd) Hk. split.
    - unfold digits_ok in Hd. rewrite Forall_forall in Hd.
      specialize (Hd (nth k (_d y) 0) (nth_In _ _ Hk)).
      unfold effective_base in Hd. lia.
    - pose proof (digits_ok_skipn T (S k) (_d y) Hd) as Hs.
      destruct (lower_upper_bounds _ HB _ Hs) as (A1 & A2 & A3).
      split; assumption. }
  assert (Hq1 : Z.quot (bm1 T - 1) 2 = (max_value T - 1) / 2)
    by (unfold bm1; apply Z.quot_div_nonneg; lia).
  assert (Hq2 : Z.quot (bm1 T) 2 = max_value T / 2)
    by (unfold bm1; apply Z.quot_div_nonneg; lia).
  rewrite Hq1, Hq2.
  pose proof (Z.div_mod (max_value T - 1) 2 ltac:(lia)) as M1.
  pose proof (Z.mod_pos_bound (max_value T - 1) 2 ltac:(lia)) as M1'.
  pose proof (Z.div_mod (max_value T) 2 ltac:(lia)) as M2.
  pose proof (Z.mod_pos_bound (max_value T) 2 ltac:(lia)) as M2'.
  assert (HBq : (inject_Z (effective_base T)
                 == inject_Z (max_value T) + 1)%Q).
  { unfold effective_base. rewrite inject_Z_plus. reflexivity. }
  destruct (Z.leb_spec d ((max_value T - 1) / 2)) as [L1 | L1].
  - intros E. injection E as <- <- <-.
    destruct (Hrange x1 Hx1 Hk1) as (Hd & Hl & Hu). rewrite <- Ed in Hd.
    split; [exact Hx1 | ]. split; [exact Hk1 | ].
    split; [intros _ | discriminate].
    rewrite (skipn_cons_nth (_d x1) k Hk1), <- Ed. cbn [upper].
    apply digit_fraction_le; [exact HB | ].
    assert (Hz : 2 * (d + 1) <= max_value T + 1) by lia.
    pose proof (inject_Z_half (d + 1) (max_value T + 1) Hz) as Hh.
    rewrite !inject_Z_plus in Hh. change (inject_Z 1) with 1%Q in Hh.
    rewrite HBq. lra.
  - destruct (Z.gtb_spec d (max_value T / 2)) as [L2 | L2].
    + intros E. injection E as <- <- <-.
      destruct (Hrange x1 Hx1 Hk1) as (Hd & Hl & Hu). rewrite <- Ed in Hd.
      split; [exact Hx1 | ]. split; [exact Hk1 | ].
      split; [discriminate | intros _].
      rewrite (skipn_cons_nth (_d x1) k Hk1), <- Ed. cbn [lower].
      apply digit_fraction_ge; [exact HB | ].
      assert (Hz : max_value T + 1 <= 2 * d) by lia.
      pose proof (inject_Z_half_ge d (max_value T + 1) Hz) as Hh.
      rewrite inject_Z_plus in Hh. change (inject_Z 1) with 1%Q in Hh.
      rewrite HBq. lra.
    + intros E.
      pose proof (truncatep_frame T fuel x1 D1 (S k) r x' D' E) as (F & _).
      apply IH in E; [ | assumption ..].
      destruct E as (Hx' & Hk' & Ht & Hf).
      assert (Ek : nth k (_d x') 0 = d).
      { rewrite Ed. now apply extends_nth. }
      assert (Hk : (k < List.length (_d x'))%nat) by lia.
      assert (E2 : 2 * d = max_value T) by lia.
      assert (Hdq : (2 * inject_Z d == inject_Z (max_value T))%Q).
      { rewrite <- E2, inject_Z_mult. reflexivity. }
      split; [exact Hx' | ]. split; [exact Hk | ].
      rewrite (skipn_cons_nth (_d x') k Hk), Ek. cbn [upper lower].
      split; intros Hr.
      * apply digit_fraction_le; [exact HB | ].
        specialize (Ht Hr). rewrite HBq. lra.
      * apply digit_fraction_ge; [exact HB | ].
        specialize (Hf Hr). rewrite HBq. lra.
Qed.

(** X12. [less_than_half(g)] decides the comparison of a u-rand with 1/2,
    in an even or an odd base: every real of the interval that the u-rand
    denotes on return is below 1/2 when the result is true and above 1/2
    when it is false. *)
Theorem u_rand_less_than_half_sound (fuel : nat) (x : u_rand)
  (D : digit_gen) (r : bool) (x' : u_rand) (D' : digit_gen) :
  u_rand_ok T x -> tape_ok T D ->
  less_than_half T fuel x D = Some (r, x', D') ->
  extends x x' /\ advances D D' /\ u_rand_ok T x'
  /\ forall q : Q,
       inside (effective_base T) x' q ->
       if r then (q < 1 # 2)%Q else (1 # 2 < q)%Q.
Proof.
  intros Hx Htape E.
  pose proof (less_than_half_frame T fuel x D r x' D' E) as (F1 & F2).
  split; [exact F1 | ]. split; [exact F2 | ].
  pose proof (B_ge_2 T bm1_pos) as HB.
  unfold less_than_half in E.
  pose proof Hx as (Hs & Hn & Hd).
  destruct (lower_upper_bounds _ HB _ Hd) as (A1 & A2 & A3).
  assert (Hnq : (0 <= inject_Z (_n x))%Q)
    by (change 0%Q with (inject_Z 0); rewrite <- Zle_Qle; lia).
  destruct (Z.ltb_spec (_s x) 0) as [L | L].
  - injection E as <- <- <-. split; [exact Hx | ].
    intros q [I1 I2]. destruct Hs as [S1 | S1]; [lia | ].
    rewrite S1 in I1. change (inject_Z (-1)) with (-1)%Q in I1. lra.
  - destruct Hs as [S1 | S1]; [ | lia].
    destruct (Z.gtb_spec (_n x) 0) as [G | G].
    + injection E as <- <- <-. split; [exact Hx | ].
      intros q [I1 I2]. rewrite S1 in I1.
      change (inject_Z 1) with 1%Q in I1.
      assert (1 <= inject_Z (_n x))%Q
        by (change 1%Q with (inject_Z 1); rewrite <- Zle_Qle; lia).
      lra.
    + assert (En : _n x = 0) by lia.
      apply truncatep_tail in E; [ | assumption ..].
      destruct E as (Hx' & _ & Ht & Hf). split; [exact Hx' | ].
      destruct F1 as (Es' & En' & _).
      intros q [I1 I2]. rewrite Es', S1, En', En in *.
      change (inject_Z 1) with 1%Q in *. change (inject_Z 0) with 0%Q in *.
      cbn [skipn] in Ht, Hf.
      destruct r; [specialize (Ht eq_refl) | specialize (Hf eq_refl)]; lra.
Qed.
End URandHalf.

Section URandCompare.
Import URand.
Variable T : digit_traits.
Hypothesis bm1_pos : 1 <= max_value T.
(** The base fits [uint_t]'s 32 bits: [base] is not the 0 that stands for
    [2^32]. *)
Hypothesis base_eff : base T = max_value T + 1.

Lemma inject_Z_sub (a c : Z) : inject_Z (a - c) = (inject_Z a - inject_Z c)%Q.
Proof. unfold Z.sub. now rewrite inject_Z_plus, inject_Z_opp. Qed.

Lemma div_lt_l (a b f : Q) : (0 < b -> a / b < f -> a < f * b)%Q.
Proof.
  intros Hb H. destruct (Qlt_le_dec a (f * b)) as [L | L]; [exact L | ].
  apply Qle_shift_div_l in L; [lra | exact Hb].
Qed.

Lemma div_lt_r (a b f : Q) : (0 < b -> f < a / b -> f * b < a)%Q.
Proof.
  intros Hb H. destruct (Qlt_le_dec (f * b) a) as [L | L]; [exact L | ].
  apply Qle_shift_div_r in L; [lra | exact Hb].
Qed.

(** One digit [d] of [compare]: the bounds [u1], [u2] on [f * v] become
    bounds on [f' * v], [f = (d + f') / b]. *)
Lemma compare_step (b d v u1 u2 : Z) (f f' : Q) :
  2 <= b -> 0 < v -> (0 < f')%Q -> (f' < 1)%Q ->
  (f' == f * inject_Z b - inject_Z d)%Q ->
  let u1' := Z.max 0 (u1 * b - d * v) in
  let u2' := Z.min v (u2 * b - d * v) in
  ((f' * inject_Z v < inject_Z u1')%Q ->
   (f * inject_Z v < inject_Z u1)%Q)
  /\ ((inject_Z u2' < f' * inject_Z v)%Q ->
      (inject_Z u2 < f * inject_Z v)%Q)
  /\ ((inject_Z u1' <= f' * inject_Z v)%Q ->
      (inject_Z u1 <= f * inject_Z v)%Q)
  /\ ((f' * inject_Z v <= inject_Z u2')%Q ->
      (f * inject_Z v <= inject_Z u2)%Q).
Proof.
  intros Hb Hv H0 H1 Ef u1' u2'.
  assert (HB : (0 < inject_Z b)%Q)
    by (change 0%Q with (inject_Z 0); rewrite <- Zlt_Qlt; lia).
  assert (HV : (0 < inject_Z v)%Q)
    by (change 0%Q with (inject_Z 0); rewrite <- Zlt_Qlt; lia).
  assert (Hpos : (0 < f' * inject_Z v)%Q) by nra.
  assert (Hlt : (f' * inject_Z v < inject_Z v)%Q) by nra.
  assert (E1 : (inject_Z (u1 * b - d * v)
                == inject_Z u1 * inject_Z b - inject_Z d * inject_Z v)%Q).
  { rewrite inject_Z_sub, !inject_Z_mult. reflexivity. }
  assert (E2 : (inject_Z (u2 * b - d * v)
                == inject_Z u2 * inject_Z b - inject_Z d * inject_Z v)%Q).
  { rewrite inject_Z_sub, !inject_Z_mult. reflexivity. }
  assert (M1 : (inject_Z (u1 * b - d * v) <= inject_Z u1')%Q
               /\ (0 <= inject_Z u1')%Q
               /\ ((0 < inject_Z u1')%Q ->
                   (inject_Z u1' == inject_Z (u1 * b - d * v))%Q)).
  { unfold u1'. split; [rewrite <- Zle_Qle; lia | ].
    split; [change 0%Q with (inject_Z 0); rewrite <- Zle_Qle; lia | ].
    change 0%Q with (inject_Z 0). rewrite <- Zlt_Qlt. intros H.
    replace (Z.max 0 (u1 * b - d * v)) with (u1 * b - d * v) by lia.
    reflexivity. }
  assert (M2 : (inject_Z u2' <= inject_Z (u2 * b - d * v))%Q
               /\ (inject_Z u2' <= inject_Z v)%Q
               /\ ((inject_Z u2' < inject_Z v)%Q ->
                   (inject_Z u2' == inject_Z (u2 * b - d * v))%Q)).
  { unfold u2'. split; [rewrite <- Zle_Qle; lia | ].
    split; [rewrite <- Zle_Qle; lia | ].
    rewrite <- Zlt_Qlt. intros H.
    replace (Z.min v (u2 * b - d * v)) with (u2 * b - d * v) by lia.
    reflexivity. }
  destruct M1 as (M1a & M1b & M1c). destruct M2 as (M2a & M2b & M2c).
  rewrite E1 in M1a, M1c. rewrite E2 in M2a, M2c.
  repeat split; intros H.
  - assert (P : (0 < inject_Z u1')%Q) by lra. specialize (M1c P). nra.
  - assert (P : (inject_Z u2' < inject_Z v)%Q) by lra. specialize (M2c P).
    nra.
  - nra.
  - nra.
Qed.

(** The digit loop of [compare], for the fraction [f] that the digits
    from position [k] on denote. *)
Lemma compare_from_sound (fuel k : nat) (x : u_rand) (D : digit_gen)
  (u1 u2 v r : Z) (x' : u_rand) (D' : digit_gen) :
  u_rand_ok T x -> tape_ok T D -> 0 < v ->
  compare_from T fuel k x D u1 u2 v = Some (r, x', D') ->
  u_rand_ok T x' /\ extends x x' /\ advances D D'
  /\ (r = - _s x \/ r = _s x \/ r = 0)
  /\ forall f : Q,
       (lower (effective_base T) (skipn k (_d x')) < f)%Q ->
       (f < upper (effective_base T) (skipn k (_d x')))%Q ->
       (r = - _s x -> (f * inject_Z v < inject_Z u1)%Q)
       /\ (r = _s x -> (inject_Z u2 < f * inject_Z v)%Q)
       /\ (r = 0 ->
           (inject_Z u1 <= f * inject_Z v)%Q
           /\ (f * inject_Z v <= inject_Z u2)%Q).
Proof.
  pose proof (B_ge_2 T bm1_pos) as HB. intros Hx Htape Hv.
  assert (HV : (0 < inject_Z v)%Q)
    by (change 0%Q with (inject_Z 0); rewrite <- Zlt_Qlt; lia).
  revert k x D u1 u2 Hx Htape.
  induction fuel as [ | fuel IH]; intros k x D u1 u2 Hx Htape;
    [discriminate | ].
  cbn [compare_from].
  assert (Hs : _s x <> 0 /\ _s x <> - _s x)
    by (destruct Hx as ([S1 | S1] & _); lia).
  assert (Hf01 : forall f : Q,
    (lower (effective_base T) (skipn k (_d x)) < f)%Q ->
    (f < upper (effective_base T) (skipn k (_d x)))%Q -> (0 < f < 1)%Q).
  { intros f F1 F2. destruct Hx as (_ & _ & Hd).
    pose proof (digits_ok_skipn T k (_d x) Hd) as Hk.
    destruct (lower_upper_bounds _ HB _ Hk) as (A1 & A2 & A3). lra. }
  destruct (Z.geb_spec u1 v) as [G1 | G1].
  { intros E. injection E as <- <- <-.
    split; [exact Hx | ]. split; [apply extends_refl | ].
    split; [apply advances_refl | ]. split; [now left | ].
    intros f F1 F2. destruct (Hf01 f F1 F2) as [P0 P1].
    assert (inject_Z v <= inject_Z u1)%Q by (rewrite <- Zle_Qle; lia).
    split; [intros _; nra | ]. split; intros; lia. }
  destruct (Z.leb_spec u2 0) as [G2 | G2].
  { intros E. injection E as <- <- <-.
    split; [exact Hx | ]. split; [apply extends_refl | ].
    split; [apply advances_refl | ]. split; [right; now left | ].
    intros f F1 F2. destruct (Hf01 f F1 F2) as [P0 P1].
    assert (inject_Z u2 <= 0)%Q
      by (change 0%Q with (inject_Z 0); rewrite <- Zle_Qle; lia).
    split; [intros; lia | ]. split; [intros _; nra | intros; lia]. }
  destruct (Z.leb_spec u1 0) as [G3 | G3];
    destruct (Z.geb_spec u2 v) as [G4 | G4]; cbn [andb].
  { intros E. injection E as <- <- <-.
    split; [exact Hx | ]. split; [apply extends_refl | ].
    split; [apply advances_refl | ]. split; [right; now right | ].
    intros f F1 F2. destruct (Hf01 f F1 F2) as [P0 P1].
    assert (inject_Z u1 <= 0)%Q
      by (change 0%Q with (inject_Z 0); rewrite <- Zle_Qle; lia).
    assert (inject_Z v <= inject_Z u2)%Q by (rewrite <- Zle_Qle; lia).
    split; [intros; lia | ]. split; [intros; lia | ].
    intros _. split; nra. }
  all: pose proof (digit_ok T x D k Hx Htape) as H1;
    destruct (digit x D k) as [[d x1] D1];
    destruct H1 as (Ex1 & Ad1 & Hx1 & Ht1 & Hk1 & Ed);
    intros E;
    pose proof (IH (S k) x1 D1 _ _ Hx1 Ht1 E)
      as (Hx' & Ex' & Ad' & Hr & Hsound);
    (split; [exact Hx' | ]);
    (split; [exact (extends_trans _ _ _ Ex1 Ex') | ]);
    (split; [exact (advances_trans _ _ _ Ad1 Ad') | ]);
    destruct Ex1 as (Es1 & En1 & _); rewrite Es1 in Hr, Hsound;
    (split; [exact Hr | ]);
    intros f F1 F2;
    pose proof (extends_length _ _ Ex') as Hlen;
    assert (Hk' : (k < List.length (_d x'))%nat) by lia;
    assert (Ek : nth k (_d x') 0 = d)
      by (rewrite Ed; now apply extends_nth);
    rewrite (skipn_cons_nth (_d x') k Hk'), Ek in F1, F2;
    cbn [lower upper] in F1, F2;
    pose proof (b_pos_Q _ HB) as HBq;
    apply (div_lt_l _ _ _ HBq) in F1;
    apply (div_lt_r _ _ _ HBq) in F2;
    assert (Hd01 : (0 < f * inject_Z (effective_base T) - inject_Z d)%Q
                   /\ (f * inject_Z (effective_base T) - inject_Z d < 1)%Q);
    [ destruct Hx' as (_ & _ & Hd');
      pose proof (digits_ok_skipn T (S k) (_d x') Hd') as Hsk;
      destruct (lower_upper_bounds _ HB _ Hsk) as (A1 & A2 & A3);
      split; lra | ];
    destruct Hd01 as [P0 P1];
    destruct (Hsound (f * inject_Z (effective_base T) - inject_Z d)%Q
                ltac:(lra) ltac:(lra)) as (S1 & S2 & S3);
    rewrite base_eff in S1, S2, S3;
    destruct (compare_step (max_value T + 1) d v u1 u2 f
                (f * inject_Z (effective_base T) - inject_Z d)%Q
                ltac:(lia) Hv P0 P1 ltac:(reflexivity))
      as (C1 & C2 & C3 & C4);
    (split; [intros Hr1; apply C1, S1, Hr1 | ]);
    (split; [intros Hr1; apply C2, S2, Hr1 | ]);
    intros Hr1; destruct (S3 Hr1) as [S3a S3b];
    split; [apply C3, S3a | apply C4, S3b].
Qed.
End URandCompare.

Section URandCompareTop.
Import URand.
Variable T : digit_traits.
Hypothesis bm1_pos : 1 <= max_value T.
(** The base fits [uint_t]'s 32 bits: [base] is not the 0 that stands for
    [2^32]. *)
Hypothesis base_eff : base T = max_value T + 1.

(** X13. [compare(g, u1, u2, v)], [v > 0], for a base [b >= 2] that
    [uint_t] holds ([base] is the largest digit plus one) and for
    arguments with which its [long long] arithmetic does not overflow
    ([u1], [u2], [v], [_s * u], [_n * v], [_s * u - _n * v] and
    [v * base] are values of [long long]), compares
    the magnitude [m = s * x] of a u-rand with [s * u1 / v] and
    [s * u2 / v]: it returns [-s] only if [m < s * u1 / v], [s] only if
    [m > s * u2 / v], and 0 only if [m] lies between the two, for every
    real [x] of the interval that the u-rand denotes on return. For a
    positive u-rand ([s = 1]) this is: -1 when [x < u1/v], +1 when
    [x > u2/v], 0 when [u1/v <= x <= u2/v]. The numerators of the loop
    stay in [[0, v]], and [u * lbase - d * v] is then a value of
    [long long] for every digit [d]. *)
Theorem u_rand_compare_sound (fuel : nat) (x : u_rand) (D : digit_gen)
  (u1 u2 v r : Z) (x' : u_rand) (D' : digit_gen) :
  u_rand_ok T x -> tape_ok T D -> 0 < v ->
  compare_fits T x u1 u2 v ->
  compare T fuel x D u1 u2 v = Some (r, x', D') ->
  (u_rand_ok T x' /\ extends x x' /\ advances D D'
   /\ (r = - _s x \/ r = _s x \/ r = 0)
   /\ forall q : Q,
        inside (effective_base T) x' q ->
        let m := (inject_Z (_s x) * q)%Q in
        (r = - _s x -> (m * inject_Z v < inject_Z (_s x * u1))%Q)
        /\ (r = _s x -> (inject_Z (_s x * u2) < m * inject_Z v)%Q)
        /\ (r = 0 ->
            (inject_Z (_s x * u1) <= m * inject_Z v)%Q
            /\ (m * inject_Z v <= inject_Z (_s x * u2))%Q))
  /\ forall u d, 0 <= u <= v -> 0 <= d <= max_value T ->
       llong_ok (u * base T) /\ llong_ok (d * v)
       /\ llong_ok (u * base T - d * v).
Proof.
  intros Hx Htape Hv Hfit E. split.
  2:{ destruct Hfit as (_ & _ & _ & _ & _ & _ & _ & _ & F).
      intros u d Hu Hd. rewrite base_eff.
      unfold llong_ok, effective_base in *. repeat split; nia. }
  clear Hfit. revert Hx Htape Hv E.
  intros Hx Htape Hv E. unfold compare in E.
  pose proof (B_ge_2 T bm1_pos) as HB.
  destruct (compare_from_sound T bm1_pos base_eff fuel 0 x D _ _ v r x' D'
              Hx Htape Hv E) as (Hx' & Ex & Ad & Hr & Hsound).
  split; [exact Hx' | ]. split; [exact Ex | ]. split; [exact Ad | ].
  split; [exact Hr | ].
  intros q [I1 I2] m. destruct Ex as (Es & En & _).
  rewrite Es, En in I1, I2. fold m in I1, I2. cbn [skipn] in Hsound.
  destruct (Hsound (m - inject_Z (_n x))%Q ltac:(lra) ltac:(lra))
    as (S1 & S2 & S3).
  assert (HV : (0 < inject_Z v)%Q)
    by (change 0%Q with (inject_Z 0); rewrite <- Zlt_Qlt; lia).
  destruct Hx' as (_ & _ & Hd').
  destruct (lower_upper_bounds _ HB _ Hd') as (A1 & A2 & A3).
  assert (P0 : (0 < (m - inject_Z (_n x)) * inject_Z v)%Q) by nra.
  assert (P1 : ((m - inject_Z (_n x)) * inject_Z v < inject_Z v)%Q) by nra.
  set (z1 := _s x * u1 - _n x * v) in *.
  set (z2 := _s x * u2 - _n x * v) in *.
  assert (E1 : (inject_Z z1
                == inject_Z (_s x * u1) - inject_Z (_n x) * inject_Z v)%Q)
    by (unfold z1; rewrite inject_Z_sub, (inject_Z_mult (_n x));
        reflexivity).
  assert (E2 : (inject_Z z2
                == inject_Z (_s x * u2) - inject_Z (_n x) * inject_Z v)%Q)
    by (unfold z2; rewrite inject_Z_sub, (inject_Z_mult (_n x));
        reflexivity).
  assert (M1 : (inject_Z z1 <= inject_Z (Z.max 0 z1))%Q)
    by (rewrite <- Zle_Qle; lia).
  assert (M1' : (0 < inject_Z (Z.max 0 z1))%Q ->
                (inject_Z (Z.max 0 z1) == inject_Z z1)%Q).
  { change 0%Q with (inject_Z 0). rewrite <- Zlt_Qlt. intros H.
    replace (Z.max 0 z1) with z1 by lia. reflexivity. }
  assert (M2 : (inject_Z (Z.min v z2) <= inject_Z z2)%Q)
    by (rewrite <- Zle_Qle; lia).
  assert (M2' : (inject_Z (Z.min v z2) < inject_Z v)%Q ->
                (inject_Z (Z.min v z2) == inject_Z z2)%Q).
  { rewrite <- Zlt_Qlt. intros H.
    replace (Z.min v z2) with z2 by lia. reflexivity. }
  split; [ | split].
  - intros Hr1. specialize (S1 Hr1).
    assert (P : (0 < inject_Z (Z.max 0 z1))%Q) by lra.
    specialize (M1' P). nra.
  - intros Hr1. specialize (S2 Hr1).
    assert (P : (inject_Z (Z.min v z2) < inject_Z v)%Q) by lra.
    specialize (M2' P). nra.
  - intros Hr1. destruct (S3 Hr1) as [S3a S3b]. split; nra.
Qed.

(** [refine] narrows the range of an i-rand. *)
Lemma refine_narrows (h : IRand.i_rand) (D : digit_gen) :
  IRand.b T = max_value T + 1 -> IRand.Inv T h -> tape_ok T D ->
  let '(h1, D1) := IRand.refine T h D in
  IRand.Inv T h1 /\ tape_ok T D1 /\ advances D D1
  /\ IRand.min h <= IRand.min h1 /\ IRand.max h1 <= IRand.max h.
Proof.
  intros Hb HI Htape.
  assert (Hb2 : 2 <= IRand.b T) by lia.
  destruct (Z_lt_le_dec 0 (IRand._l h)) as [Hpos | Hz].
  - rewrite (refine_pos T Hb2 h D HI Hpos).
    destruct HI as [Hl Hd].
    assert (Hp : 0 < IRand.b T ^ (IRand._l h - 1))
      by (apply Z.pow_pos_nonneg; lia).
    assert (Hpw : IRand.b T ^ IRand._l h
                  = IRand.b T * IRand.b T ^ (IRand._l h - 1)).
    { rewrite <- (Z.pow_1_r (IRand.b T)) at 2.
      rewrite <- Z.pow_add_r by lia. f_equal. lia. }
    pose proof (Htape (count D)) as Hdg.
    unfold IRand.min, IRand.max. cbn [IRand._a IRand._d IRand._l].
    rewrite Hd, Hpw.
    split; [split; cbn; [lia | reflexivity] | ].
    split; [intros i; apply Htape | ].
    split; [split; cbn; [reflexivity | lia] | ].
    split; nia.
  - rewrite (refine_zero T h D Hz).
    split; [exact HI | ]. split; [exact Htape | ].
    split; [apply advances_refl | lia].
Qed.

(** [less_than(g, u0, c, v, h)], when it returns. *)
Lemma less_than_i_returned (fuel : nat) (x : u_rand)
  (D : digit_gen) (u0 c v : Z) (h : IRand.i_rand) (r : bool)
  (x' : u_rand) (h' : IRand.i_rand) (D' : digit_gen) :
  IRand.b T = max_value T + 1 ->
  u_rand_ok T x -> _s x = 1 -> IRand.Inv T h -> tape_ok T D ->
  0 < v -> 0 <= c ->
  less_than_i T fuel x D u0 c v h = Some (r, x', h', D') ->
  u_rand_ok T x' /\ extends x x' /\ advances D D'
  /\ IRand.Inv T h'
  /\ IRand.min h <= IRand.min h' /\ IRand.max h' <= IRand.max h
  /\ forall (q : Q) (j : Z),
       inside (effective_base T) x' q ->
       IRand.min h' <= j <= IRand.max h' ->
       if r then (q * inject_Z v < inject_Z (u0 + j * c))%Q
       else (inject_Z (u0 + j * c) < q * inject_Z v)%Q.
Proof.
  intros Hb. revert x D h.
  induction fuel as [ | fuel IH]; intros x D h Hx Hs HI Htape Hv Hc;
    [discriminate | ].
  cbn [less_than_i].
  destruct (compare T (S fuel) x D (u0 + IRand.min h * c)
              (u0 + IRand.max h * c) v) as [[[r0 x1] D1] | ] eqn:E;
    [ | discriminate].
  (* what [compare] has established *)
  assert (Hcmp :
    u_rand_ok T x1 /\ extends x x1 /\ advances D D1
    /\ (r0 = -1 \/ r0 = 1 \/ r0 = 0)
    /\ forall q : Q, inside (effective_base T) x1 q ->
         (r0 = -1 ->
          (q * inject_Z v < inject_Z (u0 + IRand.min h * c))%Q)
         /\ (r0 = 1 ->
             (inject_Z (u0 + IRand.max h * c) < q * inject_Z v)%Q)).
  { pose proof (B_ge_2 T bm1_pos) as HB.
    unfold compare in E.
    destruct (compare_from_sound T bm1_pos base_eff _ 0 x D _ _ v r0 x1 D1
                Hx Htape Hv E) as (Hx1 & Ex & Ad & Hr & Hsound).
    rewrite Hs in Hr, Hsound.
    split; [exact Hx1 | ]. split; [exact Ex | ]. split; [exact Ad | ].
    split; [exact Hr | ].
    intros q [I1 I2]. destruct Ex as (Es & En & _).
    rewrite Es, En in I1, I2. rewrite Hs in *.
    change (inject_Z 1) with 1%Q in *. cbn [skipn] in Hsound.
    destruct (Hsound (q - inject_Z (_n x))%Q ltac:(lra) ltac:(lra))
      as (S1 & S2 & _).
    assert (HV : (0 < inject_Z v)%Q)
      by (change 0%Q with (inject_Z 0); rewrite <- Zlt_Qlt; lia).
    destruct Hx1 as (_ & _ & Hd').
    destruct (lower_upper_bounds _ HB _ Hd') as (A1 & A2 & A3).
    assert (P0 : (0 < (q - inject_Z (_n x)) * inject_Z v)%Q) by nra.
    assert (P1 : ((q - inject_Z (_n x)) * inject_Z v < inject_Z v)%Q)
      by nra.
    set (z1 := 1 * (u0 + IRand.min h * c) - _n x * v) in *.
    set (z2 := 1 * (u0 + IRand.max h * c) - _n x * v) in *.
    assert (E1 : (inject_Z z1 == inject_Z (u0 + IRand.min h * c)
                                 - inject_Z (_n x) * inject_Z v)%Q).
    { unfold z1. rewrite Z.mul_1_l, inject_Z_sub, (inject_Z_mult (_n x)).
      reflexivity. }
    assert (E2 : (inject_Z z2 == inject_Z (u0 + IRand.max h * c)
                                 - inject_Z (_n x) * inject_Z v)%Q).
    { unfold z2. rewrite Z.mul_1_l, inject_Z_sub, (inject_Z_mult (_n x)).
      reflexivity. }
    split.
    - intros Hr1. specialize (S1 Hr1).
      assert (P : 0 < Z.max 0 z1).
      { rewrite Zlt_Qlt. change (inject_Z 0) with 0%Q. lra. }
      replace (Z.max 0 z1) with z1 in S1 by lia. nra.
    - intros Hr1. specialize (S2 Hr1).
      assert (P : Z.min v z2 < v) by (rewrite Zlt_Qlt; lra).
      replace (Z.min v z2) with z2 in S2 by lia. nra. }
  destruct Hcmp as (Hx1 & Ex1 & Ad1 & Hr0 & Hsound).
  assert (Hmono : forall j, IRand.min h <= j <= IRand.max h ->
    (inject_Z (u0 + IRand.min h * c) <= inject_Z (u0 + j * c))%Q
    /\ (inject_Z (u0 + j * c) <= inject_Z (u0 + IRand.max h * c))%Q).
  { intros j Hj. rewrite <- !Zle_Qle. split; nia. }
  destruct (Z.ltb_spec r0 0) as [L | L].
  { intros E'. injection E' as <- <- <- <-.
    split; [exact Hx1 | ]. split; [exact Ex1 | ]. split; [exact Ad1 | ].
    split; [exact HI | ]. split; [lia | ]. split; [lia | ].
    intros q j Hq Hj. destruct (Hsound q Hq) as [S1 _].
    destruct (Hmono j Hj) as [M1 _].
    assert (r0 = -1) by lia. specialize (S1 H). lra. }
  destruct (Z.gtb_spec r0 0) as [G | G].
  { intros E'. injection E' as <- <- <- <-.
    split; [exact Hx1 | ]. split; [exact Ex1 | ]. split; [exact Ad1 | ].
    split; [exact HI | ]. split; [lia | ]. split; [lia | ].
    intros q j Hq Hj. destruct (Hsound q Hq) as [_ S2].
    destruct (Hmono j Hj) as [_ M2].
    assert (r0 = 1) by lia. specialize (S2 H). lra. }
  assert (Ht1 : tape_ok T D1)
    by (intros i; destruct Ad1 as [-> _]; apply Htape).
  pose proof (refine_narrows h D1 Hb HI Ht1) as Hn.
  destruct (IRand.refine T h D1) as [h1 D2].
  destruct Hn as (HI1 & Ht2 & Ad2 & Hmin & Hmax).
  intros E'.
  assert (Hs1 : _s x1 = 1) by (destruct Ex1 as (-> & _); exact Hs).
  destruct (IH x1 D2 h1 Hx1 Hs1 HI1 Ht2 Hv Hc E')
    as (Hx' & Ex' & Ad' & HI' & Hmin' & Hmax' & Hfin).
  split; [exact Hx' | ].
  split; [exact (extends_trans _ _ _ Ex1 Ex') | ].
  split; [exact (advances_trans _ _ _ Ad1 (advances_trans _ _ _ Ad2 Ad')) | ].
  split; [exact HI' | ]. split; [lia | ]. split; [lia | exact Hfin].
Qed.

(** X14. [less_than(g, u0, c, v, h)] on a positive u-rand, [v > 0],
    [c >= 0], for a base [b] with [2 <= b < 2^31] whose digits lie in
    [[0, b - 1]] and for arguments with which the [long long] arithmetic
    does not overflow ([u0], [c], [h.min() * c], [h.max() * c] and what
    [compare] forms of [u0 + h.min() * c] and [u0 + h.max() * c] are
    values of [long long], the fields of [h] and [_a + _d] values of
    [int]): it compares the u-rand with [(u0 + h * c) / v], refining the
    i-rand [h] while the two ranges overlap. On return, for every real
    [x] of the interval of the u-rand and every value [j] left in the
    range of [h], the result is true only if [x < (u0 + j * c) / v] and
    false only if [x > (u0 + j * c) / v]; the range of [h] has only
    narrowed, and the same bounds hold of what is left. *)
Theorem u_rand_less_than_i_sound (fuel : nat) (x : u_rand)
  (D : digit_gen) (u0 c v : Z) (h : IRand.i_rand) (r : bool)
  (x' : u_rand) (h' : IRand.i_rand) (D' : digit_gen) :
  IRand.b T = max_value T + 1 ->
  u_rand_ok T x -> _s x = 1 -> IRand.Inv T h -> tape_ok T D ->
  0 < v -> 0 <= c ->
  less_than_i_fits T x u0 c v h ->
  less_than_i T fuel x D u0 c v h = Some (r, x', h', D') ->
  u_rand_ok T x' /\ extends x x' /\ advances D D'
  /\ IRand.Inv T h'
  /\ IRand.min h <= IRand.min h' /\ IRand.max h' <= IRand.max h
  /\ (forall (q : Q) (j : Z),
        inside (effective_base T) x' q ->
        IRand.min h' <= j <= IRand.max h' ->
        if r then (q * inject_Z v < inject_Z (u0 + j * c))%Q
        else (inject_Z (u0 + j * c) < q * inject_Z v)%Q)
  /\ less_than_i_fits T x' u0 c v h'.
Proof.
  intros Hb Hx Hs HI Htape Hv Hc Hfit E.
  destruct (less_than_i_returned fuel x D u0 c v h r x' h' D'
              Hb Hx Hs HI Htape Hv Hc E)
    as (R1 & R2 & R3 & R4 & R5 & R6 & R7).
  repeat (split; [assumption | ]).
  destruct Hfit as (F1 & F2 & F3 & F4 & F5 & F6).
  destruct F6 as (G1 & G2 & G3 & G4 & G5 & G6 & G7 & G8 & G9).
  destruct R2 as (Es & En & _).
  assert (Hb2 : 2 <= IRand.b T) by lia.
  pose proof (inv_min_le_max T Hb2 h' R4) as Hmm.
  split; [exact (int_state_narrow T Hb2 h h' F1 R4 R5 R6) | ].
  split; [exact F2 | ]. split; [exact F3 | ].
  rewrite Hs in *. unfold compare_fits. rewrite Es, En.
  unfold llong_ok in *.
  repeat split; nia.
Qed.
End URandCompareTop.

Section URandRationalFacts.
Import URand URandRational.
Variable T : digit_traits.
Hypothesis bm1_pos : 1 <= max_value T.
(** [static_assert(bm1 <= 0xffUL, "base must not be larger than 256")],
    so that [base] is the base itself. *)
Hypothesis bm1_small : max_value T <= 0xff.
Hypothesis base_eff : base T = max_value T + 1.

(** The loop of [rawrational] over [k] digits that exist. *)
Lemma rawrational_loop_spec (k : nat) (ds : list Z) (num den : Z) :
  (k <= List.length ds)%nat -> 0 < den ->
  let '(N, Dn) := rawrational_loop T ds k num den in
  Dn = den * effective_base T ^ Z.of_nat k /\ 0 < Dn
  /\ (inject_Z N / inject_Z Dn
      == (inject_Z num + lower (effective_base T) (firstn k ds))
         / inject_Z den)%Q
  /\ ((inject_Z N + 1) / inject_Z Dn
      == (inject_Z num + upper (effective_base T) (firstn k ds))
         / inject_Z den)%Q.
Proof.
  pose proof (B_ge_2 T bm1_pos) as HB.
  pose proof (b_pos_Q _ HB) as HBq.
  assert (Eb : base T = effective_base T) by (rewrite base_eff; reflexivity).
  revert ds num den. induction k as [ | k IH]; intros ds num den Hk Hden.
  - cbn [rawrational_loop firstn lower upper]. rewrite Z.pow_0_r.
    split; [lia | ]. split; [exact Hden | ].
    split; [ | reflexivity]. unfold Qdiv. ring.
  - destruct ds as [ | d ds]; [cbn in Hk; lia | ].
    cbn [rawrational_loop firstn lower upper]. rewrite Eb.
    assert (Hden' : 0 < den * effective_base T) by nia.
    specialize (IH ds (effective_base T * num + d) (den * effective_base T)
                  ltac:(cbn in Hk; lia) Hden').
    destruct (rawrational_loop T ds k (effective_base T * num + d)
                (den * effective_base T)) as [N Dn].
    destruct IH as (E1 & P & E2 & E3).
    assert (HD : (0 < inject_Z den)%Q)
      by (change 0%Q with (inject_Z 0); rewrite <- Zlt_Qlt; lia).
    split.
    { rewrite E1, Nat2Z.inj_succ, Z.pow_succ_r by lia. ring. }
    split; [exact P | ].
    rewrite E2, E3, inject_Z_plus, !inject_Z_mult.
    split; field; split; lra.
Qed.

(** X15. The range of a u-rand as a rational, for a base of at most 256
    and as long as [(_n + 1) * base^k] is a value of [long long], [k]
    being the number of digits taken (the source does not detect the
    overflow of [num] and [den] beyond): [rational()] returns [num] and
    [den = base^K], [K] the number of digits, such that the u-rand denotes
    exactly the reals strictly between [num/den] and [(num+1)/den];
    [rational(g, k)] first makes sure that [k] digits exist and returns
    [num] and [den = base^k] such that every real the u-rand then denotes
    lies strictly between [num/den] and [(num+1)/den]. In both cases
    [num] and [den] are values of [long long]. *)
Theorem u_rand_rational_brackets (x : u_rand) (D : digit_gen) (k : nat) :
  u_rand_ok T x -> tape_ok T D ->
  ((_n x + 1) * effective_base T ^ Z.of_nat (ndigits x) <= 2 ^ 63 - 1 ->
   let '(num, den) := rational T x in
   den = effective_base T ^ Z.of_nat (ndigits x)
   /\ llong_ok num /\ llong_ok den
   /\ forall q : Q,
        inside (effective_base T) x q
        <-> (inject_Z num < q * inject_Z den)%Q
            /\ (q * inject_Z den < inject_Z num + 1)%Q)
  /\ ((_n x + 1) * effective_base T ^ Z.of_nat k <= 2 ^ 63 - 1 ->
      let '(num, den, x', D') := rational_g T x D k in
      den = effective_base T ^ Z.of_nat k
      /\ llong_ok num /\ llong_ok den
      /\ u_rand_ok T x' /\ extends x x' /\ advances D D'
      /\ (k <= ndigits x')%nat
      /\ forall q : Q,
           inside (effective_base T) x' q ->
           (inject_Z num < q * inject_Z den)%Q
           /\ (q * inject_Z den < inject_Z num + 1)%Q).
Proof.
  pose proof (B_ge_2 T bm1_pos) as HB.
  assert (Hraw : forall (y : u_rand) (j : nat),
    u_rand_ok T y -> (j <= List.length (_d y))%nat ->
    let '(num, den) := rawrational T y j in
    den = effective_base T ^ Z.of_nat j
    /\ (- ((_n y + 1) * den) <= num /\ num + 1 <= (_n y + 1) * den)
    /\ forall q : Q,
         ((inject_Z (_n y) + lower (effective_base T) (firstn j (_d y))
           < inject_Z (_s y) * q)%Q
          /\ (inject_Z (_s y) * q
              < inject_Z (_n y)
                + upper (effective_base T) (firstn j (_d y)))%Q)
         <-> (inject_Z num < q * inject_Z den)%Q
             /\ (q * inject_Z den < inject_Z num + 1)%Q).
  { intros y j Hy Hj. unfold rawrational.
    pose proof (rawrational_loop_spec j (_d y) (_n y) 1 Hj ltac:(lia)) as H.
    destruct (rawrational_loop T (_d y) j (_n y) 1) as [N Dn].
    destruct H as (E1 & P & E2 & E3). split; [lia | ].
    assert (PD : (0 < inject_Z Dn)%Q)
      by (change 0%Q with (inject_Z 0); rewrite <- Zlt_Qlt; lia).
    assert (F2 : (inject_Z N == (inject_Z (_n y)
                   + lower (effective_base T) (firstn j (_d y)))
                   * inject_Z Dn)%Q).
    { assert (G : (inject_Z N / inject_Z Dn * inject_Z Dn == inject_Z N)%Q)
        by (field; lra).
      rewrite <- G, E2. change (inject_Z 1) with 1%Q. field. }
    assert (F3 : (inject_Z N + 1 == (inject_Z (_n y)
                   + upper (effective_base T) (firstn j (_d y)))
                   * inject_Z Dn)%Q).
    { assert (G : ((inject_Z N + 1) / inject_Z Dn * inject_Z Dn
                   == inject_Z N + 1)%Q) by (field; lra).
      rewrite <- G, E3. change (inject_Z 1) with 1%Q. field. }
    assert (HN : 0 <= N /\ N + 1 <= (_n y + 1) * Dn).
    { pose proof Hy as (_ & Hn & Hd).
      rewrite <- (firstn_skipn j (_d y)) in Hd.
      apply Forall_app in Hd as [Hd1 _].
      destruct (lower_upper_bounds _ HB _ Hd1) as (L0 & _ & U1).
      assert (Hnq : (0 <= inject_Z (_n y))%Q)
        by (change 0%Q with (inject_Z 0); rewrite <- Zle_Qle; lia).
      split.
      - rewrite Zle_Qle. change (inject_Z 0) with 0%Q. nra.
      - rewrite Zle_Qle, inject_Z_plus, inject_Z_mult, inject_Z_plus.
        change (inject_Z 1) with 1%Q. nra. }
    split.
    { destruct (_s y <? 0); lia. }
    intros q.
    destruct Hy as ([S1 | S1] & _ & _); rewrite S1.
    - change (1 <? 0) with false. cbv iota.
      change (inject_Z 1) with 1%Q. split; intros [A1 A2]; split; nra.
    - change (-1 <? 0) with true. cbv iota.
      change (inject_Z (-1)) with (-1)%Q.
      replace (- N - 1) with (- (N + 1)) by lia.
      rewrite inject_Z_opp, inject_Z_plus. change (inject_Z 1) with 1%Q.
      split; intros [A1 A2]; split; nra. }
  assert (Hfit : forall n num den j,
    0 <= n -> den = effective_base T ^ Z.of_nat j ->
    - ((n + 1) * den) <= num /\ num + 1 <= (n + 1) * den ->
    (n + 1) * effective_base T ^ Z.of_nat j <= 2 ^ 63 - 1 ->
    llong_ok num /\ llong_ok den).
  { intros n num den j Hn E [B1 B2] Hf.
    assert (0 < den) by (subst den; apply Z.pow_pos_nonneg; lia).
    subst den. unfold llong_ok. split; split; nia. }
  intros Hx Htape. split.
  - intros Hf. unfold rational.
    pose proof (Hraw x (ndigits x) Hx (le_n _)) as H.
    destruct (rawrational T x (ndigits x)) as [num den].
    destruct H as (E & Bd & H). split; [exact E | ].
    destruct (Hfit (_n x) num den (ndigits x)
                ltac:(destruct Hx as (_ & ? & _); lia) E Bd Hf) as [Q1 Q2].
    split; [exact Q1 | ]. split; [exact Q2 | ].
    intros q. rewrite <- H. unfold inside, ndigits.
    rewrite firstn_all. reflexivity.
  - intros Hf.
    assert (Hgen : forall x' : u_rand,
      u_rand_ok T x' -> _n x' = _n x -> (k <= ndigits x')%nat ->
      let '(num, den) := rawrational T x' k in
      den = effective_base T ^ Z.of_nat k
      /\ llong_ok num /\ llong_ok den
      /\ forall q : Q,
           inside (effective_base T) x' q ->
           (inject_Z num < q * inject_Z den)%Q
           /\ (q * inject_Z den < inject_Z num + 1)%Q).
    { intros x' Hx' En Hk. pose proof (Hraw x' k Hx' Hk) as H.
      destruct (rawrational T x' k) as [num den].
      destruct H as (E & Bd & H). split; [exact E | ].
      rewrite En in Bd.
      destruct (Hfit (_n x) num den k
                  ltac:(destruct Hx as (_ & ? & _); lia) E Bd Hf)
        as [Q1 Q2].
      split; [exact Q1 | ]. split; [exact Q2 | ].
      intros q [I1 I2]. apply H.
      destruct Hx' as (_ & _ & Hd).
      rewrite <- (firstn_skipn k (_d x')) in Hd, I1, I2.
      apply Forall_app in Hd as [_ Hd2].
      destruct (bounds_app _ HB (firstn k (_d x')) (skipn k (_d x')) Hd2)
        as [B1 B2].
      split; lra. }
    unfold rational_g. destruct k as [ | k].
    + pose proof (Hgen x Hx eq_refl (Nat.le_0_l _)) as H.
      destruct (rawrational T x 0) as [num den].
      destruct H as (E & Q1 & Q2 & H). split; [exact E | ].
      split; [exact Q1 | ]. split; [exact Q2 | ]. split; [exact Hx | ].
      split; [apply extends_refl | ]. split; [apply advances_refl | ].
      split; [lia | exact H].
    + pose proof (digit_ok T x D k Hx Htape) as H1.
      destruct (digit x D k) as [[d x1] D1].
      destruct H1 as (Ex1 & Ad1 & Hx1 & _ & Hk1 & _).
      pose proof (Hgen x1 Hx1 (proj1 (proj2 Ex1))
                    ltac:(unfold ndigits; lia)) as H.
      destruct (rawrational T x1 (S k)) as [num den].
      destruct H as (E & Q1 & Q2 & H). split; [exact E | ].
      split; [exact Q1 | ]. split; [exact Q2 | ]. split; [exact Hx1 | ].
      split; [exact Ex1 | ]. split; [exact Ad1 | ].
      split; [unfold ndigits; lia | exact H].
Qed.
End URandRationalFacts.

(** Instances in base 2, on the tape 1, 1, 0, 0, 1, 0, 1, 1, 0, 1. *)
Lemma sample_T2_max : 1 <= max_value Samples.T2.
Proof. vm_compute. discriminate. Qed.

Lemma sample_T2_eff : base Samples.T2 = max_value Samples.T2 + 1.
Proof. reflexivity. Qed.

Lemma sample_T2_small : max_value Samples.T2 <= 0xff.
Proof. vm_compute. discriminate. Qed.

Lemma sample_construct_ok : URand.u_rand_ok Samples.T2 URand.construct.
Proof. split; [left; reflexivity | ]. split; [cbn; lia | constructor]. Qed.

(** Two fresh u-rands: 0.101... and 0.100.... *)
Lemma u_rand_less_than_sound_witness :
  let x' := {| URand._s := 1; URand._n := 0; URand._d := [1; 0; 1] |} in
  let t' := {| URand._s := 1; URand._n := 0; URand._d := [1; 0; 0] |} in
  let D' := {| tape := tape Samples.tape_a; count := 6 |} in
  URand.less_than 10 URand.construct URand.construct Samples.tape_a
  = Some (false, x', t', D')
  /\ forall q q' : Q,
       URand.inside (URand.effective_base Samples.T2) x' q ->
       URand.inside (URand.effective_base Samples.T2) t' q' -> (q' < q)%Q.
Proof.
  intros x' t' D'.
  assert (E : URand.less_than 10 URand.construct URand.construct
                Samples.tape_a = Some (false, x', t', D')) by reflexivity.
  split; [exact E | ].
  exact (proj2 (proj2 (proj2 (proj2 (proj2
    (u_rand_less_than_sound Samples.T2 sample_T2_max 10 URand.construct
       URand.construct Samples.tape_a false x' t' D' sample_construct_ok
       sample_construct_ok sample_tape_a_ok E)))))).
Defined.

(** A fresh u-rand whose first digit is 1. *)
Lemma u_rand_less_than_half_sound_witness :
  let x' := {| URand._s := 1; URand._n := 0; URand._d := [1] |} in
  let D' := {| tape := tape Samples.tape_a; count := 1 |} in
  URand.less_than_half Samples.T2 10 URand.construct Samples.tape_a
  = Some (false, x', D')
  /\ forall q : Q,
       URand.inside (URand.effective_base Samples.T2) x' q -> (1 # 2 < q)%Q.
Proof.
  intros x' D'.
  assert (E : URand.less_than_half Samples.T2 10 URand.construct
                Samples.tape_a = Some (false, x', D')) by reflexivity.
  split; [exact E | ].
  exact (proj2 (proj2 (proj2
    (u_rand_less_than_half_sound Samples.T2 sample_T2_max 10 URand.construct
       Samples.tape_a false x' D' sample_construct_ok sample_tape_a_ok E)))).
Defined.

(** A fresh u-rand compared with 5/8 and 7/8: the digits 1, 1, 0 put it
    between the two. *)
Lemma u_rand_compare_sound_witness :
  let x' := {| URand._s := 1; URand._n := 0; URand._d := [1; 1; 0] |} in
  let D' := {| tape := tape Samples.tape_a; count := 3 |} in
  URand.compare Samples.T2 10 URand.construct Samples.tape_a 5 7 8
  = Some (0, x', D')
  /\ forall q : Q,
       URand.inside (URand.effective_base Samples.T2) x' q ->
       (inject_Z (1 * 5) <= inject_Z 1 * q * inject_Z 8)%Q
       /\ (inject_Z 1 * q * inject_Z 8 <= inject_Z (1 * 7))%Q.
Proof.
  intros x' D'.
  assert (E : URand.compare Samples.T2 10 URand.construct Samples.tape_a
                5 7 8 = Some (0, x', D')) by reflexivity.
  split; [exact E | ].
  intros q Hq.
  assert (Hfit : compare_fits Samples.T2 URand.construct 5 7 8)
    by (unfold compare_fits, llong_ok; cbn; lia).
  exact (proj2 (proj2 (proj2 (proj2 (proj2 (proj2 (proj1
    (u_rand_compare_sound Samples.T2 sample_T2_max sample_T2_eff 10
       URand.construct Samples.tape_a 5 7 8 0 x' D' sample_construct_ok
       sample_tape_a_ok ltac:(lia) Hfit E))))) q Hq)) eq_refl).
Defined.

(** A fresh u-rand compared with [j/4], [j] in [[0, 4)]. *)
Lemma u_rand_less_than_i_sound_witness :
  let h := {| IRand._a := 0; IRand._d := 4; IRand._l := 2 |} in
  let x' := {| URand._s := 1; URand._n := 0; URand._d := [1; 1] |} in
  let D' := {| tape := tape Samples.tape_a; count := 2 |} in
  URand.less_than_i Samples.T2 10 URand.construct Samples.tape_a 0 1 4 h
  = Some (false, x', h, D')
  /\ forall (q : Q) (j : Z),
       URand.inside (URand.effective_base Samples.T2) x' q ->
       IRand.min h <= j <= IRand.max h ->
       (inject_Z (0 + j * 1) < q * inject_Z 4)%Q.
Proof.
  intros h x' D'.
  assert (E : URand.less_than_i Samples.T2 10 URand.construct
                Samples.tape_a 0 1 4 h = Some (false, x', h, D'))
    by reflexivity.
  assert (HI : IRand.Inv Samples.T2 h) by (split; [cbn; lia | reflexivity]).
  assert (Hfit : less_than_i_fits Samples.T2 URand.construct 0 1 4 h).
  { unfold less_than_i_fits, compare_fits, IRand.int_state, int_ok,
      llong_ok. cbn. lia. }
  split; [exact E | ].
  exact (proj1 (proj2 (proj2 (proj2 (proj2 (proj2 (proj2
    (u_rand_less_than_i_sound Samples.T2 sample_T2_max sample_T2_eff 10
       URand.construct Samples.tape_a 0 1 4 h false x' h D' eq_refl
       sample_construct_ok eq_refl HI sample_tape_a_ok ltac:(lia)
       ltac:(lia) Hfit E)))))))).
Defined.

(** Three digits of a fresh u-rand: 6/8. *)
Lemma u_rand_rational_brackets_witness :
  let x' := {| URand._s := 1; URand._n := 0; URand._d := [1; 1; 0] |} in
  let D' := {| tape := tape Samples.tape_a; count := 3 |} in
  URandRational.rational_g Samples.T2 URand.construct Samples.tape_a 3
  = (6, 8, x', D')
  /\ forall q : Q,
       URand.inside (URand.effective_base Samples.T2) x' q ->
       (inject_Z 6 < q * inject_Z 8)%Q
       /\ (q * inject_Z 8 < inject_Z 6 + 1)%Q.
Proof.
  intros x' D'. split; [reflexivity | ].
  pose proof (proj2 (u_rand_rational_brackets Samples.T2 sample_T2_max
    sample_T2_small sample_T2_eff URand.construct Samples.tape_a 3
    sample_construct_ok sample_tape_a_ok)
    ltac:(vm_compute; discriminate)) as H.
  change (URandRational.rational_g Samples.T2 URand.construct
            Samples.tape_a 3) with (6, 8, x', D') in H.
  cbv beta iota in H.
  exact (proj2 (proj2 (proj2 (proj2 (proj2 (proj2 (proj2 H))))))).
Defined.

(** ** discrete_normal_dist: the integer helpers and the parameters *)

Section DiscreteExtra.
Import DiscreteNormalDist.

(** The bounds that make [iceil(n, d)] the ceiling of [n / d]. *)
Lemma iceil_bounds (n d : Z) :
  0 < d -> (iceil n d - 1) * d < n <= iceil n d * d.
Proof.
  intros Hd. unfold iceil.
  pose proof (Z.quot_rem' n d) as E.
  destruct (Z_lt_le_dec n 0) as [Hn | Hn].
  - assert (Hn' : n <= 0) by lia.
    pose proof (Z.rem_bound_pos_neg n d Hd Hn') as Hr.
    destruct (Z.ltb_spec (Z.quot n d * d) n); nia.
  - pose proof (Z.rem_bound_pos n d Hn Hd) as Hr.
    destruct (Z.ltb_spec (Z.quot n d * d) n); nia.
Qed.

(** X16. [iceil(n, d)] is the ceiling of [n / d] for [d > 0], whatever the
    sign of [n]: the least [k] with [n <= k * d]. *)
Theorem iceil_ceiling (n d : Z) :
  0 < d ->
  (iceil n d - 1) * d < n <= iceil n d * d
  /\ forall k, n <= k * d -> iceil n d <= k.
Proof.
  intros Hd. pose proof (iceil_bounds n d Hd) as Hb.
  split; [exact Hb | ]. intros k Hk. nia.
Qed.

(** X17. [gcd(u, v)], for arguments whose absolute values are [int]s: the
    loop of Knuth's Algorithm A ends, within a number of iterations
    bounded by twice the bit length of [v], on the greatest common
    divisor, which is non-negative; [gcd(u, 0)] is [|u|]. *)
Theorem gcd_greatest (u v : Z) :
  minint < u <= maxint -> minint < v <= maxint ->
  gcd_loop (gcd_fuel (Z.abs v)) (Z.abs u) (Z.abs v) = Some (gcd u v)
  /\ 0 <= gcd u v
  /\ (gcd u v | u) /\ (gcd u v | v)
  /\ (forall c, (c | u) -> (c | v) -> (c | gcd u v))
  /\ gcd u 0 = Z.abs u.
Proof.
  intros _ _.
  assert (E : gcd_loop (gcd_fuel (Z.abs v)) (Z.abs u) (Z.abs v)
              = Some (Z.gcd u v)).
  { unfold gcd_fuel. rewrite gcd_loop_spec.
    - now rewrite Z.gcd_abs_l, Z.gcd_abs_r.
    - lia.
    - split; [lia | ]. rewrite Z2Nat.id.
      + destruct (Z.eq_dec (Z.abs v) 0) as [-> | NE]; [cbn; lia | ].
        apply Z.log2_lt_pow2; lia.
      + pose proof (Z.log2_nonneg (Z.abs v)). lia. }
  rewrite gcd_spec. split; [exact E | ].
  split; [apply Z.gcd_nonneg | ].
  split; [apply Z.gcd_divide_l | ].
  split; [apply Z.gcd_divide_r | ].
  split; [intros c H1 H2; now apply Z.gcd_greatest | ].
  rewrite gcd_spec. apply Z.gcd_0_r.
Qed.

(** A fraction in lowest terms with a positive denominator is determined
    by its value. *)
Lemma lowest_terms_unique (a b a' b' : Z) :
  0 < b -> 0 < b' -> Z.gcd a b = 1 -> Z.gcd a' b' = 1 ->
  a * b' = a' * b -> a = a' /\ b = b'.
Proof.
  intros Hb Hb' G G' E.
  assert (D1 : (b | b')).
  { apply Z.gauss with a; [exists a'; lia | now rewrite Z.gcd_comm]. }
  assert (D2 : (b' | b)).
  { apply Z.gauss with a'; [exists a; lia | now rewrite Z.gcd_comm]. }
  assert (Eb : b = b').
  { apply Z.divide_antisym_nonneg; (lia || assumption). }
  subst b'. split; [nia | reflexivity].
Qed.

(** X18. What [param_type] stores: the constructor keeps the values of
    [mu] and [sigma], in lowest terms with positive denominators, so that
    [operator==] compares the parameters as rational numbers, and
    constructing again from the stored fields changes nothing. *)
Theorem param_type_value (a b c d a' b' c' d' : Z) (p p' : param_type) :
  is_int a -> is_int b -> is_int c -> is_int d ->
  is_int a' -> is_int b' -> is_int c' -> is_int d' ->
  param_init a b c d = Ok p ->
  param_init a' b' c' d' = Ok p' ->
  (_mu_num p * b = a * _mu_den p /\ _sigma_num p * d = c * _sigma_den p)
  /\ (param_eqb p p' = true <-> a * b' = a' * b /\ c * d' = c' * d)
  /\ param_init (_mu_num p) (_mu_den p) (_sigma_num p) (_sigma_den p)
     = Ok p.
Proof.
  intros Ia Ib Ic Id Ia' Ib' Ic' Id' E E'.
  pose proof (param_init_canonical a b c d p Ia Ib Ic Id E) as Hc.
  pose proof (param_init_canonical a' b' c' d' p' Ia' Ib' Ic' Id' E') as Hc'.
  assert (Hval : forall a b c d p, param_init a b c d = Ok p ->
    0 < b /\ 0 < d
    /\ _mu_num p * b = a * _mu_den p /\ _sigma_num p * d = c * _sigma_den p).
  { clear. intros a b c d p E.
    apply param_init_ok in E.
    destruct E as ((Hc & Hd & Hb & Ha) & E1 & E2 & E3 & E4).
    rewrite E1, E2, E3, E4, (Z.gcd_comm b a), (Z.gcd_comm d c).
    pose proof (gcd_pos_r a b Hb) as G1. pose proof (gcd_pos_r c d Hd) as G2.
    destruct (Z.gcd_divide_l a b) as [qa Ea].
    destruct (Z.gcd_divide_r a b) as [qb Eb].
    destruct (Z.gcd_divide_l c d) as [qc Ec].
    destruct (Z.gcd_divide_r c d) as [qd Ed].
    remember (Z.gcd a b) as g eqn:Eg. remember (Z.gcd c d) as g' eqn:Eg'.
    clear Eg Eg' E1 E2 E3 E4.
    split; [exact Hb | ]. split; [exact Hd | ].
    subst a b c d. rewrite !Z.div_mul by lia. split; ring. }
  destruct (Hval _ _ _ _ _ E) as (Pb & Pd & V1 & V2).
  destruct (Hval _ _ _ _ _ E') as (Pb' & Pd' & V1' & V2').
  split; [split; assumption | ]. split; [ | now apply param_init_idem].
  destruct Hc as (C1 & C2 & C3 & _ & C5 & C6 & _).
  destruct Hc' as (C1' & C2' & C3' & _ & C5' & C6' & _).
  unfold param_eqb. rewrite !andb_true_iff, !Z.eqb_eq. split.
  - intros (((A1 & A2) & A3) & A4).
    rewrite <- A1, <- A2 in V1'. rewrite <- A3, <- A4 in V2'.
    split.
    + apply (Z.mul_cancel_r _ _ (_mu_den p)); [lia | ]. nia.
    + apply (Z.mul_cancel_r _ _ (_sigma_den p)); [lia | ]. nia.
  - intros [A1 A2].
    destruct (lowest_terms_unique (_mu_num p) (_mu_den p) (_mu_num p')
                (_mu_den p') C1 C1' C5 C5') as [B1 B2].
    { apply (Z.mul_cancel_r _ _ (b * b')); [apply Z.neq_mul_0; lia | ].
      replace (_mu_num p * _mu_den p' * (b * b'))
        with ((_mu_num p * b) * (_mu_den p' * b')) by ring.
      replace (_mu_num p' * _mu_den p * (b * b'))
        with ((_mu_num p' * b') * (_mu_den p * b)) by ring.
      rewrite V1, V1'.
      replace (a * _mu_den p * (_mu_den p' * b'))
        with (a * b' * (_mu_den p * _mu_den p')) by ring.
      rewrite A1. ring. }
    destruct (lowest_terms_unique (_sigma_num p) (_sigma_den p)
                (_sigma_num p') (_sigma_den p') C3 C3' C6 C6') as [B3 B4].
    { apply (Z.mul_cancel_r _ _ (d * d')); [apply Z.neq_mul_0; lia | ].
      replace (_sigma_num p * _sigma_den p' * (d * d'))
        with ((_sigma_num p * d) * (_sigma_den p' * d')) by ring.
      replace (_sigma_num p' * _sigma_den p * (d * d'))
        with ((_sigma_num p' * d') * (_sigma_den p * d)) by ring.
      rewrite V2, V2'.
      replace (c * _sigma_den p * (_sigma_den p' * d'))
        with (c * d' * (_sigma_den p * _sigma_den p')) by ring.
      rewrite A2. ring. }
    repeat split; assumption.
Qed.
End DiscreteExtra.

Section DerivedFacts.
Import DiscreteNormalDist.
Variable T : digit_traits.

(** X19. The integers that [init()] derives from the parameters, when it
    does not throw: [sigma = _sig / _d] and [mu = _imu + _mu / _d] over
    the common denominator [_d > 0], the least common multiple of the two
    denominators; [_imu] is [mu] truncated toward zero, the fraction
    [_mu / _d] being of the sign of [mu] and below 1 in absolute value;
    and [_isig] is the ceiling of [sigma]. *)
Theorem init_derived (p : param_type) (c : derived) :
  0 < _mu_den p -> 0 < _sigma_num p -> 0 < _sigma_den p ->
  init T p = Ok c ->
  0 < _d c /\ 0 < _sig c
  /\ _d c = Z.lcm (_sigma_den p) (_mu_den p)
  /\ _sig c * _sigma_den p = _sigma_num p * _d c
  /\ (_imu c * _d c + _mu c) * _mu_den p = _mu_num p * _d c
  /\ Z.abs (_mu c) < _d c /\ 0 <= _mu c * _mu_num p
  /\ (_isig c - 1) * _d c < _sig c <= _isig c * _d c.
Proof.
  intros Hmd Hsn Hsd. unfold init. rewrite gcd_spec.
  set (l := Z.gcd (_sigma_den p) (_mu_den p)).
  assert (Hl : 0 < l) by (apply gcd_pos_r; exact Hmd).
  destruct (Z.gcd_divide_l (_sigma_den p) (_mu_den p)) as [qs Es].
  destruct (Z.gcd_divide_r (_sigma_den p) (_mu_den p)) as [qm Em].
  fold l in Es, Em.
  assert (Q1 : Z.quot (_mu_den p) l = qm)
    by (rewrite Em at 1; apply Z.quot_mul; lia).
  assert (Q2 : Z.quot (_sigma_den p) l = qs)
    by (rewrite Es at 1; apply Z.quot_mul; lia).
  rewrite Q1, Q2.
  assert (Hqm : 0 < qm) by nia. assert (Hqs : 0 < qs) by nia.
  destruct (negb _); [discriminate | ].
  destruct (negb _); [discriminate | ].
  destruct (negb _); [discriminate | ].
  destruct (negb _); [discriminate | ].
  destruct (negb _); [discriminate | ].
  intros E. injection E as <-. cbn [_sig _mu _d _imu _isig].
  pose proof (Z.quot_rem' (_mu_num p) (_mu_den p)) as Er.
  pose proof (Z.rem_bound_abs (_mu_num p) (_mu_den p) ltac:(lia)) as Hr.
  pose proof (Z.rem_sign_mul (_mu_num p) (_mu_den p) ltac:(lia)) as Hsgn.
  set (f := _mu_num p - Z.quot (_mu_num p) (_mu_den p) * _mu_den p) in *.
  assert (Ef : f = Z.rem (_mu_num p) (_mu_den p)) by (unfold f; lia).
  pose proof (iceil_bounds (_sigma_num p) (_sigma_den p) Hsd) as Hc.
  split; [nia | ]. split; [nia | ].
  split.
  { unfold Z.lcm. fold l. rewrite Z.abs_eq.
    - rewrite Em at 1. rewrite Z.div_mul by lia. reflexivity.
    - rewrite Em at 1. rewrite Z.div_mul by lia. nia. }
  split; [ring | ].
  split.
  { assert (X : qs * _mu_den p = _sigma_den p * qm)
      by (rewrite Es, Em; ring).
    replace ((Z.quot (_mu_num p) (_mu_den p) * (_sigma_den p * qm) + f * qs)
             * _mu_den p)
      with (Z.quot (_mu_num p) (_mu_den p) * _mu_den p * (_sigma_den p * qm)
            + f * (qs * _mu_den p)) by ring.
    rewrite X. unfold f. ring. }
  split.
  { rewrite Z.abs_mul, (Z.abs_eq qs) by lia. rewrite Ef.
    rewrite (Z.abs_eq (_mu_den p)) in Hr by lia. nia. }
  split; [rewrite Ef; nia | ].
  nia.
Qed.
End DerivedFacts.

(** The ceiling of -7/2 is -3. *)
Lemma iceil_ceiling_witness :
  (DiscreteNormalDist.iceil (-7) 2 - 1) * 2 < -7
  <= DiscreteNormalDist.iceil (-7) 2 * 2.
Proof.
  assert (H : 0 < 2) by lia.
  exact (proj1 (iceil_ceiling (-7) 2 H)).
Defined.

(** The greatest common divisor of 12 and 18. *)
Lemma gcd_greatest_witness :
  (DiscreteNormalDist.gcd 12 18 | 12) /\ (DiscreteNormalDist.gcd 12 18 | 18).
Proof.
  assert (H1 : DiscreteNormalDist.minint < 12 <= DiscreteNormalDist.maxint)
    by (vm_compute; split; [reflexivity | discriminate]).
  assert (H2 : DiscreteNormalDist.minint < 18 <= DiscreteNormalDist.maxint)
    by (vm_compute; split; [reflexivity | discriminate]).
  destruct (gcd_greatest 12 18 H1 H2) as (_ & _ & D1 & D2 & _).
  split; [exact D1 | exact D2].
Defined.

(** mu = 2/4 and sigma = 6/4 are stored as 1/2 and 3/2. *)
Lemma param_type_value_witness :
  let p := {| DiscreteNormalDist._mu_num := 1;
              DiscreteNormalDist._mu_den := 2;
              DiscreteNormalDist._sigma_num := 3;
              DiscreteNormalDist._sigma_den := 2 |} in
  DiscreteNormalDist.param_init 2 4 6 4 = DiscreteNormalDist.Ok p
  /\ DiscreteNormalDist.param_init 1 2 3 2 = DiscreteNormalDist.Ok p
  /\ (DiscreteNormalDist.param_eqb p p = true
      <-> 2 * 2 = 1 * 4 /\ 6 * 2 = 3 * 4).
Proof.
  intros p.
  assert (I : forall z, -100 <= z <= 100 -> DiscreteNormalDist.is_int z).
  { intros z Hz. unfold DiscreteNormalDist.is_int,
      DiscreteNormalDist.minint, DiscreteNormalDist.maxint. lia. }
  assert (E1 : DiscreteNormalDist.param_init 2 4 6 4
               = DiscreteNormalDist.Ok p) by reflexivity.
  assert (E2 : DiscreteNormalDist.param_init 1 2 3 2
               = DiscreteNormalDist.Ok p) by reflexivity.
  split; [exact E1 | ]. split; [exact E2 | ].
  exact (proj1 (proj2 (param_type_value 2 4 6 4 1 2 3 2 p p
    (I 2 ltac:(lia)) (I 4 ltac:(lia)) (I 6 ltac:(lia)) (I 4 ltac:(lia))
    (I 1 ltac:(lia)) (I 2 ltac:(lia)) (I 3 ltac:(lia)) (I 2 ltac:(lia))
    E1 E2))).
Defined.

(** mu = -7/3 and sigma = 129/2 in base 2: the common denominator is 6,
    [mu = -2 - 2/6], [sigma = 387/6], whose ceiling is 65. *)
Lemma init_derived_witness :
  let p := {| DiscreteNormalDist._mu_num := -7;
              DiscreteNormalDist._mu_den := 3;
              DiscreteNormalDist._sigma_num := 129;
              DiscreteNormalDist._sigma_den := 2 |} in
  let c := {| DiscreteNormalDist._sig := 387; DiscreteNormalDist._mu := -2;
              DiscreteNormalDist._d := 6; DiscreteNormalDist._imu := -2;
              DiscreteNormalDist._isig := 65 |} in
  DiscreteNormalDist.init Samples.T2 p = DiscreteNormalDist.Ok c
  /\ DiscreteNormalDist._d c = Z.lcm 2 3.
Proof.
  intros p c.
  assert (E : DiscreteNormalDist.init Samples.T2 p = DiscreteNormalDist.Ok c)
    by reflexivity.
  split; [exact E | ].
  exact (proj1 (proj2 (proj2 (init_derived Samples.T2 p c
    ltac:(cbn; lia) ltac:(cbn; lia) ltac:(cbn; lia) E)))).
Defined.

(** ** rand_digit: the paths that take the digit from the bits of a word *)

Section RandDigitFast.
Import DigitArithmetic RandDigit.
Variable uint_w : Z.
Variable G : Generator.
Variable uniform_int : gen_state G -> Z -> Z -> Z * gen_state G.
Variable b : Z.
Hypothesis uint_w_ge : 32 <= uint_w.
Hypothesis G_wf : gen_wf G.

(** X20. For a power-of-two base and a word generator of range
    [[0, 2^32 - 1]] or [[0, 2^64 - 1]], [operator()] makes one call to the
    word generator and none to [std::uniform_int_distribution]; the digit
    is [e] exactly when the low 32 bits of the word lie in the [e]-th
    block of [2^(32 - bits)] consecutive values, so that each digit has
    the same number of words. *)
Theorem rand_digit_fast_path (D : rand_digit) (g : gen_state G) :
  power_of_two uint_w b = true -> gen_min G = 0 ->
  gen_max G = 2 ^ 32 - 1 \/ gen_max G = 2 ^ 64 - 1 ->
  let w := fst (gen_next G g) in
  let '(d, D', g') := call uint_w G uniform_int b D g in
  g' = snd (gen_next G g) /\ count D' = count D + 1
  /\ 0 <= d < 2 ^ bits b
  /\ forall e,
       d = e <-> e * 2 ^ (32 - bits b) <= w mod 2 ^ 32
                 < (e + 1) * 2 ^ (32 - bits b).
Proof.
  intros Hp Hmin Hmax w. unfold call. rewrite Hp, Hmin.
  change (0 =? 0) with true. cbn [andb].
  pose proof (bits_range b) as Hbits.
  pose proof (G_wf g) as Hw. fold w in Hw. rewrite Hmin in Hw.
  assert (Hpow : 2 ^ bits b <= 2 ^ uint_w)
    by (apply Z.pow_le_mono_r; lia).
  assert (Hs : 0 < 2 ^ (32 - bits b)) by (apply Z.pow_pos_nonneg; lia).
  assert (Hsplit : 2 ^ 32 = 2 ^ bits b * 2 ^ (32 - bits b)).
  { rewrite <- Z.pow_add_r by lia. f_equal. lia. }
  assert (Hblock : forall v, 0 <= v < 2 ^ 32 ->
    0 <= Z.shiftr v (32 - bits b) < 2 ^ bits b
    /\ forall e, Z.shiftr v (32 - bits b) = e
         <-> e * 2 ^ (32 - bits b) <= v < (e + 1) * 2 ^ (32 - bits b)).
  { intros v Hv. rewrite Z.shiftr_div_pow2 by lia.
    pose proof (Z.div_mod v (2 ^ (32 - bits b)) ltac:(lia)) as E.
    pose proof (Z.mod_pos_bound v (2 ^ (32 - bits b)) Hs) as Hm.
    split.
    - split; [apply Z.div_pos; lia | ].
      apply Z.div_lt_upper_bound; lia.
    - intros e. split.
      + intros <-. nia.
      + intros He. symmetry. apply Z.div_unique with (v - e * 2 ^ (32 - bits b));
          lia. }
  destruct Hmax as [Hmax | Hmax]; rewrite Hmax in *.
  - change (2 ^ 32 - 1 =? 0xffffffff) with true. cbv iota.
    destruct (gen_next G g) as [w0 g'] eqn:Eg. cbn [fst snd] in *.
    subst w. destruct (Hblock w0 ltac:(lia)) as [R B].
    rewrite (Z.mod_small w0) by lia.
    rewrite Z.mod_small by lia.
    split; [reflexivity | ]. split; [reflexivity | ].
    split; [exact R | exact B].
  - change (2 ^ 64 - 1 =? 0xffffffff) with false.
    change (2 ^ 64 - 1 =? 0xffffffffffffffff) with true. cbv iota.
    destruct (gen_next G g) as [w0 g'] eqn:Eg. cbn [fst snd] in *.
    subst w. change 0xffffffff with (Z.ones 32).
    rewrite Z.land_ones by lia.
    pose proof (Z.mod_pos_bound w0 (2 ^ 32) ltac:(lia)) as Hm.
    destruct (Hblock (w0 mod 2 ^ 32) Hm) as [R B].
    rewrite Z.mod_small by lia.
    split; [reflexivity | ]. split; [reflexivity | ].
    split; [exact R | exact B].
Qed.
End RandDigitFast.

(** [rand_digit<256>] over a 32-bit word generator: the digit is the top
    byte of the word. *)
Lemma rand_digit_fast_path_witness :
  let '(d, D', g') :=
    RandDigit.call 64 Samples.flip_gen Samples.flip_uniform 256
      RandDigit.construct true in
  d = 0xde
  <-> 0xde * 2 ^ (32 - DigitArithmetic.bits 256)
      <= fst (RandDigit.gen_next Samples.flip_gen true) mod 2 ^ 32
      < (0xde + 1) * 2 ^ (32 - DigitArithmetic.bits 256).
Proof.
  assert (H1 : 32 <= 64) by lia.
  assert (H2 : RandDigit.gen_wf Samples.flip_gen).
  { intros g. destruct g; vm_compute; split; discriminate. }
  pose proof (rand_digit_fast_path 64 Samples.flip_gen Samples.flip_uniform
                256 H1 H2 RandDigit.construct true eq_refl eq_refl
                (or_introl eq_refl)) as H.
  cbv zeta in H.
  destruct (RandDigit.call 64 Samples.flip_gen Samples.flip_uniform 256
              RandDigit.construct true) as [[d D'] g'].
  exact (proj2 (proj2 (proj2 H)) 0xde).
Defined.

(** ** discrete_normal_dist: what generate returns *)

Section GenerateBand.
Import DiscreteNormalDist.
Variable T : digit_traits.
Variable c : derived.
Hypothesis bm1_pos : 1 <= max_value T.
(** The digits are those of base [b]. *)
Hypothesis b_eff : IRand.b T = max_value T + 1.

Lemma tape_ok_advances (D D' : digit_gen) :
  tape_ok T D -> advances D D' -> tape_ok T D'.
Proof. intros H [E _] i. rewrite E. apply H. Qed.

Lemma narrows_refl (j : IRand.i_rand) (D : digit_gen) :
  IRand.Inv T j -> tape_ok T D -> narrows T j D j D.
Proof.
  intros HI Ht. split; [exact HI | ]. split; [exact Ht | ].
  split; [apply advances_refl | lia].
Qed.

Lemma narrows_trans (j1 j2 j3 : IRand.i_rand) (D1 D2 D3 : digit_gen) :
  narrows T j1 D1 j2 D2 -> narrows T j2 D2 j3 D3 -> narrows T j1 D1 j3 D3.
Proof.
  intros (_ & _ & A1 & L1 & U1) (I2 & T2 & A2 & L2 & U2).
  split; [exact I2 | ]. split; [exact T2 | ].
  split; [exact (advances_trans _ _ _ A1 A2) | lia].
Qed.

Lemma narrows_advances (j : IRand.i_rand) (D D' : digit_gen) :
  IRand.Inv T j -> tape_ok T D -> advances D D' -> narrows T j D j D'.
Proof.
  intros HI Ht A. split; [exact HI | ].
  split; [exact (tape_ok_advances _ _ Ht A) | ]. split; [exact A | lia].
Qed.

Lemma compare_from_frame (fuel k : nat) (x : URand.u_rand) (D : digit_gen)
  (u1 u2 v r : Z) (x' : URand.u_rand) (D' : digit_gen) :
  URand.compare_from T fuel k x D u1 u2 v = Some (r, x', D') ->
  advances D D'.
Proof.
  revert k x D u1 u2. induction fuel as [ | fuel IH]; intros k x D u1 u2;
    [discriminate | ].
  cbn [URand.compare_from].
  destruct (u1 >=? v); [intros E; injection E as <- <- <-;
                        apply advances_refl | ].
  destruct (u2 <=? 0); [intros E; injection E as <- <- <-;
                        apply advances_refl | ].
  destruct ((u1 <=? 0) && (u2 >=? v)); [intros E; injection E as <- <- <-;
                                        apply advances_refl | ].
  pose proof (digit_frame x D k) as F.
  destruct (URand.digit x D k) as [[d x1] D1]. destruct F as [_ A].
  intros E. apply IH in E. exact (advances_trans _ _ _ A E).
Qed.

Lemma less_than_i_frame (fuel : nat) (x : URand.u_rand) (D : digit_gen)
  (u0 cc v : Z) (h : IRand.i_rand) (r : bool) (x' : URand.u_rand)
  (h' : IRand.i_rand) (D' : digit_gen) :
  IRand.Inv T h -> tape_ok T D ->
  URand.less_than_i T fuel x D u0 cc v h = Some (r, x', h', D') ->
  narrows T h D h' D'.
Proof.
  revert x D h. induction fuel as [ | fuel IH]; intros x D h HI Ht;
    [discriminate | ].
  cbn [URand.less_than_i].
  destruct (URand.compare T (S fuel) x D _ _ v) as [[[r0 x1] D1] | ] eqn:E;
    [ | discriminate].
  apply compare_from_frame in E.
  pose proof (narrows_advances h D D1 HI Ht E) as N1.
  destruct (r0 <? 0); [intros E'; injection E' as <- <- <- <-; exact N1 | ].
  destruct (r0 >? 0); [intros E'; injection E' as <- <- <- <-; exact N1 | ].
  destruct N1 as (_ & Ht1 & _).
  pose proof (refine_narrows T bm1_pos h D1 b_eff HI Ht1) as N2.
  destruct (IRand.refine T h D1) as [h1 D2].
  intros E'. apply IH in E'; [ | apply N2 | apply N2].
  eapply narrows_trans; [ | exact E'].
  eapply narrows_trans; [exact (narrows_advances h D D1 HI Ht E) | exact N2].
Qed.

Lemma H_loop_frame (fuel : nat) (y z : URand.u_rand) (D : digit_gen)
  (r : bool) (tmp' : scratch) (D' : digit_gen) :
  H_loop fuel y z D = Some (r, tmp', D') -> advances D D'.
Proof.
  revert y z D. induction fuel as [ | fuel IH]; intros y z D;
    [discriminate | ].
  cbn [H_loop].
  destruct (URand.less_than (S fuel) (URand.init z) y D)
    as [[[[r1 z1] y1] D1] | ] eqn:E1; [ | discriminate].
  apply less_than_frame in E1. destruct E1 as (_ & _ & A1).
  destruct (negb r1); [intros E; injection E as <- <- <-; exact A1 | ].
  destruct (URand.less_than (S fuel) (URand.init y1) z1 D1)
    as [[[[r2 y2] z2] D2] | ] eqn:E2; [ | discriminate].
  apply less_than_frame in E2. destruct E2 as (_ & _ & A2).
  destruct (negb r2).
  - intros E; injection E as <- <- <-. exact (advances_trans _ _ _ A1 A2).
  - intros E. apply IH in E.
    exact (advances_trans _ _ _ A1 (advances_trans _ _ _ A2 E)).
Qed.

Lemma H_frame (fuel : nat) (tmp : scratch) (D : digit_gen) (r : bool)
  (tmp' : scratch) (D' : digit_gen) :
  H T fuel tmp D = Some (r, tmp', D') -> advances D D'.
Proof.
  unfold H.
  destruct (URand.less_than_half T fuel (URand.init (_y tmp)) D)
    as [[[r0 y1] D1] | ] eqn:E; [ | discriminate].
  apply less_than_half_frame in E. destruct E as [_ A].
  destruct (negb r0); [intros E; injection E as <- <- <-; exact A | ].
  intros E. apply H_loop_frame in E. exact (advances_trans _ _ _ A E).
Qed.

Lemma G_from_frame (fuel : nat) (n : Z) (tmp : scratch) (D : digit_gen)
  (k : Z) (tmp' : scratch) (D' : digit_gen) :
  G_from T fuel n tmp D = Some (k, tmp', D') -> advances D D' /\ n <= k.
Proof.
  revert n tmp D. induction fuel as [ | fuel IH]; intros n tmp D;
    [discriminate | ].
  cbn [G_from].
  destruct (H T (S fuel) tmp D) as [[[r tmp1] D1] | ] eqn:E;
    [ | discriminate].
  apply H_frame in E. destruct r.
  - intros E'. apply IH in E'. destruct E' as [A Hn].
    split; [exact (advances_trans _ _ _ E A) | lia].
  - intros E'. injection E' as <- <- <-. split; [exact E | lia].
Qed.

Lemma P_frame (fuel : nat) (tmp : scratch) (D : digit_gen) (n : Z)
  (r : bool) (tmp' : scratch) (D' : digit_gen) :
  P T fuel tmp D n = Some (r, tmp', D') -> advances D D'.
Proof.
  revert tmp D n. induction fuel as [ | fuel IH]; intros tmp D n;
    [discriminate | ].
  cbn [P]. destruct (n =? 0).
  - intros E. injection E as <- <- <-. apply advances_refl.
  - destruct (H T (S fuel) tmp D) as [[[r0 tmp1] D1] | ] eqn:E;
      [ | discriminate].
    apply H_frame in E. destruct r0.
    + intros E'. apply IH in E'. exact (advances_trans _ _ _ E E').
    + intros E'. injection E' as <- <- <-. exact E.
Qed.

Lemma i_rand_call_frame (fuel : nat) (h : IRand.i_rand) (D : digit_gen)
  (v : Z) (h' : IRand.i_rand) (D' : digit_gen) :
  IRand.Inv T h -> tape_ok T D ->
  IRand.call T fuel h D = Some (v, h', D') ->
  narrows T h D h' D' /\ v = IRand.min h'.
Proof.
  revert h D. induction fuel as [ | fuel IH]; intros h D HI Ht;
    [discriminate | ].
  cbn [IRand.call]. destruct (IRand._l h =? 0).
  - intros E. injection E as <- <- <-.
    split; [now apply narrows_refl | reflexivity].
  - pose proof (refine_narrows T bm1_pos h D b_eff HI Ht) as N.
    destruct (IRand.refine T h D) as [h1 D1].
    intros E. apply IH in E; [ | apply N | apply N].
    destruct E as [N' Ev]. split; [ | exact Ev].
    eapply narrows_trans; eassumption.
Qed.

(** [i_rand::less_than], when it returns. *)
Lemma i_rand_less_than_returned (fuel : nat) (h : IRand.i_rand)
  (D : digit_gen) (m n : Z) (r : bool) (h' : IRand.i_rand)
  (D' : digit_gen) :
  IRand.Inv T h -> tape_ok T D ->
  IRand.less_than T fuel h D m n = Some (r, h', D') ->
  narrows T h D h' D'
  /\ (r = true -> n * IRand.max h' < m)
  /\ (r = false -> ~ n * IRand.min h' < m).
Proof.
  revert h D. induction fuel as [ | fuel IH]; intros h D HI Ht;
    [discriminate | ].
  cbn [IRand.less_than].
  destruct (Z.ltb_spec (n * IRand.max h) m) as [L1 | L1].
  - intros E. injection E as <- <- <-.
    split; [now apply narrows_refl | ]. split; [intros _; exact L1 | ].
    discriminate.
  - destruct (Z.ltb_spec (n * IRand.min h) m) as [L2 | L2]; cbn [negb].
    + pose proof (refine_narrows T bm1_pos h D b_eff HI Ht) as N.
      destruct (IRand.refine T h D) as [h1 D1].
      intros E. apply IH in E; [ | apply N | apply N].
      destruct E as (N' & E1 & E2).
      split; [eapply narrows_trans; eassumption | ].
      split; assumption.
    + intros E. injection E as <- <- <-.
      split; [now apply narrows_refl | ]. split; [discriminate | ].
      intros _. lia.
Qed.

Lemma B_loop_frame (fuel : nat) (n : Z) (tmp : scratch) (D : digit_gen)
  (k xn0 : Z) (j : IRand.i_rand) (n' : Z) (tmp' : scratch)
  (j' : IRand.i_rand) (D' : digit_gen) :
  IRand.Inv T j -> tape_ok T D ->
  B_loop T c fuel n tmp D k xn0 j = Some (n', tmp', j', D') ->
  narrows T j D j' D'.
Proof.
  revert n tmp D j. induction fuel as [ | fuel IH]; intros n tmp D j HI Ht;
    [discriminate | ].
  cbn [B_loop].
  (* the first draw of [f] *)
  assert (S1 : forall f z1 D1,
    (if k >? 0 then Some (0, _z tmp, D)
     else URand.compare T (S fuel) (URand.init (_z tmp)) D 1 2 (2 * k + 2))
    = Some (f, z1, D1) -> narrows T j D j D1).
  { intros f z1 D1. destruct (k >? 0).
    - intros E. injection E as <- <- <-. now apply narrows_refl.
    - intros E. apply compare_from_frame in E.
      now apply narrows_advances. }
  destruct (if k >? 0 then _ else _) as [[[f z1] D1] | ]; [ | discriminate].
  specialize (S1 f z1 D1 eq_refl).
  destruct (f <? 0); [intros E; injection E as <- <- <- <-; exact S1 | ].
  pose proof S1 as (_ & Ht1 & _).
  (* the comparison of [z] *)
  assert (S2 : forall t z3 y3 j3 D3,
    (if negb (n =? 0)
     then match URand.less_than (S fuel) (URand.init z1) (_y tmp) D1 with
          | Some (t, z', y', D') => Some (t, z', y', j, D')
          | None => None
          end
     else match URand.less_than_i T (S fuel) (URand.init z1) D1 xn0
                  (_d c) (_sig c) j with
          | Some (t, z', j', D') => Some (t, z', _y tmp, j', D')
          | None => None
          end) = Some (t, z3, y3, j3, D3) -> narrows T j D1 j3 D3).
  { intros t z3 y3 j3 D3. destruct (negb (n =? 0)).
    - destruct (URand.less_than (S fuel) (URand.init z1) (_y tmp) D1)
        as [[[[t0 z'] y'] D0] | ] eqn:E; [ | discriminate].
      intros E'. injection E' as <- <- <- <- <-.
      apply less_than_frame in E. destruct E as (_ & _ & A).
      now apply narrows_advances.
    - destruct (URand.less_than_i T (S fuel) (URand.init z1) D1 xn0
                  (_d c) (_sig c) j) as [[[[t0 z'] j0] D0] | ] eqn:E;
        [ | discriminate].
      intros E'. injection E' as <- <- <- <- <-.
      eapply less_than_i_frame; eassumption. }
  destruct (if negb (n =? 0) then _ else _)
    as [[[[[t z3] y3] j3] D3] | ]; [ | discriminate].
  specialize (S2 t z3 y3 j3 D3 eq_refl).
  pose proof (narrows_trans _ _ _ _ _ _ S1 S2) as N2.
  destruct (negb t); [intros E; injection E as <- <- <- <-; exact N2 | ].
  pose proof N2 as (HI3 & Ht3 & _).
  (* the second draw of [f] *)
  assert (S3 : forall f' y4 D4,
    (if k >? 0
     then URand.compare T (S fuel) (URand.init y3) D3 1 2 (2 * k + 2)
     else Some (f, y3, D3)) = Some (f', y4, D4) -> narrows T j3 D3 j3 D4).
  { intros f' y4 D4. destruct (k >? 0).
    - intros E. apply compare_from_frame in E.
      now apply narrows_advances.
    - intros E. injection E as <- <- <-. now apply narrows_refl. }
  destruct (if k >? 0 then _ else _) as [[[f' y4] D4] | ]; [ | discriminate].
  specialize (S3 f' y4 D4 eq_refl).
  pose proof (narrows_trans _ _ _ _ _ _ N2 S3) as N3.
  destruct (f' <? 0); [intros E; injection E as <- <- <- <-; exact N3 | ].
  pose proof N3 as (_ & Ht4 & _).
  (* the comparison of [y] *)
  assert (S4 : forall stop y5 j5 D5,
    (if f' =? 0
     then match URand.less_than_i T (S fuel) (URand.init y4) D4 xn0
                  (_d c) (_sig c) j3 with
          | Some (t', y', j', D') => Some (negb t', y', j', D')
          | None => None
          end
     else Some (false, y4, j3, D4)) = Some (stop, y5, j5, D5) ->
    narrows T j3 D4 j5 D5).
  { intros stop y5 j5 D5. destruct (f' =? 0).
    - destruct (URand.less_than_i T (S fuel) (URand.init y4) D4 xn0
                  (_d c) (_sig c) j3) as [[[[t0 y'] j0] D0] | ] eqn:E;
        [ | discriminate].
      intros E'. injection E' as <- <- <- <-.
      eapply less_than_i_frame; eassumption.
    - intros E. injection E as <- <- <- <-. now apply narrows_refl. }
  destruct (if f' =? 0 then _ else _)
    as [[[[stop y5] j5] D5] | ]; [ | discriminate].
  specialize (S4 stop y5 j5 D5 eq_refl).
  pose proof (narrows_trans _ _ _ _ _ _ N3 S4) as N4.
  destruct stop; [intros E; injection E as <- <- <- <-; exact N4 | ].
  cbn [URand.swap]. intros E.
  apply IH in E; [ | apply N4 | apply N4].
  eapply narrows_trans; eassumption.
Qed.

Lemma B_repeat_frame (fuel : nat) (h : Z) (tmp : scratch) (D : digit_gen)
  (k xn0 : Z) (j : IRand.i_rand) (h' : Z) (tmp' : scratch)
  (j' : IRand.i_rand) (D' : digit_gen) :
  IRand.Inv T j -> tape_ok T D ->
  B_repeat T c fuel h tmp D k xn0 j = Some (h', tmp', j', D') ->
  narrows T j D j' D'.
Proof.
  revert h tmp D j. induction fuel as [ | fuel IH]; intros h tmp D j HI Ht;
    [discriminate | ].
  cbn [B_repeat]. destruct (h =? 0).
  - intros E. injection E as <- <- <- <-. now apply narrows_refl.
  - unfold B.
    destruct (B_loop T c (S fuel) 0 tmp D k xn0 j)
      as [[[[n1 tmp1] j1] D1] | ] eqn:E; [ | discriminate].
    apply B_loop_frame in E; [ | assumption ..].
    destruct (Z.rem n1 2 =? 0).
    + intros E'. apply IH in E'; [ | apply E | apply E].
      eapply narrows_trans; eassumption.
    + intros E'. injection E' as <- <- <- <-. exact E.
Qed.

Lemma i_rand_init_returned (fuel : nat) (D : digit_gen) (m : Z)
  (h : IRand.i_rand) (D' : digit_gen) :
  tape_ok T D -> IRand.init T fuel D m = Some (h, D') ->
  IRand.Inv T h /\ tape_ok T D' /\ advances D D'
  /\ 0 <= IRand.min h /\ IRand.max h < Z.max 1 m.
Proof.
  intros Ht E. pose proof (init_inv T fuel m D D' h E) as HI.
  unfold IRand.init in E.
  replace (if m <=? 0 then 1 else m) with (Z.max 1 m) in E
    by (destruct (Z.leb_spec m 0); lia).
  apply (init_loop_range T) in E; try lia; try assumption.
  destruct E as (H1 & H2 & A).
  split; [exact HI | ]. split; [exact (tape_ok_advances _ _ Ht A) | ].
  split; [exact A | lia].
Qed.

(** The candidate test of [generate], when it accepts. *)
Lemma candidate_accepted (fuel : nat) (j : IRand.i_rand) (D : digit_gen)
  (k s xn0 : Z) (j' : IRand.i_rand) (D' : digit_gen) :
  0 < _d c -> IRand.Inv T j -> tape_ok T D ->
  candidate_rejected T c fuel j D k s xn0 = Some (false, j', D') ->
  narrows T j D j' D'
  /\ _d c * IRand.max j' < _sig c - xn0
  /\ (k = 0 -> s < 0 -> - xn0 + 1 <= _d c * IRand.min j').
Proof.
  intros Hd HI Ht. unfold candidate_rejected.
  destruct (IRand.less_than T fuel j D (_sig c - xn0) (_d c))
    as [[[lt j1] D1] | ] eqn:E1; [ | discriminate].
  apply i_rand_less_than_returned in E1; [ | assumption ..].
  destruct E1 as (N1 & L1 & _).
  destruct lt; cbn [negb]; [ | discriminate]. specialize (L1 eq_refl).
  destruct (Z.eqb_spec k 0) as [Ek | NEk];
    destruct (Z.ltb_spec s 0) as [Ls | Ls]; cbn [andb];
    try (intros E; injection E as <- <-;
         split; [exact N1 | ]; split; [exact L1 | intros; lia]).
  unfold IRand.greater_than, IRand.less_than_equal.
  destruct (IRand.less_than T fuel j1 D1 (- xn0 + 1) (_d c))
    as [[[r j2] D2] | ] eqn:E2; [ | discriminate].
  cbn [IRand.negate_result]. rewrite negb_involutive.
  intros E. injection E as -> <- <-.
  apply i_rand_less_than_returned in E2; [ | apply N1 | apply N1].
  destruct E2 as (N2 & _ & L2). specialize (L2 eq_refl).
  split; [eapply narrows_trans; eassumption | ].
  destruct N2 as (_ & _ & _ & Hmin & Hmax).
  split; [nia | intros _ _; lia].
Qed.

(** X21. What [generate] returns: for the [k >= 0] and the sign [s] of
    the accepted candidate, every value [i] left in the range of the
    i-rand satisfies [k <= s * (i - mu) / sigma < k + 1], where
    [mu = _imu + _mu / _d] and [sigma = _sig / _d]; for [k = 0] and
    [s = -1] the lower bound is strict, the value [i = mu] being returned
    with [s = +1] only. The i-rand satisfies [_d = b^_l]. *)
Theorem discrete_generate_band (fuel : nat) (tmp : scratch)
  (j : IRand.i_rand) (D : digit_gen) (tmp' : scratch)
  (j' : IRand.i_rand) (D' : digit_gen) :
  0 < _d c -> tape_ok T D ->
  generate T c fuel tmp j D = Some (tmp', j', D') ->
  IRand.Inv T j' /\ tape_ok T D' /\ advances D D'
  /\ exists k s,
       0 <= k /\ (s = 1 \/ s = -1)
       /\ forall i, IRand.min j' <= i <= IRand.max j' ->
            let y := s * ((i - _imu c) * _d c - _mu c) - _sig c * k in
            0 <= y < _sig c /\ (k = 0 -> s = -1 -> 0 < y).
Proof.
  intros Hd. revert tmp j D.
  induction fuel as [ | fuel IH]; intros tmp j D Ht; [discriminate | ].
  cbn [generate].
  assert (Hrec : forall tmp0 j0 D0, advances D D0 ->
    generate T c fuel tmp0 j0 D0 = Some (tmp', j', D') ->
    IRand.Inv T j' /\ tape_ok T D' /\ advances D D'
    /\ exists k s,
         0 <= k /\ (s = 1 \/ s = -1)
         /\ forall i, IRand.min j' <= i <= IRand.max j' ->
              let y := s * ((i - _imu c) * _d c - _mu c) - _sig c * k in
              0 <= y < _sig c /\ (k = 0 -> s = -1 -> 0 < y)).
  { intros tmp0 j0 D0 A E.
    apply IH in E; [ | exact (tape_ok_advances _ _ Ht A)].
    destruct E as (E1 & E2 & E3 & E4).
    split; [exact E1 | ]. split; [exact E2 | ].
    split; [exact (advances_trans _ _ _ A E3) | exact E4]. }
  unfold G.
  destruct (G_from T (S fuel) 0 tmp D) as [[[k tmp1] D1] | ] eqn:EG;
    [ | discriminate].
  apply G_from_frame in EG. destruct EG as [A1 Hk].
  destruct (P T (S fuel) tmp1 D1 (k * (k - 1))) as [[[ok tmp2] D2] | ] eqn:EP;
    [ | discriminate].
  apply P_frame in EP. pose proof (advances_trans _ _ _ A1 EP) as A2.
  destruct ok; cbn [negb]; [ | apply Hrec; exact A2].
  destruct (IRand.init T (S fuel) D2 2) as [[j3 D3] | ] eqn:E3;
    [ | discriminate].
  apply i_rand_init_returned in E3; [ | exact (tape_ok_advances _ _ Ht A2)].
  destruct E3 as (I3 & T3 & A3 & _).
  destruct (IRand.call T (S fuel) j3 D3) as [[[v j4] D4] | ] eqn:E4;
    [ | discriminate].
  apply i_rand_call_frame in E4; [ | assumption ..].
  destruct E4 as [(_ & T4 & A4 & _) _].
  set (s := if negb (v =? 0) then -1 else 1).
  assert (Hs : s = 1 \/ s = -1) by (unfold s; destruct (negb (v =? 0)); lia).
  set (xn := _sig c * k + s * _mu c).
  set (i0 := iceil xn (_d c)).
  set (xn0 := i0 * _d c - xn).
  pose proof (iceil_bounds xn (_d c) Hd) as Hi0. fold i0 in Hi0.
  destruct (IRand.init T (S fuel) D4 (_isig c)) as [[j5 D5] | ] eqn:E5;
    [ | discriminate].
  apply i_rand_init_returned in E5; [ | exact T4].
  destruct E5 as (I5 & T5 & A5 & Hmin5 & _).
  pose proof (advances_trans _ _ _ A2
                (advances_trans _ _ _ A3 (advances_trans _ _ _ A4 A5)))
    as A25.
  destruct (candidate_rejected T c (S fuel) j5 D5 k s xn0)
    as [[[rej j6] D6] | ] eqn:E6; [ | discriminate].
  destruct rej.
  { (* rejected: the digit generator has only moved forward *)
    apply Hrec.
    unfold candidate_rejected in E6.
    destruct (IRand.less_than T (S fuel) j5 D5 (_sig c - xn0) (_d c))
      as [[[lt j1] D1'] | ] eqn:L1; [ | discriminate].
    apply i_rand_less_than_returned in L1; [ | assumption ..].
    destruct L1 as ((I1 & T1 & A1' & _) & _).
    destruct (negb lt).
    - injection E6 as <- <-. exact (advances_trans _ _ _ A25 A1').
    - destruct ((k =? 0) && (s <? 0)).
      + unfold IRand.greater_than, IRand.less_than_equal in E6.
        destruct (IRand.less_than T (S fuel) j1 D1' (- xn0 + 1) (_d c))
          as [[[r j2] D2'] | ] eqn:L2; [ | discriminate].
        apply i_rand_less_than_returned in L2; [ | assumption ..].
        destruct L2 as ((_ & _ & A2' & _) & _).
        cbn [IRand.negate_result] in E6. injection E6 as _ Ej6 ED6.
        subst j6 D6.
        exact (advances_trans _ _ _ A25 (advances_trans _ _ _ A1' A2')).
      + discriminate E6. }
  apply candidate_accepted in E6; [ | assumption ..].
  destruct E6 as (N6 & Hx1 & Hx0).
  pose proof N6 as (I6 & T6 & A6 & Hmin6 & Hmax6).
  destruct (B_repeat T c (S fuel) (k + 1) tmp2 D6 k xn0 j6)
    as [[[[h tmp7] j7] D7] | ] eqn:E7; [ | discriminate].
  apply B_repeat_frame in E7; [ | assumption ..].
  destruct E7 as (I7 & T7 & A7 & Hmin7 & Hmax7).
  pose proof (advances_trans _ _ _ A25 (advances_trans _ _ _ A6 A7)) as A27.
  destruct (h <? 0); cbn [negb]; [ | apply Hrec; exact A27].
  intros E. injection E as <- <- <-.
  split.
  { destruct (s <? 0); [apply negate_inv | ]; apply add_inv; exact I7. }
  split; [exact T7 | ]. split; [exact A27 | ].
  exists k, s. split; [lia | ]. split; [exact Hs | ].
  intros i Hi. cbv zeta.
  (* the value of the i-rand before the shift *)
  assert (Hj : exists jv,
    IRand.min j7 <= jv <= IRand.max j7 /\ s * (i - _imu c) = i0 + jv).
  { destruct Hs as [S1 | S1]; rewrite S1 in Hi |- *.
    - change (1 <? 0) with false in Hi. cbv iota in Hi.
      unfold IRand.min, IRand.max, IRand.add in Hi.
      cbn [IRand._a IRand._d] in Hi.
      exists (i - i0 - _imu c). unfold IRand.min, IRand.max. lia.
    - change (-1 <? 0) with true in Hi. cbv iota in Hi.
      unfold IRand.min, IRand.max, IRand.add, IRand.negate in Hi.
      unfold IRand.max in Hi. cbn [IRand._a IRand._d] in Hi.
      exists (- i - i0 + _imu c). unfold IRand.min, IRand.max. lia. }
  destruct Hj as (jv & Hjv & Ej).
  assert (Ey : s * ((i - _imu c) * _d c - _mu c) - _sig c * k
               = xn0 + _d c * jv).
  { unfold xn0, xn.
    replace (s * ((i - _imu c) * _d c - _mu c))
      with (s * (i - _imu c) * _d c - s * _mu c) by ring.
    rewrite Ej. ring. }
  rewrite Ey.
  assert (B1 : _d c * IRand.min j7 <= _d c * jv)
    by (apply Z.mul_le_mono_nonneg_l; lia).
  assert (B2 : _d c * jv <= _d c * IRand.max j7)
    by (apply Z.mul_le_mono_nonneg_l; lia).
  assert (B3 : _d c * IRand.max j7 <= _d c * IRand.max j6)
    by (apply Z.mul_le_mono_nonneg_l; lia).
  assert (B4 : _d c * IRand.min j6 <= _d c * IRand.min j7)
    by (apply Z.mul_le_mono_nonneg_l; lia).
  assert (B5 : 0 <= _d c * IRand.min j7)
    by (apply Z.mul_nonneg_nonneg; lia).
  unfold xn0 in *. split; [lia | ].
  intros Ek Es. specialize (Hx0 Ek ltac:(lia)). lia.
Qed.
End GenerateBand.

(** mu = 1/3 and sigma = 3/2 in base 2, on a tape starting with
    0, 1, 1, 0: the sampler returns the range [[-1, 0]], both values of
    which lie less than one sigma below mu. *)
Lemma discrete_generate_band_witness :
  let c := {| DiscreteNormalDist._sig := 9; DiscreteNormalDist._mu := 2;
              DiscreteNormalDist._d := 6; DiscreteNormalDist._imu := 0;
              DiscreteNormalDist._isig := 2 |} in
  let tmp := {| DiscreteNormalDist._y := URand.construct;
                DiscreteNormalDist._z := URand.construct |} in
  let D := tape_of [0; 1; 1; 0] 1 in
  exists tmp' j' D',
    DiscreteNormalDist.generate Samples.T2 c 20 tmp IRand.construct D
    = Some (tmp', j', D')
    /\ IRand.min j' = -1 /\ IRand.max j' = 0
    /\ exists k s,
         0 <= k /\ (s = 1 \/ s = -1)
         /\ forall i, IRand.min j' <= i <= IRand.max j' ->
              let y := s * ((i - DiscreteNormalDist._imu c)
                            * DiscreteNormalDist._d c
                            - DiscreteNormalDist._mu c)
                       - DiscreteNormalDist._sig c * k in
              0 <= y < DiscreteNormalDist._sig c
              /\ (k = 0 -> s = -1 -> 0 < y).
Proof.
  intros c tmp D.
  assert (Ht : tape_ok Samples.T2 D).
  { apply tape_of_ok; [ | vm_compute; split; discriminate].
    repeat constructor; vm_compute; discriminate. }
  destruct (DiscreteNormalDist.generate Samples.T2 c 20 tmp IRand.construct D)
    as [[[tmp' j'] D'] | ] eqn:E; [ | vm_compute in E; discriminate E].
  exists tmp', j', D'. split; [reflexivity | ].
  assert (Ej : j' = {| IRand._a := -1; IRand._d := 2; IRand._l := 1 |}).
  { vm_compute in E. injection E as _ Ej _. symmetry. exact Ej. }
  split; [rewrite Ej; reflexivity | ]. split; [rewrite Ej; reflexivity | ].
  exact (proj2 (proj2 (proj2
    (discrete_generate_band Samples.T2 c sample_T2_max eq_refl 20 tmp
       IRand.construct D tmp' j' D' ltac:(cbn; lia) Ht E)))).
Defined.

(** ** unit_normal_dist: Algorithm C *)

Section AlgorithmC.
Import URand UnitNormalDist.
Variable T : digit_traits.
Variable uint_w : Z.
Hypothesis T_wf : traits_wf T.
Hypothesis uint_w_ge : 32 <= uint_w.
Hypothesis ok : base_ok T uint_w = true.

(** The temporary base divides the digits into at most [2^15] values. *)
Lemma C_constants :
  2 <= tbase T uint_w <= 2 ^ 15
  /\ 0 <= shift T
  /\ forall dg, 0 <= dg <= max_value T ->
       0 <= int_of_uint (Z.shiftr dg (shift T)) < tbase T uint_w.
Proof.
  destruct T_wf as (Hmv & Hbase & Hbits & Hpow & Hp2).
  unfold tbase, shift, maxbits.
  assert (Hw : 2 ^ 32 <= 2 ^ uint_w) by (apply Z.pow_le_mono_r; lia).
  assert (Hint : forall z, 0 <= z < 2 ^ 31 -> int_of_uint z = z).
  { intros z Hz. unfold int_of_uint. rewrite Z.mod_small by lia.
    destruct (Z.ltb_spec z (2 ^ 31)); lia. }
  destruct (power_of_two T && (bits T >? 15)) eqn:Eb.
  - apply andb_true_iff in Eb. destruct Eb as [E1 E2].
    apply Z.gtb_lt in E2. apply Hp2 in E1.
    assert (Es : DigitArithmetic.uint_shl uint_w 1 15 = 2 ^ 15).
    { unfold DigitArithmetic.uint_shl. rewrite Z.mul_1_l.
      apply Z.mod_small. lia. }
    rewrite Es, Hint by lia. split; [lia | ]. split; [lia | ].
    intros dg Hdg.
    assert (Hsh : 0 <= Z.shiftr dg (bits T - 15) < 2 ^ 15).
    { rewrite Z.shiftr_div_pow2 by lia.
      assert (0 < 2 ^ (bits T - 15)) by (apply Z.pow_pos_nonneg; lia).
      split; [apply Z.div_pos; lia | ].
      apply Z.div_lt_upper_bound; [lia | ].
      rewrite <- Z.pow_add_r by lia.
      replace (bits T - 15 + 15) with (bits T) by lia. lia. }
    rewrite Hint by lia. exact Hsh.
  - assert (Hsmall : max_value T + 1 <= 2 ^ 15).
    { unfold base_ok in ok. apply orb_true_iff in ok.
      destruct ok as [O1 | O2].
      - apply Z.ltb_lt in O1. rewrite Hbase in O1.
        destruct (Z.eq_dec (max_value T + 1) (2 ^ 32)) as [E | NE].
        + rewrite E, Z.mod_same in O1 by lia.
          change (0 - 1) with (- 1) in O1.
          rewrite <- (Z.mod_add _ 1) in O1 by lia.
          rewrite Z.mod_small in O1 by lia. lia.
        + rewrite (Z.mod_small (max_value T + 1)) in O1 by lia.
          rewrite Z.mod_small in O1 by lia. lia.
      - apply andb_true_iff in O2. destruct O2 as [E1 E2].
        rewrite E1 in Eb. cbn [andb] in Eb.
        rewrite Z.gtb_ltb in Eb. apply Z.ltb_ge in Eb.
        apply Hp2 in E1. rewrite E1.
        apply Z.pow_le_mono_r; lia. }
    assert (Eb' : base T = max_value T + 1)
      by (rewrite Hbase; apply Z.mod_small; lia).
    rewrite Eb', Hint by lia. split; [lia | ]. split; [lia | ].
    intros dg Hdg. rewrite Z.shiftr_0_r, Hint by lia. lia.
Qed.

Lemma C_loop_sound (fuel : nat) (n1 n2 : Z) (D : digit_gen) (m r : Z)
  (D' : digit_gen) :
  tape_ok T D -> 0 < m ->
  C_loop T uint_w fuel n1 n2 D m = Some (r, D') ->
  tape D' = tape D
  /\ exists ds,
       ds <> []
       /\ count D' = (count D + List.length ds)%nat
       /\ (forall i, (i < List.length ds)%nat ->
             nth i ds 0 = Z.shiftr (tape D (count D + i)) (shift T))
       /\ digits_ok (tbase T uint_w) ds
       /\ (r = -1 \/ r = 1 \/ r = 0)
       /\ forall f : Q,
            (lower (tbase T uint_w) ds < f)%Q ->
            (f < upper (tbase T uint_w) ds)%Q ->
            (r = -1 -> (f * inject_Z m < inject_Z n1)%Q)
            /\ (r = 1 -> (inject_Z n2 < f * inject_Z m)%Q)
            /\ (r = 0 ->
                (inject_Z n1 <= f * inject_Z m)%Q
                /\ (f * inject_Z m <= inject_Z n2)%Q).
Proof.
  destruct C_constants as (Htb & Hsh & Hdig).
  intros Htape Hm.
  assert (HM : (0 < inject_Z m)%Q)
    by (change 0%Q with (inject_Z 0); rewrite <- Zlt_Qlt; lia).
  assert (HBq : (0 < inject_Z (tbase T uint_w))%Q)
    by (apply b_pos_Q; lia).
  revert n1 n2 D Htape.
  induction fuel as [ | fuel IH]; intros n1 n2 D Htape; [discriminate | ].
  cbn [C_loop]. unfold draw.
  set (dg := tape D (count D)).
  set (d := int_of_uint (Z.shiftr dg (shift T))).
  assert (Hd : 0 <= d < tbase T uint_w) by (apply Hdig, Htape).
  assert (Ed : d = Z.shiftr dg (shift T)).
  { unfold d, int_of_uint.
    assert (0 <= Z.shiftr dg (shift T) < 2 ^ 31).
    { pose proof (Htape (count D)) as Hr. fold dg in Hr.
      rewrite Z.shiftr_div_pow2 by lia.
      assert (0 < 2 ^ shift T) by (apply Z.pow_pos_nonneg; lia).
      split; [apply Z.div_pos; lia | ].
      unfold d, int_of_uint in Hd.
      destruct (Z.ltb_spec ((Z.shiftr dg (shift T)) mod 2 ^ 32) (2 ^ 31))
        as [L | L].
      - rewrite Z.shiftr_div_pow2 in L, Hd by lia.
        destruct T_wf as (Hmv & _).
        assert (dg / 2 ^ shift T <= dg)
          by (apply Z.div_le_upper_bound; nia).
        rewrite Z.mod_small in L by (split; [apply Z.div_pos; lia | lia]).
        exact L.
      - pose proof (Z.mod_pos_bound (Z.shiftr dg (shift T)) (2 ^ 32)
                      ltac:(lia)). lia. }
    rewrite Z.mod_small by lia.
    destruct (Z.ltb_spec (Z.shiftr dg (shift T)) (2 ^ 31)); lia. }
  set (D1 := {| tape := tape D; count := S (count D) |}).
  set (n1' := Z.max 0 (n1 * tbase T uint_w - d * m)).
  set (n2' := Z.min m (n2 * tbase T uint_w - d * m)).
  (* the digit [d] alone *)
  assert (Hone : forall r0,
    (r0 = -1 \/ r0 = 1 \/ r0 = 0) ->
    (r0 = -1 -> m <= n1') -> (r0 = 1 -> n2' <= 0) ->
    (r0 = 0 -> n1' <= 0 /\ m <= n2') ->
    tape D1 = tape D
    /\ exists ds,
         ds <> []
         /\ count D1 = (count D + List.length ds)%nat
         /\ (forall i, (i < List.length ds)%nat ->
               nth i ds 0 = Z.shiftr (tape D (count D + i)) (shift T))
         /\ digits_ok (tbase T uint_w) ds
         /\ (r0 = -1 \/ r0 = 1 \/ r0 = 0)
         /\ forall f : Q,
              (lower (tbase T uint_w) ds < f)%Q ->
              (f < upper (tbase T uint_w) ds)%Q ->
              (r0 = -1 -> (f * inject_Z m < inject_Z n1)%Q)
              /\ (r0 = 1 -> (inject_Z n2 < f * inject_Z m)%Q)
              /\ (r0 = 0 ->
                  (inject_Z n1 <= f * inject_Z m)%Q
                  /\ (f * inject_Z m <= inject_Z n2)%Q)).
  { intros r0 Hr0 R1 R2 R3. split; [reflexivity | ].
    exists [d]. split; [discriminate | ].
    split; [cbn; lia | ].
    split.
    { intros i Hi. cbn in Hi. replace i with O by lia.
      rewrite Nat.add_0_r. exact Ed. }
    split; [repeat constructor; lia | ]. split; [exact Hr0 | ].
    intros f F1 F2. cbn [lower upper] in F1, F2.
    apply (div_lt_l _ _ _ HBq) in F1. apply (div_lt_r _ _ _ HBq) in F2.
    assert (P0 : (0 < f * inject_Z (tbase T uint_w) - inject_Z d)%Q) by lra.
    assert (P1 : (f * inject_Z (tbase T uint_w) - inject_Z d < 1)%Q) by lra.
    destruct (compare_step (tbase T uint_w) d m n1 n2 f
                (f * inject_Z (tbase T uint_w) - inject_Z d)%Q
                ltac:(lia) Hm P0 P1 ltac:(reflexivity))
      as (C1 & C2 & C3 & C4).
    fold n1' in C1, C3. fold n2' in C2, C4.
    split; [intros Hr; apply C1 | split; [intros Hr; apply C2 | intros Hr] ].
    - specialize (R1 Hr).
      assert (inject_Z m <= inject_Z n1')%Q by (rewrite <- Zle_Qle; lia).
      nra.
    - specialize (R2 Hr).
      assert (inject_Z n2' <= 0)%Q
        by (change 0%Q with (inject_Z 0); rewrite <- Zle_Qle; lia).
      nra.
    - destruct (R3 Hr) as [R3a R3b].
      assert (inject_Z n1' <= 0)%Q
        by (change 0%Q with (inject_Z 0); rewrite <- Zle_Qle; lia).
      assert (inject_Z m <= inject_Z n2')%Q by (rewrite <- Zle_Qle; lia).
      split; [apply C3 | apply C4]; nra. }
  destruct (Z.geb_spec n1' m) as [G1 | G1].
  { intros E. injection E as <- <-. apply Hone; try lia. }
  destruct (Z.leb_spec n2' 0) as [G2 | G2].
  { intros E. injection E as <- <-. apply Hone; try lia. }
  destruct (Z.leb_spec n1' 0) as [G3 | G3];
    destruct (Z.geb_spec n2' m) as [G4 | G4]; cbn [andb].
  { intros E. injection E as <- <-. apply Hone; try lia. }
  all: intros E;
    assert (Ht1 : tape_ok T D1) by (intros i; apply Htape);
    destruct (IH n1' n2' D1 Ht1 E)
      as (Etape & ds & Hne & Hc & Hnth & Hok & Hr & Hsound);
    (split; [exact Etape | ]);
    exists (d :: ds);
    (split; [discriminate | ]);
    (split; [cbn [List.length]; rewrite Hc; unfold D1; cbn [count]; lia | ]);
    (split;
     [ intros [ | i] Hi;
       [ cbn [nth]; rewrite Nat.add_0_r; exact Ed
       | cbn [nth]; rewrite Hnth by (cbn in Hi; lia);
         unfold D1; cbn [tape count]; do 2 f_equal; lia ]
     | ]);
    (split; [constructor; [lia | exact Hok] | ]);
    (split; [exact Hr | ]);
    intros f F1 F2; cbn [lower upper] in F1, F2;
    apply (div_lt_l _ _ _ HBq) in F1; apply (div_lt_r _ _ _ HBq) in F2;
    destruct (lower_upper_bounds _ (proj1 Htb) ds Hok) as (A1 & A2 & A3);
    assert (P0 : (0 < f * inject_Z (tbase T uint_w) - inject_Z d)%Q)
      by lra;
    assert (P1 : (f * inject_Z (tbase T uint_w) - inject_Z d < 1)%Q)
      by lra;
    destruct (Hsound (f * inject_Z (tbase T uint_w) - inject_Z d)%Q
                ltac:(lra) ltac:(lra)) as (S1 & S2 & S3);
    destruct (compare_step (tbase T uint_w) d m n1 n2 f
                (f * inject_Z (tbase T uint_w) - inject_Z d)%Q
                ltac:(lia) Hm P0 P1 ltac:(reflexivity))
      as (C1 & C2 & C3 & C4);
    fold n1' in C1, C3; fold n2' in C2, C4;
    (split; [intros Hr1; apply C1, S1, Hr1 | ]);
    (split; [intros Hr1; apply C2, S2, Hr1 | ]);
    intros Hr1; destruct (S3 Hr1) as [S3a S3b];
    split; [apply C3, S3a | apply C4, S3b].
Qed.

(** X22. Algorithm C: [C(g, m)], [m > 0], reads digits of a uniform
    deviate [U] in the temporary base (the base itself, or [2^15] when the
    base is a larger power of two, the low bits of each digit being
    dropped) until it can tell [U < 1/m] (result -1), [U > 2/m] (result
    +1) or [1/m <= U <= 2/m] (result 0): the result holds for every real
    that begins with the digits read. [m] is such that [m * tbase] is an
    [int], which keeps the products of the loop within [int]. *)
Theorem algorithm_C_sound (fuel : nat) (D : digit_gen) (m r : Z)
  (D' : digit_gen) :
  tape_ok T D -> 0 < m -> m * tbase T uint_w <= 2 ^ 31 - 1 ->
  C T uint_w fuel D m = Some (r, D') ->
  tape D' = tape D
  /\ exists ds,
       ds <> []
       /\ count D' = (count D + List.length ds)%nat
       /\ (forall i, (i < List.length ds)%nat ->
             nth i ds 0 = Z.shiftr (tape D (count D + i)) (shift T))
       /\ digits_ok (tbase T uint_w) ds
       /\ (r = -1 \/ r = 1 \/ r = 0)
       /\ forall f : Q,
            (lower (tbase T uint_w) ds < f)%Q ->
            (f < upper (tbase T uint_w) ds)%Q ->
            (r = -1 -> (f * inject_Z m < 1)%Q)
            /\ (r = 1 -> (2 < f * inject_Z m)%Q)
            /\ (r = 0 -> (1 <= f * inject_Z m)%Q /\ (f * inject_Z m <= 2)%Q).
Proof.
  intros Htape Hm _ E. unfold C in E.
  destruct (C_loop_sound fuel 1 2 D m r D' Htape Hm E)
    as (Et & ds & H1 & H2 & H3 & H4 & H5 & H6).
  split; [exact Et | ]. exists ds.
  repeat (split; [assumption | ]). exact H6.
Qed.
End AlgorithmC.

(** Base 2 and [m = 4]: the first digit, 1, shows [U > 2/4]. *)
Lemma algorithm_C_sound_witness :
  let D' := {| tape := tape Samples.tape_a; count := 1 |} in
  UnitNormalDist.C Samples.T2 64 10 Samples.tape_a 4 = Some (1, D')
  /\ exists ds,
       count D' = (count Samples.tape_a + List.length ds)%nat
       /\ forall f : Q,
            (URand.lower (UnitNormalDist.tbase Samples.T2 64) ds < f)%Q ->
            (f < URand.upper (UnitNormalDist.tbase Samples.T2 64) ds)%Q ->
            (2 < f * inject_Z 4)%Q.
Proof.
  intros D'.
  assert (E : UnitNormalDist.C Samples.T2 64 10 Samples.tape_a 4
              = Some (1, D')) by reflexivity.
  assert (Hwf : URand.traits_wf Samples.T2)
    by (apply rand_digit_traits_wf; [lia | reflexivity]).
  destruct (algorithm_C_sound Samples.T2 64 Hwf ltac:(lia) eq_refl 10
              Samples.tape_a 4 1 D' sample_tape_a_ok ltac:(lia)
              ltac:(vm_compute; discriminate) E)
    as (_ & ds & _ & Hc & _ & _ & _ & Hf).
  split; [exact E | ]. exists ds. split; [exact Hc | ].
  intros f F1 F2. exact (proj1 (proj2 (Hf f F1 F2)) eq_refl).
Defined.

(** ** unit_normal_dist: the sampler keeps its u-rands well formed *)

Section UnitNormalShape.
Import URand UnitNormalDist.
Variable T : digit_traits.
Variable uint_w : Z.
Hypothesis bm1_pos : 1 <= max_value T.

Lemma init_ok (x : u_rand) : u_rand_ok T (init x).
Proof.
  split; [now left | ]. split; [cbn; lia | constructor].
Qed.

Lemma less_than_ok (fuel : nat) (x t : u_rand) (D : digit_gen)
  (r : bool) (x' t' : u_rand) (D' : digit_gen) :
  u_rand_ok T x -> u_rand_ok T t -> tape_ok T D ->
  less_than fuel x t D = Some (r, x', t', D') ->
  u_rand_ok T x' /\ u_rand_ok T t' /\ tape_ok T D' /\ advances D D'.
Proof.
  intros Hx Ht Htape E.
  pose proof (less_than_frame fuel x t D r x' t' D' E) as (_ & _ & A).
  pose proof (tape_ok_advances T D D' Htape A) as Htape'.
  unfold less_than in E.
  destruct (negb (_s x =? _s t));
    [injection E as <- <- <- <-; auto | ].
  destruct (negb (_n x =? _n t));
    [injection E as <- <- <- <-; auto | ].
  apply (less_than_from_split T) in E; try assumption; try (cbn; lia);
    [ | reflexivity].
  destruct E as (Hx' & Ht' & _). auto.
Qed.

Lemma less_than_half_ok (fuel : nat) (x : u_rand) (D : digit_gen)
  (r : bool) (x' : u_rand) (D' : digit_gen) :
  u_rand_ok T x -> tape_ok T D ->
  less_than_half T fuel x D = Some (r, x', D') ->
  u_rand_ok T x' /\ tape_ok T D' /\ advances D D'.
Proof.
  intros Hx Htape E.
  pose proof (less_than_half_frame T fuel x D r x' D' E) as (_ & A).
  pose proof (tape_ok_advances T D D' Htape A) as Htape'.
  unfold less_than_half in E.
  destruct (_s x <? 0); [injection E as <- <- <-; auto | ].
  destruct (_n x >? 0); [injection E as <- <- <-; auto | ].
  apply (truncatep_tail T bm1_pos) in E; try assumption.
  destruct E as (Hx' & _). auto.
Qed.

Local Ltac state_ok :=
  split; [split; cbn [_y _z]; assumption | split; assumption].

Lemma H_loop_ok (fuel : nat) (y z : u_rand) (D : digit_gen)
  (r : bool) (tmp' : scratch) (D' : digit_gen) :
  u_rand_ok T y -> tape_ok T D ->
  H_loop fuel y z D = Some (r, tmp', D') ->
  scratch_ok T tmp' /\ tape_ok T D' /\ advances D D'.
Proof.
  revert y z D. induction fuel as [ | fuel IH]; intros y z D Hy Ht;
    [discriminate | ].
  cbn [H_loop].
  destruct (less_than (S fuel) (init z) y D)
    as [[[[r1 z1] y1] D1] | ] eqn:E1; [ | discriminate].
  apply less_than_ok in E1; [ | apply init_ok | assumption ..].
  destruct E1 as (Hz1 & Hy1 & Ht1 & A1).
  destruct (negb r1);
    [intros E; injection E as <- <- <-; state_ok | ].
  destruct (less_than (S fuel) (init y1) z1 D1)
    as [[[[r2 y2] z2] D2] | ] eqn:E2; [ | discriminate].
  apply less_than_ok in E2; [ | apply init_ok | assumption ..].
  destruct E2 as (Hy2 & Hz2 & Ht2 & A2).
  pose proof (advances_trans _ _ _ A1 A2) as A12.
  destruct (negb r2);
    [intros E; injection E as <- <- <-; state_ok | ].
  intros E. apply IH in E; try assumption.
  destruct E as (S3 & Ht3 & A3).
  split; [exact S3 | ]. split; [exact Ht3 | ].
  exact (advances_trans _ _ _ A12 A3).
Qed.

Lemma H_ok (fuel : nat) (tmp : scratch) (D : digit_gen) (r : bool)
  (tmp' : scratch) (D' : digit_gen) :
  scratch_ok T tmp -> tape_ok T D ->
  H T fuel tmp D = Some (r, tmp', D') ->
  scratch_ok T tmp' /\ tape_ok T D' /\ advances D D'.
Proof.
  intros [Hy Hz] Ht. unfold H.
  destruct (less_than_half T fuel (init (_y tmp)) D)
    as [[[r0 y1] D1] | ] eqn:E; [ | discriminate].
  apply less_than_half_ok in E; [ | apply init_ok | assumption].
  destruct E as (Hy1 & Ht1 & A1).
  destruct (negb r0);
    [intros E; injection E as <- <- <-; state_ok | ].
  intros E. apply H_loop_ok in E; try assumption.
  destruct E as (S3 & Ht3 & A3).
  split; [exact S3 | ]. split; [exact Ht3 | ].
  exact (advances_trans _ _ _ A1 A3).
Qed.

Lemma G_from_ok (fuel : nat) (n : Z) (tmp : scratch) (D : digit_gen)
  (k : Z) (tmp' : scratch) (D' : digit_gen) :
  scratch_ok T tmp -> tape_ok T D ->
  G_from T fuel n tmp D = Some (k, tmp', D') ->
  n <= k /\ scratch_ok T tmp' /\ tape_ok T D' /\ advances D D'.
Proof.
  revert n tmp D. induction fuel as [ | fuel IH]; intros n tmp D Hs Ht;
    [discriminate | ].
  cbn [G_from].
  destruct (H T (S fuel) tmp D) as [[[r tmp1] D1] | ] eqn:E;
    [ | discriminate].
  apply H_ok in E; try assumption. destruct E as (S1 & Ht1 & A1).
  destruct r.
  - intros E. apply IH in E; try assumption.
    destruct E as (Hk & S2 & Ht2 & A2).
    split; [lia | ]. split; [exact S2 | ]. split; [exact Ht2 | ].
    exact (advances_trans _ _ _ A1 A2).
  - intros E; injection E as <- <- <-.
    split; [lia | ]. split; [exact S1 | ]. split; assumption.
Qed.

Lemma P_ok (fuel : nat) (tmp : scratch) (D : digit_gen) (n : Z)
  (r : bool) (tmp' : scratch) (D' : digit_gen) :
  scratch_ok T tmp -> tape_ok T D ->
  P T fuel tmp D n = Some (r, tmp', D') ->
  scratch_ok T tmp' /\ tape_ok T D' /\ advances D D'.
Proof.
  revert n tmp D. induction fuel as [ | fuel IH]; intros n tmp D Hs Ht;
    [discriminate | ].
  cbn [P].
  destruct (n =? 0).
  { intros E; injection E as <- <- <-.
    split; [exact Hs | ]. split; [exact Ht | apply advances_refl]. }
  destruct (H T (S fuel) tmp D) as [[[r0 tmp1] D1] | ] eqn:E;
    [ | discriminate].
  apply H_ok in E; try assumption. destruct E as (S1 & Ht1 & A1).
  destruct r0.
  - intros E. apply IH in E; try assumption.
    destruct E as (S2 & Ht2 & A2).
    split; [exact S2 | ]. split; [exact Ht2 | ].
    exact (advances_trans _ _ _ A1 A2).
  - intros E; injection E as <- <- <-.
    split; [exact S1 | ]. split; assumption.
Qed.

Lemma C_loop_advances (fuel : nat) (n1 n2 : Z) (D : digit_gen) (m r : Z)
  (D' : digit_gen) :
  C_loop T uint_w fuel n1 n2 D m = Some (r, D') -> advances D D'.
Proof.
  revert n1 n2 D. induction fuel as [ | fuel IH]; intros n1 n2 D;
    [discriminate | ].
  cbn [C_loop]. unfold draw.
  set (D1 := {| tape := tape D; count := S (count D) |}).
  assert (A1 : advances D D1) by (split; cbn; [reflexivity | lia]).
  destruct (_ >=? m); [intros E; injection E as <- <-; exact A1 | ].
  destruct (_ <=? 0); [intros E; injection E as <- <-; exact A1 | ].
  destruct (_ && _); [intros E; injection E as <- <-; exact A1 | ].
  intros E. apply IH in E. exact (advances_trans _ _ _ A1 E).
Qed.

Lemma C_advances (fuel : nat) (D : digit_gen) (m r : Z) (D' : digit_gen) :
  tape_ok T D -> C T uint_w fuel D m = Some (r, D') ->
  tape_ok T D' /\ advances D D'.
Proof.
  intros Ht E. apply C_loop_advances in E.
  split; [exact (tape_ok_advances T D D' Ht E) | exact E].
Qed.

Lemma B_loop_ok (fuel : nat) (n : Z) (tmp : scratch) (x : u_rand)
  (D : digit_gen) (k : Z) (n' : Z) (tmp' : scratch) (x' : u_rand)
  (D' : digit_gen) :
  scratch_ok T tmp -> u_rand_ok T x -> tape_ok T D ->
  B_loop T uint_w fuel n tmp x D k = Some (n', tmp', x', D') ->
  scratch_ok T tmp' /\ u_rand_ok T x' /\ extends x x'
  /\ tape_ok T D' /\ advances D D'.
Proof.
  revert n tmp x D.
  induction fuel as [ | fuel IH]; intros n tmp x D [Hy Hz] Hx Ht;
    [discriminate | ].
  cbn [B_loop].
  (* the first use of Algorithm C *)
  destruct (if negb (k =? 0) then Some (0, D)
            else C T uint_w (S fuel) D (2 * k + 2))
    as [[f D1] | ] eqn:E1; [ | discriminate].
  assert (H1 : tape_ok T D1 /\ advances D D1).
  { destruct (negb (k =? 0)).
    - injection E1 as <- <-. split; [exact Ht | apply advances_refl].
    - apply C_advances in E1; assumption. }
  destruct H1 as [Ht1 A1]. clear E1.
  destruct (f <? 0).
  { intros E; injection E as <- <- <- <-.
    split; [split; assumption | ]. split; [exact Hx | ].
    split; [apply extends_refl | ]. split; assumption. }
  (* [_z.init().less_than(g, n ? _y : x)] *)
  match goal with
  | |- match ?c with _ => _ end = _ -> _ =>
      destruct c as [[[[[t z2] y2] x2] D2] | ] eqn:E2; [ | discriminate]
  end.
  assert (H2 : u_rand_ok T z2 /\ u_rand_ok T y2 /\ u_rand_ok T x2
               /\ extends x x2 /\ tape_ok T D2 /\ advances D1 D2).
  { destruct (negb (n =? 0)).
    - destruct (less_than (S fuel) (init (_z tmp)) (_y tmp) D1)
        as [[[[t0 z0] y0] D0] | ] eqn:E; [ | discriminate].
      injection E2 as <- <- <- <- <-.
      apply less_than_ok in E; [ | apply init_ok | assumption ..].
      destruct E as (Q1 & Q2 & Q3 & Q4).
      repeat (split; [assumption | ]).
      split; [apply extends_refl | ]. split; assumption.
    - destruct (less_than (S fuel) (init (_z tmp)) x D1)
        as [[[[t0 z0] x0] D0] | ] eqn:E; [ | discriminate].
      injection E2 as <- <- <- <- <-.
      pose proof (less_than_frame _ _ _ _ _ _ _ _ E) as (_ & Fx & _).
      apply less_than_ok in E; [ | apply init_ok | assumption ..].
      destruct E as (Q1 & Q2 & Q3 & Q4).
      repeat (split; [assumption | ]). assumption. }
  destruct H2 as (Hz2 & Hy2 & Hx2 & X2 & Ht2 & A2). clear E2.
  pose proof (advances_trans _ _ _ A1 A2) as A12.
  destruct (negb t).
  { intros E; injection E as <- <- <- <-.
    split; [split; assumption | ]. repeat (split; [assumption | ]).
    assumption. }
  (* the second use of Algorithm C *)
  destruct (if negb (k =? 0) then C T uint_w (S fuel) D2 (2 * k + 2)
            else Some (f, D2))
    as [[f' D3] | ] eqn:E3; [ | discriminate].
  assert (H3 : tape_ok T D3 /\ advances D2 D3).
  { destruct (negb (k =? 0)).
    - apply C_advances in E3; assumption.
    - injection E3 as <- <-. split; [exact Ht2 | apply advances_refl]. }
  destruct H3 as [Ht3 A3]. clear E3.
  pose proof (advances_trans _ _ _ A12 A3) as A13.
  destruct (f' <? 0).
  { intros E; injection E as <- <- <- <-.
    split; [split; assumption | ]. repeat (split; [assumption | ]).
    assumption. }
  (* [_y.init().less_than(g, x)] *)
  match goal with
  | |- match ?c with _ => _ end = _ -> _ =>
      destruct c as [[[[stop y4] x4] D4] | ] eqn:E4; [ | discriminate]
  end.
  assert (H4 : u_rand_ok T y4 /\ u_rand_ok T x4 /\ extends x2 x4
               /\ tape_ok T D4 /\ advances D3 D4).
  { destruct (f' =? 0).
    - destruct (less_than (S fuel) (init y2) x2 D3)
        as [[[[t0 y0] x0] D0] | ] eqn:E; [ | discriminate].
      injection E4 as <- <- <- <-.
      pose proof (less_than_frame _ _ _ _ _ _ _ _ E) as (_ & Fx & _).
      apply less_than_ok in E; [ | apply init_ok | assumption ..].
      destruct E as (Q1 & Q2 & Q3 & Q4).
      repeat (split; [assumption | ]). assumption.
    - injection E4 as <- <- <- <-.
      repeat (split; [assumption | ]).
      split; [apply extends_refl | ].
      split; [assumption | apply advances_refl]. }
  destruct H4 as (Hy4 & Hx4 & X4 & Ht4 & A4). clear E4.
  pose proof (advances_trans _ _ _ A13 A4) as A14.
  pose proof (extends_trans _ _ _ X2 X4) as X14.
  destruct stop.
  { intros E; injection E as <- <- <- <-.
    split; [split; assumption | ]. repeat (split; [assumption | ]).
    assumption. }
  unfold swap. intros E.
  apply IH in E; [ | split; assumption | assumption ..].
  destruct E as (S5 & Hx5 & X5 & Ht5 & A5).
  split; [exact S5 | ]. split; [exact Hx5 | ].
  split; [exact (extends_trans _ _ _ X14 X5) | ].
  split; [exact Ht5 | exact (advances_trans _ _ _ A14 A5)].
Qed.

Lemma B_ok (fuel : nat) (tmp : scratch) (x : u_rand) (D : digit_gen)
  (k : Z) (r : bool) (tmp' : scratch) (x' : u_rand) (D' : digit_gen) :
  scratch_ok T tmp -> u_rand_ok T x -> tape_ok T D ->
  B T uint_w fuel tmp x D k = Some (r, tmp', x', D') ->
  scratch_ok T tmp' /\ u_rand_ok T x' /\ extends x x'
  /\ tape_ok T D' /\ advances D D'.
Proof.
  intros Hs Hx Ht. unfold B.
  destruct (B_loop T uint_w fuel 0 tmp x D k)
    as [[[[n tmp1] x1] D1] | ] eqn:E; [ | discriminate].
  intros E'; injection E' as _ <- <- <-.
  exact (B_loop_ok _ _ _ _ _ _ _ _ _ _ Hs Hx Ht E).
Qed.

Lemma B_repeat_ok (fuel : nat) (j : Z) (tmp : scratch) (x : u_rand)
  (D : digit_gen) (k : Z) (j' : Z) (tmp' : scratch) (x' : u_rand)
  (D' : digit_gen) :
  scratch_ok T tmp -> u_rand_ok T x -> tape_ok T D ->
  B_repeat T uint_w fuel j tmp x D k = Some (j', tmp', x', D') ->
  scratch_ok T tmp' /\ u_rand_ok T x' /\ extends x x'
  /\ tape_ok T D' /\ advances D D'.
Proof.
  revert j tmp x D.
  induction fuel as [ | fuel IH]; intros j tmp x D Hs Hx Ht;
    [discriminate | ].
  cbn [B_repeat].
  destruct (j =? 0).
  { intros E; injection E as <- <- <- <-.
    split; [exact Hs | ]. split; [exact Hx | ].
    split; [apply extends_refl | ].
    split; [exact Ht | apply advances_refl]. }
  destruct (B T uint_w (S fuel) tmp x D k)
    as [[[[r tmp1] x1] D1] | ] eqn:E; [ | discriminate].
  apply B_ok in E; try assumption.
  destruct E as (S1 & Hx1 & X1 & Ht1 & A1).
  destruct r.
  - intros E. apply IH in E; try assumption.
    destruct E as (S2 & Hx2 & X2 & Ht2 & A2).
    split; [exact S2 | ]. split; [exact Hx2 | ].
    split; [exact (extends_trans _ _ _ X1 X2) | ].
    split; [exact Ht2 | exact (advances_trans _ _ _ A1 A2)].
  - intros E; injection E as <- <- <- <-.
    repeat (split; [assumption | ]). assumption.
Qed.

(** [generate] starts with [x.init()] on every path that reaches [x]. *)
Lemma generate_overwrites (fuel : nat) (tmp : scratch) (x x0 : u_rand)
  (D : digit_gen) :
  generate T uint_w fuel tmp x D = generate T uint_w fuel tmp x0 D.
Proof.
  revert tmp x x0 D.
  induction fuel as [ | fuel IH]; intros tmp x x0 D; [reflexivity | ].
  cbn [generate].
  destruct (G T (S fuel) tmp D) as [[[k tmp1] D1] | ]; [ | reflexivity].
  destruct (P T (S fuel) tmp1 D1 (k * (k - 1))) as [[[ok tmp2] D2] | ];
    [ | reflexivity].
  destruct (negb ok); [apply IH | ].
  change (init x) with (init x0). reflexivity.
Qed.

(** [less_than_half] on a fresh u-rand reads at least one digit. *)
Lemma less_than_half_init_draws (fuel : nat) (y : u_rand) (D : digit_gen)
  (r : bool) (y' : u_rand) (D' : digit_gen) :
  less_than_half T fuel (init y) D = Some (r, y', D') ->
  (count D < count D')%nat.
Proof.
  unfold less_than_half. cbn [init _s _n].
  change (1 <? 0) with false. change (0 >? 0) with false. cbv iota.
  destruct fuel as [ | fuel]; [discriminate | ].
  cbn [truncatep].
  destruct (digit_spec (init y) D 0) as [more Hd].
  destruct (digit (init y) D 0) as [[d x1] D1].
  destruct Hd as (_ & _ & _ & _ & Hl & _ & HD & _).
  cbn in Hl.
  assert (L1 : (count D < count D1)%nat) by (subst D1; cbn [count]; lia).
  destruct (d <=? _); [intros E; injection E as <- <- <-; exact L1 | ].
  destruct (d >? _); [intros E; injection E as <- <- <-; exact L1 | ].
  intros E. apply truncatep_frame in E. destruct E as (_ & _ & L2). lia.
Qed.

Lemma generate_ok (fuel : nat) (tmp : scratch) (x : u_rand)
  (D : digit_gen) (tmp' : scratch) (x' : u_rand) (D' : digit_gen) :
  scratch_ok T tmp -> tape_ok T D ->
  generate T uint_w fuel tmp x D = Some (tmp', x', D') ->
  scratch_ok T tmp' /\ u_rand_ok T x' /\ tape_ok T D' /\ advances D D'
  /\ (count D < count D')%nat.
Proof.
  revert tmp x D.
  induction fuel as [ | fuel IH]; intros tmp x D Hs Ht; [discriminate | ].
  cbn [generate].
  assert (Hrec : forall tmp0 x0 D0,
    scratch_ok T tmp0 -> tape_ok T D0 -> advances D D0 ->
    generate T uint_w fuel tmp0 x0 D0 = Some (tmp', x', D') ->
    scratch_ok T tmp' /\ u_rand_ok T x' /\ tape_ok T D' /\ advances D D'
    /\ (count D < count D')%nat).
  { intros tmp0 x0 D0 Hs0 Ht0 A0 E. apply IH in E; try assumption.
    destruct E as (R1 & R2 & R3 & R4 & R5).
    repeat (split; [assumption | ]).
    split; [exact (advances_trans _ _ _ A0 R4) | ].
    destruct A0 as [_ L]. lia. }
  unfold G.
  destruct (G_from T (S fuel) 0 tmp D) as [[[k tmp1] D1] | ] eqn:EG;
    [ | discriminate].
  apply G_from_ok in EG; try assumption.
  destruct EG as (Hk & S1 & Ht1 & A1).
  destruct (P T (S fuel) tmp1 D1 (k * (k - 1)))
    as [[[ok tmp2] D2] | ] eqn:EP; [ | discriminate].
  apply P_ok in EP; try assumption. destruct EP as (S2 & Ht2 & A2).
  pose proof (advances_trans _ _ _ A1 A2) as A12.
  destruct (negb ok); [apply Hrec; assumption | ].
  destruct (B_repeat T uint_w (S fuel) (k + 1) tmp2 (init x) D2 k)
    as [[[[j tmp4] x4] D4] | ] eqn:EB; [ | discriminate].
  apply B_repeat_ok in EB; [ | assumption | apply init_ok | assumption].
  destruct EB as (S4 & Hx4 & X4 & Ht4 & A4).
  pose proof (advances_trans _ _ _ A12 A4) as A14.
  destruct (negb (j <? 0)); [apply Hrec; assumption | ].
  destruct (less_than_half T (S fuel) (init (_y tmp4)) D4)
    as [[[r y6] D6] | ] eqn:EL; [ | discriminate].
  pose proof (less_than_half_init_draws _ _ _ _ _ _ EL) as L6.
  apply less_than_half_ok in EL; [ | apply init_ok | assumption].
  destruct EL as (Hy6 & Ht6 & A6).
  intros E; injection E as <- <- <-.
  split; [split; [exact Hy6 | apply S4] | ].
  split.
  { destruct Hx4 as (Hsg & _ & Hd).
    assert (Hn : 0 <= k mod 2 ^ 32 < 2 ^ 32)
      by (apply Z.mod_pos_bound; lia).
    destruct r; (split; [ | split; [exact Hn | exact Hd] ]);
      cbn [negate set_integer _s]; lia. }
  split; [exact Ht6 | ].
  split; [exact (advances_trans _ _ _ A14 A6) | ].
  destruct A14 as [_ L]. lia.
Qed.

(** X23. [generate(g, x)] of the unit normal sampler: whatever [x] held
    before plays no part; when it returns, [x] is a well-formed u-rand
    (sign +1 or -1, an integer part that fits [unsigned], every digit of
    the fraction a digit of the base), the two temporaries are well
    formed again, and the digit source has moved forward by at least one
    digit, its tape untouched. *)
Theorem unit_normal_generate_ok (fuel : nat) (tmp : scratch)
  (x : u_rand) (D : digit_gen) (tmp' : scratch) (x' : u_rand)
  (D' : digit_gen) :
  scratch_ok T tmp -> tape_ok T D ->
  generate T uint_w fuel tmp x D = Some (tmp', x', D') ->
  scratch_ok T tmp' /\ u_rand_ok T x' /\ tape_ok T D' /\ advances D D'
  /\ (count D < count D')%nat
  /\ forall x0, generate T uint_w fuel tmp x0 D = Some (tmp', x', D').
Proof.
  intros Hs Ht E.
  destruct (generate_ok fuel tmp x D tmp' x' D' Hs Ht E)
    as (R1 & R2 & R3 & R4 & R5).
  repeat (split; [assumption | ]).
  intros x0. rewrite (generate_overwrites fuel tmp x0 x D). exact E.
Qed.
End UnitNormalShape.

(** Base 2 on the tape 1, 1, 0, 0, 1, 0, 1, 1, 0, 1, 0, 0, ...: the
    sampler reads 22 digits and returns -(2 + 0.1...). *)
Lemma unit_normal_generate_ok_witness :
  let tmp := {| UnitNormalDist._y := URand.construct;
                UnitNormalDist._z := URand.construct |} in
  let x' := {| URand._s := -1; URand._n := 2; URand._d := [1] |} in
  exists tmp' D',
    UnitNormalDist.generate Samples.T2 64 20 tmp URand.construct
      Samples.tape_a = Some (tmp', x', D')
    /\ UnitNormalDist.scratch_ok Samples.T2 tmp'
    /\ URand.u_rand_ok Samples.T2 x'
    /\ (count Samples.tape_a < count D')%nat.
Proof.
  intros tmp x'.
  destruct (UnitNormalDist.generate Samples.T2 64 20 tmp URand.construct
              Samples.tape_a)
    as [[[tmp' x1] D'] | ] eqn:E; [ | vm_compute in E; discriminate E].
  assert (Ex : x1 = x').
  { vm_compute in E. injection E as _ Ex _. symmetry. exact Ex. }
  subst x1. exists tmp', D'. split; [reflexivity | ].
  destruct (unit_normal_generate_ok Samples.T2 64 sample_T2_max 20 tmp
              URand.construct Samples.tape_a tmp' x' D'
              (conj sample_construct_ok sample_construct_ok)
              sample_tape_a_ok E)
    as (R1 & R2 & _ & _ & R5 & _).
  split; [exact R1 | ]. split; [exact R2 | exact R5].
Defined.

(** ** u_rand: printing in rounded fixed point format *)

Section PrintFixed.
Import URand URandPrint.
Variable T : digit_traits.
Variable uint_w : Z.
Hypothesis bm1_pos : 1 <= max_value T.
Hypothesis bm1_uint : max_value T < 2 ^ uint_w.

(** The digits [pre] followed by a fraction [t]: the value of [pre], plus
    [t] units of its last place. *)
Lemma wrap_affine (b : Z) (pre : list Z) (t : Q) :
  2 <= b ->
  (wrap b pre t
   == lower b pre + t * / inject_Z (b ^ Z.of_nat (List.length pre)))%Q.
Proof.
  intros Hb.
  assert (HB : (0 < inject_Z b)%Q) by (apply b_pos_Q; lia).
  induction pre as [ | d pre IH].
  - cbn. field.
  - cbn [wrap fold_right lower List.length].
    change (fold_right (fun d0 acc => ((inject_Z d0 + acc) / inject_Z b)%Q)
              t pre) with (wrap b pre t).
    rewrite IH, Nat2Z.inj_succ, Z.pow_succ_r by lia.
    rewrite inject_Z_mult.
    assert (HP : (0 < inject_Z (b ^ Z.of_nat (List.length pre)))%Q).
    { change 0%Q with (inject_Z 0). rewrite <- Zlt_Qlt.
      apply Z.pow_pos_nonneg; lia. }
    field. split; lra.
Qed.

Lemma set_nth_length (k : nat) (v : Z) (ds : list Z) :
  List.length (set_nth k v ds) = List.length ds.
Proof.
  revert k. induction ds as [ | d ds IH]; intros [ | k]; cbn;
    try reflexivity. now rewrite IH.
Qed.

Lemma set_nth_app (k : nat) (v : Z) (ds rest : list Z) :
  (k < List.length ds)%nat ->
  set_nth k v (ds ++ rest) = set_nth k v ds ++ rest.
Proof.
  revert k. induction ds as [ | d ds IH]; intros k Hk; cbn in Hk; [lia | ].
  destruct k as [ | k]; cbn; [reflexivity | ].
  rewrite IH by lia. reflexivity.
Qed.

Lemma set_nth_last (v d : Z) (ds : list Z) :
  set_nth (List.length ds) v (ds ++ [d]) = ds ++ [v].
Proof.
  induction ds as [ | e ds IH]; cbn; [reflexivity | now rewrite IH].
Qed.

(** The loop leaves the digits from position [k] on alone. *)
Lemma round_up_app (k : nat) (ds rest : list Z) :
  (k <= List.length ds)%nat ->
  round_up T uint_w k (ds ++ rest)
  = (fst (round_up T uint_w k ds) ++ rest, snd (round_up T uint_w k ds)).
Proof.
  revert ds. induction k as [ | k IH]; intros ds Hk; [reflexivity | ].
  cbn [round_up].
  rewrite app_nth1 by lia. rewrite !set_nth_app by lia.
  destruct (nth k ds 0 <? bm1 T); [reflexivity | ].
  apply IH. rewrite set_nth_length. lia.
Qed.

Lemma round_up_snoc (ds : list Z) (d : Z) :
  round_up T uint_w (S (List.length ds)) (ds ++ [d])
  = if d <? bm1 T then (ds ++ [(d + 1) mod 2 ^ uint_w], false)
    else (fst (round_up T uint_w (List.length ds) ds) ++ [0],
          snd (round_up T uint_w (List.length ds) ds)).
Proof.
  cbn [round_up]. rewrite nth_middle, !set_nth_last.
  destruct (d <? bm1 T); [reflexivity | ].
  apply round_up_app. lia.
Qed.

(** Rounding up adds one unit of the last place, the carry out of the
    fraction included. *)
Lemma round_up_value (ds : list Z) :
  digits_ok (effective_base T) ds ->
  let r := round_up T uint_w (List.length ds) ds in
  digits_ok (effective_base T) (fst r)
  /\ List.length (fst r) = List.length ds
  /\ (inject_Z (if snd r then 1 else 0) + lower (effective_base T) (fst r)
      == lower (effective_base T) ds
         + / inject_Z (effective_base T ^ Z.of_nat (List.length ds)))%Q.
Proof.
  assert (HB : 2 <= effective_base T) by (unfold effective_base; lia).
  assert (HBq : (0 < inject_Z (effective_base T))%Q)
    by (apply b_pos_Q; lia).
  induction ds as [ | d ds IH] using rev_ind; intros Hok; cbv zeta.
  - cbn. split; [constructor | ]. split; [reflexivity | ]. field.
  - apply Forall_app in Hok. destruct Hok as [Hds Hd].
    inversion Hd as [ | ? ? Hd0 _]; subst.
    specialize (IH Hds). cbv zeta in IH. destruct IH as (I1 & I2 & I3).
    rewrite length_app. cbn [List.length].
    replace (List.length ds + 1)%nat with (S (List.length ds)) by lia.
    rewrite round_up_snoc.
    assert (HP : (0 < inject_Z (effective_base T
                                ^ Z.of_nat (List.length ds)))%Q).
    { change 0%Q with (inject_Z 0). rewrite <- Zlt_Qlt.
      apply Z.pow_pos_nonneg; lia. }
    rewrite Nat2Z.inj_succ, Z.pow_succ_r by lia.
    rewrite inject_Z_mult.
    rewrite (lower_app _ ds [d]).
    rewrite (wrap_affine _ ds _ HB).
    unfold bm1. destruct (Z.ltb_spec d (max_value T)) as [L | L];
      cbn [fst snd].
    + rewrite Z.mod_small by lia.
      split.
      { apply Forall_app. split; [exact Hds | ].
        constructor; [unfold effective_base; lia | constructor]. }
      split; [rewrite !length_app; cbn; lia | ].
      rewrite (lower_app _ ds [d + 1]).
      rewrite (wrap_affine _ ds _ HB).
      cbn [lower]. rewrite inject_Z_plus.
      change (inject_Z 0) with 0%Q. change (inject_Z 1) with 1%Q.
      field. split; lra.
    + assert (Ed : d = effective_base T - 1)
        by (unfold effective_base in *; lia).
      destruct (round_up T uint_w (List.length ds) ds) as [r0 c0].
      cbn [fst snd] in *.
      split.
      { apply Forall_app. split; [exact I1 | ].
        constructor; [lia | constructor]. }
      split; [rewrite !length_app; cbn; lia | ].
      rewrite (lower_app _ r0 [0]).
      rewrite (wrap_affine _ r0 _ HB).
      cbn [lower]. rewrite I2.
      assert (Eq : (inject_Z d == inject_Z (effective_base T) - 1)%Q).
      { rewrite Ed. unfold Z.sub. rewrite inject_Z_plus. reflexivity. }
      rewrite Eq.
      change (inject_Z 0) with 0%Q.
      set (c := inject_Z (if c0 then 1 else 0)) in *.
      set (lr := lower (effective_base T) r0) in *.
      set (l0 := lower (effective_base T) ds) in *.
      set (P := inject_Z (effective_base T ^ Z.of_nat (List.length ds)))
        in *.
      set (Bq := inject_Z (effective_base T)) in *.
      assert (E2 : ((0 + 0) / Bq * / P == 0)%Q) by (field; split; lra).
      assert (E3 : (((Bq - 1 + 0) / Bq) * / P + / (Bq * P) == / P)%Q)
        by (field; split; lra).
      rewrite E2. lra.
Qed.

(** X24. [print_fixed(g, k)] prints the u-rand rounded to [k] digits of
    the fraction: the number printed has the sign of the u-rand and
    exactly [k] digits, all of the base, and every real the u-rand then
    denotes lies, in absolute value, within half a unit of the last
    printed place of it: above it when the marker is [(+)], below it when
    the marker is [(-)]. The carry of rounding up runs through the
    fraction into the integer part, which is taken below [2^32 - 1]. *)
Theorem print_fixed_rounds (fuel : nat) (x : u_rand) (D : digit_gen)
  (k : nat) (s : string) (x1 : u_rand) (D1 : digit_gen) :
  u_rand_ok T x -> tape_ok T D -> _n x < 2 ^ 32 - 1 ->
  print_fixed T uint_w fuel x D k = Some (s, x1, D1) ->
  extends x x1 /\ advances D D1
  /\ exists trunc : bool,
       let xr := rounded T uint_w x1 k trunc in
       (exists s0, bareprint T uint_w fuel xr = Some s0
                   /\ s = (s0 ++ (if trunc then "(+)" else "(-)"))%string)
       /\ u_rand_ok T xr /\ _s xr = _s x
       /\ List.length (_d xr) = k
       /\ forall q : Q,
            inside (effective_base T) x1 q ->
            let V := (inject_Z (_n xr)
                      + lower (effective_base T) (_d xr))%Q in
            let h := ((1 # 2)
                      * / inject_Z (effective_base T ^ Z.of_nat k))%Q in
            if trunc
            then (V < inject_Z (_s x) * q)%Q
                 /\ (inject_Z (_s x) * q < V + h)%Q
            else (V - h < inject_Z (_s x) * q)%Q
                 /\ (inject_Z (_s x) * q < V)%Q.
Proof.
  intros Hx Ht Hn E. unfold print_fixed in E.
  destruct (truncatep T fuel x D k) as [[[trunc x1'] D1'] | ] eqn:Et;
    [ | discriminate].
  destruct (bareprint T uint_w fuel (rounded T uint_w x1' k trunc))
    as [s0 | ] eqn:Eb; [ | discriminate].
  injection E as <- <- <-.
  pose proof (truncatep_frame T fuel x D k trunc x1' D1' Et) as (X1 & A1).
  pose proof (truncatep_tail T bm1_pos fuel x D k trunc x1' D1' Hx Ht Et)
    as (Hx1 & Hk & Htrue & Hfalse).
  split; [exact X1 | ]. split; [exact A1 | ].
  exists trunc. cbv zeta.
  split; [exists s0; split; [exact Eb | reflexivity] | ].
  clear Eb Et.
  assert (HB : 2 <= effective_base T) by (unfold effective_base; lia).
  destruct X1 as (Es & En & _).
  destruct Hx1 as (Hs1 & Hn1 & Hd1).
  set (pre := firstn k (_d x1')).
  set (tail := skipn k (_d x1')) in *.
  assert (Ed : _d x1' = pre ++ tail)
    by (symmetry; apply firstn_skipn).
  assert (Er : resize k (_d x1') = pre).
  { unfold resize. replace (k - List.length (_d x1'))%nat with O by lia.
    cbn [repeat]. apply app_nil_r. }
  assert (Hlen : List.length pre = k)
    by (unfold pre; rewrite length_firstn; lia).
  rewrite Ed in Hd1. apply Forall_app in Hd1. destruct Hd1 as [Hpre Htail].
  destruct (lower_upper_bounds _ HB tail Htail) as (T0 & T1 & T2).
  assert (HP : (0 < / inject_Z (effective_base T ^ Z.of_nat k))%Q).
  { apply Qinv_lt_0_compat. change 0%Q with (inject_Z 0).
    rewrite <- Zlt_Qlt. apply Z.pow_pos_nonneg; lia. }
  assert (Hin : forall q, inside (effective_base T) x1' q ->
    (inject_Z (_n x) + lower (effective_base T) pre
     + lower (effective_base T) tail
       * / inject_Z (effective_base T ^ Z.of_nat k)
     < inject_Z (_s x) * q)%Q
    /\ (inject_Z (_s x) * q
        < inject_Z (_n x) + lower (effective_base T) pre
          + upper (effective_base T) tail
            * / inject_Z (effective_base T ^ Z.of_nat k))%Q).
  { intros q [I1 I2]. rewrite Es, En, Ed in I1, I2.
    rewrite lower_app in I1. rewrite upper_app in I2.
    rewrite (wrap_affine _ pre _ HB), Hlen in I1.
    rewrite (wrap_affine _ pre _ HB), Hlen in I2.
    split; lra. }
  unfold rounded. rewrite Er.
  destruct trunc.
  - cbn [_s _n _d].
    split; [split; [exact Hs1 | split; [exact Hn1 | exact Hpre] ] | ].
    split; [exact Es | ]. split; [exact Hlen | ].
    intros q Hq. destruct (Hin q Hq) as [I1 I2]. rewrite En.
    specialize (Htrue eq_refl).
    set (u := (/ inject_Z (effective_base T ^ Z.of_nat k))%Q) in *.
    assert (0 <= lower (effective_base T) tail * u)%Q
      by (apply Qmult_le_0_compat; lra).
    assert (upper (effective_base T) tail * u <= (1 # 2) * u)%Q
      by (apply Qmult_le_compat_r; lra).
    split; lra.
  - pose proof (round_up_value pre Hpre) as R. cbv zeta in R.
    rewrite Hlen in R.
    destruct (round_up T uint_w k pre) as [r c]. cbn [fst snd] in R.
    destruct R as (R1 & R2 & R3). cbn [_s _n _d].
    assert (En' : (if c then (_n x1' + 1) mod 2 ^ 32 else _n x1')
                  = _n x + (if c then 1 else 0)).
    { rewrite En. destruct c; [apply Z.mod_small | ]; lia. }
    rewrite En'.
    split.
    { split; [exact Hs1 | ].
      split; [cbn [_n]; destruct c; lia | exact R1]. }
    split; [exact Es | ]. split; [lia | ].
    intros q Hq. destruct (Hin q Hq) as [I1 I2].
    specialize (Hfalse eq_refl).
    rewrite inject_Z_plus.
    set (u := (/ inject_Z (effective_base T ^ Z.of_nat k))%Q) in *.
    assert ((1 # 2) * u <= lower (effective_base T) tail * u)%Q
      by (apply Qmult_le_compat_r; lra).
    assert (upper (effective_base T) tail * u <= 1 * u)%Q
      by (apply Qmult_le_compat_r; lra).
    split; lra.
Qed.
End PrintFixed.

(** Base 10 on the tape 9, 9, 9, 7, 3, 0, ...: 0.9997... is printed to
    three digits as +1.000(-). *)
Lemma print_fixed_rounds_witness :
  let D := tape_of [9; 9; 9; 7; 3] 0 in
  exists x1 D1,
    URandPrint.print_fixed Samples.T10 64 20 URand.construct D 3
    = Some ("+1.000(-)"%string, x1, D1)
    /\ forall q : Q,
         URand.inside (URand.effective_base Samples.T10) x1 q ->
         (1 - (1 # 2) * / inject_Z (10 ^ 3) < q)%Q /\ (q < 1)%Q.
Proof.
  intros D.
  assert (Hx : URand.u_rand_ok Samples.T10 URand.construct).
  { split; [left; reflexivity | ]. split; [cbn; lia | constructor]. }
  assert (Ht : tape_ok Samples.T10 D).
  { apply tape_of_ok; [ | vm_compute; split; discriminate].
    repeat constructor; vm_compute; discriminate. }
  destruct (URandPrint.print_fixed Samples.T10 64 20 URand.construct D 3)
    as [[[s x1] D1] | ] eqn:E; [ | vm_compute in E; discriminate E].
  assert (Es : s = "+1.000(-)"%string
               /\ x1 = {| URand._s := 1; URand._n := 0;
                          URand._d := [9; 9; 9; 7] |}).
  { vm_compute in E. injection E as E1 E2 _. split; congruence. }
  destruct Es as [Es Ex]. subst s. exists x1, D1. split; [reflexivity | ].
  destruct (print_fixed_rounds Samples.T10 64
              ltac:(vm_compute; discriminate) ltac:(reflexivity)
              20 URand.construct D 3 _ x1 D1 Hx Ht ltac:(cbn; lia) E)
    as (_ & _ & trunc & (s0 & Eb & Es) & _ & _ & _ & Hq).
  subst x1.
  destruct trunc.
  - vm_compute in Eb. injection Eb as <-. vm_compute in Es.
    discriminate Es.
  - intros q Iq. specialize (Hq q Iq). cbv zeta in Hq.
    change (inject_Z (URand._s URand.construct)) with 1%Q in Hq.
    set (V := (inject_Z _ + URand.lower _ _)%Q) in Hq.
    assert (EV : (V == 1)%Q) by (vm_compute; reflexivity).
    clearbody V.
    change (URand.effective_base Samples.T10 ^ Z.of_nat 3) with (10 ^ 3)
      in Hq.
    destruct Hq as [Q1 Q2]. split; lra.
Defined.

(** ** i_rand: the states reachable without overflow *)

Section IRandReach.
Import IRand.
Variable T : digit_traits.
Hypothesis b_ge_2 : 2 <= b T.
(** The digits are those of base [b]. *)
Hypothesis bm1_b : max_value T = b T - 1.







(** C10, as the code has it. On an i-rand whose fields and [_a + _d] are
    values of [int]: if [-max] and [1 - min] are values of [int],
    [negate()] maps the range [[min, max]] to [[-max, -min]]; if [c],
    [min + c] and [min + c + _d] are values of [int], [add(c)] maps it to
    [[min + c, max + c]]. Neither involves the digit generator, both
    leave [_d] and [_l] as they are, and so both keep [_d = b^_l]; the
    fields and [_a + _d] remain values of [int]. *)
Theorem i_rand_negate_add (h : i_rand) (c : Z) :
  int_state h ->
  (int_ok (- max h) -> int_ok (1 - _a h) ->
   min (negate h) = - max h
   /\ max (negate h) = - min h
   /\ _d (negate h) = _d h
   /\ _l (negate h) = _l h
   /\ int_state (negate h)
   /\ forall D, op_step T (h, D) (negate h, D))
  /\ (int_ok c -> int_ok (_a h + c) -> int_ok (_a h + c + _d h) ->
      min (add h c) = min h + c
      /\ max (add h c) = max h + c
      /\ _d (add h c) = _d h
      /\ _l (add h c) = _l h
      /\ int_state (add h c)
      /\ forall D, op_step T (h, D) (add h c, D))
  /\ (Inv T h -> Inv T (negate h) /\ Inv T (add h c)).
Proof.
  intros (S1 & S2 & S3 & S4). split; [ | split].
  - intros N1 N2. unfold negate, min, max in *. cbn [_a _d _l].
    split; [reflexivity | ]. split; [lia | ].
    split; [reflexivity | ]. split; [reflexivity | ].
    split; [ | intros D; now constructor].
    unfold int_state. cbn [_a _d _l].
    split; [exact N1 | ]. split; [exact S2 | ]. split; [exact S3 | ].
    unfold int_ok in *. lia.
  - intros C0 C1 C2. unfold add, min, max in *. cbn [_a _d _l].
    split; [reflexivity | ]. split; [lia | ].
    split; [reflexivity | ]. split; [reflexivity | ].
    split; [ | intros D; now constructor].
    unfold int_state. cbn [_a _d _l].
    split; [exact C1 | ]. split; [exact S2 | ]. split; [exact S3 | ].
    exact C2.
  - intros HI. split; [now apply negate_inv | now apply add_inv].
Qed.
End IRandReach.



(** The range [[2, 5]], negated and shifted by 7. *)
Lemma i_rand_negate_add_witness :
  let h := {| IRand._a := 2; IRand._d := 4; IRand._l := 2 |} in
  IRand.int_state h
  /\ IRand.min (IRand.negate h) = - IRand.max h
  /\ IRand.max (IRand.add h 7) = IRand.max h + 7
  /\ IRand.int_state (IRand.negate h)
  /\ IRand.Inv Samples.T2 (IRand.add h 7).
Proof.
  intros h.
  assert (HS : IRand.int_state h)
    by (unfold IRand.int_state, int_ok; cbn; lia).
  assert (HI : IRand.Inv Samples.T2 h) by (split; [cbn; lia | reflexivity]).
  destruct (i_rand_negate_add Samples.T2 h 7 HS) as (N & A & I).
  destruct (N ltac:(unfold int_ok; cbn; lia) ltac:(unfold int_ok; cbn; lia))
    as (N1 & _ & _ & _ & N5 & _).
  destruct (A ltac:(unfold int_ok; lia) ltac:(unfold int_ok; cbn; lia)
              ltac:(unfold int_ok; cbn; lia))
    as (_ & A2 & _).
  split; [exact HS | ]. split; [exact N1 | ]. split; [exact A2 | ].
  split; [exact N5 | exact (proj2 (I HI))].
Defined.

(** C10, as stated, fails: the i-rand fixed at [INT_MIN] is reached
    without overflow by [add(INT_MIN)] on a constructed i-rand, its fields
    are values of [int], and [-max()] is [2^31]: [_a = -max()] overflows,
    and no i-rand has the range [[-max, -min]]. *)
Lemma i_rand_negate_counterexample :
  let h := {| IRand._a := - 2 ^ 31; IRand._d := 1; IRand._l := 0 |} in
  IRand.reachable Samples.T2 (h, Samples.zeros)
  /\ IRand.int_state h
  /\ ~ int_ok (IRand.min (IRand.negate h))
  /\ ~ (exists h' : IRand.i_rand,
          IRand.int_state h'
          /\ IRand.min h' = - IRand.max h
          /\ IRand.max h' = - IRand.min h).
Proof.
  intros h.
  assert (Ht : tape_ok Samples.T2 Samples.zeros).
  { apply tape_of_ok; [constructor | vm_compute; split; discriminate]. }
  split; [ | split; [ | split] ].
  - eapply IRand.reach_step.
    + apply (IRand.reach_construct Samples.T2 Samples.zeros Ht).
    + apply (IRand.step_add Samples.T2 IRand.construct Samples.zeros
               (- 2 ^ 31)); unfold int_ok; cbn; lia.
  - unfold IRand.int_state, int_ok. cbn. lia.
  - unfold int_ok, IRand.min, IRand.negate, IRand.max. cbn. lia.
  - intros (h' & (S1 & _) & E1 & _).
    unfold int_ok, IRand.min, IRand.max in *. cbn in E1. lia.
Qed.

(** ** Exceptions of the digit generator during sampling *)

Section FallibleFacts.
Import DiscreteNormalDist Fallible.
Variable St : Type.
Variable next : St -> result Z * St.
Variable T : digit_traits.

Lemma raises_only_bind {A B : Type} (P : string -> Prop)
  (c : outcome A) (f : A -> outcome B) :
  raises_only P c -> (forall a, raises_only P (f a)) ->
  raises_only P (bind c f).
Proof. destruct c as [a | msg | ]; cbn; auto. Qed.

(** The only exceptions of [_D(g)] are those of the digit generator. *)
Lemma draw_raises (s : St) :
  raises_only (source_raises St next) (draw St next s).
Proof.
  unfold draw. destruct (next s) as [[d | msg] s'] eqn:E; cbn;
    [exact I | ].
  exists s. rewrite E. reflexivity.
Qed.

Local Ltac raises_step :=
  match goal with
  | |- raises_only _ (Done _) => exact I
  | |- raises_only _ NoFuel => exact I
  | |- raises_only _ (bind _ _) =>
      apply raises_only_bind; [ | intros; cbv beta ]
  | |- raises_only _ (if ?b then _ else _) => destruct b
  | |- raises_only _ (match ?p with (_, _) => _ end) => destruct p
  | |- raises_only _ (let _ := _ in _) => cbv zeta
  end.

Local Ltac raises := repeat first [raises_step | solve [auto]].

Lemma push_digits_raises (cnt : nat) (ds : list Z) (s : St) :
  raises_only (source_raises St next) (push_digits St next cnt ds s).
Proof.
  revert ds s. induction cnt as [ | cnt IH]; intros ds s;
    cbn [push_digits]; [exact I | ].
  pose proof draw_raises. raises.
Qed.

Lemma digit_raises (x : URand.u_rand) (s : St) (k : nat) :
  raises_only (source_raises St next) (digit St next x s k).
Proof. unfold digit. pose proof push_digits_raises. raises. Qed.

Lemma less_than_from_raises (fuel k : nat) (x t : URand.u_rand) (s : St) :
  raises_only (source_raises St next) (less_than_from St next fuel k x t s).
Proof.
  revert k x t s. induction fuel as [ | fuel IH]; intros k x t s;
    cbn [less_than_from]; [exact I | ].
  pose proof digit_raises. raises.
Qed.

Lemma less_than_raises (fuel : nat) (x t : URand.u_rand) (s : St) :
  raises_only (source_raises St next) (less_than St next fuel x t s).
Proof. unfold less_than. pose proof less_than_from_raises. raises. Qed.

Lemma truncatep_raises (fuel : nat) (x : URand.u_rand) (s : St) (k : nat) :
  raises_only (source_raises St next) (truncatep St next T fuel x s k).
Proof.
  revert k x s. induction fuel as [ | fuel IH]; intros k x s;
    cbn [truncatep]; [exact I | ].
  pose proof digit_raises. raises.
Qed.

Lemma less_than_half_raises (fuel : nat) (x : URand.u_rand) (s : St) :
  raises_only (source_raises St next) (less_than_half St next T fuel x s).
Proof. unfold less_than_half. pose proof truncatep_raises. raises. Qed.

Lemma compare_from_raises (fuel k : nat) (x : URand.u_rand) (s : St)
  (u1 u2 v : Z) :
  raises_only (source_raises St next)
    (compare_from St next T fuel k x s u1 u2 v).
Proof.
  revert k x s u1 u2. induction fuel as [ | fuel IH]; intros k x s u1 u2;
    cbn [compare_from]; [exact I | ].
  pose proof digit_raises. raises.
Qed.

Lemma compare_raises (fuel : nat) (x : URand.u_rand) (s : St)
  (u1 u2 v : Z) :
  raises_only (source_raises St next) (compare St next T fuel x s u1 u2 v).
Proof. unfold compare. apply compare_from_raises. Qed.

Lemma i_refine_raises (h : IRand.i_rand) (s : St) :
  raises_only (source_raises St next) (i_refine St next T h s).
Proof. unfold i_refine. pose proof draw_raises. raises. Qed.

Lemma i_init_loop_raises (fuel : nat) (m v c : Z) (s : St) :
  raises_only (source_raises St next) (i_init_loop St next T fuel m v c s).
Proof.
  revert v c s. induction fuel as [ | fuel IH]; intros v c s;
    cbn [i_init_loop]; [exact I | ].
  pose proof draw_raises.
  destruct (IRand.init_scan T (S fuel) m v c 1 0); raises.
Qed.

Lemma i_init_raises (fuel : nat) (s : St) (m : Z) :
  raises_only (source_raises St next) (i_init St next T fuel s m).
Proof. unfold i_init. apply i_init_loop_raises. Qed.

Lemma i_call_raises (fuel : nat) (h : IRand.i_rand) (s : St) :
  raises_only (source_raises St next) (i_call St next T fuel h s).
Proof.
  revert h s. induction fuel as [ | fuel IH]; intros h s;
    cbn [i_call]; [exact I | ].
  pose proof i_refine_raises. raises.
Qed.

Lemma i_less_than_raises (fuel : nat) (h : IRand.i_rand) (s : St)
  (m n : Z) :
  raises_only (source_raises St next) (i_less_than St next T fuel h s m n).
Proof.
  revert h s. induction fuel as [ | fuel IH]; intros h s;
    cbn [i_less_than]; [exact I | ].
  pose proof i_refine_raises. raises.
Qed.

Lemma i_greater_than_raises (fuel : nat) (h : IRand.i_rand) (s : St)
  (m n : Z) :
  raises_only (source_raises St next)
    (i_greater_than St next T fuel h s m n).
Proof. unfold i_greater_than. pose proof i_less_than_raises. raises. Qed.

Lemma less_than_i_raises (fuel : nat) (x : URand.u_rand) (s : St)
  (u0 c v : Z) (h : IRand.i_rand) :
  raises_only (source_raises St next)
    (less_than_i St next T fuel x s u0 c v h).
Proof.
  revert x s h. induction fuel as [ | fuel IH]; intros x s h;
    cbn [less_than_i]; [exact I | ].
  pose proof compare_raises. pose proof i_refine_raises. raises.
Qed.

Lemma H_loop_raises (fuel : nat) (y z : URand.u_rand) (s : St) :
  raises_only (source_raises St next) (H_loop St next fuel y z s).
Proof.
  revert y z s. induction fuel as [ | fuel IH]; intros y z s;
    cbn [H_loop]; [exact I | ].
  pose proof less_than_raises. raises.
Qed.

Lemma H_raises (fuel : nat) (tmp : scratch) (s : St) :
  raises_only (source_raises St next) (H St next T fuel tmp s).
Proof.
  unfold H. pose proof less_than_half_raises. pose proof H_loop_raises.
  raises.
Qed.

Lemma G_from_raises (fuel : nat) (n : Z) (tmp : scratch) (s : St) :
  raises_only (source_raises St next) (G_from St next T fuel n tmp s).
Proof.
  revert n tmp s. induction fuel as [ | fuel IH]; intros n tmp s;
    cbn [G_from]; [exact I | ].
  pose proof H_raises. raises.
Qed.

Lemma P_raises (fuel : nat) (tmp : scratch) (s : St) (n : Z) :
  raises_only (source_raises St next) (P St next T fuel tmp s n).
Proof.
  revert n tmp s. induction fuel as [ | fuel IH]; intros n tmp s;
    cbn [P]; [exact I | ].
  pose proof H_raises. raises.
Qed.

Variable c : derived.

Lemma B_loop_raises (fuel : nat) (n : Z) (tmp : scratch) (s : St)
  (k xn0 : Z) (j : IRand.i_rand) :
  raises_only (source_raises St next)
    (B_loop St next T c fuel n tmp s k xn0 j).
Proof.
  revert n tmp s j. induction fuel as [ | fuel IH]; intros n tmp s j;
    cbn [B_loop]; [exact I | ].
  pose proof compare_raises. pose proof less_than_raises.
  pose proof less_than_i_raises. unfold URand.swap. raises.
Qed.

Lemma B_raises (fuel : nat) (tmp : scratch) (s : St) (k xn0 : Z)
  (j : IRand.i_rand) :
  raises_only (source_raises St next) (B St next T c fuel tmp s k xn0 j).
Proof. unfold B. pose proof B_loop_raises. raises. Qed.

Lemma B_repeat_raises (fuel : nat) (h : Z) (tmp : scratch) (s : St)
  (k xn0 : Z) (j : IRand.i_rand) :
  raises_only (source_raises St next)
    (B_repeat St next T c fuel h tmp s k xn0 j).
Proof.
  revert h tmp s j. induction fuel as [ | fuel IH]; intros h tmp s j;
    cbn [B_repeat]; [exact I | ].
  pose proof B_raises. raises.
Qed.

Lemma candidate_rejected_raises (fuel : nat) (j : IRand.i_rand) (s : St)
  (k sg xn0 : Z) :
  raises_only (source_raises St next)
    (candidate_rejected St next T c fuel j s k sg xn0).
Proof.
  unfold candidate_rejected.
  pose proof i_less_than_raises. pose proof i_greater_than_raises. raises.
Qed.

Lemma generate_raises (fuel : nat) (tmp : scratch) (j : IRand.i_rand)
  (s : St) :
  raises_only (source_raises St next) (generate St next T c fuel tmp j s).
Proof.
  revert tmp j s. induction fuel as [ | fuel IH]; intros tmp j s;
    cbn [generate]; [exact I | ].
  pose proof G_from_raises. pose proof P_raises. pose proof i_init_raises.
  pose proof i_call_raises. pose proof candidate_rejected_raises.
  pose proof B_repeat_raises. unfold G. raises.
Qed.

Lemma sample_raises (fuel : nat) (tmp : scratch) (j : IRand.i_rand)
  (s : St) :
  raises_only (source_raises St next) (sample St next T c fuel tmp j s).
Proof.
  unfold sample. pose proof generate_raises. pose proof i_call_raises.
  raises.
Qed.
End FallibleFacts.

(** ** Over a digit generator that does not throw *)

Section FallibleTape.
Import DiscreteNormalDist.
Variable T : digit_traits.

Local Ltac agree_step :=
  match goal with
  | |- Fallible.Done _ = Fallible.Done _ => reflexivity
  | |- Fallible.NoFuel = Fallible.NoFuel => reflexivity
  | |- _ = Fallible.of_option (match ?c with Some _ => _ | None => _ end) =>
      destruct c
  | |- _ = Fallible.of_option (if ?b then _ else _) => destruct b
  | |- _ = Fallible.of_option (let (_, _) := ?p in _) => destruct p
  | |- _ = Fallible.Done (let (_, _) := ?p in _) => destruct p
  | p : _ * _ |- _ => destruct p
  end.

Local Ltac agree := repeat (cbn [Fallible.bind Fallible.of_option]; agree_step).

Lemma draw_tape (D : digit_gen) :
  Fallible.draw digit_gen Fallible.tape_next D = Fallible.Done (draw D).
Proof. reflexivity. Qed.

Lemma push_digits_tape (cnt : nat) (ds : list Z) (D : digit_gen) :
  Fallible.push_digits digit_gen Fallible.tape_next cnt ds D
  = Fallible.Done (URand.push_digits cnt ds D).
Proof.
  revert ds D. induction cnt as [ | cnt IH]; intros ds D;
    cbn [Fallible.push_digits URand.push_digits]; [reflexivity | ].
  rewrite draw_tape. cbn [Fallible.bind]. unfold draw. apply IH.
Qed.

Lemma digit_tape (x : URand.u_rand) (D : digit_gen) (k : nat) :
  Fallible.digit digit_gen Fallible.tape_next x D k = Fallible.Done (URand.digit x D k).
Proof.
  unfold Fallible.digit, URand.digit. rewrite push_digits_tape. agree.
Qed.

Lemma less_than_from_tape (fuel k : nat) (x t : URand.u_rand)
  (D : digit_gen) :
  Fallible.less_than_from digit_gen Fallible.tape_next fuel k x t D
  = Fallible.of_option (URand.less_than_from fuel k x t D).
Proof.
  revert k x t D. induction fuel as [ | fuel IH]; intros k x t D;
    cbn [Fallible.less_than_from URand.less_than_from]; [reflexivity | ].
  rewrite digit_tape. cbn [Fallible.bind].
  destruct (URand.digit x D k) as [[a x1] D1].
  rewrite digit_tape. cbn [Fallible.bind].
  destruct (URand.digit t D1 k) as [[c t1] D2].
  destruct (negb (a =? c)); [reflexivity | apply IH].
Qed.

Lemma less_than_tape (fuel : nat) (x t : URand.u_rand) (D : digit_gen) :
  Fallible.less_than digit_gen Fallible.tape_next fuel x t D
  = Fallible.of_option (URand.less_than fuel x t D).
Proof.
  unfold Fallible.less_than, URand.less_than.
  destruct (negb _); [reflexivity | ].
  destruct (negb _); [reflexivity | apply less_than_from_tape].
Qed.

Lemma truncatep_tape (fuel : nat) (x : URand.u_rand) (D : digit_gen)
  (k : nat) :
  Fallible.truncatep digit_gen Fallible.tape_next T fuel x D k
  = Fallible.of_option (URand.truncatep T fuel x D k).
Proof.
  revert k x D. induction fuel as [ | fuel IH]; intros k x D;
    cbn [Fallible.truncatep URand.truncatep]; [reflexivity | ].
  rewrite digit_tape. cbn [Fallible.bind].
  destruct (URand.digit x D k) as [[d x1] D1].
  destruct (d <=? _); [reflexivity | ].
  destruct (d >? _); [reflexivity | apply IH].
Qed.

Lemma less_than_half_tape (fuel : nat) (x : URand.u_rand)
  (D : digit_gen) :
  Fallible.less_than_half digit_gen Fallible.tape_next T fuel x D
  = Fallible.of_option (URand.less_than_half T fuel x D).
Proof.
  unfold Fallible.less_than_half, URand.less_than_half.
  destruct (_ <? 0); [reflexivity | ].
  destruct (_ >? 0); [reflexivity | apply truncatep_tape].
Qed.

Lemma compare_from_tape (fuel k : nat) (x : URand.u_rand)
  (D : digit_gen) (u1 u2 v : Z) :
  Fallible.compare_from digit_gen Fallible.tape_next T fuel k x D u1 u2 v
  = Fallible.of_option (URand.compare_from T fuel k x D u1 u2 v).
Proof.
  revert k x D u1 u2. induction fuel as [ | fuel IH]; intros k x D u1 u2;
    cbn [Fallible.compare_from URand.compare_from]; [reflexivity | ].
  destruct (u1 >=? v); [reflexivity | ].
  destruct (u2 <=? 0); [reflexivity | ].
  destruct (_ && _); [reflexivity | ].
  rewrite digit_tape. cbn [Fallible.bind].
  destruct (URand.digit x D k) as [[d x1] D1]. apply IH.
Qed.

Lemma compare_tape (fuel : nat) (x : URand.u_rand) (D : digit_gen)
  (u1 u2 v : Z) :
  Fallible.compare digit_gen Fallible.tape_next T fuel x D u1 u2 v
  = Fallible.of_option (URand.compare T fuel x D u1 u2 v).
Proof. apply compare_from_tape. Qed.

Lemma i_refine_tape (h : IRand.i_rand) (D : digit_gen) :
  Fallible.i_refine digit_gen Fallible.tape_next T h D = Fallible.Done (IRand.refine T h D).
Proof.
  unfold Fallible.i_refine, IRand.refine.
  destruct (_ >? 0); [ | reflexivity]. reflexivity.
Qed.

Lemma i_init_loop_tape (fuel : nat) (m v c : Z) (D : digit_gen) :
  Fallible.i_init_loop digit_gen Fallible.tape_next T fuel m v c D
  = Fallible.of_option (IRand.init_loop T fuel m v c D).
Proof.
  revert v c D. induction fuel as [ | fuel IH]; intros v c D;
    cbn [Fallible.i_init_loop IRand.init_loop]; [reflexivity | ].
  destruct (IRand.init_scan T (S fuel) m v c 1 0); try reflexivity.
  rewrite draw_tape. cbn [Fallible.bind]. unfold draw. apply IH.
Qed.

Lemma i_init_tape (fuel : nat) (D : digit_gen) (m : Z) :
  Fallible.i_init digit_gen Fallible.tape_next T fuel D m
  = Fallible.of_option (IRand.init T fuel D m).
Proof. apply i_init_loop_tape. Qed.

Lemma i_call_tape (fuel : nat) (h : IRand.i_rand) (D : digit_gen) :
  Fallible.i_call digit_gen Fallible.tape_next T fuel h D
  = Fallible.of_option (IRand.call T fuel h D).
Proof.
  revert h D. induction fuel as [ | fuel IH]; intros h D;
    cbn [Fallible.i_call IRand.call]; [reflexivity | ].
  destruct (_ =? 0); [reflexivity | ].
  rewrite i_refine_tape. cbn [Fallible.bind].
  destruct (IRand.refine T h D) as [h1 D1]. apply IH.
Qed.

Lemma i_less_than_tape (fuel : nat) (h : IRand.i_rand) (D : digit_gen)
  (m n : Z) :
  Fallible.i_less_than digit_gen Fallible.tape_next T fuel h D m n
  = Fallible.of_option (IRand.less_than T fuel h D m n).
Proof.
  revert h D. induction fuel as [ | fuel IH]; intros h D;
    cbn [Fallible.i_less_than IRand.less_than]; [reflexivity | ].
  destruct (_ <? m); [reflexivity | ].
  destruct (negb _); [reflexivity | ].
  rewrite i_refine_tape. cbn [Fallible.bind].
  destruct (IRand.refine T h D) as [h1 D1]. apply IH.
Qed.

Lemma i_greater_than_tape (fuel : nat) (h : IRand.i_rand)
  (D : digit_gen) (m n : Z) :
  Fallible.i_greater_than digit_gen Fallible.tape_next T fuel h D m n
  = Fallible.of_option (IRand.greater_than T fuel h D m n).
Proof.
  unfold Fallible.i_greater_than, IRand.greater_than, IRand.less_than_equal.
  rewrite i_less_than_tape.
  destruct (IRand.less_than T fuel h D (m + 1) n) as [[[t h'] D'] | ];
    reflexivity.
Qed.

Lemma less_than_i_tape (fuel : nat) (x : URand.u_rand) (D : digit_gen)
  (u0 c v : Z) (h : IRand.i_rand) :
  Fallible.less_than_i digit_gen Fallible.tape_next T fuel x D u0 c v h
  = Fallible.of_option (URand.less_than_i T fuel x D u0 c v h).
Proof.
  revert x D h. induction fuel as [ | fuel IH]; intros x D h;
    cbn [Fallible.less_than_i URand.less_than_i]; [reflexivity | ].
  rewrite compare_tape.
  destruct (URand.compare T (S fuel) x D _ _ v) as [[[r x1] D1] | ];
    cbn [Fallible.bind Fallible.of_option]; [ | reflexivity].
  destruct (r <? 0); [reflexivity | ].
  destruct (r >? 0); [reflexivity | ].
  rewrite i_refine_tape. cbn [Fallible.bind].
  destruct (IRand.refine T h D1) as [h1 D2]. apply IH.
Qed.

Lemma H_loop_tape (fuel : nat) (y z : URand.u_rand) (D : digit_gen) :
  Fallible.H_loop digit_gen Fallible.tape_next fuel y z D
  = Fallible.of_option (H_loop fuel y z D).
Proof.
  revert y z D. induction fuel as [ | fuel IH]; intros y z D;
    cbn [Fallible.H_loop H_loop]; [reflexivity | ].
  rewrite less_than_tape.
  destruct (URand.less_than (S fuel) (URand.init z) y D)
    as [[[[r1 z1] y1] D1] | ]; cbn [Fallible.bind Fallible.of_option];
    [ | reflexivity].
  destruct (negb r1); [reflexivity | ].
  rewrite less_than_tape.
  destruct (URand.less_than (S fuel) (URand.init y1) z1 D1)
    as [[[[r2 y2] z2] D2] | ]; cbn [Fallible.bind Fallible.of_option];
    [ | reflexivity].
  destruct (negb r2); [reflexivity | apply IH].
Qed.

Lemma H_tape (fuel : nat) (tmp : scratch) (D : digit_gen) :
  Fallible.H digit_gen Fallible.tape_next T fuel tmp D
  = Fallible.of_option (H T fuel tmp D).
Proof.
  unfold Fallible.H, H. rewrite less_than_half_tape.
  destruct (URand.less_than_half T fuel (URand.init (_y tmp)) D)
    as [[[r y1] D1] | ]; cbn [Fallible.bind Fallible.of_option];
    [ | reflexivity].
  destruct (negb r); [reflexivity | apply H_loop_tape].
Qed.

Lemma G_from_tape (fuel : nat) (n : Z) (tmp : scratch) (D : digit_gen) :
  Fallible.G_from digit_gen Fallible.tape_next T fuel n tmp D
  = Fallible.of_option (G_from T fuel n tmp D).
Proof.
  revert n tmp D. induction fuel as [ | fuel IH]; intros n tmp D;
    cbn [Fallible.G_from G_from]; [reflexivity | ].
  rewrite H_tape.
  destruct (H T (S fuel) tmp D) as [[[r tmp1] D1] | ];
    cbn [Fallible.bind Fallible.of_option]; [ | reflexivity].
  destruct r; [apply IH | reflexivity].
Qed.

Lemma P_tape (fuel : nat) (tmp : scratch) (D : digit_gen) (n : Z) :
  Fallible.P digit_gen Fallible.tape_next T fuel tmp D n
  = Fallible.of_option (P T fuel tmp D n).
Proof.
  revert n tmp D. induction fuel as [ | fuel IH]; intros n tmp D;
    cbn [Fallible.P P]; [reflexivity | ].
  cbv zeta. destruct (n =? 0); [reflexivity | ].
  rewrite H_tape.
  destruct (H T (S fuel) tmp D) as [[[r tmp1] D1] | ];
    cbn [Fallible.bind Fallible.of_option]; [ | reflexivity].
  destruct r; [apply IH | reflexivity].
Qed.

Variable c : derived.

Local Ltac agree_calls :=
  repeat first
    [ reflexivity
    | progress cbn [Fallible.bind Fallible.of_option]
    | rewrite compare_tape
    | rewrite less_than_tape
    | rewrite less_than_i_tape
    | rewrite i_less_than_tape
    | rewrite i_greater_than_tape
    | rewrite i_init_tape
    | rewrite i_call_tape
    | match goal with
      | IH : forall _, _ |- _ => apply IH
      | p : _ * _ |- _ => destruct p
      end
    | match goal with
      | |- context [if ?b then _ else _] => destruct b
      end
    | match goal with
      | |- context [match ?o with Some _ => _ | None => _ end] =>
          lazymatch o with
          | context [match _ with Some _ => _ | None => _ end] => fail
          | _ => destruct o
          end
      end ].

Lemma B_loop_tape (fuel : nat) (n : Z) (tmp : scratch) (D : digit_gen)
  (k xn0 : Z) (j : IRand.i_rand) :
  Fallible.B_loop digit_gen Fallible.tape_next T c fuel n tmp D k xn0 j
  = Fallible.of_option (B_loop T c fuel n tmp D k xn0 j).
Proof.
  revert n tmp D j. induction fuel as [ | fuel IH]; intros n tmp D j;
    cbn [Fallible.B_loop B_loop]; [reflexivity | ].
  cbv zeta. unfold URand.swap. agree_calls.
Qed.

Lemma B_tape (fuel : nat) (tmp : scratch) (D : digit_gen) (k xn0 : Z)
  (j : IRand.i_rand) :
  Fallible.B digit_gen Fallible.tape_next T c fuel tmp D k xn0 j
  = Fallible.of_option (B T c fuel tmp D k xn0 j).
Proof.
  unfold Fallible.B, B. rewrite B_loop_tape. agree_calls.
Qed.

Lemma B_repeat_tape (fuel : nat) (h : Z) (tmp : scratch) (D : digit_gen)
  (k xn0 : Z) (j : IRand.i_rand) :
  Fallible.B_repeat digit_gen Fallible.tape_next T c fuel h tmp D k xn0 j
  = Fallible.of_option (B_repeat T c fuel h tmp D k xn0 j).
Proof.
  revert h tmp D j. induction fuel as [ | fuel IH]; intros h tmp D j;
    cbn [Fallible.B_repeat B_repeat]; [reflexivity | ].
  cbv zeta. destruct (h =? 0); [reflexivity | ].
  rewrite B_tape. agree_calls.
Qed.

Lemma candidate_rejected_tape (fuel : nat) (j : IRand.i_rand)
  (D : digit_gen) (k sg xn0 : Z) :
  Fallible.candidate_rejected digit_gen Fallible.tape_next T c fuel j D
    k sg xn0
  = Fallible.of_option (candidate_rejected T c fuel j D k sg xn0).
Proof.
  unfold Fallible.candidate_rejected, candidate_rejected. agree_calls.
Qed.

Lemma generate_tape (fuel : nat) (tmp : scratch) (j : IRand.i_rand)
  (D : digit_gen) :
  Fallible.generate digit_gen Fallible.tape_next T c fuel tmp j D
  = Fallible.of_option (generate T c fuel tmp j D).
Proof.
  revert tmp j D. induction fuel as [ | fuel IH]; intros tmp j D;
    cbn [Fallible.generate generate]; [reflexivity | ].
  unfold Fallible.G, G. rewrite G_from_tape.
  destruct (G_from T (S fuel) 0 tmp D) as [[[k tmp1] D1] | ];
    cbn [Fallible.bind Fallible.of_option]; [ | reflexivity].
  rewrite P_tape.
  destruct (P T (S fuel) tmp1 D1 (k * (k - 1))) as [[[ok tmp2] D2] | ];
    cbn [Fallible.bind Fallible.of_option]; [ | reflexivity].
  destruct (negb ok); [apply IH | ].
  rewrite i_init_tape.
  destruct (IRand.init T (S fuel) D2 2) as [[j3 D3] | ];
    cbn [Fallible.bind Fallible.of_option]; [ | reflexivity].
  rewrite i_call_tape.
  destruct (IRand.call T (S fuel) j3 D3) as [[[v j4] D4] | ];
    cbn [Fallible.bind Fallible.of_option]; [ | reflexivity].
  cbv zeta. rewrite i_init_tape.
  destruct (IRand.init T (S fuel) D4 (_isig c)) as [[j5 D5] | ];
    cbn [Fallible.bind Fallible.of_option]; [ | reflexivity].
  rewrite candidate_rejected_tape.
  destruct (candidate_rejected T c (S fuel) j5 D5 k _ _)
    as [[[rej j6] D6] | ];
    cbn [Fallible.bind Fallible.of_option]; [ | reflexivity].
  destruct rej; [apply IH | ].
  rewrite B_repeat_tape.
  destruct (B_repeat T c (S fuel) (k + 1) tmp2 D6 k _ j6)
    as [[[[h tmp7] j7] D7] | ];
    cbn [Fallible.bind Fallible.of_option]; [ | reflexivity].
  destruct (negb (h <? 0)); [apply IH | reflexivity].
Qed.

Lemma sample_tape (fuel : nat) (tmp : scratch) (j : IRand.i_rand)
  (D : digit_gen) :
  Fallible.sample digit_gen Fallible.tape_next T c fuel tmp j D
  = Fallible.of_option (sample T c fuel tmp j D).
Proof.
  unfold Fallible.sample, sample. rewrite generate_tape.
  destruct (generate T c fuel tmp j D) as [[[tmp1 j1] D1] | ];
    cbn [Fallible.bind Fallible.of_option]; [ | reflexivity].
  rewrite i_call_tape.
  destruct (IRand.call T fuel j1 D1) as [[[v j2] D2] | ]; reflexivity.
Qed.
End FallibleTape.

(** ** discrete_normal_dist: the errors of construction and of sampling *)

Section SamplingErrors.
Import DiscreteNormalDist.
Variable T : digit_traits.
Hypothesis b_range : 2 <= b T <= 2 ^ 24.

(** The one exception of [rand_table] called on a [table_gen]. *)
Lemma table_raises (uint_w : Z) (char_signed : bool) (msg : string) :
  Fallible.source_raises _ (Fallible.table_next uint_w char_signed) msg ->
  msg = "table_gen: overflow"%string.
Proof.
  intros [[D g] E]. revert E.
  unfold Fallible.table_next, TableGen.table_call, TableGen.call.
  cbn [fst snd].
  destruct (String.length (TableGen._seed g) <=? TableGen._pos g)%nat;
    cbn [fst]; intros E; [ | discriminate E].
  injection E as <-. reflexivity.
Qed.

(** A digit generator given by its tape does not throw. *)
Lemma tape_raises (msg : string) :
  ~ Fallible.source_raises digit_gen Fallible.tape_next msg.
Proof. intros [D E]. discriminate E. Qed.

(** C4, as the code has it. For [int] arguments and a base in
    [[2, 2^24]], the constructor of the discrete normal sampler throws if
    and only if [sigma_num <= 0], [sigma_den <= 0], [mu_den <= 0],
    [mu_num] is the least [int], or one of the guarded quantities of the
    reduced parameters is not representable; otherwise it succeeds, and
    then in particular [max(2, _sig) * b * kmax], with [kmax = 51], is at
    most the largest [long long]. At sampling time (the signed
    arithmetic being that of [Z], which is the source's as long as
    nothing overflows; the guards are there to ensure it) [generate] and
    [operator()] check nothing and throw nothing of their own: an
    exception that leaves them is one that the digit generator has
    thrown. Over a digit generator that does not throw they are the
    [generate] and [operator()] of the tape model and report no error;
    over [rand_table] called on a [table_gen] the only error is
    ["table_gen: overflow"]. *)
Theorem discrete_normal_errors (mu_num mu_den sigma_num sigma_den : Z) :
  is_int mu_num -> is_int mu_den -> is_int sigma_num -> is_int sigma_den ->
  ((exists msg,
       construct T mu_num mu_den sigma_num sigma_den = Throw msg)
   <-> (sigma_num <= 0 \/ sigma_den <= 0 \/ mu_den <= 0
        \/ mu_num = minint
        \/ exists p, param_init mu_num mu_den sigma_num sigma_den = Ok p
                     /\ ~ guards (b T) p))
  /\ (forall p c,
         construct T mu_num mu_den sigma_num sigma_den = Ok (p, c) ->
         param_init mu_num mu_den sigma_num sigma_den = Ok p
         /\ guards (b T) p
         /\ Z.max 2 (_sig c) * b T * 51 <= 2 ^ 63 - 1)
  /\ ((exists msg,
          construct T mu_num mu_den sigma_num sigma_den = Throw msg)
      \/ (exists r,
             construct T mu_num mu_den sigma_num sigma_den = Ok r))
  /\ (forall (St : Type) (next : St -> result Z * St) (c : derived)
        (fuel : nat) (tmp : scratch) (j : IRand.i_rand) (s : St)
        (msg : string),
         (Fallible.generate St next T c fuel tmp j s = Fallible.Raised msg
          -> Fallible.source_raises St next msg)
         /\ (Fallible.sample St next T c fuel tmp j s = Fallible.Raised msg
             -> Fallible.source_raises St next msg))
  /\ (forall (c : derived) (fuel : nat) (tmp : scratch)
        (j : IRand.i_rand) (D : digit_gen),
         Fallible.generate digit_gen Fallible.tape_next T c fuel tmp j D
         = Fallible.of_option (generate T c fuel tmp j D)
         /\ Fallible.sample digit_gen Fallible.tape_next T c fuel tmp j D
            = Fallible.of_option (sample T c fuel tmp j D)
         /\ (forall msg,
                Fallible.sample digit_gen Fallible.tape_next T c fuel tmp
                  j D <> Fallible.Raised msg))
  /\ (forall (uint_w : Z) (char_signed : bool) (c : derived) (fuel : nat)
        (tmp : scratch) (j : IRand.i_rand)
        (s : TableGen.rand_table * TableGen.table_gen) (msg : string),
         Fallible.sample _ (Fallible.table_next uint_w char_signed) T c
           fuel tmp j s = Fallible.Raised msg ->
         msg = "table_gen: overflow"%string).
Proof.
  intros Ia Ib Ic Id.
  destruct (construct_throw_iff T b_range mu_num mu_den sigma_num sigma_den
              Ia Ib Ic Id) as (C1 & C2 & C3).
  split; [exact C1 | ]. split; [exact C2 | ]. split; [exact C3 | ].
  assert (Hraise : forall (St : Type) (next : St -> result Z * St)
    (c : derived) (fuel : nat) (tmp : scratch) (j : IRand.i_rand) (s : St)
    (msg : string),
    Fallible.sample St next T c fuel tmp j s = Fallible.Raised msg ->
    Fallible.source_raises St next msg).
  { intros St next c fuel tmp j s msg E.
    pose proof (sample_raises St next T c fuel tmp j s) as R.
    rewrite E in R. exact R. }
  split; [ | split].
  - intros St next c fuel tmp j s msg. split; [ | apply Hraise].
    intros E. pose proof (generate_raises St next T c fuel tmp j s) as R.
    rewrite E in R. exact R.
  - intros c fuel tmp j D.
    split; [apply generate_tape | ]. split; [apply sample_tape | ].
    intros msg E. exact (tape_raises msg (Hraise _ _ c fuel tmp j D msg E)).
  - intros uint_w char_signed c fuel tmp j s msg E.
    exact (table_raises uint_w char_signed msg (Hraise _ _ c fuel tmp j s
                                                   msg E)).
Qed.
End SamplingErrors.

(** An instance: mu = 1/3, sigma = 129/2 in base 2. *)
Lemma discrete_normal_errors_witness :
  2 <= DiscreteNormalDist.b Samples.T2 <= 2 ^ 24
  /\ DiscreteNormalDist.is_int 1 /\ DiscreteNormalDist.is_int 3
  /\ DiscreteNormalDist.is_int 129 /\ DiscreteNormalDist.is_int 2
  /\ Z.max 2 387 * DiscreteNormalDist.b Samples.T2 * 51 <= 2 ^ 63 - 1.
Proof.
  assert (Hb : 2 <= DiscreteNormalDist.b Samples.T2 <= 2 ^ 24)
    by (vm_compute; split; discriminate).
  assert (I1 : DiscreteNormalDist.is_int 1) by (vm_compute; split; discriminate).
  assert (I3 : DiscreteNormalDist.is_int 3) by (vm_compute; split; discriminate).
  assert (I129 : DiscreteNormalDist.is_int 129)
    by (vm_compute; split; discriminate).
  assert (I2 : DiscreteNormalDist.is_int 2) by (vm_compute; split; discriminate).
  repeat (split; [assumption | ]).
  destruct (discrete_normal_errors Samples.T2 Hb 1 3 129 2 I1 I3 I129 I2)
    as (_ & Hok & _).
  apply (Hok {| DiscreteNormalDist._mu_num := 1;
                DiscreteNormalDist._mu_den := 3;
                DiscreteNormalDist._sigma_num := 129;
                DiscreteNormalDist._sigma_den := 2 |}
             {| DiscreteNormalDist._sig := 387;
                DiscreteNormalDist._mu := 2;
                DiscreteNormalDist._d := 6;
                DiscreteNormalDist._imu := 0;
                DiscreteNormalDist._isig := 65 |}).
  vm_compute. reflexivity.
Defined.

(** C4, as stated, fails: an error is reported at sampling time. The
    sampler with mu = 0 and sigma = 1 over [rand_table] is constructed
    without error. Called on a default-constructed [table_gen], whose seed
    is empty, its [operator()] asks for a first digit and the exception
    ["table_gen: overflow"] leaves it; called on [table_gen("3141")], it
    uses up the four digits of the seed (the first call of [H] succeeds
    on 3, 1, 4, the second draws 1 and asks for a fifth digit) and the
    same exception leaves it. *)
Lemma sampling_overflow_counterexample :
  let p := {| DiscreteNormalDist._mu_num := 0;
              DiscreteNormalDist._mu_den := 1;
              DiscreteNormalDist._sigma_num := 1;
              DiscreteNormalDist._sigma_den := 1 |} in
  let c := {| DiscreteNormalDist._sig := 1;
              DiscreteNormalDist._mu := 0;
              DiscreteNormalDist._d := 1;
              DiscreteNormalDist._imu := 0;
              DiscreteNormalDist._isig := 1 |} in
  let tmp := {| DiscreteNormalDist._y := URand.construct;
                DiscreteNormalDist._z := URand.construct |} in
  DiscreteNormalDist.construct rand_table_traits 0 1 1 1
  = DiscreteNormalDist.Ok (p, c)
  /\ Fallible.sample _ (Fallible.table_next 64 true) rand_table_traits c
       8 tmp IRand.construct
       (TableGen.table_construct, TableGen.construct EmptyString)
     = Fallible.Raised "table_gen: overflow"
  /\ Fallible.sample _ (Fallible.table_next 64 true) rand_table_traits c
       8 tmp IRand.construct
       (TableGen.table_construct, TableGen.construct "3141")
     = Fallible.Raised "table_gen: overflow".
Proof.
  cbv zeta. split; [ | split]; vm_compute; reflexivity.
Qed.
